(** * Fused sparse Adagrad update with SparseLengths(Weighted)Sum gradient

    A shallow embedding of [caffe2/sgd/adagrad_fused_op_gpu.cu]: the
    segment-offset builder, the four CUDA kernels and the four operators
    that launch them, followed by the properties of the design document
    that were checked against them.

    Conventions of the embedding.
    - Device arrays are flat lists; a C integer is a [Z].  An access outside
      an array is undefined behaviour in the source and is the outcome
      [Undefined] here.  The addresses [index * post + i] and
      [group * post + i] are products and sums of [int]s in the source
      (of 32 bits for [int32_t] indices); they are written in [Z], and the
      statements about results ask for tables and gradients of at most
      [INT_MAX] cells ([batch_ok], [inputs_ok]), for which the address of
      every cell of the tables is the same number in both.
    - [float] and its operations are a parameter (class [Arith]); nothing is
      assumed about them unless a statement asks for [ExactArith], the
      rounding-free reading in which the design document states its formulas
      ("floating-point tolerance only").  [binary32] is the IEEE-754 single
      precision instance used to evaluate the kernels on concrete inputs.
    - The primitives of [cub] (scan, warp and block reductions) are not part
      of the repository and are taken by their contracts.
    - A kernel launch is a set of threads, each a sequence of tasks.  A
      task is one execution of the loop body by a thread of the unweighted
      exact kernel and, in the kernels whose threads work on a member
      together across barriers, the update of one member by these threads,
      who run one after the other between two barriers.  A task runs to its
      end before the next one starts; the order of the tasks of different
      threads, the hardware interleaving, is an argument of the kernel
      ([oracle]), and every oracle yields a complete execution.  The oracle
      also gives the order in which the atomic additions of the warps of a
      row reach the accumulator of the row.
*)

From Stdlib Require Import ZArith Lia Reals Lra.
From Stdlib Require Import Floats.SpecFloat.
From stdpp Require Import base tactics option list.

Local Open Scope Z_scope.

(** ** Outcomes *)

Inductive result (A : Type) : Type :=
| Ok (a : A)
| AssertFailed   (* a CUDA_KERNEL_ASSERT was violated: the launch is aborted *)
| Undefined      (* an access outside an array *)
| EnforceFailed. (* a CAFFE_ENFORCE threw before any launch *)

Arguments Ok {A} a.
Arguments AssertFailed {A}.
Arguments Undefined {A}.
Arguments EnforceFailed {A}.

#[global] Instance result_ret : MRet result := fun _ a => Ok a.

#[global] Instance result_bind : MBind result := fun _ _ f m =>
  match m with
  | Ok a => f a
  | AssertFailed => AssertFailed
  | Undefined => Undefined
  | EnforceFailed => EnforceFailed
  end.

(** [CUDA_KERNEL_ASSERT(c)] and [CAFFE_ENFORCE(c)]. *)
Definition CUDA_KERNEL_ASSERT (c : bool) : result unit :=
  if c then Ok tt else AssertFailed.

Definition CAFFE_ENFORCE (c : bool) : result unit :=
  if c then Ok tt else EnforceFailed.

(** Monadic left fold: a sequential loop over [l] threading the state. *)
Fixpoint foldM {A S : Type} (f : A → S → result S) (l : list A) (s : S)
  : result S :=
  match l with
  | [] => Ok s
  | a :: l' => s' ← f a s; foldM f l' s'
  end.

(** ** Device arrays *)

(** [a[i]] as an rvalue. *)
Definition rd {A : Type} (l : list A) (i : Z) : result A :=
  if 0 <=? i then
    match l !! Z.to_nat i with Some v => Ok v | None => Undefined end
  else Undefined.

(** [a[i] = v]. *)
Definition wr {A : Type} (l : list A) (i : Z) (v : A) : result (list A) :=
  if (0 <=? i) && (i <? Z.of_nat (length l))
  then Ok (<[Z.to_nat i := v]> l) else Undefined.

(** ** Arithmetic of the element types *)

Class Arith (F : Type) : Type := {
  fzero : F;             (* the literals 0, 0.0 and 0.f *)
  fadd : F → F → F;
  fmul : F → F → F;
  fdiv : F → F → F;
  fsqrt : F → F;         (* sqrtf *)
  of_int : Z → F;        (* static_cast<float>(post) *)
  fsum : list F → F;     (* a cub reduction with cub::Sum over lane values *)
  narrow : F → F;        (* a store to TParam (float or at::Half) read back *)
}.

(** The rounding-free reading of the arithmetic. *)
Class ExactArith (F : Type) `{Arith F} : Prop := {
  fadd_comm : ∀ x y, fadd x y = fadd y x;
  fadd_assoc : ∀ x y z, fadd x (fadd y z) = fadd (fadd x y) z;
  fadd_0_l : ∀ x, fadd fzero x = x;
  fmul_comm : ∀ x y, fmul x y = fmul y x;
  fmul_assoc : ∀ x y z, fmul x (fmul y z) = fmul (fmul x y) z;
  fmul_0_l : ∀ x, fmul fzero x = fzero;
  fdiv_add : ∀ x y d, fdiv (fadd x y) d = fadd (fdiv x d) (fdiv y d);
  fdiv_0_l : ∀ d, d ≠ fzero → fdiv fzero d = fzero;
  fsum_fold : ∀ l, fsum l = foldr fadd fzero l;
  narrow_id : ∀ x, narrow x = x;
}.

(** The value of [a !!! i] outside [a]. *)
#[global] Instance arith_inhabited {F : Type} `{Arith F} : Inhabited F :=
  populate fzero.

(** ** Loops and interleavings *)

(** The values taken by [v] in [for (int v = from; v < to; v += step)],
    for a positive [step]. *)
Fixpoint loop_values (fuel : nat) (from to step : Z) : list Z :=
  match fuel with
  | O => []
  | S n => if from <? to then from :: loop_values n (from + step) to step
           else []
  end.

Definition for_loop (from to step : Z) : list Z :=
  loop_values (Z.to_nat (to - from)) from to step.

(** An execution of a set of threads.  Each number of the oracle names the
    thread that performs its next task; when the oracle is exhausted the
    remaining tasks run thread after thread. *)
Fixpoint interleave {T : Type} (oracle : list nat) (threads : list (list T))
  : list T :=
  match oracle with
  | [] => concat threads
  | n :: o =>
      match threads !! n with
      | Some (t :: rest) => t :: interleave o (<[n := rest]> threads)
      | _ => interleave o threads
      end
  end.

(** ** Segment Offset Builder *)

Definition INT_MAX : Z := 2147483647.

(** Addition of two [int]s as the device performs it. *)
Definition wrap32 (z : Z) : Z := (z + 2 ^ 31) mod 2 ^ 32 - 2 ^ 31.

(** [cub::DeviceScan::InclusiveSum] over [int]: an external primitive, taken
    by its contract [out[i] = in[0] + ... + in[i]]. *)
Fixpoint InclusiveSum (acc : Z) (d_in : list Z) : list Z :=
  match d_in with
  | [] => []
  | x :: r => let s := wrap32 (acc + x) in s :: InclusiveSum s r
  end.

(** [inclusive_scan_wrapper(length_data, len_length, _, prefix_sum_out, _)]:
    the contents of [prefix_sum_out] after the call. *)
Definition inclusive_scan_wrapper (length_data : list Z) (len_length : Z)
  : list Z :=
  InclusiveSum 0 (take (Z.to_nat len_length) length_data).

(** ** Kernel arguments and device memory *)

(** The read-only arguments of a kernel.  [weights] is only read by the
    weighted kernels. *)
Record KArgs (F : Type) : Type := {
  prefix_sum_length_data : list Z;  (* offsets of the segments *)
  N : Z;
  post : Z;                         (* embedding dimension size *)
  len_length : Z;                   (* number of segments *)
  epsilon : F;
  indices : list Z;
  grad : list F;
  weights : list F;
  lr : list F;
  weight_decay : F;
}.

Arguments prefix_sum_length_data {F} _.
Arguments N {F} _.
Arguments post {F} _.
Arguments len_length {F} _.
Arguments epsilon {F} _.
Arguments indices {F} _.
Arguments grad {F} _.
Arguments weights {F} _.
Arguments lr {F} _.
Arguments weight_decay {F} _.

(** The arrays a kernel writes.  [param] and [param_mom] are updated in
    place; [weights_grad_out] is only written by the weighted kernels. *)
Record Mem (F : Type) : Type := {
  param : list F;
  param_mom : list F;
  weights_grad_out : list F;
}.

Arguments param {F} _.
Arguments param_mom {F} _.
Arguments weights_grad_out {F} _.

(** Launch geometry: [gridDim.x], [blockDim.x], [blockDim.y]. *)
Record Dim : Type := {
  gridDim_x : Z;
  blockDim_x : Z;
  blockDim_y : Z;
}.

Section Kernels.
Context {F : Type} `{Arith F}.

(** The prologue shared by the four kernels, executed by every thread of
    block [group]:
<<
  int start = group == 0 ? 0 : prefix_sum_length_data[group - 1];
  int end = prefix_sum_length_data[group];
  CUDA_KERNEL_ASSERT(start <= N);
  CUDA_KERNEL_ASSERT(end <= N);
>> *)
Definition segment_bounds (k : KArgs F) (group : Z) : result (Z * Z) :=
  start ← (if group =? 0 then Ok 0
           else rd (prefix_sum_length_data k) (group - 1));
  end_ ← rd (prefix_sum_length_data k) group;
  Ok (start, end_).

Definition block_prologue (k : KArgs F) (group : Z) : result (Z * Z) :=
  '(start, end_) ← segment_bounds k group;
  _ ← CUDA_KERNEL_ASSERT (start <=? N k);
  _ ← CUDA_KERNEL_ASSERT (end_ <=? N k);
  Ok (start, end_).

(** The prologues of all blocks of the grid: an assertion violated in any
    block aborts the launch. *)
Fixpoint prologues (k : KArgs F) (groups : list Z) : result (list (Z * Z)) :=
  match groups with
  | [] => Ok []
  | g :: r => b ← block_prologue k g; bs ← prologues k r; Ok (b :: bs)
  end.

(** The blocks of a launch, each with its segment. *)
Definition launch_blocks (d : Dim) (k : KArgs F)
  : result (list (Z * (Z * Z))) :=
  bs ← prologues k (seqZ 0 (gridDim_x d));
  Ok (zip (seqZ 0 (gridDim_x d)) bs).

(** *** sparse_adagrad_fused_length_sum_gradient_kernel *)

(** One execution of the loop body, the same in both branches, for member
    [line] of segment [group] and embedding element [i]
    ([threadIdx.x] when [ExactBlock]). [param] and [param_mom] are distinct
    buffers, so [param[paramIdx]] is read once. *)
Definition adagrad_update (k : KArgs F) (t : Z * Z * Z) (m : Mem F)
  : result (Mem F) :=
  let '(group, line, i) := t in
  LR ← rd (lr k) 0;
  index ← rd (indices k) line;
  let gradIdx := group * post k + i in
  let paramIdx := index * post k + i in
  g ← rd (grad k) gradIdx;
  p ← rd (param m) paramIdx;
  let gi := fadd g (fmul (weight_decay k) p) in
  a ← rd (param_mom m) paramIdx;
  let mom_new := fadd (fmul gi gi) a in
  param_mom' ← wr (param_mom m) paramIdx (narrow mom_new);
  let param_new :=
    fadd (fdiv (fmul LR gi) (fadd (fsqrt mom_new) (epsilon k))) p in
  param' ← wr (param m) paramIdx (narrow param_new);
  Ok {| param := param'; param_mom := param_mom';
        weights_grad_out := weights_grad_out m |}.

(** The loop-body executions of thread [(x, y)] of a block, in program
    order.
<<
  if (ExactBlock) {
    for (int line = start + threadIdx.y; line < end; line += blockDim.y)
      body(line, threadIdx.x)
  } else {
    for (int i = threadIdx.x; i < post; i += blockDim.x)
      for (int line = start; line < end; ++line)
        body(line, i)
  }
>> *)
Definition sum_thread (ExactBlock : bool) (d : Dim) (k : KArgs F)
  (group start end_ x y : Z) : list (Z * Z * Z) :=
  if ExactBlock then
    (λ line, (group, line, x)) <$> for_loop (start + y) end_ (blockDim_y d)
  else
    i ← for_loop x (post k) (blockDim_x d);
    (λ line, (group, line, i)) <$> for_loop start end_ 1.

(** The threads of a block: [blockDim.x * blockDim.y] of them. *)
Definition block_threads (d : Dim) : list (Z * Z) :=
  y ← seqZ 0 (blockDim_y d); (λ x, (x, y)) <$> seqZ 0 (blockDim_x d).

Definition sum_threads (ExactBlock : bool) (d : Dim) (k : KArgs F)
  (blocks : list (Z * (Z * Z))) : list (list (Z * Z * Z)) :=
  '(group, (start, end_)) ← blocks;
  (λ xy, sum_thread ExactBlock d k group start end_ xy.1 xy.2)
    <$> block_threads d.

Definition sparse_adagrad_fused_length_sum_gradient_kernel
  (ExactBlock : bool) (d : Dim) (oracle : list nat) (k : KArgs F)
  (m : Mem F) : result (Mem F) :=
  blocks ← launch_blocks d k;
  foldM (adagrad_update k)
    (interleave oracle (sum_threads ExactBlock d k blocks)) m.

(** The threads [tids] of a block between two barriers, one after the
    other, each running [f tid] on the shared arrays and leaving a value in
    a register. *)
Fixpoint lanes {S A : Type} (f : Z → S → result (A * S)) (tids : list Z)
  (s : S) : result (list A * S) :=
  match tids with
  | [] => Ok ([], s)
  | t :: r => '(a, s1) ← f t s; '(la, s2) ← lanes f r s1; Ok (a :: la, s2)
  end.

(** The member updates of a block whose threads walk the segment together:
    [for (int line = start; line < end; ++line)]. *)
Definition member_thread (group start end_ : Z) : list (Z * Z * Z) :=
  (λ line, (group, start, line)) <$> for_loop start end_ 1.

Definition member_threads (blocks : list (Z * (Z * Z)))
  : list (list (Z * Z * Z)) :=
  (λ b, member_thread b.1 b.2.1 b.2.2) <$> blocks.

(** *** sparse_adagrad_fused_length_weighted_sum_gradient_kernel *)

(** The body of the loop over the embedding dimension (lines 195-213), with
    the register [w_grad] of the thread. *)
Definition weighted_update (k : KArgs F) (LR in_weight_temp : F)
  (group index i : Z) (s : F * Mem F) : result (F * Mem F) :=
  let '(w_grad, m) := s in
  let gradIdx := group * post k + i in
  let paramIdx := index * post k + i in
  in_grad_temp ← rd (grad k) gradIdx;
  p ← rd (param m) paramIdx;
  let w_grad := fadd w_grad (fmul in_grad_temp p) in
  let out_grad_temp :=
    fadd (fmul in_weight_temp in_grad_temp) (fmul (weight_decay k) p) in
  a ← rd (param_mom m) paramIdx;
  let mom_new := fadd (fmul out_grad_temp out_grad_temp) a in
  param_mom' ← wr (param_mom m) paramIdx (narrow mom_new);
  let param_new :=
    fadd (fdiv (fmul LR out_grad_temp) (fadd (fsqrt mom_new) (epsilon k))) p in
  param' ← wr (param m) paramIdx (narrow param_new);
  Ok (w_grad, {| param := param'; param_mom := param_mom';
                 weights_grad_out := weights_grad_out m |}).

(** One iteration of the loop over the members (lines 178-222), by all the
    threads of the block.  The kernel is a template over [NumThreads], the
    size of the block of its launch (lines 686-743 pass the same number
    for both), so that its [BlockReduce] is one for the block [d]. *)
Definition weighted_sum_member (d : Dim) (k : KArgs F) (t : Z * Z * Z)
  (m : Mem F) : result (Mem F) :=
  let '(group, start, line) := t in
  LR ← rd (lr k) 0;
  index ← rd (indices k) line;
  in_weight_temp ← rd (weights k) (line - start);
  '(w_grads, m1) ←
    lanes (λ tid m,
             foldM (weighted_update k LR in_weight_temp group index)
               (for_loop tid (post k) (blockDim_x d)) (fzero, m))
      (seqZ 0 (blockDim_x d)) m;
  (* BlockReduce(temp_storage).Reduce(w_grad, cub::Sum()) *)
  let w_grad := fsum w_grads in
  (* if (threadIdx.x == 0) weights_grad_out[line] = w_grad; *)
  wgo ← wr (weights_grad_out m1) line w_grad;
  Ok {| param := param m1; param_mom := param_mom m1;
        weights_grad_out := wgo |}.

Definition sparse_adagrad_fused_length_weighted_sum_gradient_kernel
  (d : Dim) (oracle : list nat) (k : KArgs F) (m : Mem F)
  : result (Mem F) :=
  blocks ← launch_blocks d k;
  foldM (weighted_sum_member d k)
    (interleave oracle (member_threads blocks)) m.

(** *** rowwise_sparse_adagrad_fused_length_sum_gradient_kernel *)

(** [grad[group * post + i] + weight_decay * param[index * post + i]] *)
Definition x_ij (k : KArgs F) (group index i : Z) (pa : list F) : result F :=
  g ← rd (grad k) (group * post k + i);
  p ← rd pa (index * post k + i);
  Ok (fadd g (fmul (weight_decay k) p)).

(** [gpuAtomicAdd(&a[i], val)], the [float] overload ([T] is [float] in
    every registered operator). *)
Definition gpuAtomicAdd (a : list F) (i : Z) (val : F) : result (list F) :=
  old ← rd a i; wr a i (fadd old val).

(** The lane values of the warps of one row of threads.  The warp of a
    thread is [(threadIdx.y * blockDim.x + threadIdx.x) / 32]: where
    [blockDim.x] is a multiple of 32, as in every launch of the operator
    (line 868), the threads of a row are whole warps, 32 consecutive
    threads each, and no warp spans two rows.  Other block widths are not
    covered by this definition (see [launch_ok]). *)
Fixpoint warps {A : Type} (fuel : nat) (l : list A) : list (list A) :=
  match fuel with
  | O => []
  | S n => match l with
           | [] => []
           | _ => take 32 l :: warps n (drop 32 l)
           end
  end.

(** [CAFFE_CUDA_NUM_THREADS] of [caffe2/core/common_gpu.h]. *)
Definition CAFFE_CUDA_NUM_THREADS : Z := 128.

(** [cub::BlockReduce<float, NumThreads>(temp_storage).Sum(x, valid)]: an
    external primitive, taken by its contract.  It is instantiated for a
    block of [NumThreads] threads, whose warps have their places in
    [temp_storage], and returns to thread 0 the sum of the registers [x] of
    the first [valid] threads.  A block with more threads than [NumThreads]
    has warps without a place in [temp_storage]: such a launch is outside
    of the contract, and undefined. *)
Definition BlockReduce_Sum (NumThreads : Z) (d : Dim) (xs : list F)
  (valid : Z) : result F :=
  if blockDim_x d * blockDim_y d <=? NumThreads
  then Ok (fsum (take (Z.to_nat valid) xs))
  else Undefined.

(** [sum_squares] of a thread of the strided branches (lines 303-308 and
    382-386). *)
Definition sum_squares_lane (d : Dim) (k : KArgs F) (group index tid : Z)
  (pa : list F) : result F :=
  foldM (λ i sum_squares,
           x ← x_ij k group index i pa;
           Ok (fadd sum_squares (fmul x x)))
    (for_loop tid (post k) (blockDim_x d)) fzero.

Fixpoint mapM {A B : Type} (f : A → result B) (l : list A)
  : result (list B) :=
  match l with
  | [] => Ok []
  | a :: r => b ← f a; bs ← mapM f r; Ok (b :: bs)
  end.

(** One iteration of the loop over the members by the row of threads that
    owns [line], [ExactBlock] branch (lines 261-289).  The [__shared__]
    scalar [row_sum_squares_avg] is read by the lane that has just written
    it, and holds the value of that lane.  Lane 0 of every warp of the row
    adds the share of its warp to the accumulator of the row with
    [gpuAtomicAdd]; the additions of the warps are not ordered by the
    program, and reach the accumulator in the order the [oracle] gives
    (every order of the warps is the order of some oracle). *)
Definition rowwise_exact_member (d : Dim) (oracle : list nat) (k : KArgs F)
  (t : Z * Z * Z) (m : Mem F) : result (Mem F) :=
  let '(group, start, line) := t in
  LR ← rd (lr k) 0;
  index ← rd (indices k) line;
  xs ← mapM (λ x, x_ij k group index x (param m)) (seqZ 0 (blockDim_x d));
  let sum_squares := (λ x, fadd fzero (fmul x x)) <$> xs in
  (* lane 0 of every warp, after WarpReduce(...).Sum(sum_squares) *)
  mom ← foldM (λ warp mom,
                 let reduce_result := fsum warp in
                 let row_sum_squares_avg :=
                   fdiv reduce_result (of_int (post k)) in
                 gpuAtomicAdd mom index row_sum_squares_avg)
          (interleave oracle
             ((λ warp, [warp]) <$> warps (length sum_squares) sum_squares))
          (param_mom m);
  (* __syncthreads(); *)
  a ← rd mom index;
  let step := fdiv LR (fadd (fsqrt a) (epsilon k)) in
  pa ← foldM (λ xx pa,
                let paramIdx := index * post k + xx.1 in
                p ← rd pa paramIdx;
                wr pa paramIdx (narrow (fadd p (fmul xx.2 step))))
         (zip (seqZ 0 (blockDim_x d)) xs) (param m);
  Ok {| param := pa; param_mom := mom;
        weights_grad_out := weights_grad_out m |}.

(** The same iteration in the strided branch (lines 296-327). *)
Definition rowwise_strided_member (d : Dim) (k : KArgs F) (t : Z * Z * Z)
  (m : Mem F) : result (Mem F) :=
  let '(group, start, line) := t in
  LR ← rd (lr k) 0;
  let valid := Z.min (post k) (blockDim_x d) in
  index ← rd (indices k) line;
  sums ← mapM (λ tid, sum_squares_lane d k group index tid (param m))
           (seqZ 0 (blockDim_x d));
  (* BlockReduce<float, CAFFE_CUDA_NUM_THREADS>(temp_storage)
       .Sum(sum_squares, valid) *)
  reduce_result ← BlockReduce_Sum CAFFE_CUDA_NUM_THREADS d sums valid;
  (* if (threadIdx.x == 0) *)
  let row_sum_squares_avg := fdiv reduce_result (of_int (post k)) in
  old ← rd (param_mom m) index;
  let mom_new := fadd old row_sum_squares_avg in
  mom ← wr (param_mom m) index mom_new;
  (* __syncthreads(); *)
  a ← rd mom index;
  let step := fdiv LR (fadd (fsqrt a) (epsilon k)) in
  pa ← foldM (λ tid pa,
                foldM (λ i pa,
                         let paramIdx := index * post k + i in
                         x ← x_ij k group index i pa;
                         p ← rd pa paramIdx;
                         let param_new := fadd p (fmul x step) in
                         wr pa paramIdx (narrow param_new))
                  (for_loop tid (post k) (blockDim_x d)) pa)
         (seqZ 0 (blockDim_x d)) (param m);
  Ok {| param := pa; param_mom := mom;
        weights_grad_out := weights_grad_out m |}.

(** The member updates of the rows of threads of a block, [ExactBlock]
    branch: [for (line = start + threadIdx.y; line < end; line += blockDim.y)]. *)
Definition rowwise_exact_threads (d : Dim) (blocks : list (Z * (Z * Z)))
  : list (list (Z * Z * Z)) :=
  '(group, (start, end_)) ← blocks;
  (λ y, (λ line, (group, start, line))
          <$> for_loop (start + y) end_ (blockDim_y d))
    <$> seqZ 0 (blockDim_y d).

Definition rowwise_sparse_adagrad_fused_length_sum_gradient_kernel
  (ExactBlock : bool) (d : Dim) (oracle : list nat) (k : KArgs F)
  (m : Mem F) : result (Mem F) :=
  blocks ← launch_blocks d k;
  if ExactBlock then
    foldM (rowwise_exact_member d oracle k)
      (interleave oracle (rowwise_exact_threads d blocks)) m
  else
    foldM (rowwise_strided_member d k)
      (interleave oracle (member_threads blocks)) m.

(** *** rowwise_sparse_adagrad_fused_length_weighted_sum_gradient_kernel *)

(** The body of the second loop over the embedding dimension (lines
    399-412), with the register [w_grad] of the thread. *)
Definition rowwise_weighted_update (k : KArgs F) (in_weight_temp step : F)
  (group index i : Z) (s : F * list F) : result (F * list F) :=
  let '(w_grad, pa) := s in
  let gradIdx := group * post k + i in
  let paramIdx := index * post k + i in
  in_grad_temp ← rd (grad k) gradIdx;
  p ← rd pa paramIdx;
  let w_grad := fadd w_grad (fmul in_grad_temp p) in
  let out_grad_temp :=
    fadd (fmul in_weight_temp in_grad_temp) (fmul (weight_decay k) p) in
  pa' ← wr pa paramIdx (narrow (fadd (fmul out_grad_temp step) p));
  Ok (w_grad, pa').

(** One iteration of the loop over the members (lines 372-419).  As in
    the other weighted kernel, [NumThreads] is the size of the block of
    the launch (lines 1037-1094), and the two reductions are reductions
    for the block [d]. *)
Definition rowwise_weighted_member (d : Dim) (k : KArgs F) (t : Z * Z * Z)
  (m : Mem F) : result (Mem F) :=
  let '(group, start, line) := t in
  LR ← rd (lr k) 0;
  let valid := Z.min (post k) (blockDim_x d) in
  index ← rd (indices k) line;
  in_weight_temp ← rd (weights k) (line - start);
  sums ← mapM (λ tid, sum_squares_lane d k group index tid (param m))
           (seqZ 0 (blockDim_x d));
  (* BlockReduce(temp_storage2).Sum(sum_squares, valid) *)
  let reduce_result := fsum (take (Z.to_nat valid) sums) in
  (* if (threadIdx.x == 0) *)
  let row_sum_squares_avg := fdiv reduce_result (of_int (post k)) in
  old ← rd (param_mom m) index;
  mom ← wr (param_mom m) index
          (fadd old (fmul (fmul row_sum_squares_avg in_weight_temp)
                       in_weight_temp));
  (* __syncthreads(); *)
  a ← rd mom index;
  let step := fdiv LR (fadd (fsqrt a) (epsilon k)) in
  '(w_grads, pa) ←
    lanes (λ tid pa,
             foldM (rowwise_weighted_update k in_weight_temp step group index)
               (for_loop tid (post k) (blockDim_x d)) (fzero, pa))
      (seqZ 0 (blockDim_x d)) (param m);
  (* BlockReduce(temp_storage).Reduce(w_grad, cub::Sum()) *)
  let w_grad := fsum w_grads in
  (* if (threadIdx.x == 0) weights_grad_out[line] = w_grad; *)
  wgo ← wr (weights_grad_out m) line w_grad;
  Ok {| param := pa; param_mom := mom; weights_grad_out := wgo |}.

Definition rowwise_sparse_adagrad_fused_length_weighted_sum_gradient_kernel
  (d : Dim) (oracle : list nat) (k : KArgs F) (m : Mem F)
  : result (Mem F) :=
  blocks ← launch_blocks d k;
  foldM (rowwise_weighted_member d k)
    (interleave oracle (member_threads blocks)) m.

End Kernels.

(** ** Operators *)

(** A tensor: its shape and its contiguous, row-major contents. *)
Record Tensor (A : Type) : Type := {
  sizes : list Z;
  data : list A;
}.

Arguments sizes {A} _.
Arguments data {A} _.

(** [t.size()] and [t.numel()] *)
Definition numel {A : Type} (t : Tensor A) : Z := foldr Z.mul 1 (sizes t).

(** [t.dim()] and [t.ndim()] *)
Definition ndim {A : Type} (t : Tensor A) : Z := Z.of_nat (length (sizes t)).

(** [t.dim(i)], which throws when [t] has no dimension [i]. *)
Definition dim {A : Type} (t : Tensor A) (i : nat) : result Z :=
  match sizes t !! i with Some n => Ok n | None => EnforceFailed end.

(** [t.size_from_dim(k)] *)
Definition size_from_dim {A : Type} (t : Tensor A) (k : Z) : Z :=
  foldr Z.mul 1 (drop (Z.to_nat k) (sizes t)).

(** The inputs of an operator.  [AUX_PARAM] (the member weights) is an input
    of the weighted operators only. *)
Record Inputs (F : Type) : Type := {
  PARAM : Tensor F;
  MOMENT_1 : Tensor F;
  AUX_PARAM : Tensor F;
  INDICES : Tensor Z;
  GRAD : Tensor F;
  LR : Tensor F;
  LENGTHS : Tensor Z;
}.

Arguments PARAM {F} _.
Arguments MOMENT_1 {F} _.
Arguments AUX_PARAM {F} _.
Arguments INDICES {F} _.
Arguments GRAD {F} _.
Arguments LR {F} _.
Arguments LENGTHS {F} _.

(** The members of an operator object and the properties of the device. *)
Record Op (F : Type) : Type := {
  epsilon_ : F;
  weight_decay_ : F;
  maxThreadsPerBlock : Z;
  SEGREDUCE_MINBLOCKS : Z;   (* 16, and 8 on the HIP platform *)
}.

Arguments epsilon_ {F} _.
Arguments weight_decay_ {F} _.
Arguments maxThreadsPerBlock {F} _.
Arguments SEGREDUCE_MINBLOCKS {F} _.

(** What a run leaves behind: the output buffers ([OUTPUT_PARAM] and
    [OUTPUT_MOMENT_1] are the buffers of [PARAM] and [MOMENT_1], updated in
    place; [AUX_GRAD] is [weights_grad_out]) and the launches it made. *)
Record Run (F : Type) : Type := {
  outputs : Mem F;
  launches : list Dim;
}.

Arguments outputs {F} _.
Arguments launches {F} _.

Section OperatorCommon.
Context {F : Type} `{Arith F}.

(** The buffers the kernels work on.  The operators are run in place:
    [Output(OUTPUT_PARAM)] is the buffer of [Input(PARAM)] and
    [Output(OUTPUT_MOMENT_1)] that of [Input(MOMENT_1)]. *)
Definition buffers (inp : Inputs F) (aux_grad : list F) : Mem F :=
  {| param := data (PARAM inp); param_mom := data (MOMENT_1 inp);
     weights_grad_out := aux_grad |}.

(** [Output(AUX_GRAD, dims, at::dtype<T>())]: a buffer of [n] elements.  Its
    contents are unspecified until written and taken to be zero. *)
Definition Output_AUX_GRAD (n : Z) : list F := replicate (Z.to_nat n) fzero.

Definition kernel_args (op : Op F) (inp : Inputs F)
  (prefix_sum_length_data : list Z) (N post len_length : Z) : KArgs F :=
  {| prefix_sum_length_data := prefix_sum_length_data;
     N := N; post := post; len_length := len_length;
     epsilon := epsilon_ op;
     indices := data (INDICES inp);
     grad := data (GRAD inp);
     weights := data (AUX_PARAM inp);
     lr := data (LR inp);
     weight_decay := weight_decay_ op |}.

(** [std::min(maxThreads / post, SEGREDUCE_MINBLOCKS)]; the division is
    undefined for [post == 0]. *)
Definition multiple_of (op : Op F) (post : Z) : result Z :=
  if post =? 0 then Undefined
  else Ok (Z.min (maxThreadsPerBlock op / post) (SEGREDUCE_MINBLOCKS op)).

(** The number of threads the weighted operators launch with, also the
    template argument [NumThreads] of their kernels. *)
Definition NumThreads (post : Z) : Z :=
  if 128 <? post then 512
  else if 64 <? post then 128
  else if 32 <? post then 64
  else 32.

End OperatorCommon.

Module CUDASparseAdagradFusedWithSparseLengthsSumGradientOp.
Section Op.
Context {F : Type} `{Arith F}.

Definition DoRunWithType2 (op : Op F) (oracle : list nat) (inp : Inputs F)
  : result (Run F) :=
  _ ← CAFFE_ENFORCE (1 =? ndim (LENGTHS inp));
  _ ← CAFFE_ENFORCE (0 <? ndim (GRAD inp));
  _ ← CAFFE_ENFORCE (numel (PARAM inp) =? numel (MOMENT_1 inp));
  len_length ← dim (LENGTHS inp) 0;
  _ ← CAFFE_ENFORCE (0 <? ndim (GRAD inp));
  grad_0dim ← dim (GRAD inp) 0;
  _ ← CAFFE_ENFORCE (len_length =? grad_0dim);
  output_0dim ← dim (INDICES inp) 0;
  if len_length <=? 0 then
    (* return early to avoid invalid empty kernel *)
    Ok {| outputs := buffers inp []; launches := [] |}
  else
    let prefix_sum_length_data :=
      inclusive_scan_wrapper (data (LENGTHS inp)) len_length in
    let N := output_0dim in
    let post := size_from_dim (GRAD inp) 1 in
    let maxThreads := maxThreadsPerBlock op in
    let k := kernel_args op inp prefix_sum_length_data N post len_length in
    if post <=? maxThreads then
      multiple ← multiple_of op post;
      let block := {| gridDim_x := len_length; blockDim_x := post;
                      blockDim_y := multiple |} in
      m ← sparse_adagrad_fused_length_sum_gradient_kernel true block oracle
            k (buffers inp []);
      Ok {| outputs := m; launches := [block] |}
    else
      let block := {| gridDim_x := len_length; blockDim_x := maxThreads;
                      blockDim_y := 1 |} in
      m ← sparse_adagrad_fused_length_sum_gradient_kernel false block oracle
            k (buffers inp []);
      Ok {| outputs := m; launches := [block] |}.

Definition DoRunWithType (op : Op F) (oracle : list nat) (inp : Inputs F)
  : result (Run F) :=
  let n := numel (INDICES inp) in
  if n =? 0 then Ok {| outputs := buffers inp []; launches := [] |}
  else DoRunWithType2 op oracle inp.

Definition RunOnDevice (op : Op F) (oracle : list nat) (inp : Inputs F)
  : result (Run F) :=
  _ ← CAFFE_ENFORCE (numel (PARAM inp) =? numel (MOMENT_1 inp));
  _ ← CAFFE_ENFORCE (numel (LR inp) =? 1);
  _ ← CAFFE_ENFORCE (size_from_dim (PARAM inp) 1
                       =? size_from_dim (GRAD inp) (ndim (INDICES inp)));
  DoRunWithType op oracle inp.

End Op.
End CUDASparseAdagradFusedWithSparseLengthsSumGradientOp.

Module CUDASparseAdagradFusedWithSparseLengthsWeightedSumGradientOp.
Section Op.
Context {F : Type} `{Arith F}.

Definition DoRunWithType2 (op : Op F) (oracle : list nat) (inp : Inputs F)
  : result (Run F) :=
  _ ← CAFFE_ENFORCE (1 =? ndim (LENGTHS inp));
  _ ← CAFFE_ENFORCE (1 =? ndim (AUX_PARAM inp));
  _ ← CAFFE_ENFORCE (0 <? ndim (GRAD inp));
  _ ← CAFFE_ENFORCE (numel (PARAM inp) =? numel (MOMENT_1 inp));
  len_length ← dim (LENGTHS inp) 0;
  _ ← CAFFE_ENFORCE (0 <? ndim (GRAD inp));
  grad_0dim ← dim (GRAD inp) 0;
  _ ← CAFFE_ENFORCE (len_length =? grad_0dim);
  output_0dim ← dim (INDICES inp) 0;
  let out_weight_grads := Output_AUX_GRAD (numel (INDICES inp)) in
  if len_length <=? 0 then
    (* return early to avoid invalid empty kernel *)
    Ok {| outputs := buffers inp out_weight_grads; launches := [] |}
  else
    let prefix_sum_length_data :=
      inclusive_scan_wrapper (data (LENGTHS inp)) len_length in
    let N := output_0dim in
    let post := size_from_dim (GRAD inp) 1 in
    let k := kernel_args op inp prefix_sum_length_data N post len_length in
    let block := {| gridDim_x := len_length; blockDim_x := NumThreads post;
                    blockDim_y := 1 |} in
    m ← sparse_adagrad_fused_length_weighted_sum_gradient_kernel block
          oracle k (buffers inp out_weight_grads);
    Ok {| outputs := m; launches := [block] |}.

Definition DoRunWithType (op : Op F) (oracle : list nat) (inp : Inputs F)
  : result (Run F) :=
  let n := numel (INDICES inp) in
  if n =? 0 then
    (* Allocate output to an empty tensor *)
    Ok {| outputs := buffers inp (Output_AUX_GRAD n); launches := [] |}
  else DoRunWithType2 op oracle inp.

Definition RunOnDevice (op : Op F) (oracle : list nat) (inp : Inputs F)
  : result (Run F) :=
  _ ← CAFFE_ENFORCE (numel (PARAM inp) =? numel (MOMENT_1 inp));
  _ ← CAFFE_ENFORCE (numel (LR inp) =? 1);
  _ ← CAFFE_ENFORCE (size_from_dim (PARAM inp) 1
                       =? size_from_dim (GRAD inp) (ndim (INDICES inp)));
  DoRunWithType op oracle inp.

End Op.
End CUDASparseAdagradFusedWithSparseLengthsWeightedSumGradientOp.

Module CUDARowWiseSparseAdagradFusedWithSparseLengthsSumGradientOp.
Section Op.
Context {F : Type} `{Arith F}.

Definition DoRunWithType2 (op : Op F) (oracle : list nat) (inp : Inputs F)
  : result (Run F) :=
  _ ← CAFFE_ENFORCE (1 =? ndim (LENGTHS inp));
  _ ← CAFFE_ENFORCE (0 <? ndim (GRAD inp));
  param_0dim ← dim (PARAM inp) 0;
  moment_0dim ← dim (MOMENT_1 inp) 0;
  _ ← CAFFE_ENFORCE (param_0dim =? moment_0dim);
  len_length ← dim (LENGTHS inp) 0;
  _ ← CAFFE_ENFORCE (0 <? ndim (GRAD inp));
  grad_0dim ← dim (GRAD inp) 0;
  _ ← CAFFE_ENFORCE (len_length =? grad_0dim);
  output_0dim ← dim (INDICES inp) 0;
  if len_length <=? 0 then
    (* return early to avoid invalid empty kernel *)
    Ok {| outputs := buffers inp []; launches := [] |}
  else
    let prefix_sum_length_data :=
      inclusive_scan_wrapper (data (LENGTHS inp)) len_length in
    let N := output_0dim in
    let post := size_from_dim (GRAD inp) 1 in
    let maxThreads := maxThreadsPerBlock op in
    let k := kernel_args op inp prefix_sum_length_data N post len_length in
    if (post <=? maxThreads / 2) && (post mod 32 =? 0) then
      (* Fast path when the embedding dimension is a multiple of 32, using
         WarpReduce. *)
      multiple ← multiple_of op post;
      let block := {| gridDim_x := len_length; blockDim_x := post;
                      blockDim_y := multiple |} in
      m ← rowwise_sparse_adagrad_fused_length_sum_gradient_kernel true block
            oracle k (buffers inp []);
      Ok {| outputs := m; launches := [block] |}
    else
      let block := {| gridDim_x := len_length;
                      blockDim_x := Z.min maxThreads post;
                      blockDim_y := 1 |} in
      m ← rowwise_sparse_adagrad_fused_length_sum_gradient_kernel false block
            oracle k (buffers inp []);
      Ok {| outputs := m; launches := [block] |}.

Definition DoRunWithType (op : Op F) (oracle : list nat) (inp : Inputs F)
  : result (Run F) :=
  let n := numel (INDICES inp) in
  if n =? 0 then Ok {| outputs := buffers inp []; launches := [] |}
  else DoRunWithType2 op oracle inp.

Definition RunOnDevice (op : Op F) (oracle : list nat) (inp : Inputs F)
  : result (Run F) :=
  _ ← CAFFE_ENFORCE (numel (LR inp) =? 1);
  _ ← CAFFE_ENFORCE (size_from_dim (PARAM inp) 1
                       =? size_from_dim (GRAD inp) (ndim (INDICES inp)));
  DoRunWithType op oracle inp.

End Op.
End CUDARowWiseSparseAdagradFusedWithSparseLengthsSumGradientOp.

Module CUDARowWiseSparseAdagradFusedWithSparseLengthsWeightedSumGradientOp.
Section Op.
Context {F : Type} `{Arith F}.

Definition DoRunWithType2 (op : Op F) (oracle : list nat) (inp : Inputs F)
  : result (Run F) :=
  _ ← CAFFE_ENFORCE (1 =? ndim (LENGTHS inp));
  _ ← CAFFE_ENFORCE (1 =? ndim (AUX_PARAM inp));
  _ ← CAFFE_ENFORCE (0 <? ndim (GRAD inp));
  param_0dim ← dim (PARAM inp) 0;
  moment_0dim ← dim (MOMENT_1 inp) 0;
  _ ← CAFFE_ENFORCE (param_0dim =? moment_0dim);
  len_length ← dim (LENGTHS inp) 0;
  _ ← CAFFE_ENFORCE (0 <? ndim (GRAD inp));
  grad_0dim ← dim (GRAD inp) 0;
  _ ← CAFFE_ENFORCE (len_length =? grad_0dim);
  output_0dim ← dim (INDICES inp) 0;
  let out_weight_grads := Output_AUX_GRAD (numel (INDICES inp)) in
  if len_length <=? 0 then
    (* return early to avoid invalid empty kernel *)
    Ok {| outputs := buffers inp out_weight_grads; launches := [] |}
  else
    let prefix_sum_length_data :=
      inclusive_scan_wrapper (data (LENGTHS inp)) len_length in
    let N := output_0dim in
    let post := size_from_dim (GRAD inp) 1 in
    let k := kernel_args op inp prefix_sum_length_data N post len_length in
    let block := {| gridDim_x := len_length; blockDim_x := NumThreads post;
                    blockDim_y := 1 |} in
    m ← rowwise_sparse_adagrad_fused_length_weighted_sum_gradient_kernel
          block oracle k (buffers inp out_weight_grads);
    Ok {| outputs := m; launches := [block] |}.

Definition DoRunWithType (op : Op F) (oracle : list nat) (inp : Inputs F)
  : result (Run F) :=
  let n := numel (INDICES inp) in
  if n =? 0 then
    Ok {| outputs := buffers inp (Output_AUX_GRAD n); launches := [] |}
  else DoRunWithType2 op oracle inp.

Definition RunOnDevice (op : Op F) (oracle : list nat) (inp : Inputs F)
  : result (Run F) :=
  _ ← CAFFE_ENFORCE (numel (LR inp) =? 1);
  _ ← CAFFE_ENFORCE (size_from_dim (PARAM inp) 1
                       =? size_from_dim (GRAD inp) (ndim (INDICES inp)));
  DoRunWithType op oracle inp.

End Op.
End CUDARowWiseSparseAdagradFusedWithSparseLengthsWeightedSumGradientOp.

(** ** IEEE-754 single precision *)

(** [float] as [spec_float] with a 24-bit significand; every operation
    rounds to nearest, ties to even.  The reductions are taken from left to
    right and [TParam] is [float]. *)
Definition b32_of_int (z : Z) : spec_float := binary_normalize 24 128 z 0 false.

#[global] Instance binary32 : Arith spec_float := {|
  fzero := S754_zero false;
  fadd := SFadd 24 128;
  fmul := SFmul 24 128;
  fdiv := SFdiv 24 128;
  fsqrt := SFsqrt 24 128;
  of_int := b32_of_int;
  fsum := foldl (SFadd 24 128) (S754_zero false);
  narrow := λ x, x;
|}.

(** ** The rounding-free reading: real numbers *)

#[global] Instance real_arith : Arith R := {|
  fzero := 0%R;
  fadd := Rplus;
  fmul := Rmult;
  fdiv := Rdiv;
  fsqrt := sqrt;
  of_int := IZR;
  fsum := foldr Rplus 0%R;
  narrow := λ x, x;
|}.

(** ** Vocabulary of the statements *)

(** The sum of a sequence of lengths. *)
Definition total (l : list Z) : Z := foldr Z.add 0 l.

(** A run that launches nothing, leaves the tables as they are and produces
    a weight-gradient output of length zero. *)
Definition no_op {F : Type} (inp : Inputs F) : result (Run F) :=
  Ok {| outputs := buffers inp []; launches := [] |}.

(** *** Tables, members and the rules of the design document *)

(** The four kernel variants. *)
Variant variant : Type := Exact | WeightedExact | RowWise | WeightedRowWise.

Definition weighted (v : variant) : bool :=
  match v with WeightedExact | WeightedRowWise => true | _ => false end.

Definition rowwise (v : variant) : bool :=
  match v with RowWise | WeightedRowWise => true | _ => false end.

(** The position of [table[row][e]] in a row-major table of width [D]. *)
Definition cell (D row e : Z) : nat := Z.to_nat (row * D + e).

(** The members [(segment, start of the segment, position)] of a batch, in
    the order of the index array. *)
Definition members (lengths : list Z) : list (Z * Z * Z) :=
  g ← seq 0 (length lengths);
  let start := total (take g lengths) in
  (λ j, (Z.of_nat g, start, start + j)) <$> seqZ 0 (lengths !!! g).

Section Reference.
Context {F : Type} `{Arith F}.

(** [table[row][e] = f e (table[row][e])] for every element [e] of a row. *)
Definition map_row (D row : Z) (f : Z → F → F) (table : list F) : list F :=
  foldl (λ l e, <[cell D row e := f e (table !!! cell D row e)]> l)
    table (seqZ 0 D).

(** A sum across the element dimension. *)
Definition row_sum (l : list F) : F := foldr fadd fzero l.

Definition segment_grad (k : KArgs F) (g e : Z) : F :=
  grad k !!! Z.to_nat (g * post k + e).

Definition learning_rate (k : KArgs F) : F := lr k !!! 0%nat.

(** [segment_grad[g][e] + weight_decay * param[row][e]] *)
Definition effective_grad (k : KArgs F) (m : Mem F) (g row e : Z) : F :=
  fadd (segment_grad k g e)
    (fmul (weight_decay k) (param m !!! cell (post k) row e)).

(** [weight[m] * in_grad + weight_decay * param[row][e]] *)
Definition out_grad (k : KArgs F) (m : Mem F) (w : F) (g row e : Z) : F :=
  fadd (fmul w (segment_grad k g e))
    (fmul (weight_decay k) (param m !!! cell (post k) row e)).

(** The inner product of the stored parameter row and the gradient row. *)
Definition weight_grad (k : KArgs F) (m : Mem F) (g row : Z) : F :=
  row_sum ((λ e, fmul (segment_grad k g e) (param m !!! cell (post k) row e))
             <$> seqZ 0 (post k)).

(** [(1/D) * sum over the elements of effective_grad^2] *)
Definition row_energy (k : KArgs F) (m : Mem F) (g row : Z) : F :=
  fdiv (row_sum ((λ e, fmul (effective_grad k m g row e)
                         (effective_grad k m g row e)) <$> seqZ 0 (post k)))
    (of_int (post k)).

(** The update of the tables by one member, in the words of sections 4.2 to
    4.5 of the design document; the right-hand sides read the tables as
    they are before the member is processed. *)
Definition reference_member (v : variant) (k : KArgs F) (t : Z * Z * Z)
  (m : Mem F) : Mem F :=
  let '(g, start, line) := t in
  let row := indices k !!! Z.to_nat line in
  let D := post k in
  let w := weights k !!! Z.to_nat (line - start) in
  match v with
  | Exact =>
      let accumulator_new e a :=
        fadd a (fmul (effective_grad k m g row e) (effective_grad k m g row e))
      in
      {| param :=
           map_row D row
             (λ e p, fadd p
                (fdiv (fmul (learning_rate k) (effective_grad k m g row e))
                   (fadd (fsqrt (accumulator_new e
                                   (param_mom m !!! cell D row e)))
                      (epsilon k))))
             (param m);
         param_mom := map_row D row accumulator_new (param_mom m);
         weights_grad_out := weights_grad_out m |}
  | WeightedExact =>
      let accumulator_new e a :=
        fadd a (fmul (out_grad k m w g row e) (out_grad k m w g row e)) in
      {| param :=
           map_row D row
             (λ e p, fadd p
                (fdiv (fmul (learning_rate k) (out_grad k m w g row e))
                   (fadd (fsqrt (accumulator_new e
                                   (param_mom m !!! cell D row e)))
                      (epsilon k))))
             (param m);
         param_mom := map_row D row accumulator_new (param_mom m);
         weights_grad_out :=
           <[Z.to_nat line := weight_grad k m g row]> (weights_grad_out m) |}
  | RowWise =>
      let accumulator_new :=
        fadd (param_mom m !!! Z.to_nat row) (row_energy k m g row) in
      let step :=
        fdiv (learning_rate k) (fadd (fsqrt accumulator_new) (epsilon k)) in
      {| param :=
           map_row D row
             (λ e p, fadd p (fmul (effective_grad k m g row e) step))
             (param m);
         param_mom := <[Z.to_nat row := accumulator_new]> (param_mom m);
         weights_grad_out := weights_grad_out m |}
  | WeightedRowWise =>
      let accumulator_new :=
        fadd (param_mom m !!! Z.to_nat row)
          (fmul (fmul w w) (row_energy k m g row)) in
      let step :=
        fdiv (learning_rate k) (fadd (fsqrt accumulator_new) (epsilon k)) in
      {| param :=
           map_row D row (λ e p, fadd p (fmul (out_grad k m w g row e) step))
             (param m);
         param_mom := <[Z.to_nat row := accumulator_new]> (param_mom m);
         weights_grad_out :=
           <[Z.to_nat line := weight_grad k m g row]> (weights_grad_out m) |}
  end.

(** The sequential reference: the members are processed one at a time in
    the given order. *)
Definition reference (v : variant) (k : KArgs F) (order : list (Z * Z * Z))
  (m : Mem F) : Mem F :=
  foldl (λ m t, reference_member v k t m) m order.

(** A batch handed to a kernel of variant [v]: a table of [rows] rows, the
    segments of [lengths], and arrays of the sizes of section 3 of the design
    document.  The table and the gradient have at most [INT_MAX] cells, so
    that the address of a cell, [index * post + i] or [group * post + i],
    is the same number in [int] as in [Z]. *)
Record batch_ok (v : variant) (rows : Z) (lengths : list Z) (k : KArgs F)
  (m : Mem F) : Prop := {
  ok_lengths : Forall (λ x, 0 ≤ x) lengths;
  ok_total : total lengths = Z.of_nat (length (indices k));
  ok_int : total lengths ≤ INT_MAX;
  ok_offsets :
    prefix_sum_length_data k
    = inclusive_scan_wrapper lengths (Z.of_nat (length lengths));
  ok_len : len_length k = Z.of_nat (length lengths);
  ok_N : total lengths ≤ N k;
  ok_post : 0 < post k;
  ok_cells : rows * post k ≤ INT_MAX;
  ok_grads : len_length k * post k ≤ INT_MAX;
  ok_indices : Forall (λ i, 0 ≤ i < rows) (indices k);
  ok_param : Z.of_nat (length (param m)) = rows * post k;
  ok_mom :
    Z.of_nat (length (param_mom m))
    = if rowwise v then rows else rows * post k;
  ok_grad : Z.of_nat (length (grad k)) = len_length k * post k;
  ok_lr : length (lr k) = 1%nat;
  ok_weights : weighted v = true → length (weights k) = length (indices k);
  ok_wgo :
    weighted v = true → length (weights_grad_out m) = length (indices k);
}.

(** The same batch without the condition on the values of its indices. *)
Record batch_shape (v : variant) (rows : Z) (lengths : list Z) (k : KArgs F)
  (m : Mem F) : Prop := {
  sh_lengths : Forall (λ x, 0 ≤ x) lengths;
  sh_total : total lengths = Z.of_nat (length (indices k));
  sh_int : total lengths ≤ INT_MAX;
  sh_offsets :
    prefix_sum_length_data k
    = inclusive_scan_wrapper lengths (Z.of_nat (length lengths));
  sh_len : len_length k = Z.of_nat (length lengths);
  sh_N : total lengths ≤ N k;
  sh_post : 0 < post k;
  sh_cells : rows * post k ≤ INT_MAX;
  sh_grads : len_length k * post k ≤ INT_MAX;
  sh_param : Z.of_nat (length (param m)) = rows * post k;
  sh_mom :
    Z.of_nat (length (param_mom m))
    = if rowwise v then rows else rows * post k;
  sh_grad : Z.of_nat (length (grad k)) = len_length k * post k;
  sh_lr : length (lr k) = 1%nat;
  sh_weights : weighted v = true → length (weights k) = length (indices k);
  sh_wgo :
    weighted v = true → length (weights_grad_out m) = length (indices k);
}.

End Reference.

(** *** The kernels without their bounds checks *)

Section Pure.
Context {F : Type} `{Arith F}.

(** Two states of the device memory with arrays of the same sizes. *)
Definition same_sizes (m m' : Mem F) : Prop :=
  length (param m') = length (param m)
  ∧ length (param_mom m') = length (param_mom m)
  ∧ length (weights_grad_out m') = length (weights_grad_out m).

(** A loop-body execution [(group, line, i)] within the batch. *)
Definition task_ok (k : KArgs F) (t : Z * Z * Z) : Prop :=
  0 ≤ t.1.1 < len_length k
  ∧ 0 ≤ t.1.2 < Z.of_nat (length (indices k))
  ∧ 0 ≤ t.2 < post k.

(** A member update [(group, start, line)] within the batch. *)
Definition member_ok (k : KArgs F) (t : Z * Z * Z) : Prop :=
  0 ≤ t.1.1 < len_length k
  ∧ 0 ≤ t.1.2 ≤ t.2
  ∧ t.2 < Z.of_nat (length (indices k)).

(** The values stored by the body of the exact kernels for the gradient
    [gi], in the order the source computes them. *)
Definition mom_new (gi a : F) : F := fadd (fmul gi gi) a.

Definition param_new (k : KArgs F) (LR gi a p : F) : F :=
  fadd (fdiv (fmul LR gi) (fadd (fsqrt (mom_new gi a)) (epsilon k))) p.

(** [adagrad_update] when every access is within its array. *)
Definition adagrad_task (k : KArgs F) (t : Z * Z * Z) (m : Mem F) : Mem F :=
  let '(group, line, i) := t in
  let index := indices k !!! Z.to_nat line in
  let c := cell (post k) index i in
  let gi := effective_grad k m group index i in
  {| param :=
       <[c := narrow (param_new k (learning_rate k) gi
                        (param_mom m !!! c) (param m !!! c))]> (param m);
     param_mom := <[c := narrow (mom_new gi (param_mom m !!! c))]> (param_mom m);
     weights_grad_out := weights_grad_out m |}.

End Pure.

(** The segments [(group, (start, end))] of a batch. *)
Definition segments (lengths : list Z) : list (Z * (Z * Z)) :=
  (λ g, (Z.of_nat g, (total (take g lengths), total (take (S g) lengths))))
    <$> seq 0 (length lengths).

(** The loop-body executions of the exact kernel for a list of members. *)
Definition element_tasks (D : Z) (ms : list (Z * Z * Z)) : list (Z * Z * Z) :=
  m ← ms; (λ e, (m.1.1, m.2, e)) <$> seqZ 0 D.

(** The shape of a launch: one block per segment; with [ExactBlock] one
    thread per element of a row, and without it a one-dimensional block.
    This is what the loops of the kernels rely on; what their reductions
    rely on is added by [launch_ok]. *)
Definition dim_ok {F : Type} (ExactBlock : bool) (d : Dim) (k : KArgs F)
  : Prop :=
  gridDim_x d = len_length k
  ∧ 0 < blockDim_x d ∧ 0 < blockDim_y d
  ∧ (ExactBlock = true → blockDim_x d = post k)
  ∧ (ExactBlock = false → blockDim_y d = 1).

(** The launches under which the kernel of variant [v] is written to run,
    the ones the operators make: a launch of the shape above, and for the
    row-wise kernel
    - with [ExactBlock], a row of threads that is a whole number of warps
      ([post % 32 == 0], line 868) in a block of at most 32 warps, the
      places of [temp_storage[32]];
    - without it, a block of at most [CAFFE_CUDA_NUM_THREADS] threads, the
      block [cub::BlockReduce] is instantiated for (line 292).
    The weighted kernels have the number of threads of their block as the
    template argument [NumThreads] of their reductions in every launch. *)
Definition launch_ok {F : Type} (v : variant) (ExactBlock : bool) (d : Dim)
  (k : KArgs F) : Prop :=
  dim_ok ExactBlock d k
  ∧ (v = RowWise →
     if ExactBlock
     then post k mod 32 = 0 ∧ blockDim_x d * blockDim_y d ≤ 1024
     else blockDim_x d ≤ CAFFE_CUDA_NUM_THREADS).

(** *** The member updates without their bounds checks *)

Section PureMembers.
Context {F : Type} `{Arith F}.

(** [table[row][e] = f e] for the elements [es] of a row, one after the
    other. *)
Definition store_cells (D row : Z) (f : Z → F) (es : list Z) (table : list F)
  : list F :=
  foldl (λ l e, <[cell D row e := f e]> l) table es.

(** The elements of a row in the order in which the threads of a
    one-dimensional block visit them. *)
Definition lane_elements (d : Dim) (k : KArgs F) : list Z :=
  tid ← seqZ 0 (blockDim_x d); for_loop tid (post k) (blockDim_x d).

(** The register [w_grad] of thread [tid] when it reaches the reduction. *)
Definition lane_w_grad (d : Dim) (k : KArgs F) (m : Mem F)
  (group index tid : Z) : F :=
  foldl (λ w_grad i,
           fadd w_grad
             (fmul (segment_grad k group i)
                (param m !!! cell (post k) index i)))
    fzero (for_loop tid (post k) (blockDim_x d)).

(** The register [sum_squares] of thread [tid] when it reaches the
    reduction. *)
Definition lane_sum_squares (d : Dim) (k : KArgs F) (m : Mem F)
  (group index tid : Z) : F :=
  foldl (λ sum_squares i,
           fadd sum_squares
             (fmul (effective_grad k m group index i)
                (effective_grad k m group index i)))
    fzero (for_loop tid (post k) (blockDim_x d)).

(** [weighted_sum_member] when every access is within its array. *)
Definition weighted_sum_task (d : Dim) (k : KArgs F) (t : Z * Z * Z)
  (m : Mem F) : Mem F :=
  let '(group, start, line) := t in
  let index := indices k !!! Z.to_nat line in
  let D := post k in
  let w := weights k !!! Z.to_nat (line - start) in
  let og e := out_grad k m w group index e in
  {| param :=
       store_cells D index
         (λ e, narrow (param_new k (learning_rate k) (og e)
                         (param_mom m !!! cell D index e)
                         (param m !!! cell D index e)))
         (lane_elements d k) (param m);
     param_mom :=
       store_cells D index
         (λ e, narrow (mom_new (og e) (param_mom m !!! cell D index e)))
         (lane_elements d k) (param_mom m);
     weights_grad_out :=
       <[Z.to_nat line :=
           fsum (lane_w_grad d k m group index <$> seqZ 0 (blockDim_x d))]>
         (weights_grad_out m) |}.

(** [rowwise_strided_member] when every access is within its array. *)
Definition rowwise_strided_task (d : Dim) (k : KArgs F) (t : Z * Z * Z)
  (m : Mem F) : Mem F :=
  let '(group, start, line) := t in
  let index := indices k !!! Z.to_nat line in
  let D := post k in
  let valid := Z.min (post k) (blockDim_x d) in
  let reduce_result :=
    fsum (take (Z.to_nat valid)
            (lane_sum_squares d k m group index <$> seqZ 0 (blockDim_x d))) in
  let mom_new :=
    fadd (param_mom m !!! Z.to_nat index)
      (fdiv reduce_result (of_int (post k))) in
  let step :=
    fdiv (learning_rate k) (fadd (fsqrt mom_new) (epsilon k)) in
  {| param :=
       store_cells D index
         (λ e, narrow (fadd (param m !!! cell D index e)
                         (fmul (effective_grad k m group index e) step)))
         (lane_elements d k) (param m);
     param_mom := <[Z.to_nat index := mom_new]> (param_mom m);
     weights_grad_out := weights_grad_out m |}.

(** [rowwise_exact_member] when every access is within its array. *)
Definition rowwise_exact_task (d : Dim) (oracle : list nat) (k : KArgs F)
  (t : Z * Z * Z) (m : Mem F) : Mem F :=
  let '(group, start, line) := t in
  let index := indices k !!! Z.to_nat line in
  let D := post k in
  let sum_squares :=
    (λ x, fadd fzero (fmul (effective_grad k m group index x)
                        (effective_grad k m group index x)))
      <$> seqZ 0 (blockDim_x d) in
  let mom_new :=
    foldl (λ a warp, fadd a (fdiv (fsum warp) (of_int (post k))))
      (param_mom m !!! Z.to_nat index)
      (interleave oracle
         ((λ warp, [warp]) <$> warps (length sum_squares) sum_squares)) in
  let step :=
    fdiv (learning_rate k) (fadd (fsqrt mom_new) (epsilon k)) in
  {| param :=
       store_cells D index
         (λ e, narrow (fadd (param m !!! cell D index e)
                         (fmul (effective_grad k m group index e) step)))
         (seqZ 0 (blockDim_x d)) (param m);
     param_mom := <[Z.to_nat index := mom_new]> (param_mom m);
     weights_grad_out := weights_grad_out m |}.

(** [rowwise_weighted_member] when every access is within its array. *)
Definition rowwise_weighted_task (d : Dim) (k : KArgs F) (t : Z * Z * Z)
  (m : Mem F) : Mem F :=
  let '(group, start, line) := t in
  let index := indices k !!! Z.to_nat line in
  let D := post k in
  let w := weights k !!! Z.to_nat (line - start) in
  let valid := Z.min (post k) (blockDim_x d) in
  let reduce_result :=
    fsum (take (Z.to_nat valid)
            (lane_sum_squares d k m group index <$> seqZ 0 (blockDim_x d))) in
  let mom_new :=
    fadd (param_mom m !!! Z.to_nat index)
      (fmul (fmul (fdiv reduce_result (of_int (post k))) w) w) in
  let step :=
    fdiv (learning_rate k) (fadd (fsqrt mom_new) (epsilon k)) in
  {| param :=
       store_cells D index
         (λ e, narrow (fadd (fmul (out_grad k m w group index e) step)
                         (param m !!! cell D index e)))
         (lane_elements d k) (param m);
     param_mom := <[Z.to_nat index := mom_new]> (param_mom m);
     weights_grad_out :=
       <[Z.to_nat line :=
           fsum (lane_w_grad d k m group index <$> seqZ 0 (blockDim_x d))]>
         (weights_grad_out m) |}.

End PureMembers.

(** *** The rows a member reads and writes *)

Section Rows.
Context {F : Type} `{Arith F}.

(** Two states of the tables that hold the same values in a row. *)
Definition row_agree (v : variant) (D row : Z) (m m' : Mem F) : Prop :=
  (∀ e, 0 ≤ e < D →
     param m !!! cell D row e = param m' !!! cell D row e)
  ∧ (if rowwise v
     then param_mom m !!! Z.to_nat row = param_mom m' !!! Z.to_nat row
     else ∀ e, 0 ≤ e < D →
            param_mom m !!! cell D row e = param_mom m' !!! cell D row e).

(** The tables [m] with the row [row] of [u], and the weight gradient of
    position [line] of [u]. *)
Definition copy_row (v : variant) (D row line : Z) (u m : Mem F) : Mem F :=
  {| param :=
       store_cells D row (λ e, param u !!! cell D row e) (seqZ 0 D) (param m);
     param_mom :=
       if rowwise v
       then <[Z.to_nat row := param_mom u !!! Z.to_nat row]> (param_mom m)
       else store_cells D row (λ e, param_mom u !!! cell D row e) (seqZ 0 D)
              (param_mom m);
     weights_grad_out :=
       if weighted v
       then <[Z.to_nat line := weights_grad_out u !!! Z.to_nat line]>
              (weights_grad_out m)
       else weights_grad_out m |}.

End Rows.

(** The kernel of a variant. *)
Definition fused_kernel {F : Type} `{Arith F} (v : variant)
  (ExactBlock : bool) (d : Dim) (oracle : list nat) (k : KArgs F) (m : Mem F)
  : result (Mem F) :=
  match v with
  | Exact =>
      sparse_adagrad_fused_length_sum_gradient_kernel ExactBlock d oracle k m
  | WeightedExact =>
      sparse_adagrad_fused_length_weighted_sum_gradient_kernel d oracle k m
  | RowWise =>
      rowwise_sparse_adagrad_fused_length_sum_gradient_kernel ExactBlock d
        oracle k m
  | WeightedRowWise =>
      rowwise_sparse_adagrad_fused_length_weighted_sum_gradient_kernel d
        oracle k m
  end.

(** An outcome other than a failed assertion or a failed enforcement. *)
Definition asserts_nothing {A : Type} (r : result A) : Prop :=
  r ≠ AssertFailed ∧ r ≠ EnforceFailed.

(** A row that holds in [m'] what it held in [m]. *)
Definition row_kept {F : Type} (v : variant) (D row : Z) (m m' : Mem F)
  : Prop :=
  (∀ e, 0 ≤ e < D → param m' !! cell D row e = param m !! cell D row e)
  ∧ (if rowwise v
     then param_mom m' !! Z.to_nat row = param_mom m !! Z.to_nat row
     else ∀ e, 0 ≤ e < D →
            param_mom m' !! cell D row e = param_mom m !! cell D row e).

(** The kernel arguments with other indices, and with other weights. *)
Definition with_indices {F : Type} (k : KArgs F) (idx : list Z) : KArgs F :=
  {| prefix_sum_length_data := prefix_sum_length_data k;
     N := N k; post := post k; len_length := len_length k;
     epsilon := epsilon k; indices := idx; grad := grad k;
     weights := weights k; lr := lr k; weight_decay := weight_decay k |}.

Definition with_weights {F : Type} (k : KArgs F) (ws : list F) : KArgs F :=
  {| prefix_sum_length_data := prefix_sum_length_data k;
     N := N k; post := post k; len_length := len_length k;
     epsilon := epsilon k; indices := indices k; grad := grad k;
     weights := ws; lr := lr k; weight_decay := weight_decay k |}.

(** The operator of a variant. *)
Definition run_operator {F : Type} `{Arith F} (v : variant) (op : Op F)
  (oracle : list nat) (inp : Inputs F) : result (Run F) :=
  match v with
  | Exact =>
      CUDASparseAdagradFusedWithSparseLengthsSumGradientOp.RunOnDevice
        op oracle inp
  | WeightedExact =>
      CUDASparseAdagradFusedWithSparseLengthsWeightedSumGradientOp.RunOnDevice
        op oracle inp
  | RowWise =>
      CUDARowWiseSparseAdagradFusedWithSparseLengthsSumGradientOp.RunOnDevice
        op oracle inp
  | WeightedRowWise =>
      CUDARowWiseSparseAdagradFusedWithSparseLengthsWeightedSumGradientOp.RunOnDevice
        op oracle inp
  end.

(** A call with inputs of the shapes of section 3 of the design document: a
    table of [rows] rows of [D] elements, one gradient row per segment, one
    index (and one weight) per member.  The values of the indices are left
    open.  The table and the gradient have at most [INT_MAX] cells, the
    device has blocks of at most 1024 threads, and the launch of the
    unweighted row-wise operator is one its kernel is written for: the fast
    path, or a block of at most [CAFFE_CUDA_NUM_THREADS] threads. *)
Record inputs_ok {F : Type} (v : variant) (rows D : Z) (op : Op F)
  (inp : Inputs F) : Prop := {
  in_param : sizes (PARAM inp) = [rows; D];
  in_param_data : Z.of_nat (length (data (PARAM inp))) = rows * D;
  in_moment :
    sizes (MOMENT_1 inp) = if rowwise v then [rows] else [rows; D];
  in_moment_data :
    Z.of_nat (length (data (MOMENT_1 inp)))
    = if rowwise v then rows else rows * D;
  in_indices :
    sizes (INDICES inp) = [Z.of_nat (length (data (INDICES inp)))];
  in_lengths :
    sizes (LENGTHS inp) = [Z.of_nat (length (data (LENGTHS inp)))];
  in_grad : sizes (GRAD inp) = [Z.of_nat (length (data (LENGTHS inp))); D];
  in_grad_data :
    Z.of_nat (length (data (GRAD inp)))
    = Z.of_nat (length (data (LENGTHS inp))) * D;
  in_lr : sizes (LR inp) = [1];
  in_lr_data : length (data (LR inp)) = 1%nat;
  in_aux :
    weighted v = true →
    sizes (AUX_PARAM inp) = [Z.of_nat (length (data (INDICES inp)))];
  in_aux_data :
    weighted v = true →
    length (data (AUX_PARAM inp)) = length (data (INDICES inp));
  in_nonneg : Forall (λ x, 0 ≤ x) (data (LENGTHS inp));
  in_total :
    total (data (LENGTHS inp)) = Z.of_nat (length (data (INDICES inp)));
  in_int : total (data (LENGTHS inp)) ≤ INT_MAX;
  in_D : 0 < D;
  in_cells : rows * D ≤ INT_MAX;
  in_grads : Z.of_nat (length (data (LENGTHS inp))) * D ≤ INT_MAX;
  in_device : 0 < maxThreadsPerBlock op ∧ 0 < SEGREDUCE_MINBLOCKS op;
  in_block : maxThreadsPerBlock op ≤ 1024;
  in_reduce :
    v = RowWise →
    (D ≤ maxThreadsPerBlock op / 2 ∧ D mod 32 = 0)
    ∨ Z.min (maxThreadsPerBlock op) D ≤ CAFFE_CUDA_NUM_THREADS;
}.

(** The kernel arguments and the buffers an operator passes to its kernel. *)
Definition launch_args {F : Type} (op : Op F) (inp : Inputs F) : KArgs F :=
  kernel_args op inp
    (inclusive_scan_wrapper (data (LENGTHS inp))
       (Z.of_nat (length (data (LENGTHS inp)))))
    (Z.of_nat (length (data (INDICES inp))))
    (size_from_dim (GRAD inp) 1)
    (Z.of_nat (length (data (LENGTHS inp)))).

Definition launch_buffers {F : Type} `{Arith F} (v : variant)
  (inp : Inputs F) : Mem F :=
  buffers inp
    (if weighted v then Output_AUX_GRAD (numel (INDICES inp)) else []).

(** The member update of a weighted kernel. *)
Definition weighted_member {F : Type} `{Arith F} (v : variant) (d : Dim)
  (k : KArgs F) (t : Z * Z * Z) (m : Mem F) : result (Mem F) :=
  if rowwise v then rowwise_weighted_member d k t m
  else weighted_sum_member d k t m.

(** *** Example calls *)

(** An operator on a device with blocks of up to 1024 threads. *)
Definition example_op {F : Type} `{Arith F} (weight_decay : F) : Op F :=
  {| epsilon_ := of_int 1; weight_decay_ := weight_decay;
     maxThreadsPerBlock := 1024; SEGREDUCE_MINBLOCKS := 16 |}.

(** A table of 3 rows of 2 elements and a batch of two segments, of one and
    of two members, with the indices [idx]. *)
Definition example_inputs {F : Type} `{Arith F} (v : variant)
  (idx : list Z) : Inputs F :=
  {| PARAM := {| sizes := [3; 2]; data := of_int <$> [1; 2; 3; 4; 5; 6] |};
     MOMENT_1 :=
       if rowwise v
       then {| sizes := [3]; data := of_int <$> [1; 2; 3] |}
       else {| sizes := [3; 2]; data := of_int <$> [1; 1; 2; 2; 3; 3] |};
     AUX_PARAM := {| sizes := [3]; data := of_int <$> [1; 2; 3] |};
     INDICES := {| sizes := [Z.of_nat (length idx)]; data := idx |};
     GRAD := {| sizes := [2; 2]; data := of_int <$> [1; 2; 3; 4] |};
     LR := {| sizes := [1]; data := [of_int 1] |};
     LENGTHS := {| sizes := [2]; data := [1; 2] |} |}.

(** A table of one row of one element and a segment of two members. *)
Definition one_row_inputs {F : Type} `{Arith F} (v : variant) : Inputs F :=
  {| PARAM := {| sizes := [1; 1]; data := [of_int 1] |};
     MOMENT_1 :=
       if rowwise v
       then {| sizes := [1]; data := [of_int 1] |}
       else {| sizes := [1; 1]; data := [of_int 1] |};
     AUX_PARAM := {| sizes := [2]; data := of_int <$> [1; 2] |};
     INDICES := {| sizes := [2]; data := [0; 0] |};
     GRAD := {| sizes := [1; 1]; data := [of_int 1] |};
     LR := {| sizes := [1]; data := [of_int 1] |};
     LENGTHS := {| sizes := [1]; data := [2] |} |}.

(** A batch without members: two segments of length zero. *)
Definition empty_inputs {F : Type} `{Arith F} (v : variant) : Inputs F :=
  {| PARAM := {| sizes := [3; 2]; data := of_int <$> [1; 2; 3; 4; 5; 6] |};
     MOMENT_1 :=
       if rowwise v
       then {| sizes := [3]; data := of_int <$> [1; 2; 3] |}
       else {| sizes := [3; 2]; data := of_int <$> [1; 1; 2; 2; 3; 3] |};
     AUX_PARAM := {| sizes := [0]; data := [] |};
     INDICES := {| sizes := [0]; data := [] |};
     GRAD := {| sizes := [2; 2]; data := of_int <$> [1; 2; 3; 4] |};
     LR := {| sizes := [1]; data := [of_int 1] |};
     LENGTHS := {| sizes := [2]; data := [0; 0] |} |}.

(** A block of two threads for the example, which fits the kernels with and
    without [ExactBlock]. *)
Definition example_block : Dim :=
  {| gridDim_x := 2; blockDim_x := 2; blockDim_y := 1 |}.

(** ** gpuAtomicAdd on c10::Half *)

(** The [c10::Half] overload of [gpuAtomicAdd] as it is compiled before
    CUDA 10 and for devices below [sm_70] (lines 26-43): a compare-and-swap
    loop on the aligned 32-bit word that holds the half.  A word is a [Z]
    in [0, 2^32), a half its 16-bit pattern [x]; [upper] is
    [(size_t)address & 2], which tells the half of the word that [address]
    names.  The sum of two halves, [hsum + val], is a parameter. *)
Module Half.
Section AtomicAdd.
Variable hadd : Z → Z → Z.

(** [hsum.x = (size_t)address & 2 ? (old >> 16) : (old & 0xffff)] *)
Definition half_of (upper : bool) (old : Z) : Z :=
  if upper then Z.shiftr old 16 else Z.land old 0xffff.

(** [(size_t)address & 2 ? (old & 0xffff) | (hsum.x << 16)
                         : (old & 0xffff0000) | hsum.x] *)
Definition with_half (upper : bool) (old x : Z) : Z :=
  if upper then Z.lor (Z.land old 0xffff) (Z.shiftl x 16)
  else Z.lor (Z.land old 0xffff0000) x.

(** [atomicCAS(address, compare, val)] on the word [mem]: the value read
    and the word afterwards. *)
Definition atomicCAS (mem compare val : Z) : Z * Z :=
  (mem, if mem =? compare then val else mem).

(** The [do ... while (assumed != old)] loop.  Each entry of [env] is what
    the other threads have done to the word since this thread last read
    it, before its next [atomicCAS]: [Some w] when they left [w] in it,
    [None] when they did not touch it; past the end of [env] they leave it
    alone.  The outcome is the word after the loop, and [None] when the
    loop is still running after [fuel] iterations. *)
Fixpoint cas_loop (fuel : nat) (env : list (option Z)) (upper : bool)
  (val old mem : Z) : option Z :=
  match fuel with
  | O => None
  | S n =>
      let assumed := old in
      let hsum := hadd (half_of upper old) val in
      let old := with_half upper old hsum in
      let mem := match env with Some w :: _ => w | _ => mem end in
      let '(old, mem) := atomicCAS mem assumed old in
      if assumed =? old then Some mem
      else cas_loop n (tail env) upper val old mem
  end.

(** [gpuAtomicAdd(address, val)]: [unsigned int old = *address_as_ui;]
    followed by the loop. *)
Definition gpuAtomicAdd (fuel : nat) (env : list (option Z)) (upper : bool)
  (val mem : Z) : option Z :=
  let old := mem in
  cas_loop fuel env upper val old mem.

End AtomicAdd.
End Half.

(** *** Further example calls *)

(** A batch without segments whose index array is not empty. *)
Definition no_segment_inputs {F : Type} `{Arith F} (v : variant) : Inputs F :=
  {| PARAM := {| sizes := [3; 2]; data := of_int <$> [1; 2; 3; 4; 5; 6] |};
     MOMENT_1 :=
       if rowwise v
       then {| sizes := [3]; data := of_int <$> [1; 2; 3] |}
       else {| sizes := [3; 2]; data := of_int <$> [1; 1; 2; 2; 3; 3] |};
     AUX_PARAM := {| sizes := [2]; data := of_int <$> [1; 2] |};
     INDICES := {| sizes := [2]; data := [0; 1] |};
     GRAD := {| sizes := [0; 2]; data := [] |};
     LR := {| sizes := [1]; data := [of_int 1] |};
     LENGTHS := {| sizes := [0]; data := [] |} |}.

(** A table of 3 rows of width zero and a segment of one member. *)
Definition zero_width_inputs {F : Type} `{Arith F} (v : variant) : Inputs F :=
  {| PARAM := {| sizes := [3; 0]; data := [] |};
     MOMENT_1 :=
       if rowwise v
       then {| sizes := [3]; data := of_int <$> [1; 2; 3] |}
       else {| sizes := [3; 0]; data := [] |};
     AUX_PARAM := {| sizes := [1]; data := [of_int 1] |};
     INDICES := {| sizes := [1]; data := [0] |};
     GRAD := {| sizes := [1; 0]; data := [] |};
     LR := {| sizes := [1]; data := [of_int 1] |};
     LENGTHS := {| sizes := [1]; data := [1] |} |}.

(** *** Members one after the other *)

(** The update of one member by the threads of a one-dimensional block:
    an iteration of the loop over the members of the weighted kernels and
    of the strided branch of the row-wise kernel and, for the element-wise
    kernel, the loop-body executions of the member for the elements of its
    row. *)
Definition member_update {F : Type} `{Arith F} (v : variant) (d : Dim)
  (k : KArgs F) (t : Z * Z * Z) (m : Mem F) : result (Mem F) :=
  match v with
  | Exact =>
      foldM (adagrad_update k) ((λ e, (t.1.1, t.2, e)) <$> seqZ 0 (post k)) m
  | WeightedExact => weighted_sum_member d k t m
  | RowWise => rowwise_strided_member d k t m
  | WeightedRowWise => rowwise_weighted_member d k t m
  end.

(** [member_update] when every access is within its array. *)
Definition member_task {F : Type} `{Arith F} (v : variant) (d : Dim)
  (k : KArgs F) (t : Z * Z * Z) (m : Mem F) : Mem F :=
  match v with
  | Exact =>
      foldl (λ m e, adagrad_task k (t.1.1, t.2, e) m) m (seqZ 0 (post k))
  | WeightedExact => weighted_sum_task d k t m
  | RowWise => rowwise_strided_task d k t m
  | WeightedRowWise => rowwise_weighted_task d k t m
  end.

(** * Reasoning about the embedding *)

#[global] Instance real_exact : ExactArith R.
Proof.
  split; simpl; intros; try reflexivity; unfold Rdiv; lra.
Qed.

(** ** Outcomes and arrays *)

Lemma bind_Ok {A B : Type} (m : result A) (f : A → result B) (b : B) :
  m ≫= f = Ok b ↔ ∃ a, m = Ok a ∧ f a = Ok b.
Proof.
  destruct m as [a| | |]; simpl; split; try discriminate; eauto;
    try (by intros [a' [? ?]]).
  intros [a' [[= <-] ?]]. done.
Qed.

Lemma rd_Ok {A : Type} (l : list A) (i : Z) (v : A) :
  rd l i = Ok v ↔ 0 ≤ i ∧ l !! Z.to_nat i = Some v.
Proof.
  unfold rd. destruct (Z.leb_spec 0 i).
  - destruct (l !! Z.to_nat i); split; intros; try naive_solver.
  - split; [discriminate | lia].
Qed.

Lemma rd_nat {A : Type} (l : list A) (n : nat) (v : A) :
  l !! n = Some v → rd l (Z.of_nat n) = Ok v.
Proof. intros. apply rd_Ok. rewrite Nat2Z.id. split; [lia | done]. Qed.

Lemma wr_Ok {A : Type} (l l' : list A) (i : Z) (v : A) :
  wr l i v = Ok l' ↔
  0 ≤ i < Z.of_nat (length l) ∧ l' = <[Z.to_nat i := v]> l.
Proof.
  unfold wr. destruct (Z.leb_spec 0 i), (Z.ltb_spec i (Z.of_nat (length l)));
    simpl; split; intros; try naive_solver; try lia.
Qed.

Lemma wr_length {A : Type} (l l' : list A) (i : Z) (v : A) :
  wr l i v = Ok l' → length l' = length l.
Proof. intros [_ ->]%wr_Ok. apply length_insert. Qed.

(** ** Segment Offset Builder *)

Lemma wrap32_id (z : Z) : - 2 ^ 31 ≤ z < 2 ^ 31 → wrap32 z = z.
Proof. intros. unfold wrap32. rewrite Z.mod_small; lia. Qed.

Lemma total_app (l1 l2 : list Z) : total (l1 ++ l2) = total l1 + total l2.
Proof. unfold total. induction l1; simpl; lia. Qed.

Lemma total_nonneg (l : list Z) : Forall (λ x, 0 ≤ x) l → 0 ≤ total l.
Proof. induction 1; simpl; unfold total in *; simpl; lia. Qed.

Lemma total_take_le (l : list Z) (i j : nat) :
  Forall (λ x, 0 ≤ x) l → (i ≤ j)%nat → total (take i l) ≤ total (take j l).
Proof.
  intros Hl Hij. replace j with (i + (j - i))%nat by lia.
  rewrite <- take_take_drop, total_app.
  assert (0 ≤ total (take (j - i) (drop i l))); [| lia].
  apply total_nonneg. by apply Forall_take, Forall_drop.
Qed.

Lemma total_take_S (l : list Z) (i : nat) (x : Z) :
  l !! i = Some x → total (take (S i) l) = total (take i l) + x.
Proof.
  intros Hi. rewrite (take_S_r _ _ _ Hi), total_app. unfold total. simpl. lia.
Qed.

(** The scan started from a running sum [acc]: as long as the sums stay in
    the range of [int], entry [i] is [acc] plus the first [i + 1] inputs. *)
Lemma InclusiveSum_lookup (l : list Z) (acc : Z) (i : nat) :
  Forall (λ x, 0 ≤ x) l → 0 ≤ acc → acc + total l ≤ INT_MAX →
  (i < length l)%nat →
  InclusiveSum acc l !! i = Some (acc + total (take (S i) l)).
Proof.
  revert acc i. induction l as [|x l IH]; intros acc i Hl Hacc Hmax Hi.
  - simpl in Hi. lia.
  - apply Forall_cons in Hl as [Hx Hl].
    pose proof (total_nonneg l Hl) as Hnn.
    unfold total in Hmax, Hnn; simpl in Hmax; fold (total l) in Hmax, Hnn.
    unfold INT_MAX in *.
    simpl. rewrite wrap32_id by lia.
    destruct i as [|i]; simpl.
    + f_equal. lia.
    + rewrite IH; try done; try lia; [|simpl in Hi; lia].
      f_equal. unfold total at 2. simpl. fold (total (take (S i) l)). lia.
Qed.

Lemma InclusiveSum_length (l : list Z) (acc : Z) :
  length (InclusiveSum acc l) = length l.
Proof. revert acc. induction l; intros; simpl; auto. Qed.

Lemma inclusive_scan_wrapper_lookup (lengths : list Z) (i : nat) :
  Forall (λ x, 0 ≤ x) lengths → total lengths ≤ INT_MAX →
  (i < length lengths)%nat →
  inclusive_scan_wrapper lengths (Z.of_nat (length lengths)) !! i
  = Some (total (take (S i) lengths)).
Proof.
  intros Hl Hmax Hi. unfold inclusive_scan_wrapper.
  rewrite Nat2Z.id, firstn_all, InclusiveSum_lookup; try done; lia.
Qed.

Lemma inclusive_scan_wrapper_length (lengths : list Z) :
  length (inclusive_scan_wrapper lengths (Z.of_nat (length lengths)))
  = length lengths.
Proof.
  unfold inclusive_scan_wrapper.
  by rewrite Nat2Z.id, firstn_all, InclusiveSum_length.
Qed.

Section SegmentBounds.
Context {F : Type} `{Arith F}.

(** The segment a block reads off the offsets. *)
Lemma segment_bounds_scan (k : KArgs F) (lengths : list Z) (g : nat) :
  Forall (λ x, 0 ≤ x) lengths → total lengths ≤ INT_MAX →
  prefix_sum_length_data k
  = inclusive_scan_wrapper lengths (Z.of_nat (length lengths)) →
  (g < length lengths)%nat →
  segment_bounds k (Z.of_nat g)
  = Ok (total (take g lengths), total (take (S g) lengths)).
Proof.
  intros Hl Hmax Hk Hg. unfold segment_bounds. rewrite Hk.
  destruct g as [|g].
  - simpl. rewrite (rd_nat _ 0 (total (take 1 lengths))).
    + done.
    + by apply inclusive_scan_wrapper_lookup.
  - replace (Z.of_nat (S g) =? 0) with false by (symmetry; apply Z.eqb_neq; lia).
    replace (Z.of_nat (S g) - 1) with (Z.of_nat g) by lia.
    rewrite (rd_nat _ g (total (take (S g) lengths)));
      [| apply inclusive_scan_wrapper_lookup; try done; lia].
    simpl.
    rewrite (rd_nat _ (S g) (total (take (S (S g)) lengths)));
      [done | by apply inclusive_scan_wrapper_lookup].
Qed.

End SegmentBounds.

(** ** Degenerate batches *)

Section EmptyBatch.
Context {F : Type} `{Arith F}.

Lemma total_zero (l : list Z) : Forall (λ x, x = 0) l → total l = 0.
Proof. induction 1 as [|x l -> _ IH]; unfold total in *; simpl; lia. Qed.

(** A call without indices returns once the checks of [RunOnDevice] have
    passed; only the element-wise operators compare the sizes of the two
    tables there. *)
Lemma run_operator_empty (v : variant) (op : Op F) (oracle : list nat)
  (inp : Inputs F) :
  numel (INDICES inp) = 0 →
  (rowwise v = false → numel (PARAM inp) = numel (MOMENT_1 inp)) →
  numel (LR inp) = 1 →
  size_from_dim (PARAM inp) 1
  = size_from_dim (GRAD inp) (ndim (INDICES inp)) →
  run_operator v op oracle inp = no_op inp.
Proof.
  intros Hn Hsz Hlr Hdim.
  destruct v; unfold run_operator,
    CUDASparseAdagradFusedWithSparseLengthsSumGradientOp.RunOnDevice,
    CUDASparseAdagradFusedWithSparseLengthsWeightedSumGradientOp.RunOnDevice,
    CUDARowWiseSparseAdagradFusedWithSparseLengthsSumGradientOp.RunOnDevice,
    CUDARowWiseSparseAdagradFusedWithSparseLengthsWeightedSumGradientOp.RunOnDevice,
    CUDASparseAdagradFusedWithSparseLengthsSumGradientOp.DoRunWithType,
    CUDASparseAdagradFusedWithSparseLengthsWeightedSumGradientOp.DoRunWithType,
    CUDARowWiseSparseAdagradFusedWithSparseLengthsSumGradientOp.DoRunWithType,
    CUDARowWiseSparseAdagradFusedWithSparseLengthsWeightedSumGradientOp.DoRunWithType,
    no_op;
    try rewrite (Hsz eq_refl); rewrite Hlr, Hdim, Hn, !Z.eqb_refl; simpl;
    done.
Qed.

End EmptyBatch.

(** ** Sequential loops *)

Lemma foldM_app {A S : Type} (f : A → S → result S) (l1 l2 : list A) (s : S) :
  foldM f (l1 ++ l2) s = foldM f l1 s ≫= foldM f l2.
Proof.
  revert s. induction l1 as [|a l1 IH]; intros s; simpl; [done|].
  destruct (f a s); simpl; auto.
Qed.

(** A loop whose iterations all succeed computes the fold of their
    results. *)
Lemma foldM_pure {A S : Type} (f : A → S → result S) (g : A → S → S)
  (I : S → Prop) (l : list A) (s : S) :
  (∀ a s, a ∈ l → I s → f a s = Ok (g a s) ∧ I (g a s)) →
  I s →
  foldM f l s = Ok (foldl (λ s a, g a s) s l) ∧ I (foldl (λ s a, g a s) s l).
Proof.
  revert s. induction l as [|a l IH]; intros s Hf Hs; simpl; [done|].
  destruct (Hf a s) as [-> HI]; [left | done |]. simpl.
  apply IH; [|done]. intros. apply Hf; [by right | done].
Qed.

Lemma loop_values_elem (fuel : nat) (from to step x : Z) :
  0 < step → to - from ≤ Z.of_nat fuel →
  x ∈ loop_values fuel from to step
  ↔ from ≤ x < to ∧ (x - from) mod step = 0.
Proof.
  intros Hs. revert from. induction fuel as [|n IH]; intros from Hfuel; simpl.
  - rewrite elem_of_nil. lia.
  - destruct (Z.ltb_spec from to).
    + rewrite elem_of_cons, IH by lia. split.
      * intros [-> | [? Hm]].
        -- rewrite Z.sub_diag, Z.mod_0_l by lia. lia.
        -- split; [lia|].
           replace (x - from) with (x - (from + step) + 1 * step) by lia.
           by rewrite Z.mod_add by lia.
      * intros [? Hm]. destruct (decide (x = from)) as [|Hne]; [by left|right].
        apply Z.mod_divide in Hm as [q Hq]; [|lia].
        assert (1 ≤ q) by nia. split; [nia|].
        replace (x - (from + step)) with ((q - 1) * step) by lia.
        apply Z.mod_mul. lia.
    + rewrite elem_of_nil. lia.
Qed.

Lemma for_loop_elem (from to step x : Z) :
  0 < step →
  x ∈ for_loop from to step ↔ from ≤ x < to ∧ (x - from) mod step = 0.
Proof. intros. apply loop_values_elem; [done | lia]. Qed.

Lemma loop_values_NoDup (fuel : nat) (from to step : Z) :
  0 < step → NoDup (loop_values fuel from to step).
Proof.
  intros Hs. revert from.
  assert (Hlb : ∀ fuel from x, x ∈ loop_values fuel from to step → from ≤ x).
  { clear fuel. induction fuel as [|n IH]; intros from x; simpl.
    - by rewrite elem_of_nil.
    - destruct (Z.ltb_spec from to); [|by rewrite elem_of_nil].
      rewrite elem_of_cons. intros [->|Hx%IH]; lia. }
  induction fuel as [|n IH]; intros from; simpl; [constructor|].
  destruct (Z.ltb_spec from to); [|constructor].
  constructor; [|done]. intros Hx%Hlb. lia.
Qed.

Lemma for_loop_NoDup (from to step : Z) :
  0 < step → NoDup (for_loop from to step).
Proof. apply loop_values_NoDup. Qed.

(** ** Interleavings *)

Lemma concat_insert_head {T : Type} (threads : list (list T)) (n : nat)
  (t : T) (rest : list T) :
  threads !! n = Some (t :: rest) →
  concat threads ≡ₚ t :: concat (<[n := rest]> threads).
Proof.
  intros Hn. rewrite <- (take_drop_middle _ _ _ Hn) at 1.
  rewrite insert_take_drop by (eapply lookup_lt_Some; eauto).
  rewrite !concat_app. simpl. by rewrite <- Permutation_middle.
Qed.

(** Every execution performs each task of each thread once. *)
Lemma interleave_perm {T : Type} (oracle : list nat) (threads : list (list T)) :
  interleave oracle threads ≡ₚ concat threads.
Proof.
  revert threads. induction oracle as [|n o IH]; intros threads; simpl; [done|].
  destruct (threads !! n) as [[|t rest]|] eqn:Hn; try apply IH.
  rewrite IH. symmetry. by apply concat_insert_head.
Qed.

(** Threads of one task each: the oracle chooses the order of the tasks. *)
Lemma interleave_singletons {T : Type} (oracle : list nat) (ts : list T) :
  interleave oracle ((λ t, [t]) <$> ts) ≡ₚ ts.
Proof.
  rewrite interleave_perm.
  induction ts as [|t ts IH]; [done|]. cbn. by rewrite IH.
Qed.

(** ** Batches *)

Lemma rd_total {A : Type} `{Inhabited A} (l : list A) (i : Z) :
  0 ≤ i < Z.of_nat (length l) → rd l i = Ok (l !!! Z.to_nat i).
Proof.
  intros Hi. apply rd_Ok. split; [lia|].
  apply list_lookup_lookup_total_lt. lia.
Qed.

Lemma wr_total {A : Type} (l : list A) (i : Z) (v : A) :
  0 ≤ i < Z.of_nat (length l) → wr l i v = Ok (<[Z.to_nat i := v]> l).
Proof. intros Hi. by apply wr_Ok. Qed.

Section Batches.
Context {F : Type} `{Arith F}.

Lemma same_sizes_refl (m : Mem F) : same_sizes m m.
Proof. by repeat split. Qed.

Lemma same_sizes_trans (m1 m2 m3 : Mem F) :
  same_sizes m1 m2 → same_sizes m2 m3 → same_sizes m1 m3.
Proof. unfold same_sizes. intros (?&?&?) (?&?&?). split_and!; congruence. Qed.

Lemma batch_ok_sizes (v : variant) (rows : Z) (lengths : list Z)
  (k : KArgs F) (m m' : Mem F) :
  batch_ok v rows lengths k m → same_sizes m m' → batch_ok v rows lengths k m'.
Proof.
  intros [] (Hp & Hm & Hw). split; try done; try congruence.
  intros Hv. rewrite Hw. auto.
Qed.

(** The rows named by a batch are rows of the table. *)
Lemma batch_index (v : variant) (rows : Z) (lengths : list Z) (k : KArgs F)
  (m : Mem F) (line : Z) :
  batch_ok v rows lengths k m →
  0 ≤ line < Z.of_nat (length (indices k)) →
  0 ≤ indices k !!! Z.to_nat line < rows.
Proof.
  intros Hb Hl.
  apply (Forall_lookup_1 (λ i, 0 ≤ i < rows) (indices k) (Z.to_nat line)).
  - apply (ok_indices _ _ _ _ _ Hb).
  - apply list_lookup_lookup_total_lt. lia.
Qed.

Lemma cell_bound (D rows row e : Z) :
  0 ≤ row < rows → 0 ≤ e < D → 0 ≤ row * D + e < rows * D.
Proof. intros. nia. Qed.

Lemma cell_inj (D row e row' e' : Z) :
  0 ≤ row → 0 ≤ row' → 0 ≤ e < D → 0 ≤ e' < D →
  cell D row e = cell D row' e' → row = row' ∧ e = e'.
Proof.
  unfold cell. intros ? ? ? ? Hc.
  assert (row * D + e = row' * D + e') by nia.
  assert (row = row') by nia. split; [done | nia].
Qed.

End Batches.

(** ** The exact kernel, element by element *)

Section ExactTasks.
Context {F : Type} `{Arith F}.

Lemma adagrad_update_task (rows : Z) (lengths : list Z) (k : KArgs F)
  (m : Mem F) (t : Z * Z * Z) :
  batch_ok Exact rows lengths k m → task_ok k t →
  adagrad_update k t m = Ok (adagrad_task k t m).
Proof.
  intros Hb Ht. destruct t as [[group line] i].
  destruct Ht as (Hg & Hl & Hi); simpl in Hg, Hl, Hi.
  pose proof (batch_index _ _ _ _ _ _ Hb Hl) as Hidx.
  pose proof (cell_bound (post k) rows _ i Hidx Hi) as Hc.
  pose proof (cell_bound (post k) (len_length k) group i Hg Hi) as Hgc.
  destruct Hb. simpl in *.
  unfold adagrad_update, adagrad_task.
  rewrite (rd_total (lr k) 0) by lia. simpl.
  rewrite (rd_total (indices k) line) by lia. simpl.
  rewrite (rd_total (grad k)) by lia. simpl.
  rewrite (rd_total (param m)) by lia. simpl.
  rewrite (rd_total (param_mom m)) by lia. simpl.
  rewrite (wr_total (param_mom m)) by lia. simpl.
  rewrite (wr_total (param m)) by lia. simpl.
  done.
Qed.

Lemma adagrad_task_sizes (k : KArgs F) (t : Z * Z * Z) (m : Mem F) :
  same_sizes m (adagrad_task k t m).
Proof.
  destruct t as [[group line] i]. unfold same_sizes, adagrad_task. simpl.
  by rewrite !length_insert.
Qed.

(** A sequence of loop-body executions within the batch succeeds. *)
Lemma adagrad_tasks (rows : Z) (lengths : list Z) (k : KArgs F) (m : Mem F)
  (ts : list (Z * Z * Z)) :
  batch_ok Exact rows lengths k m → Forall (task_ok k) ts →
  foldM (adagrad_update k) ts m
  = Ok (foldl (λ m t, adagrad_task k t m) m ts)
  ∧ same_sizes m (foldl (λ m t, adagrad_task k t m) m ts).
Proof.
  intros Hb Hts.
  apply (foldM_pure (adagrad_update k) (adagrad_task k)
           (λ m', same_sizes m m')).
  - intros t m' Ht Hm'. split.
    + eapply adagrad_update_task; [by eapply batch_ok_sizes|].
      by eapply Forall_forall in Hts.
    + eapply same_sizes_trans; [done | apply adagrad_task_sizes].
  - apply same_sizes_refl.
Qed.

End ExactTasks.

(** ** The blocks and the threads of a launch *)

Lemma concat_fmap_bind {A B : Type} (f : A → list B) (l : list A) :
  concat (f <$> l) = l ≫= f.
Proof. induction l as [|a l IH]; csimpl; [done | by rewrite IH]. Qed.

Lemma bind_fmap_bind {A B C : Type} (f : A → B → list C) (ts : list B)
  (l : list A) :
  concat (l ≫= λ a, f a <$> ts) = l ≫= λ a, ts ≫= f a.
Proof.
  induction l as [|a l IH]; csimpl; [done|].
  by rewrite concat_app, IH, concat_fmap_bind.
Qed.

Lemma seqZ_of_nat (n : nat) : seqZ 0 (Z.of_nat n) = Z.of_nat <$> seq 0 n.
Proof.
  unfold seqZ. rewrite Nat2Z.id. apply list_fmap_ext. intros; simpl; lia.
Qed.

Lemma total_take_bounds (lengths : list Z) (g : nat) :
  Forall (λ x, 0 ≤ x) lengths →
  0 ≤ total (take g lengths) ≤ total (take (S g) lengths)
  ∧ total (take (S g) lengths) ≤ total lengths.
Proof.
  intros Hl. split_and!.
  - apply total_nonneg. by apply Forall_take.
  - apply total_take_le; [done | lia].
  - rewrite <- (firstn_all lengths) at 2.
    destruct (decide (S g ≤ length lengths)%nat).
    + by apply total_take_le.
    + rewrite (take_ge lengths (S g)) by lia. by rewrite firstn_all.
Qed.

Section Blocks.
Context {F : Type} `{Arith F}.

(** The prologues of a launch whose offsets are the prefix sums of
    [lengths] and do not exceed [N]. *)
Lemma prologues_scan (lengths : list Z) (k : KArgs F) (gs : list nat) :
  Forall (λ x, 0 ≤ x) lengths → total lengths ≤ INT_MAX →
  prefix_sum_length_data k
  = inclusive_scan_wrapper lengths (Z.of_nat (length lengths)) →
  total lengths ≤ N k →
  Forall (λ g, (g < length lengths)%nat) gs →
  prologues k (Z.of_nat <$> gs)
  = Ok ((λ g, (total (take g lengths), total (take (S g) lengths))) <$> gs).
Proof.
  intros Hl Hint Hk HN. induction 1 as [|g gs Hg _ IH]; csimpl; [done|].
  rewrite IH. unfold block_prologue.
  rewrite (segment_bounds_scan k lengths g) by done. csimpl.
  destruct (total_take_bounds lengths g Hl) as [[? ?] ?].
  by rewrite !(proj2 (Z.leb_le _ _)) by lia.
Qed.

Lemma launch_blocks_scan (lengths : list Z) (k : KArgs F) (d : Dim) :
  Forall (λ x, 0 ≤ x) lengths → total lengths ≤ INT_MAX →
  prefix_sum_length_data k
  = inclusive_scan_wrapper lengths (Z.of_nat (length lengths)) →
  total lengths ≤ N k →
  gridDim_x d = Z.of_nat (length lengths) →
  launch_blocks d k = Ok (segments lengths).
Proof.
  intros Hl Hint Hk HN Hd. unfold launch_blocks, segments.
  rewrite Hd, seqZ_of_nat.
  rewrite (prologues_scan lengths k) by
    (done || (apply Forall_forall; intros g Hg%elem_of_seq; lia)).
  csimpl. f_equal.
  induction (seq 0 (length lengths)) as [|g l IH]; csimpl; [done|].
  by rewrite IH.
Qed.

Lemma launch_blocks_segments (v : variant) (rows : Z) (lengths : list Z)
  (k : KArgs F) (m : Mem F) (d : Dim) :
  batch_ok v rows lengths k m → gridDim_x d = len_length k →
  launch_blocks d k = Ok (segments lengths).
Proof.
  intros Hb Hd. apply launch_blocks_scan; try apply Hb.
  by rewrite Hd, (ok_len _ _ _ _ _ Hb).
Qed.

End Blocks.

Lemma elem_of_segments (lengths : list Z) (g start end_ : Z) :
  (g, (start, end_)) ∈ segments lengths ↔
  ∃ n : nat, (n < length lengths)%nat ∧ g = Z.of_nat n
             ∧ start = total (take n lengths)
             ∧ end_ = total (take (S n) lengths).
Proof.
  unfold segments. rewrite list_elem_of_fmap. split.
  - intros (n & [= -> -> ->] & Hn%elem_of_seq). exists n. split_and!; [lia|done..].
  - intros (n & Hn & -> & -> & ->). exists n. split; [done|].
    apply elem_of_seq. lia.
Qed.

Lemma NoDup_segments (lengths : list Z) : NoDup (segments lengths).
Proof.
  unfold segments. apply NoDup_fmap_2_strong; [|apply NoDup_seq].
  intros x y _ _ [= Hxy]. lia.
Qed.

Lemma elem_of_members (lengths : list Z) (g start line : Z) :
  (g, start, line) ∈ members lengths ↔
  ∃ n : nat, (n < length lengths)%nat ∧ g = Z.of_nat n
             ∧ start = total (take n lengths)
             ∧ start ≤ line < total (take (S n) lengths).
Proof.
  unfold members. rewrite list_elem_of_bind. split.
  - intros (n & Ht & Hn%elem_of_seq).
    apply list_elem_of_fmap in Ht as (j & [= -> -> ->] & Hj%elem_of_seqZ).
    assert (Hlt : (n < length lengths)%nat) by lia.
    exists n. split_and!; try done; try lia.
    rewrite (total_take_S lengths n (lengths !!! n)); [lia|].
    by apply list_lookup_lookup_total_lt.
  - intros (n & Hn & -> & -> & Hl). exists n. split; [|apply elem_of_seq; lia].
    apply list_elem_of_fmap. exists (line - total (take n lengths)).
    split; [f_equal; lia|]. apply elem_of_seqZ.
    rewrite (total_take_S lengths n (lengths !!! n)) in Hl; [lia|].
    by apply list_lookup_lookup_total_lt.
Qed.

Lemma NoDup_members (lengths : list Z) : NoDup (members lengths).
Proof.
  unfold members. apply NoDup_bind; [| |apply NoDup_seq].
  - intros n1 n2 t _ _ (j1 & -> & _)%list_elem_of_fmap
      (j2 & [= Hn _ _] & _)%list_elem_of_fmap. lia.
  - intros n _. apply NoDup_fmap_2_strong; [|apply NoDup_seqZ].
    intros j1 j2 _ _ [= ?]. lia.
Qed.

(** A member lies within the index array, and two members are told apart
    by their positions. *)
Lemma members_bound (lengths : list Z) (g start line : Z) :
  Forall (λ x, 0 ≤ x) lengths →
  (g, start, line) ∈ members lengths →
  0 ≤ g < Z.of_nat (length lengths) ∧ 0 ≤ start ≤ line ∧ line < total lengths.
Proof.
  intros Hl (n & Hn & -> & -> & Hline)%elem_of_members.
  pose proof (total_take_bounds lengths n Hl). lia.
Qed.

Lemma members_line_inj (lengths : list Z) (g start line g' start' : Z) :
  Forall (λ x, 0 ≤ x) lengths →
  (g, start, line) ∈ members lengths →
  (g', start', line) ∈ members lengths →
  g = g' ∧ start = start'.
Proof.
  intros Hl (n & Hn & -> & -> & Hline)%elem_of_members
    (n' & Hn' & -> & -> & Hline')%elem_of_members.
  assert (n = n'); [|by subst].
  destruct (decide (n < n')%nat) as [Hlt|]; [|destruct (decide (n' < n)%nat)];
    [| |lia].
  - pose proof (total_take_le lengths (S n) n' Hl ltac:(lia)). lia.
  - pose proof (total_take_le lengths (S n') n Hl ltac:(lia)). lia.
Qed.

(** ** Launches *)

Section Launches.
Context {F : Type}.

Lemma launch_dim (v : variant) (ExactBlock : bool) (d : Dim) (k : KArgs F) :
  launch_ok v ExactBlock d k → dim_ok ExactBlock d k.
Proof. by intros [Hd _]. Qed.

(** The kernels other than the unweighted row-wise one ask for nothing
    but the shape of the launch. *)
Lemma launch_other (v : variant) (ExactBlock : bool) (d : Dim)
  (k : KArgs F) :
  v ≠ RowWise → dim_ok ExactBlock d k → launch_ok v ExactBlock d k.
Proof. intros Hv Hd. by split. Qed.

Lemma launch_strided (d : Dim) (k : KArgs F) :
  launch_ok RowWise false d k →
  blockDim_x d * blockDim_y d ≤ CAFFE_CUDA_NUM_THREADS.
Proof.
  intros [(_ & _ & _ & _ & Hy) Hr]. rewrite (Hy eq_refl).
  specialize (Hr eq_refl). simpl in Hr. lia.
Qed.

End Launches.

(** ** The threads of the exact kernel *)

Lemma elem_of_block_threads (d : Dim) (x y : Z) :
  (x, y) ∈ block_threads d
  ↔ 0 ≤ x < blockDim_x d ∧ 0 ≤ y < blockDim_y d.
Proof.
  unfold block_threads. rewrite list_elem_of_bind. split.
  - intros (y' & (x' & [= -> ->] & Hx%elem_of_seqZ)%list_elem_of_fmap
             & Hy%elem_of_seqZ). lia.
  - intros [Hx Hy]. exists y. split; [|apply elem_of_seqZ; lia].
    apply list_elem_of_fmap. exists x. split; [done|]. apply elem_of_seqZ. lia.
Qed.

Lemma NoDup_block_threads (d : Dim) : NoDup (block_threads d).
Proof.
  unfold block_threads. apply NoDup_bind; [| |apply NoDup_seqZ].
  - intros y1 y2 [x y] _ _ (? & [= _ ->] & _)%list_elem_of_fmap
      (? & [= _ ->] & _)%list_elem_of_fmap. done.
  - intros y _. apply NoDup_fmap_2_strong; [|apply NoDup_seqZ].
    by intros x1 x2 _ _ [= ->].
Qed.

Section ExactThreads.
Context {F : Type} `{Arith F}.

Lemma elem_of_sum_thread (ExactBlock : bool) (d : Dim) (k : KArgs F)
  (group start end_ x y : Z) (t : Z * Z * Z) :
  dim_ok ExactBlock d k → 0 ≤ x < blockDim_x d → 0 ≤ y < blockDim_y d →
  t ∈ sum_thread ExactBlock d k group start end_ x y ↔
  t.1.1 = group ∧ start ≤ t.1.2 < end_ ∧ 0 ≤ t.2 < post k
  ∧ (if ExactBlock
     then t.2 = x ∧ (t.1.2 - start) mod blockDim_y d = y
     else t.2 mod blockDim_x d = x).
Proof.
  intros (Hg & Hbx & Hby & Hex & Hst) Hx Hy. destruct t as [[g line] i].
  unfold sum_thread. destruct ExactBlock; simpl.
  - specialize (Hex eq_refl). rewrite list_elem_of_fmap. split.
    + intros (l & [= -> -> ->] & Hl).
      apply for_loop_elem in Hl as [Hl Hm]; [|done].
      split_and!; try lia.
      replace (l - start) with ((l - (start + y)) + y) by lia.
      rewrite <- Z.add_mod_idemp_l, Hm by lia. simpl.
      apply Z.mod_small. lia.
    + intros (-> & Hl & Hi & -> & Hm). exists line. split; [done|].
      apply for_loop_elem; [done|].
      pose proof (Z.mod_pos_bound (line - start) (blockDim_y d) Hby).
      pose proof (Z.mod_le (line - start) (blockDim_y d) ltac:(lia) Hby).
      split; [lia|].
      replace (line - (start + y)) with ((line - start) - y) by lia.
      rewrite <- Hm. rewrite Zminus_mod_idemp_r, Z.sub_diag.
      apply Z.mod_0_l. lia.
  - specialize (Hst eq_refl). rewrite list_elem_of_bind. split.
    + intros (i' & (l & [= -> -> ->] & Hl)%list_elem_of_fmap & Hi).
      apply for_loop_elem in Hl as [Hl _]; [|lia].
      apply for_loop_elem in Hi as [Hi Hm]; [|done].
      split_and!; try lia.
      replace i' with ((i' - x) + x) by lia.
      rewrite <- Z.add_mod_idemp_l, Hm by lia. simpl.
      apply Z.mod_small. lia.
    + intros (-> & Hl & Hi & Hm). exists i. split.
      * apply list_elem_of_fmap. exists line. split; [done|].
        apply for_loop_elem; [lia|]. split; [lia|]. apply Z.mod_1_r.
      * apply for_loop_elem; [done|].
        pose proof (Z.mod_pos_bound i (blockDim_x d) Hbx).
        pose proof (Z.mod_le i (blockDim_x d) ltac:(lia) Hbx).
        split; [lia|]. rewrite <- Hm.
        rewrite Zminus_mod_idemp_r, Z.sub_diag. apply Z.mod_0_l. lia.
Qed.

Lemma NoDup_sum_thread (ExactBlock : bool) (d : Dim) (k : KArgs F)
  (group start end_ x y : Z) :
  dim_ok ExactBlock d k →
  NoDup (sum_thread ExactBlock d k group start end_ x y).
Proof.
  intros (Hg & Hbx & Hby & Hex & Hst). unfold sum_thread.
  destruct ExactBlock.
  - apply NoDup_fmap_2_strong; [|by apply for_loop_NoDup].
    by intros l1 l2 _ _ [= ->].
  - apply NoDup_bind; [| |by apply for_loop_NoDup].
    + intros i1 i2 t _ _ (? & -> & _)%list_elem_of_fmap
        (? & [= _ ->] & _)%list_elem_of_fmap. done.
    + intros i _. apply NoDup_fmap_2_strong; [|apply for_loop_NoDup; lia].
      by intros l1 l2 _ _ [= ->].
Qed.

(** The loop-body executions of a launch are those of the members of its
    segments, each element once. *)
Lemma sum_threads_tasks (ExactBlock : bool) (d : Dim) (k : KArgs F)
  (lengths : list Z) :
  dim_ok ExactBlock d k →
  concat (sum_threads ExactBlock d k (segments lengths))
  ≡ₚ element_tasks (post k) (members lengths).
Proof.
  intros Hd. pose proof Hd as (Hg & Hbx & Hby & Hex & Hst).
  assert (Hc : concat (sum_threads ExactBlock d k (segments lengths))
    = segments lengths ≫= λ b, block_threads d ≫= λ xy,
        sum_thread ExactBlock d k b.1 b.2.1 b.2.2 xy.1 xy.2).
  { unfold sum_threads. induction (segments lengths) as [|[g [s e]] l IH];
      csimpl; [done|].
    by rewrite concat_app, IH, concat_fmap_bind. }
  rewrite Hc. clear Hc.
  assert (Hin : ∀ t, t ∈ (segments lengths ≫= λ b, block_threads d ≫= λ xy,
             sum_thread ExactBlock d k b.1 b.2.1 b.2.2 xy.1 xy.2)
           ↔ ∃ start, (t.1.1, start, t.1.2) ∈ members lengths
                      ∧ 0 ≤ t.2 < post k).
  { intros t. rewrite list_elem_of_bind. split.
    - intros ([g [s e]] & ([x y] & Ht & Hxy%elem_of_block_threads)
                            %list_elem_of_bind & Hb).
      simpl in Ht. apply elem_of_sum_thread in Ht; [|done|lia..].
      destruct Ht as (Hg' & Hl & Hi & _).
      apply elem_of_segments in Hb as (n & Hn & -> & -> & ->).
      exists (total (take n lengths)). split; [|done].
      apply elem_of_members. exists n. split_and!; (done || lia).
    - intros (start & (n & Hn & Hg' & -> & Hl)%elem_of_members & Hi).
      exists (Z.of_nat n, (total (take n lengths), total (take (S n) lengths))).
      split; [|apply elem_of_segments; exists n; split_and!; (done || lia)].
      cbn [fst snd]. apply list_elem_of_bind.
      pose proof (Z.mod_pos_bound (t.1.2 - total (take n lengths))
                    (blockDim_y d) Hby).
      pose proof (Z.mod_pos_bound t.2 (blockDim_x d) Hbx).
      destruct ExactBlock.
      + exists (t.2, (t.1.2 - total (take n lengths)) mod blockDim_y d).
        specialize (Hex eq_refl).
        split; [|apply elem_of_block_threads; lia]. cbn [fst snd].
        apply elem_of_sum_thread; [done|lia..|]. split_and!; (done || lia).
      + exists (t.2 mod blockDim_x d, 0).
        split; [|apply elem_of_block_threads; lia]. cbn [fst snd].
        apply elem_of_sum_thread; [done|lia..|]. split_and!; (done || lia). }
  apply NoDup_Permutation.
  - apply NoDup_bind; [| |apply NoDup_segments].
    + intros [g1 [s1 e1]] [g2 [s2 e2]] t
        (n1 & _ & -> & -> & ->)%elem_of_segments
        (n2 & _ & -> & -> & ->)%elem_of_segments
        ([x1 y1] & Ht1 & Hxy1%elem_of_block_threads)%list_elem_of_bind
        ([x2 y2] & Ht2 & Hxy2%elem_of_block_threads)%list_elem_of_bind.
      simpl in Ht1, Ht2.
      apply elem_of_sum_thread in Ht1 as (Hg1 & _); [|done|lia..].
      apply elem_of_sum_thread in Ht2 as (Hg2 & _); [|done|lia..].
      assert (n1 = n2) by lia. by subst.
    + intros [g [s e]] _. simpl.
      apply NoDup_bind; [| |apply NoDup_block_threads].
      * intros [x1 y1] [x2 y2] t Hxy1%elem_of_block_threads
          Hxy2%elem_of_block_threads Ht1 Ht2. simpl in Ht1, Ht2.
        apply elem_of_sum_thread in Ht1 as (_ & _ & _ & Ht1); [|done|lia..].
        apply elem_of_sum_thread in Ht2 as (_ & _ & _ & Ht2); [|done|lia..].
        destruct ExactBlock.
        -- f_equal; lia.
        -- specialize (Hst eq_refl). f_equal; lia.
      * intros [x y] _. by apply NoDup_sum_thread.
  - unfold element_tasks. apply NoDup_bind; [| |apply NoDup_members].
    + intros [[g1 s1] l1] [[g2 s2] l2] t Hm1 Hm2
        (e1 & -> & _)%list_elem_of_fmap (e2 & [= -> -> _] & _)%list_elem_of_fmap.
      simpl in *.
      assert (Hl : Forall (λ x, 0 ≤ x) lengths → s1 = s2).
      { intros Hl. eapply members_line_inj; eauto. }
      apply elem_of_members in Hm1 as (n1 & ? & ? & -> & ?).
      apply elem_of_members in Hm2 as (n2 & ? & ? & -> & ?).
      assert (n1 = n2) by lia. by subst.
    + intros m _. apply NoDup_fmap_2_strong; [|apply NoDup_seqZ].
      by intros e1 e2 _ _ [= ->].
  - intros t. rewrite Hin. unfold element_tasks.
    rewrite list_elem_of_bind. split.
    + intros (start & Hm & Hi). exists (t.1.1, start, t.1.2). split; [|done].
      apply list_elem_of_fmap. exists t.2. simpl. split.
      * by destruct t as [[? ?] ?].
      * apply elem_of_seqZ. lia.
    + intros ([[g s] l] & (e & -> & He%elem_of_seqZ)%list_elem_of_fmap & Hm).
      simpl. exists s. split; [done | lia].
Qed.

End ExactThreads.

(** ** Order of execution *)

(** A fold of updates that commute pairwise does not depend on the order of
    the updates. *)
Lemma foldl_permutation_comm {S T : Type} (f : T → S → S) (l1 l2 : list T)
  (s : S) :
  l1 ≡ₚ l2 → NoDup l1 →
  (∀ t1 t2 s, t1 ∈ l1 → t2 ∈ l1 → t1 ≠ t2 → f t1 (f t2 s) = f t2 (f t1 s)) →
  foldl (λ s t, f t s) s l1 = foldl (λ s t, f t s) s l2.
Proof.
  intros Hp. revert s.
  induction Hp as [|x l l' Hp IH|x y l|l l' l'' Hp1 IH1 Hp2 IH2];
    intros s Hnd Hc; simpl.
  - done.
  - apply NoDup_cons in Hnd as [_ Hnd]. apply IH; [done|].
    intros t1 t2 s' Ht1 Ht2. apply Hc; by right.
  - apply NoDup_cons in Hnd as [Hy%not_elem_of_cons _].
    rewrite (Hc x y); [done | right; left | left | naive_solver].
  - rewrite IH1, IH2; try done.
    + by rewrite <- Hp1.
    + intros t1 t2 s'. rewrite <- !Hp1. apply Hc.
Qed.

Lemma foldl_bind {S A B : Type} (f : S → B → S) (g : A → list B)
  (l : list A) (s : S) :
  foldl f s (l ≫= g) = foldl (λ s a, foldl f s (g a)) s l.
Proof.
  revert s. induction l as [|a l IH]; intros s; csimpl; [done|].
  by rewrite foldl_app, IH.
Qed.

Section ExactOrder.
Context {F : Type} `{Arith F}.

(** Two loop-body executions on different elements commute. *)
Lemma adagrad_task_comm (k : KArgs F) (t1 t2 : Z * Z * Z) (m : Mem F) :
  cell (post k) (indices k !!! Z.to_nat t1.1.2) t1.2
  ≠ cell (post k) (indices k !!! Z.to_nat t2.1.2) t2.2 →
  adagrad_task k t1 (adagrad_task k t2 m)
  = adagrad_task k t2 (adagrad_task k t1 m).
Proof.
  destruct t1 as [[g1 l1] i1], t2 as [[g2 l2] i2]. simpl. intros Hc.
  unfold adagrad_task, effective_grad. simpl.
  rewrite !list_lookup_total_insert_ne by done.
  f_equal; by apply list_insert_insert_ne.
Qed.

(** The loop-body executions of a batch whose indices are pairwise
    distinct touch pairwise distinct elements. *)
Lemma element_tasks_cells (v : variant) (rows : Z) (lengths : list Z)
  (k : KArgs F) (m : Mem F) (t1 t2 : Z * Z * Z) :
  batch_ok v rows lengths k m → NoDup (indices k) →
  t1 ∈ element_tasks (post k) (members lengths) →
  t2 ∈ element_tasks (post k) (members lengths) →
  t1 ≠ t2 →
  cell (post k) (indices k !!! Z.to_nat t1.1.2) t1.2
  ≠ cell (post k) (indices k !!! Z.to_nat t2.1.2) t2.2.
Proof.
  intros Hb Hnd Ht1 Ht2 Hne Hc.
  pose proof (ok_lengths _ _ _ _ _ Hb) as Hl.
  pose proof (ok_total _ _ _ _ _ Hb) as Htot.
  unfold element_tasks in Ht1, Ht2.
  apply list_elem_of_bind in Ht1
    as ([[g1 s1] l1] & (e1 & -> & He1%elem_of_seqZ)%list_elem_of_fmap & Hm1).
  apply list_elem_of_bind in Ht2
    as ([[g2 s2] l2] & (e2 & -> & He2%elem_of_seqZ)%list_elem_of_fmap & Hm2).
  simpl in *.
  pose proof (members_bound _ _ _ _ Hl Hm1) as (? & ? & ?).
  pose proof (members_bound _ _ _ _ Hl Hm2) as (? & ? & ?).
  pose proof (batch_index _ _ _ _ _ l1 Hb ltac:(lia)).
  pose proof (batch_index _ _ _ _ _ l2 Hb ltac:(lia)).
  apply cell_inj in Hc as [Hi ->]; [|lia..].
  assert (Z.to_nat l1 = Z.to_nat l2).
  { eapply (NoDup_lookup (indices k)); [done| |].
    - apply list_lookup_lookup_total_lt. lia.
    - rewrite Hi. apply list_lookup_lookup_total_lt. lia. }
  assert (l1 = l2) as -> by lia.
  destruct (members_line_inj _ _ _ _ _ _ Hl Hm1 Hm2) as [-> ->]. done.
Qed.

Lemma element_tasks_ok (v : variant) (rows : Z) (lengths : list Z)
  (k : KArgs F) (m : Mem F) (ms : list (Z * Z * Z)) :
  batch_ok v rows lengths k m → ms ≡ₚ members lengths →
  Forall (task_ok k) (element_tasks (post k) ms).
Proof.
  intros Hb Hms. apply Forall_forall. intros t Ht.
  unfold element_tasks in Ht.
  apply list_elem_of_bind in Ht
    as ([[g s] l] & (e & -> & He%elem_of_seqZ)%list_elem_of_fmap & Hm).
  rewrite Hms in Hm.
  pose proof (members_bound _ _ _ _ (ok_lengths _ _ _ _ _ Hb) Hm) as (?&?&?).
  pose proof (ok_total _ _ _ _ _ Hb). pose proof (ok_len _ _ _ _ _ Hb).
  unfold task_ok. simpl. lia.
Qed.

(** The exact kernel performs the loop-body executions of the members of
    the batch, in the order chosen by the hardware. *)
Lemma exact_kernel_tasks (ExactBlock : bool) (d : Dim) (oracle : list nat)
  (rows : Z) (lengths : list Z) (k : KArgs F) (m : Mem F) :
  batch_ok Exact rows lengths k m → dim_ok ExactBlock d k →
  ∃ ts, ts ≡ₚ element_tasks (post k) (members lengths)
        ∧ sparse_adagrad_fused_length_sum_gradient_kernel
            ExactBlock d oracle k m
          = Ok (foldl (λ m t, adagrad_task k t m) m ts)
        ∧ same_sizes m (foldl (λ m t, adagrad_task k t m) m ts).
Proof.
  intros Hb Hd.
  exists (interleave oracle (sum_threads ExactBlock d k (segments lengths))).
  assert (Hp : interleave oracle (sum_threads ExactBlock d k (segments lengths))
               ≡ₚ element_tasks (post k) (members lengths)).
  { rewrite interleave_perm. by apply sum_threads_tasks. }
  split; [done|].
  unfold sparse_adagrad_fused_length_sum_gradient_kernel.
  rewrite (launch_blocks_segments Exact rows lengths k m); [|done|apply Hd].
  simpl. apply (adagrad_tasks rows lengths); [done|].
  rewrite Hp. by eapply element_tasks_ok.
Qed.

End ExactOrder.

(** ** The exact kernel against the reference *)

Lemma NoDup_element_tasks (D : Z) (lengths : list Z) :
  Forall (λ x, 0 ≤ x) lengths →
  NoDup (element_tasks D (members lengths)).
Proof.
  intros Hl. unfold element_tasks. apply NoDup_bind; [| |apply NoDup_members].
  - intros [[g1 s1] l1] [[g2 s2] l2] t Hm1 Hm2
      (e1 & -> & _)%list_elem_of_fmap (e2 & [= -> -> _] & _)%list_elem_of_fmap.
    simpl in *. by destruct (members_line_inj _ _ _ _ _ _ Hl Hm1 Hm2) as [_ ->].
  - intros m _. apply NoDup_fmap_2_strong; [|apply NoDup_seqZ].
    by intros e1 e2 _ _ [= ->].
Qed.

Lemma cell_ne (D row e e' : Z) :
  0 ≤ row → 0 ≤ D → 0 ≤ e → 0 ≤ e' → e ≠ e' → cell D row e ≠ cell D row e'.
Proof. unfold cell. intros. nia. Qed.

Section ReferenceSizes.
Context {F : Type} `{Arith F}.

Lemma map_row_length (D row : Z) (f : Z → F → F) (table : list F) :
  length (map_row D row f table) = length table.
Proof.
  unfold map_row. generalize table at 2 3.
  induction (seqZ 0 D) as [|e es IH]; intros l; simpl; [done|].
  by rewrite IH, length_insert.
Qed.

Lemma reference_member_sizes (v : variant) (k : KArgs F) (t : Z * Z * Z)
  (m : Mem F) :
  same_sizes m (reference_member v k t m).
Proof.
  destruct t as [[g s] l].
  unfold same_sizes; destruct v; simpl;
    by rewrite ?map_row_length, ?length_insert.
Qed.

End ReferenceSizes.

Section ExactReference.
Context {F : Type} `{ExactArith F}.

(** The rule of section 4.2 as the kernel evaluates it. *)
Lemma mom_new_rule (gi a : F) : narrow (mom_new gi a) = fadd a (fmul gi gi).
Proof. unfold mom_new. by rewrite narrow_id, fadd_comm. Qed.

Lemma param_new_rule (k : KArgs F) (LR gi a p : F) :
  narrow (param_new k LR gi a p)
  = fadd p (fdiv (fmul LR gi)
              (fadd (fsqrt (fadd a (fmul gi gi))) (epsilon k))).
Proof.
  unfold param_new, mom_new.
  by rewrite narrow_id, fadd_comm, (fadd_comm (fmul gi gi)).
Qed.

(** The loop-body executions of one member, element after element, update
    its row as the reference does. *)
Lemma exact_row_reference (k : KArgs F) (g start line : Z) (m0 : Mem F)
  (es : list Z) (m : Mem F) :
  let row := indices k !!! Z.to_nat line in
  let D := post k in
  let accumulator_new e a :=
    fadd a (fmul (effective_grad k m0 g row e) (effective_grad k m0 g row e)) in
  0 ≤ row → 0 ≤ D → NoDup es → Forall (λ e, 0 ≤ e) es →
  (∀ e, e ∈ es →
     param m !!! cell D row e = param m0 !!! cell D row e
     ∧ param_mom m !!! cell D row e = param_mom m0 !!! cell D row e) →
  foldl (λ m t, adagrad_task k t m) m ((λ e, (g, line, e)) <$> es)
  = {| param :=
         foldl (λ l e,
                  <[cell D row e :=
                      fadd (param m0 !!! cell D row e)
                        (fdiv (fmul (learning_rate k)
                                 (effective_grad k m0 g row e))
                           (fadd (fsqrt (accumulator_new e
                                           (param_mom m0 !!! cell D row e)))
                              (epsilon k)))]> l)
           (param m) es;
       param_mom :=
         foldl (λ l e,
                  <[cell D row e :=
                      accumulator_new e (param_mom m0 !!! cell D row e)]> l)
           (param_mom m) es;
       weights_grad_out := weights_grad_out m |}.
Proof.
  intros row D accumulator_new Hrow HD Hnd Hpos. revert m.
  induction es as [|e es IH]; intros m Hm.
  - by destruct m.
  - rewrite fmap_cons. cbn [foldl].
    apply NoDup_cons in Hnd as [He Hnd].
    apply Forall_cons in Hpos as [He0 Hpos].
    destruct (Hm e) as [Hp Ha]; [left|].
    assert (Hstep : adagrad_task k (g, line, e) m
      = {| param :=
             <[cell D row e :=
                 fadd (param m0 !!! cell D row e)
                   (fdiv (fmul (learning_rate k) (effective_grad k m0 g row e))
                      (fadd (fsqrt (accumulator_new e
                                      (param_mom m0 !!! cell D row e)))
                         (epsilon k)))]> (param m);
           param_mom :=
             <[cell D row e :=
                 accumulator_new e (param_mom m0 !!! cell D row e)]>
               (param_mom m);
           weights_grad_out := weights_grad_out m |}).
    { unfold adagrad_task. fold row D.
      rewrite mom_new_rule, param_new_rule.
      unfold accumulator_new, effective_grad. fold row D.
      by rewrite Hp, Ha. }
    rewrite IH; [| done | done |].
    + by rewrite Hstep.
    + intros e' He'. rewrite Hstep. simpl.
      assert (cell D row e ≠ cell D row e').
      { apply cell_ne; try done.
        - by eapply Forall_forall in Hpos.
        - intros ->. done. }
      rewrite !list_lookup_total_insert_ne by done.
      apply Hm. by right.
Qed.

Lemma exact_member_reference (k : KArgs F) (g start line : Z) (m : Mem F) :
  0 ≤ indices k !!! Z.to_nat line → 0 ≤ post k →
  foldl (λ m t, adagrad_task k t m) m
    ((λ e, (g, line, e)) <$> seqZ 0 (post k))
  = reference_member Exact k (g, start, line) m.
Proof.
  intros Hrow HD.
  rewrite (exact_row_reference k g start line m); try done.
  - apply NoDup_seqZ.
  - apply Forall_forall. intros e He%elem_of_seqZ. lia.
Qed.

(** C1 for the exact kernel. *)
Lemma exact_kernel_reference (ExactBlock : bool) (d : Dim)
  (oracle : list nat) (rows : Z) (lengths : list Z) (k : KArgs F)
  (m : Mem F) (order : list (Z * Z * Z)) :
  batch_ok Exact rows lengths k m → dim_ok ExactBlock d k →
  NoDup (indices k) → order ≡ₚ members lengths →
  sparse_adagrad_fused_length_sum_gradient_kernel ExactBlock d oracle k m
  = Ok (reference Exact k order m).
Proof.
  intros Hb Hd Hnd Ho.
  destruct (exact_kernel_tasks ExactBlock d oracle rows lengths k m Hb Hd)
    as (ts & Hts & -> & _).
  f_equal.
  pose proof (ok_lengths _ _ _ _ _ Hb) as Hl.
  assert (Hts' : element_tasks (post k) (members lengths)
                 ≡ₚ element_tasks (post k) order).
  { unfold element_tasks. by rewrite Ho. }
  rewrite <- (foldl_permutation_comm (adagrad_task k)
                (element_tasks (post k) (members lengths)) ts);
    [|done|by apply NoDup_element_tasks|].
  2:{ intros t1 t2 s Ht1 Ht2 Hne. apply adagrad_task_comm.
      by eapply element_tasks_cells. }
  rewrite (foldl_permutation_comm (adagrad_task k)
             (element_tasks (post k) (members lengths))
             (element_tasks (post k) order));
    [|done|by apply NoDup_element_tasks|].
  2:{ intros t1 t2 s Ht1 Ht2 Hne. apply adagrad_task_comm.
      by eapply element_tasks_cells. }
  unfold element_tasks, reference. rewrite foldl_bind.
  assert (Hin : Forall (λ t, t ∈ members lengths) order).
  { apply Forall_forall. intros t. by rewrite Ho. }
  clear Ho Hts Hts'. revert m Hb.
  induction Hin as [|[[g s] l] order Ht _ IH]; intros m Hb; simpl; [done|].
  pose proof (members_bound _ _ _ _ Hl Ht) as (? & ? & ?).
  pose proof (ok_total _ _ _ _ _ Hb).
  pose proof (batch_index _ _ _ _ _ l Hb ltac:(lia)).
  pose proof (ok_post _ _ _ _ _ Hb).
  rewrite (exact_member_reference k g s l) by lia.
  apply IH. eapply batch_ok_sizes; [done|].
  apply (reference_member_sizes Exact k (g, s, l) m).
Qed.

End ExactReference.

(** ** Rows of a table *)

Section StoreCells.
Context {F : Type} `{Arith F}.

Lemma store_cells_length (D row : Z) (f : Z → F) (es : list Z) (l : list F) :
  length (store_cells D row f es l) = length l.
Proof.
  unfold store_cells. revert l.
  induction es as [|e es IH]; intros l; simpl; [done|].
  by rewrite IH, length_insert.
Qed.

Lemma store_cells_app (D row : Z) (f : Z → F) (es1 es2 : list Z)
  (l : list F) :
  store_cells D row f (es1 ++ es2) l
  = store_cells D row f es2 (store_cells D row f es1 l).
Proof. unfold store_cells. apply foldl_app. Qed.

(** The elements outside the stored ones keep their values. *)
Lemma store_cells_out (D row : Z) (f : Z → F) (es : list Z) (l : list F)
  (n : nat) :
  n ∉ cell D row <$> es → store_cells D row f es l !! n = l !! n.
Proof.
  unfold store_cells. revert l.
  induction es as [|e es IH]; intros l Hn; simpl; [done|].
  rewrite fmap_cons in Hn. apply not_elem_of_cons in Hn as [Hne Hn].
  rewrite IH by done. by apply list_lookup_insert_ne.
Qed.

Lemma store_cells_out_total (D row : Z) (f : Z → F) (es : list Z)
  (l : list F) (n : nat) :
  n ∉ cell D row <$> es → store_cells D row f es l !!! n = l !!! n.
Proof.
  intros Hn. by rewrite !list_lookup_total_alt, store_cells_out.
Qed.

Lemma cell_not_in (D row e : Z) (es : list Z) :
  0 ≤ row → 0 ≤ D → 0 ≤ e → Forall (λ e, 0 ≤ e) es → e ∉ es →
  cell D row e ∉ cell D row <$> es.
Proof.
  intros Hrow HD He Hes Hn (e' & Hc & He')%list_elem_of_fmap.
  assert (e = e'); [|by subst].
  eapply Forall_forall in Hes; [|done]. unfold cell in Hc. nia.
Qed.

Lemma lookup_insert_const {A B : Type} (l : list A) (i j : nat) (v : A)
  (x : B) :
  (λ _, x) <$> <[i := v]> l !! j = (λ _, x) <$> l !! j.
Proof.
  destruct (decide (i = j)) as [->|].
  - destruct (decide (j < length l)%nat).
    + rewrite list_lookup_insert_eq by done.
      by destruct (lookup_lt_is_Some_2 l j) as [? ->].
    + by rewrite list_insert_ge by lia.
  - by rewrite list_lookup_insert_ne.
Qed.

(** A stored element holds the value stored. *)
Lemma store_cells_in (D row : Z) (f : Z → F) (es : list Z) (l : list F)
  (e : Z) :
  0 ≤ row → 0 ≤ D → Forall (λ e, 0 ≤ e) es → e ∈ es →
  store_cells D row f es l !! cell D row e
  = (λ _, f e) <$> l !! cell D row e.
Proof.
  intros Hrow HD. revert l.
  induction es as [|e0 es IH]; intros l Hes He; [by apply elem_of_nil in He|].
  apply Forall_cons in Hes as [He0 Hes].
  change (store_cells D row f (e0 :: es) l)
    with (store_cells D row f es (<[cell D row e0 := f e0]> l)).
  destruct (decide (e ∈ es)) as [Hin|Hout].
  - rewrite IH by done. apply lookup_insert_const.
  - apply elem_of_cons in He as [->|]; [|done].
    rewrite store_cells_out by (by apply cell_not_in).
    destruct (decide (cell D row e0 < length l)%nat).
    + rewrite list_lookup_insert_eq by lia.
      destruct (lookup_lt_is_Some_2 l (cell D row e0)) as [? ->]; [lia|].
      reflexivity.
    + rewrite list_insert_ge by lia. by rewrite lookup_ge_None_2 by lia.
Qed.

(** What is stored depends on the set of the elements only. *)
Lemma store_cells_set (D row : Z) (f : Z → F) (es es' : list Z)
  (l : list F) :
  0 ≤ row → 0 ≤ D → Forall (λ e, 0 ≤ e) es → (∀ e, e ∈ es ↔ e ∈ es') →
  store_cells D row f es l = store_cells D row f es' l.
Proof.
  intros Hrow HD Hes Hset.
  assert (Hes' : Forall (λ e, 0 ≤ e) es').
  { apply Forall_forall. intros e He%Hset. by eapply Forall_forall in Hes. }
  apply list_eq. intros n.
  destruct (decide (n ∈ cell D row <$> es)) as [Hin|Hout].
  - apply list_elem_of_fmap in Hin as (e & -> & He).
    rewrite !store_cells_in; try done. by apply Hset.
  - rewrite !store_cells_out; try done.
    intros (e & -> & He)%list_elem_of_fmap. apply Hout.
    apply list_elem_of_fmap. exists e. split; [done | by apply Hset].
Qed.

(** The elements visited by the threads of a one-dimensional block are
    those of the row. *)
Lemma elem_of_lane_elements (d : Dim) (k : KArgs F) (e : Z) :
  0 < blockDim_x d →
  e ∈ lane_elements d k ↔ 0 ≤ e < post k.
Proof.
  intros Hbx. unfold lane_elements. rewrite list_elem_of_bind. split.
  - intros (tid & He & Htid%elem_of_seqZ).
    apply for_loop_elem in He; [lia | done].
  - intros He. exists (e mod blockDim_x d).
    pose proof (Z.mod_pos_bound e (blockDim_x d) Hbx).
    pose proof (Z.mod_le e (blockDim_x d) ltac:(lia) Hbx).
    split; [|apply elem_of_seqZ; lia].
    apply for_loop_elem; [done|]. split; [lia|].
    rewrite Zminus_mod_idemp_r, Z.sub_diag. apply Z.mod_0_l. lia.
Qed.

Lemma NoDup_lane_elements (d : Dim) (k : KArgs F) :
  0 < blockDim_x d → NoDup (lane_elements d k).
Proof.
  intros Hbx. unfold lane_elements. apply NoDup_bind; [| |apply NoDup_seqZ].
  - intros t1 t2 e Ht1%elem_of_seqZ Ht2%elem_of_seqZ He1 He2.
    apply for_loop_elem in He1 as [? Hm1]; [|done].
    apply for_loop_elem in He2 as [? Hm2]; [|done].
    apply Z.mod_divide in Hm1 as [q1 Hq1]; [|lia].
    apply Z.mod_divide in Hm2 as [q2 Hq2]; [|lia].
    assert (q1 = q2) by nia. nia.
  - intros tid _. by apply for_loop_NoDup.
Qed.

Lemma store_cells_lanes (d : Dim) (k : KArgs F) (row : Z) (f : Z → F)
  (l : list F) :
  0 < blockDim_x d → 0 ≤ row → 0 ≤ post k →
  store_cells (post k) row f (lane_elements d k) l
  = store_cells (post k) row f (seqZ 0 (post k)) l.
Proof.
  intros Hbx Hrow HD. apply store_cells_set; try done.
  - apply Forall_forall. intros e He%elem_of_lane_elements; [lia | done].
  - intros e. rewrite elem_of_lane_elements, elem_of_seqZ by done. lia.
Qed.

End StoreCells.

(** ** The weighted exact kernel, member by member *)

Section WeightedMember.
Context {F : Type} `{Arith F}.

Lemma batch_bounds (v : variant) (rows : Z) (lengths : list Z) (k : KArgs F)
  (m0 m : Mem F) (group index e : Z) :
  batch_ok v rows lengths k m0 → same_sizes m0 m →
  0 ≤ group < len_length k → 0 ≤ index < rows → 0 ≤ e < post k →
  0 ≤ group * post k + e < Z.of_nat (length (grad k))
  ∧ 0 ≤ index * post k + e < Z.of_nat (length (param m))
  ∧ (rowwise v = false →
     0 ≤ index * post k + e < Z.of_nat (length (param_mom m)))
  ∧ (rowwise v = true → 0 ≤ index < Z.of_nat (length (param_mom m)))
  ∧ 0 ≤ 0 < Z.of_nat (length (lr k)).
Proof.
  intros Hb (Hp & Hm & _) Hg Hi He.
  pose proof (cell_bound (post k) rows index e Hi He).
  pose proof (cell_bound (post k) (len_length k) group e Hg He).
  destruct Hb. rewrite Hp, Hm.
  split_and!; try lia; intros Hv; rewrite Hv in *; lia.
Qed.

Lemma weighted_update_lane (rows : Z) (lengths : list Z) (k : KArgs F)
  (m0 : Mem F) (w : F) (group index : Z) (es : list Z) (w_grad : F)
  (m : Mem F) :
  let D := post k in
  batch_ok WeightedExact rows lengths k m0 → same_sizes m0 m →
  0 ≤ group < len_length k → 0 ≤ index < rows →
  NoDup es → Forall (λ e, 0 ≤ e < D) es →
  (∀ e, e ∈ es →
     param m !!! cell D index e = param m0 !!! cell D index e
     ∧ param_mom m !!! cell D index e = param_mom m0 !!! cell D index e) →
  foldM (weighted_update k (learning_rate k) w group index) es (w_grad, m)
  = Ok (foldl (λ w_grad i,
                 fadd w_grad (fmul (segment_grad k group i)
                                (param m0 !!! cell D index i)))
          w_grad es,
        {| param :=
             store_cells D index
               (λ e, narrow (param_new k (learning_rate k)
                               (out_grad k m0 w group index e)
                               (param_mom m0 !!! cell D index e)
                               (param m0 !!! cell D index e)))
               es (param m);
           param_mom :=
             store_cells D index
               (λ e, narrow (mom_new (out_grad k m0 w group index e)
                               (param_mom m0 !!! cell D index e)))
               es (param_mom m);
           weights_grad_out := weights_grad_out m |}).
Proof.
  intros D Hb Hs Hg Hi Hnd Hes. revert w_grad m Hs.
  induction es as [|e es IH]; intros w_grad m Hs Hm.
  - by destruct m.
  - apply NoDup_cons in Hnd as [He Hnd].
    apply Forall_cons in Hes as [He0 Hes].
    destruct (Hm e) as [Hp Ha]; [left|].
    destruct (batch_bounds _ _ _ _ _ _ group index e Hb Hs)
      as (Bg & Bp & Bm & _); try done.
    specialize (Bm eq_refl).
    cbn [foldM].
    assert (Hstep :
      weighted_update k (learning_rate k) w group index e (w_grad, m)
      = Ok (fadd w_grad (fmul (segment_grad k group e)
                           (param m0 !!! cell D index e)),
            {| param :=
                 <[cell D index e :=
                     narrow (param_new k (learning_rate k)
                               (out_grad k m0 w group index e)
                               (param_mom m0 !!! cell D index e)
                               (param m0 !!! cell D index e))]> (param m);
               param_mom :=
                 <[cell D index e :=
                     narrow (mom_new (out_grad k m0 w group index e)
                               (param_mom m0 !!! cell D index e))]>
                   (param_mom m);
               weights_grad_out := weights_grad_out m |})).
    { unfold weighted_update.
      rewrite (rd_total (grad k)) by done. cbn [mbind result_bind].
      rewrite (rd_total (param m)) by done. cbn [mbind result_bind].
      rewrite (rd_total (param_mom m)) by done. cbn [mbind result_bind].
      rewrite (wr_total (param_mom m)) by done. cbn [mbind result_bind].
      rewrite (wr_total (param m)) by done. cbn [mbind result_bind].
      unfold out_grad, segment_grad. fold D.
      change (Z.to_nat (index * D + e)) with (cell D index e).
      by rewrite Hp, Ha. }
    rewrite Hstep. cbn [mbind result_bind].
    rewrite IH; [done | done | done | |].
    + destruct Hs as (? & ? & ?). unfold same_sizes. simpl.
      by rewrite !length_insert.
    + intros e' He'. simpl.
      assert (cell D index e ≠ cell D index e').
      { eapply Forall_forall in Hes; [|done].
        apply cell_ne; try lia. intros ->. done. }
      rewrite !list_lookup_total_insert_ne by done.
      apply Hm. by right.
Qed.


Lemma for_loop_bounds (tid D bx : Z) :
  0 ≤ tid → 0 < bx → Forall (λ e, 0 ≤ e < D) (for_loop tid D bx).
Proof.
  intros. apply Forall_forall. intros e He%for_loop_elem; [lia | done].
Qed.

Lemma weighted_update_lanes (d : Dim) (rows : Z) (lengths : list Z)
  (k : KArgs F) (m0 : Mem F) (w : F) (group index : Z) (tids : list Z)
  (m : Mem F) :
  let D := post k in
  let es := tids ≫= λ tid, for_loop tid D (blockDim_x d) in
  batch_ok WeightedExact rows lengths k m0 → same_sizes m0 m →
  0 ≤ group < len_length k → 0 ≤ index < rows →
  0 < blockDim_x d → Forall (λ tid, 0 ≤ tid) tids → NoDup es →
  (∀ e, e ∈ es →
     param m !!! cell D index e = param m0 !!! cell D index e
     ∧ param_mom m !!! cell D index e = param_mom m0 !!! cell D index e) →
  lanes (λ tid m,
           foldM (weighted_update k (learning_rate k) w group index)
             (for_loop tid D (blockDim_x d)) (fzero, m)) tids m
  = Ok (lane_w_grad d k m0 group index <$> tids,
        {| param :=
             store_cells D index
               (λ e, narrow (param_new k (learning_rate k)
                               (out_grad k m0 w group index e)
                               (param_mom m0 !!! cell D index e)
                               (param m0 !!! cell D index e)))
               es (param m);
           param_mom :=
             store_cells D index
               (λ e, narrow (mom_new (out_grad k m0 w group index e)
                               (param_mom m0 !!! cell D index e)))
               es (param_mom m);
           weights_grad_out := weights_grad_out m |}).
Proof.
  intros D es Hb Hs Hg Hi Hbx Htids. subst es. revert m Hs.
  induction tids as [|tid tids IH]; intros m Hs Hnd Hm.
  - by destruct m.
  - apply Forall_cons in Htids as [Htid Htids].
    rewrite bind_cons in Hnd, Hm. rewrite bind_cons.
    apply NoDup_app in Hnd as (Hnd1 & Hdisj & Hnd2).
    pose proof (for_loop_bounds tid D (blockDim_x d) Htid Hbx) as Hes.
    cbn [lanes].
    rewrite (weighted_update_lane rows lengths k m0); try done;
      [|intros e He; apply Hm, elem_of_app; by left].
    cbn [mbind result_bind].
    rewrite IH; try done.
    + cbn [mbind result_bind]. by rewrite !store_cells_app.
    + destruct Hs as (? & ? & ?). unfold same_sizes. simpl.
      by rewrite !store_cells_length.
    + intros e He. simpl.
      assert (cell D index e
              ∉ cell D index <$> for_loop tid D (blockDim_x d)).
      { assert (0 ≤ e).
        { apply list_elem_of_bind in He as (t' & He & Ht').
          eapply Forall_forall in Htids; [|done].
          apply for_loop_elem in He; [lia | done]. }
        pose proof (ok_post _ _ _ _ _ Hb).
        apply cell_not_in; try (fold D; lia).
        - eapply Forall_impl; [done|]. simpl. lia.
        - intros He'. by apply (Hdisj e). }
      rewrite !store_cells_out_total by done.
      apply Hm, elem_of_app. by right.
Qed.

(** A member update within the batch succeeds. *)
Lemma weighted_sum_member_task (d : Dim) (rows : Z) (lengths : list Z)
  (k : KArgs F) (m : Mem F) (t : Z * Z * Z) :
  batch_ok WeightedExact rows lengths k m → 0 < blockDim_x d →
  member_ok k t →
  weighted_sum_member d k t m = Ok (weighted_sum_task d k t m).
Proof.
  intros Hb Hbx Ht. destruct t as [[group start] line].
  destruct Ht as (Hg & Hs & Hl); simpl in Hg, Hs, Hl.
  pose proof (batch_index _ _ _ _ _ line Hb ltac:(lia)) as Hidx.
  pose proof (ok_lr _ _ _ _ _ Hb) as Hlr.
  pose proof (ok_weights _ _ _ _ _ Hb eq_refl) as Hw.
  pose proof (ok_wgo _ _ _ _ _ Hb eq_refl) as Hwgo.
  unfold weighted_sum_member, weighted_sum_task.
  rewrite (rd_total (lr k) 0) by lia. cbn [mbind result_bind].
  rewrite (rd_total (indices k) line) by lia. cbn [mbind result_bind].
  rewrite (rd_total (weights k)) by lia. cbn [mbind result_bind].
  change (lr k !!! Z.to_nat 0) with (learning_rate k).
  rewrite (weighted_update_lanes d rows lengths k m); try done.
  - cbn [mbind result_bind]. simpl.
    rewrite (wr_total (weights_grad_out m)) by lia. done.
  - apply Forall_forall. intros tid Htid%elem_of_seqZ. lia.
  - by apply NoDup_lane_elements.
Qed.

Lemma weighted_sum_task_sizes (d : Dim) (k : KArgs F) (t : Z * Z * Z)
  (m : Mem F) :
  same_sizes m (weighted_sum_task d k t m).
Proof.
  destruct t as [[g s] l]. unfold same_sizes, weighted_sum_task. simpl.
  by rewrite !store_cells_length, length_insert.
Qed.

End WeightedMember.

(** ** The row-wise kernel, member by member *)

Lemma foldM_bind {A B S : Type} (f : B → S → result S) (g : A → list B)
  (l : list A) (s : S) :
  foldM f (l ≫= g) s = foldM (λ a s, foldM f (g a) s) l s.
Proof.
  revert s. induction l as [|a l IH]; intros s; [done|].
  rewrite bind_cons, foldM_app. cbn [foldM].
  destruct (foldM f (g a) s); cbn [mbind result_bind]; auto.
Qed.

Lemma foldM_fmap {A B S : Type} (f : B → S → result S) (g : A → B)
  (l : list A) (s : S) :
  foldM f (g <$> l) s = foldM (λ a s, f (g a) s) l s.
Proof.
  revert s. induction l as [|a l IH]; intros s; [done|].
  rewrite fmap_cons. cbn [foldM].
  destruct (f (g a) s); cbn [mbind result_bind]; auto.
Qed.

Lemma mapM_pure {A B : Type} (f : A → result B) (g : A → B) (l : list A) :
  (∀ a, a ∈ l → f a = Ok (g a)) → mapM f l = Ok (g <$> l).
Proof.
  induction l as [|a l IH]; intros Hf; [done|].
  cbn [mapM]. rewrite Hf by left. cbn [mbind result_bind].
  rewrite IH; [done|]. intros. apply Hf. by right.
Qed.

Lemma zip_fmap_r {A B : Type} (g : A → B) (l : list A) :
  zip l (g <$> l) = (λ a, (a, g a)) <$> l.
Proof. induction l as [|a l IH]; csimpl; [done | by rewrite IH]. Qed.

Section CellLoop.
Context {F : Type} `{Arith F}.

(** A loop over elements of a row whose body stores [val e] in element
    [e], provided that element still holds its initial value. *)
Lemma cell_loop (D row : Z) (body : Z → list F → result (list F))
  (val : Z → F) (pa0 : list F) (es : list Z) (pa : list F) :
  0 ≤ row → 0 ≤ D → NoDup es → Forall (λ e, 0 ≤ e) es →
  (∀ e pa, e ∈ es → length pa = length pa0 →
     pa !!! cell D row e = pa0 !!! cell D row e →
     body e pa = Ok (<[cell D row e := val e]> pa)) →
  length pa = length pa0 →
  (∀ e, e ∈ es → pa !!! cell D row e = pa0 !!! cell D row e) →
  foldM body es pa = Ok (store_cells D row val es pa).
Proof.
  intros Hrow HD Hnd Hes Hbody. revert pa.
  induction es as [|e es IH]; intros pa Hlen Hpa; [done|].
  apply NoDup_cons in Hnd as [He Hnd].
  apply Forall_cons in Hes as [He0 Hes].
  cbn [foldM]. rewrite Hbody; [|by left|done|apply Hpa; by left].
  cbn [mbind result_bind].
  apply IH; try done.
  - intros e' pa' He'. apply Hbody. by right.
  - by rewrite length_insert.
  - intros e' He'.
    rewrite list_lookup_total_insert_ne; [apply Hpa; by right|].
    eapply Forall_forall in Hes; [|done].
    apply cell_ne; try done. by intros ->.
Qed.

(** The same with a register: the body also accumulates [acc e]. *)
Lemma cell_loop_acc {A : Type} (D row : Z)
  (body : Z → A * list F → result (A * list F))
  (acc : Z → A → A) (val : Z → F) (pa0 : list F) (es : list Z)
  (a : A) (pa : list F) :
  0 ≤ row → 0 ≤ D → NoDup es → Forall (λ e, 0 ≤ e) es →
  (∀ e a pa, e ∈ es → length pa = length pa0 →
     pa !!! cell D row e = pa0 !!! cell D row e →
     body e (a, pa) = Ok (acc e a, <[cell D row e := val e]> pa)) →
  length pa = length pa0 →
  (∀ e, e ∈ es → pa !!! cell D row e = pa0 !!! cell D row e) →
  foldM body es (a, pa)
  = Ok (foldl (λ a e, acc e a) a es, store_cells D row val es pa).
Proof.
  intros Hrow HD Hnd Hes Hbody. revert a pa.
  induction es as [|e es IH]; intros a pa Hlen Hpa; [done|].
  apply NoDup_cons in Hnd as [He Hnd].
  apply Forall_cons in Hes as [He0 Hes].
  cbn [foldM]. rewrite Hbody; [|by left|done|apply Hpa; by left].
  cbn [mbind result_bind].
  apply IH; try done.
  - intros e' a' pa' He'. apply Hbody. by right.
  - by rewrite length_insert.
  - intros e' He'.
    rewrite list_lookup_total_insert_ne; [apply Hpa; by right|].
    eapply Forall_forall in Hes; [|done].
    apply cell_ne; try done. by intros ->.
Qed.

(** The threads of a block, each with its register. *)
Lemma cell_lanes {A : Type} (D row bx : Z)
  (body : Z → A * list F → result (A * list F))
  (acc : Z → A → A) (val : Z → F) (a0 : A) (pa0 : list F) (tids : list Z)
  (pa : list F) :
  let es := tids ≫= λ tid, for_loop tid D bx in
  0 ≤ row → 0 ≤ D → 0 < bx → Forall (λ tid, 0 ≤ tid) tids → NoDup es →
  (∀ e a pa, e ∈ es → length pa = length pa0 →
     pa !!! cell D row e = pa0 !!! cell D row e →
     body e (a, pa) = Ok (acc e a, <[cell D row e := val e]> pa)) →
  length pa = length pa0 →
  (∀ e, e ∈ es → pa !!! cell D row e = pa0 !!! cell D row e) →
  lanes (λ tid pa, foldM body (for_loop tid D bx) (a0, pa)) tids pa
  = Ok ((λ tid, foldl (λ a e, acc e a) a0 (for_loop tid D bx)) <$> tids,
        store_cells D row val es pa).
Proof.
  intros es Hrow HD Hbx Htids. subst es. revert pa.
  induction tids as [|tid tids IH]; intros pa Hnd Hbody Hlen Hpa; [done|].
  apply Forall_cons in Htids as [Htid Htids].
  rewrite bind_cons in Hnd, Hbody, Hpa. rewrite bind_cons.
  apply NoDup_app in Hnd as (Hnd1 & Hdisj & Hnd2).
  pose proof (for_loop_bounds tid D bx Htid Hbx) as Hes.
  assert (Hes' : Forall (λ e, 0 ≤ e) (for_loop tid D bx)).
  { eapply Forall_impl; [done|]. simpl. lia. }
  cbn [lanes].
  rewrite (cell_loop_acc D row body acc val pa0); try done.
  2:{ intros e a pa' He. apply Hbody, elem_of_app. by left. }
  2:{ intros e He. apply Hpa, elem_of_app. by left. }
  cbn [mbind result_bind].
  rewrite IH; try done.
  - cbn [mbind result_bind]. by rewrite store_cells_app.
  - intros e a pa' He. apply Hbody, elem_of_app. by right.
  - by rewrite store_cells_length.
  - intros e He.
    rewrite store_cells_out_total; [apply Hpa, elem_of_app; by right|].
    apply cell_not_in; try done.
    + apply list_elem_of_bind in He as (t' & He & Ht').
      eapply Forall_forall in Htids; [|done].
      apply for_loop_elem in He; [lia | done].
    + intros He'. by apply (Hdisj e).
Qed.

End CellLoop.

Section RowWiseMembers.
Context {F : Type} `{Arith F}.

Lemma x_ij_value (v : variant) (rows : Z) (lengths : list Z) (k : KArgs F)
  (m : Mem F) (group index i : Z) (pa : list F) :
  batch_ok v rows lengths k m → length pa = length (param m) →
  0 ≤ group < len_length k → 0 ≤ index < rows → 0 ≤ i < post k →
  x_ij k group index i pa
  = Ok (fadd (segment_grad k group i)
          (fmul (weight_decay k) (pa !!! cell (post k) index i))).
Proof.
  intros Hb Hlen Hg Hi He.
  destruct (batch_bounds v rows lengths k m m group index i Hb
              (same_sizes_refl m)) as (Bg & Bp & _); try done.
  unfold x_ij.
  rewrite (rd_total (grad k)) by done. cbn [mbind result_bind].
  rewrite (rd_total pa) by (rewrite Hlen; done). done.
Qed.

Lemma sum_squares_lane_value (v : variant) (d : Dim) (rows : Z)
  (lengths : list Z) (k : KArgs F) (m : Mem F) (group index tid : Z) :
  batch_ok v rows lengths k m → 0 < blockDim_x d → 0 ≤ tid →
  0 ≤ group < len_length k → 0 ≤ index < rows →
  sum_squares_lane d k group index tid (param m)
  = Ok (lane_sum_squares d k m group index tid).
Proof.
  intros Hb Hbx Htid Hg Hi. unfold sum_squares_lane, lane_sum_squares.
  pose proof (for_loop_bounds tid (post k) (blockDim_x d) Htid Hbx) as Hes.
  generalize fzero.
  induction Hes as [|e es He _ IH]; intros a; [done|].
  cbn [foldM foldl].
  rewrite (x_ij_value v rows lengths k m) by done.
  cbn [mbind result_bind]. apply IH.
Qed.

(** The update of the parameter row by the threads of a block: the body
    of the second loop of the strided branch. *)
Lemma rowwise_param_body (v : variant) (rows : Z) (lengths : list Z)
  (k : KArgs F) (m : Mem F) (group index : Z) (step : F) (e : Z)
  (pa : list F) :
  let D := post k in
  batch_ok v rows lengths k m →
  0 ≤ group < len_length k → 0 ≤ index < rows → 0 ≤ e < D →
  length pa = length (param m) →
  pa !!! cell D index e = param m !!! cell D index e →
  (x ← x_ij k group index e pa;
   p ← rd pa (index * post k + e);
   wr pa (index * post k + e) (narrow (fadd p (fmul x step))))
  = Ok (<[cell D index e :=
            narrow (fadd (param m !!! cell D index e)
                      (fmul (effective_grad k m group index e) step))]> pa).
Proof.
  intros D Hb Hg Hi He Hlen Hpa.
  destruct (batch_bounds v rows lengths k m m group index e Hb
              (same_sizes_refl m)) as (Bg & Bp & _); try done.
  rewrite (x_ij_value v rows lengths k m) by done.
  cbn [mbind result_bind].
  rewrite (rd_total pa) by (rewrite Hlen; done). cbn [mbind result_bind].
  rewrite (wr_total pa) by (rewrite Hlen; done).
  change (Z.to_nat (index * post k + e)) with (cell D index e).
  unfold effective_grad. fold D. by rewrite Hpa.
Qed.

(** The block reduction within its contract. *)
Lemma BlockReduce_Sum_fits (NumThreads : Z) (d : Dim) (xs : list F)
  (valid : Z) :
  blockDim_x d * blockDim_y d ≤ NumThreads →
  BlockReduce_Sum NumThreads d xs valid
  = Ok (fsum (take (Z.to_nat valid) xs)).
Proof.
  intros Hd. unfold BlockReduce_Sum.
  by rewrite (proj2 (Z.leb_le _ _) Hd).
Qed.

Lemma rowwise_strided_member_task (d : Dim) (rows : Z) (lengths : list Z)
  (k : KArgs F) (m : Mem F) (t : Z * Z * Z) :
  batch_ok RowWise rows lengths k m → 0 < blockDim_x d →
  blockDim_x d * blockDim_y d ≤ CAFFE_CUDA_NUM_THREADS → member_ok k t →
  rowwise_strided_member d k t m = Ok (rowwise_strided_task d k t m).
Proof.
  intros Hb Hbx Hfit Ht. destruct t as [[group start] line].
  destruct Ht as (Hg & Hs & Hl); simpl in Hg, Hs, Hl.
  pose proof (batch_index _ _ _ _ _ line Hb ltac:(lia)) as Hidx.
  pose proof (ok_lr _ _ _ _ _ Hb) as Hlr.
  pose proof (ok_mom _ _ _ _ _ Hb) as Hmom. simpl in Hmom.
  pose proof (ok_post _ _ _ _ _ Hb) as Hpost.
  unfold rowwise_strided_member, rowwise_strided_task.
  rewrite (rd_total (lr k) 0) by lia. cbn [mbind result_bind].
  rewrite (rd_total (indices k) line) by lia. cbn [mbind result_bind].
  change (lr k !!! Z.to_nat 0) with (learning_rate k).
  set (index := indices k !!! Z.to_nat line) in *.
  rewrite (mapM_pure _ (lane_sum_squares d k m group index)).
  2:{ intros tid Htid%elem_of_seqZ.
      apply (sum_squares_lane_value RowWise d rows lengths); (done || lia). }
  cbn [mbind result_bind].
  rewrite BlockReduce_Sum_fits by done. cbn [mbind result_bind].
  rewrite (rd_total (param_mom m)) by lia. cbn [mbind result_bind].
  rewrite (wr_total (param_mom m)) by lia. cbn [mbind result_bind].
  rewrite rd_total by (rewrite length_insert; lia). cbn [mbind result_bind].
  rewrite list_lookup_total_insert_eq by lia.
  rewrite <- (foldM_bind _ (λ tid, for_loop tid (post k) (blockDim_x d))).
  fold (lane_elements d k).
  rewrite (cell_loop (post k) index _
             (λ e, narrow (fadd (param m !!! cell (post k) index e)
                     (fmul (effective_grad k m group index e)
                        (fdiv (learning_rate k)
                           (fadd (fsqrt
                                    (fadd (param_mom m !!! Z.to_nat index)
                                       (fdiv
                                          (fsum
                                             (take
                                                (Z.to_nat
                                                   (Z.min (post k)
                                                      (blockDim_x d)))
                                                (lane_sum_squares d k m group
                                                   index
                                                 <$> seqZ 0 (blockDim_x d))))
                                          (of_int (post k)))))
                              (epsilon k))))))
             (param m)); try done; try lia.
  - by apply NoDup_lane_elements.
  - apply Forall_forall. intros e He%elem_of_lane_elements; [lia|done].
  - intros e pa He%elem_of_lane_elements Hlen Hpa; [|done].
    by apply (rowwise_param_body RowWise rows lengths).
Qed.


(** The atomic additions of the warps of a row. *)
Lemma atomic_adds (index : Z) (vals : list F) (a : list F) :
  0 ≤ index < Z.of_nat (length a) →
  foldM (λ val a, gpuAtomicAdd a index val) vals a
  = Ok (<[Z.to_nat index :=
            foldl (λ old val, fadd old val) (a !!! Z.to_nat index) vals]> a).
Proof.
  intros Hi. revert a Hi.
  induction vals as [|val vals IH]; intros a Hi.
  - cbn [foldM foldl]. rewrite list_insert_id; [done|].
    apply list_lookup_lookup_total_lt. lia.
  - cbn [foldM foldl].
    assert (gpuAtomicAdd a index val
            = Ok (<[Z.to_nat index := fadd (a !!! Z.to_nat index) val]> a))
      as ->.
    { unfold gpuAtomicAdd. rewrite (rd_total a) by done.
      cbn [mbind result_bind]. by rewrite (wr_total a) by done. }
    cbn [mbind result_bind].
    rewrite IH by (rewrite length_insert; lia).
    rewrite list_lookup_total_insert_eq by lia.
    by rewrite list_insert_insert_eq.
Qed.

Lemma rowwise_exact_member_task (d : Dim) (oracle : list nat) (rows : Z)
  (lengths : list Z) (k : KArgs F) (m : Mem F) (t : Z * Z * Z) :
  batch_ok RowWise rows lengths k m → blockDim_x d = post k →
  member_ok k t →
  rowwise_exact_member d oracle k t m
  = Ok (rowwise_exact_task d oracle k t m).
Proof.
  intros Hb Hbx Ht. destruct t as [[group start] line].
  destruct Ht as (Hg & Hs & Hl); simpl in Hg, Hs, Hl.
  pose proof (batch_index _ _ _ _ _ line Hb ltac:(lia)) as Hidx.
  pose proof (ok_lr _ _ _ _ _ Hb) as Hlr.
  pose proof (ok_mom _ _ _ _ _ Hb) as Hmom. simpl in Hmom.
  pose proof (ok_post _ _ _ _ _ Hb) as Hpost.
  unfold rowwise_exact_member, rowwise_exact_task.
  rewrite (rd_total (lr k) 0) by lia. cbn [mbind result_bind].
  rewrite (rd_total (indices k) line) by lia. cbn [mbind result_bind].
  change (lr k !!! Z.to_nat 0) with (learning_rate k).
  set (index := indices k !!! Z.to_nat line) in *.
  rewrite (mapM_pure _ (effective_grad k m group index)).
  2:{ intros x Hx%elem_of_seqZ.
      apply (x_ij_value RowWise rows lengths k m); (done || lia). }
  cbn [mbind result_bind].
  rewrite <- list_fmap_compose.
  set (sum_squares :=
         (λ x, fadd fzero (fmul x x)) ∘ effective_grad k m group index
           <$> seqZ 0 (blockDim_x d)).
  rewrite <- (foldM_fmap (λ val a, gpuAtomicAdd a index val)
                (λ warp, fdiv (fsum warp) (of_int (post k)))).
  rewrite atomic_adds by lia. cbn [mbind result_bind].
  rewrite rd_total by (rewrite length_insert; lia). cbn [mbind result_bind].
  rewrite list_lookup_total_insert_eq by lia.
  rewrite zip_fmap_r, foldM_fmap. cbn [fst snd].
  rewrite (foldl_fmap (λ old val, fadd old val)).
  set (step := fdiv (learning_rate k) _).
  rewrite (cell_loop (post k) index _
             (λ e, narrow (fadd (param m !!! cell (post k) index e)
                             (fmul (effective_grad k m group index e) step)))
             (param m)); try done; try lia.
  - apply NoDup_seqZ.
  - apply Forall_forall. intros e He%elem_of_seqZ. lia.
  - intros e pa He%elem_of_seqZ Hlen Hpa.
    destruct (batch_bounds RowWise rows lengths k m m group index e Hb
                (same_sizes_refl m)) as (Bg & Bp & _); try done; try lia.
    rewrite (rd_total pa) by (rewrite Hlen; done). cbn [mbind result_bind].
    rewrite (wr_total pa) by (rewrite Hlen; done).
    change (Z.to_nat (index * post k + e)) with (cell (post k) index e).
    by rewrite Hpa.
Qed.

(** The body of the second loop of the weighted row-wise kernel. *)
Lemma rowwise_weighted_body (rows : Z) (lengths : list Z) (k : KArgs F)
  (m : Mem F) (w step : F) (group index e : Z) (w_grad : F) (pa : list F) :
  let D := post k in
  batch_ok WeightedRowWise rows lengths k m →
  0 ≤ group < len_length k → 0 ≤ index < rows → 0 ≤ e < D →
  length pa = length (param m) →
  pa !!! cell D index e = param m !!! cell D index e →
  rowwise_weighted_update k w step group index e (w_grad, pa)
  = Ok (fadd w_grad (fmul (segment_grad k group e)
                       (param m !!! cell D index e)),
        <[cell D index e :=
            narrow (fadd (fmul (out_grad k m w group index e) step)
                      (param m !!! cell D index e))]> pa).
Proof.
  intros D Hb Hg Hi He Hlen Hpa.
  destruct (batch_bounds WeightedRowWise rows lengths k m m group index e Hb
              (same_sizes_refl m)) as (Bg & Bp & _); try done.
  unfold rowwise_weighted_update.
  rewrite (rd_total (grad k)) by done. cbn [mbind result_bind].
  rewrite (rd_total pa) by (rewrite Hlen; done). cbn [mbind result_bind].
  rewrite (wr_total pa) by (rewrite Hlen; done). cbn [mbind result_bind].
  change (Z.to_nat (index * post k + e)) with (cell D index e).
  unfold out_grad, segment_grad. fold D. by rewrite Hpa.
Qed.

Lemma rowwise_weighted_member_task (d : Dim) (rows : Z) (lengths : list Z)
  (k : KArgs F) (m : Mem F) (t : Z * Z * Z) :
  batch_ok WeightedRowWise rows lengths k m → 0 < blockDim_x d →
  member_ok k t →
  rowwise_weighted_member d k t m = Ok (rowwise_weighted_task d k t m).
Proof.
  intros Hb Hbx Ht. destruct t as [[group start] line].
  destruct Ht as (Hg & Hs & Hl); simpl in Hg, Hs, Hl.
  pose proof (batch_index _ _ _ _ _ line Hb ltac:(lia)) as Hidx.
  pose proof (ok_lr _ _ _ _ _ Hb) as Hlr.
  pose proof (ok_mom _ _ _ _ _ Hb) as Hmom. simpl in Hmom.
  pose proof (ok_post _ _ _ _ _ Hb) as Hpost.
  pose proof (ok_weights _ _ _ _ _ Hb eq_refl) as Hw.
  pose proof (ok_wgo _ _ _ _ _ Hb eq_refl) as Hwgo.
  unfold rowwise_weighted_member, rowwise_weighted_task.
  rewrite (rd_total (lr k) 0) by lia. cbn [mbind result_bind].
  rewrite (rd_total (indices k) line) by lia. cbn [mbind result_bind].
  rewrite (rd_total (weights k)) by lia. cbn [mbind result_bind].
  change (lr k !!! Z.to_nat 0) with (learning_rate k).
  set (index := indices k !!! Z.to_nat line) in *.
  set (w := weights k !!! Z.to_nat (line - start)).
  rewrite (mapM_pure _ (lane_sum_squares d k m group index)).
  2:{ intros tid Htid%elem_of_seqZ.
      apply (sum_squares_lane_value WeightedRowWise d rows lengths);
        (done || lia). }
  cbn [mbind result_bind].
  rewrite (rd_total (param_mom m)) by lia. cbn [mbind result_bind].
  rewrite (wr_total (param_mom m)) by lia. cbn [mbind result_bind].
  rewrite rd_total by (rewrite length_insert; lia). cbn [mbind result_bind].
  rewrite list_lookup_total_insert_eq by lia.
  set (step := fdiv (learning_rate k) _).
  rewrite (cell_lanes (post k) index (blockDim_x d) _
             (λ e a, fadd a (fmul (segment_grad k group e)
                               (param m !!! cell (post k) index e)))
             (λ e, narrow (fadd (fmul (out_grad k m w group index e) step)
                             (param m !!! cell (post k) index e)))
             fzero (param m)); try done; try lia.
  - cbn [mbind result_bind].
    rewrite (wr_total (weights_grad_out m)) by lia. done.
  - apply Forall_forall. intros tid Htid%elem_of_seqZ. lia.
  - by apply NoDup_lane_elements.
  - intros e a pa He Hlen Hpa.
    apply (elem_of_lane_elements d k e Hbx) in He.
    by apply (rowwise_weighted_body rows lengths).
Qed.

Lemma rowwise_task_sizes (d : Dim) (oracle : list nat) (k : KArgs F)
  (t : Z * Z * Z) (m : Mem F) :
  same_sizes m (rowwise_strided_task d k t m)
  ∧ same_sizes m (rowwise_exact_task d oracle k t m)
  ∧ same_sizes m (rowwise_weighted_task d k t m).
Proof.
  destruct t as [[g s] l].
  unfold same_sizes, rowwise_strided_task, rowwise_exact_task,
    rowwise_weighted_task. simpl.
  by rewrite !store_cells_length, !length_insert.
Qed.

End RowWiseMembers.

(** ** The member updates of a launch *)

Lemma for_loop_unit (from to x : Z) :
  x ∈ for_loop from to 1 ↔ from ≤ x < to.
Proof.
  rewrite for_loop_elem by lia. rewrite Z.mod_1_r. lia.
Qed.

Lemma member_threads_members (lengths : list Z) :
  concat (member_threads (segments lengths)) ≡ₚ members lengths.
Proof.
  unfold member_threads. rewrite concat_fmap_bind.
  apply NoDup_Permutation.
  - apply NoDup_bind; [| |apply NoDup_segments].
    + intros [g1 [s1 e1]] [g2 [s2 e2]] t
        (n1 & _ & -> & -> & ->)%elem_of_segments
        (n2 & _ & -> & -> & ->)%elem_of_segments
        (? & -> & _)%list_elem_of_fmap (? & [= Hn _] & _)%list_elem_of_fmap.
      assert (n1 = n2) by lia. by subst.
    + intros [g [s e]] _. apply NoDup_fmap_2_strong.
      * by intros l1 l2 _ _ [= ->].
      * apply for_loop_NoDup. lia.
  - apply NoDup_members.
  - intros [[g s] l]. rewrite list_elem_of_bind, elem_of_members. split.
    + intros ([g' [s' e']] & (l' & [= -> -> ->] & Hl%for_loop_unit)
                              %list_elem_of_fmap
                           & (n & Hn & -> & -> & ->)%elem_of_segments).
      cbn [fst snd] in Hl. exists n. split_and!; (done || lia).
    + intros (n & Hn & -> & -> & Hl).
      exists (Z.of_nat n, (total (take n lengths), total (take (S n) lengths))).
      split.
      * apply list_elem_of_fmap. exists l. split; [done|].
        by apply for_loop_unit.
      * apply elem_of_segments. exists n. split_and!; done.
Qed.

Lemma rowwise_exact_threads_members (d : Dim) (lengths : list Z) :
  0 < blockDim_y d →
  concat (rowwise_exact_threads d (segments lengths)) ≡ₚ members lengths.
Proof.
  intros Hby.
  assert (Hc : concat (rowwise_exact_threads d (segments lengths))
    = segments lengths ≫= λ b : Z * (Z * Z), seqZ 0 (blockDim_y d) ≫= λ y,
        (λ line, (b.1, b.2.1, line))
          <$> for_loop (b.2.1 + y) b.2.2 (blockDim_y d)).
  { unfold rowwise_exact_threads.
    induction (segments lengths) as [|[g [s e]] l IH]; csimpl; [done|].
    by rewrite concat_app, IH, concat_fmap_bind. }
  rewrite Hc. clear Hc.
  assert (Hin : ∀ (g s e y l : Z),
    0 ≤ y < blockDim_y d →
    (g, s, l) ∈ ((λ line, (g, s, line)) <$> for_loop (s + y) e (blockDim_y d))
    ↔ s ≤ l < e ∧ (l - s) mod blockDim_y d = y).
  { intros g s e y l Hy. rewrite list_elem_of_fmap. split.
    - intros (l' & [= ->] & Hl). apply for_loop_elem in Hl as [Hl Hm]; [|done].
      split; [lia|].
      replace (l' - s) with ((l' - (s + y)) + y) by lia.
      rewrite <- Z.add_mod_idemp_l, Hm by lia. simpl.
      apply Z.mod_small. lia.
    - intros [Hl Hm]. exists l. split; [done|].
      apply for_loop_elem; [done|].
      pose proof (Z.mod_le (l - s) (blockDim_y d) ltac:(lia) Hby).
      split; [lia|].
      replace (l - (s + y)) with ((l - s) - y) by lia.
      rewrite <- Hm, Zminus_mod_idemp_r, Z.sub_diag. apply Z.mod_0_l. lia. }
  apply NoDup_Permutation.
  - apply NoDup_bind; [| |apply NoDup_segments].
    + intros [g1 [s1 e1]] [g2 [s2 e2]] t
        (n1 & _ & -> & -> & ->)%elem_of_segments
        (n2 & _ & -> & -> & ->)%elem_of_segments
        (y1 & (? & -> & _)%list_elem_of_fmap & _)%list_elem_of_bind
        (y2 & (? & [= Hn _] & _)%list_elem_of_fmap & _)%list_elem_of_bind.
      assert (n1 = n2) by lia. by subst.
    + intros [g [s e]] _. cbn [fst snd].
      apply NoDup_bind; [| |apply NoDup_seqZ].
      * intros y1 y2 [[g' s'] l] Hy1%elem_of_seqZ Hy2%elem_of_seqZ Ht1 Ht2.
        pose proof Ht1 as (? & [= -> ->] & _)%list_elem_of_fmap.
        apply Hin in Ht1; [|lia]. apply Hin in Ht2; [|lia]. lia.
      * intros y _. apply NoDup_fmap_2_strong; [|by apply for_loop_NoDup].
        by intros l1 l2 _ _ [= ->].
  - apply NoDup_members.
  - intros [[g s] l]. rewrite list_elem_of_bind, elem_of_members. split.
    + intros ([g' [s' e']] & (y & Ht & Hy%elem_of_seqZ)%list_elem_of_bind
                           & (n & Hn & -> & -> & ->)%elem_of_segments).
      cbn [fst snd] in Ht.
      pose proof Ht as (? & [= -> ->] & _)%list_elem_of_fmap.
      apply Hin in Ht; [|lia].
      exists n. split_and!; (done || lia).
    + intros (n & Hn & -> & -> & Hl).
      exists (Z.of_nat n, (total (take n lengths), total (take (S n) lengths))).
      split; [|apply elem_of_segments; exists n; split_and!; done].
      cbn [fst snd]. apply list_elem_of_bind.
      exists ((l - total (take n lengths)) mod blockDim_y d).
      pose proof (Z.mod_pos_bound (l - total (take n lengths))
                    (blockDim_y d) Hby).
      split; [|apply elem_of_seqZ; lia].
      apply Hin; [lia|]. split; [lia | done].
Qed.

Section MemberKernels.
Context {F : Type} `{Arith F}.

Lemma members_ok (v : variant) (rows : Z) (lengths : list Z) (k : KArgs F)
  (m : Mem F) (t : Z * Z * Z) :
  batch_ok v rows lengths k m → t ∈ members lengths → member_ok k t.
Proof.
  intros Hb Ht. destruct t as [[g s] l].
  pose proof (members_bound _ _ _ _ (ok_lengths _ _ _ _ _ Hb) Ht) as (?&?&?).
  pose proof (ok_total _ _ _ _ _ Hb). pose proof (ok_len _ _ _ _ _ Hb).
  unfold member_ok. simpl. lia.
Qed.

(** A kernel whose blocks update the members of their segments performs
    the member updates of the batch, in the order chosen by the
    hardware. *)
Lemma member_kernel (v : variant) (rows : Z) (lengths : list Z)
  (k : KArgs F) (m : Mem F) (d : Dim) (oracle : list nat)
  (step : Z * Z * Z → Mem F → result (Mem F))
  (task : Z * Z * Z → Mem F → Mem F)
  (threads : list (list (Z * Z * Z))) :
  batch_ok v rows lengths k m → gridDim_x d = len_length k →
  concat threads ≡ₚ members lengths →
  (∀ t m', member_ok k t → batch_ok v rows lengths k m' →
     step t m' = Ok (task t m') ∧ same_sizes m' (task t m')) →
  ∃ ts, ts ≡ₚ members lengths
        ∧ foldM step (interleave oracle threads) m
          = Ok (foldl (λ m t, task t m) m ts)
        ∧ same_sizes m (foldl (λ m t, task t m) m ts).
Proof.
  intros Hb Hd Hth Hstep. exists (interleave oracle threads).
  assert (Hp : interleave oracle threads ≡ₚ members lengths)
    by (by rewrite interleave_perm).
  split; [done|].
  apply (foldM_pure step task (λ m', same_sizes m m')).
  - intros t m' Ht Hm'. rewrite Hp in Ht.
    destruct (Hstep t m') as [-> Hs].
    + by eapply members_ok.
    + by eapply batch_ok_sizes.
    + split; [done | by eapply same_sizes_trans].
  - apply same_sizes_refl.
Qed.

End MemberKernels.

(** ** Reductions in rounding-free arithmetic *)

Section Sums.
Context {F : Type} `{ExactArith F}.

Lemma fadd_0_r (x : F) : fadd x fzero = x.
Proof. by rewrite fadd_comm, fadd_0_l. Qed.

Lemma row_sum_app (l1 l2 : list F) :
  row_sum (l1 ++ l2) = fadd (row_sum l1) (row_sum l2).
Proof.
  unfold row_sum. induction l1 as [|x l1 IH]; simpl.
  - by rewrite fadd_0_l.
  - by rewrite IH, fadd_assoc.
Qed.

Lemma row_sum_perm (l1 l2 : list F) : l1 ≡ₚ l2 → row_sum l1 = row_sum l2.
Proof.
  unfold row_sum. induction 1 as [|x l l' _ IH|x y l|l l' l'' _ IH1 _ IH2];
    simpl; try congruence.
  by rewrite !fadd_assoc, (fadd_comm x y).
Qed.

Lemma row_sum_zeros (l : list F) : Forall (λ x, x = fzero) l → row_sum l = fzero.
Proof.
  unfold row_sum. induction 1 as [|x l -> _ IH]; simpl; [done|].
  by rewrite IH, fadd_0_l.
Qed.

(** A register that accumulates from zero holds the sum of what it was
    given. *)
Lemma foldl_fadd {A : Type} (h : A → F) (es : list A) (acc : F) :
  foldl (λ a e, fadd a (h e)) acc es = fadd acc (row_sum (h <$> es)).
Proof.
  revert acc. induction es as [|e es IH]; intros acc; csimpl.
  - by rewrite fadd_0_r.
  - rewrite IH. unfold row_sum. simpl. by rewrite fadd_assoc.
Qed.

Lemma row_sum_bind {A B : Type} (h : B → F) (g : A → list B) (l : list A) :
  row_sum ((λ a, row_sum (h <$> g a)) <$> l) = row_sum (h <$> (l ≫= g)).
Proof.
  induction l as [|a l IH]; csimpl; [done|].
  rewrite fmap_app, row_sum_app, <- IH. done.
Qed.

(** A block reduction of the first [n] lanes, the other lanes holding
    zero. *)
Lemma fsum_take (n : nat) (l : list F) :
  Forall (λ x, x = fzero) (drop n l) → fsum (take n l) = row_sum l.
Proof.
  intros Hz. rewrite fsum_fold. fold (row_sum (take n l)).
  rewrite <- (take_drop n l) at 2.
  by rewrite row_sum_app, (row_sum_zeros _ Hz), fadd_0_r.
Qed.

Lemma lane_elements_perm (d : Dim) (k : KArgs F) :
  0 < blockDim_x d → lane_elements d k ≡ₚ seqZ 0 (post k).
Proof.
  intros Hbx. apply NoDup_Permutation.
  - by apply NoDup_lane_elements.
  - apply NoDup_seqZ.
  - intros e. rewrite elem_of_lane_elements, elem_of_seqZ by done. lia.
Qed.

Lemma for_loop_empty (from to step : Z) : to ≤ from → for_loop from to step = [].
Proof.
  intros. unfold for_loop. by replace (Z.to_nat (to - from)) with 0%nat by lia.
Qed.

(** The reduction of the registers of the threads of a block is the sum
    over the row. *)
Lemma lanes_sum (d : Dim) (k : KArgs F) (h : Z → F) (n : nat) :
  0 < blockDim_x d →
  Z.min (post k) (blockDim_x d) ≤ Z.of_nat n →
  fsum (take n
          ((λ tid, foldl (λ a e, fadd a (h e)) fzero
                     (for_loop tid (post k) (blockDim_x d)))
             <$> seqZ 0 (blockDim_x d)))
  = row_sum (h <$> seqZ 0 (post k)).
Proof.
  intros Hbx Hn. rewrite fsum_take.
  - rewrite (list_fmap_ext _ (λ tid, row_sum
               (h <$> for_loop tid (post k) (blockDim_x d)))).
    2:{ intros i tid _. by rewrite foldl_fadd, fadd_0_l. }
    rewrite row_sum_bind. apply row_sum_perm.
    fold (lane_elements d k). by rewrite lane_elements_perm.
  - apply Forall_lookup. intros i x Hx.
    rewrite lookup_drop, list_lookup_fmap in Hx.
    destruct (seqZ 0 (blockDim_x d) !! (n + i)%nat) as [tid|] eqn:Htid;
      [|done].
    apply lookup_seqZ in Htid as [-> ?]. simpl in Hx. simplify_eq.
    rewrite for_loop_empty by lia. done.
Qed.

Lemma warps_concat {A : Type} (n : nat) (l : list A) :
  (length l ≤ n)%nat → concat (warps n l) = l.
Proof.
  revert l. induction n as [|n IH]; intros l Hl.
  - destruct l; [done | simpl in Hl; lia].
  - destruct l as [|x l]; [done|].
    cbn [warps concat]. rewrite IH.
    + apply take_drop.
    + rewrite length_drop. simpl in *. lia.
Qed.

(** The atomic additions of the warps of a row add the mean over the
    row. *)
Lemma warp_adds_from (old dv s : F) (ws : list (list F)) :
  foldl (λ a warp, fadd a (fdiv (fsum warp) dv)) (fadd old (fdiv s dv)) ws
  = fadd old (fdiv (fadd s (row_sum (concat ws))) dv).
Proof.
  revert s. induction ws as [|w ws IH]; intros s; simpl.
  - unfold row_sum. simpl. by rewrite fadd_0_r.
  - rewrite <- fadd_assoc, <- fdiv_add, IH, row_sum_app, fsum_fold.
    fold (row_sum w). by rewrite fadd_assoc.
Qed.

Lemma warp_adds (old dv : F) (ws : list (list F)) :
  ws ≠ [] →
  foldl (λ a warp, fadd a (fdiv (fsum warp) dv)) old ws
  = fadd old (fdiv (row_sum (concat ws)) dv).
Proof.
  destruct ws as [|w ws]; [done|]. intros _. cbn [foldl concat].
  rewrite warp_adds_from, row_sum_app, fsum_fold. reflexivity.
Qed.

(** They add it in whatever order they arrive. *)
Lemma warp_adds_any_order (oracle : list nat) (old dv : F)
  (ws : list (list F)) :
  ws ≠ [] →
  foldl (λ a warp, fadd a (fdiv (fsum warp) dv)) old
    (interleave oracle ((λ warp, [warp]) <$> ws))
  = fadd old (fdiv (row_sum (concat ws)) dv).
Proof.
  intros Hne.
  pose proof (interleave_singletons oracle ws) as Hp.
  rewrite warp_adds.
  - f_equal. f_equal. apply row_sum_perm. by rewrite Hp.
  - intros He. rewrite He in Hp. apply Permutation_nil_l in Hp. done.
Qed.

End Sums.

(** ** The member updates against the reference *)

Section TasksReference.
Context {F : Type} `{ExactArith F}.

Lemma store_cells_ext (D row : Z) (f g : Z → F) (es : list Z) (l : list F) :
  (∀ e, e ∈ es → f e = g e) →
  store_cells D row f es l = store_cells D row g es l.
Proof.
  unfold store_cells. revert l.
  induction es as [|e es IH]; intros l Hfg; simpl; [done|].
  rewrite Hfg by left. apply IH. intros. apply Hfg. by right.
Qed.

Lemma lanes_sum_all (d : Dim) (k : KArgs F) (h : Z → F) :
  0 < blockDim_x d →
  fsum ((λ tid, foldl (λ a e, fadd a (h e)) fzero
                  (for_loop tid (post k) (blockDim_x d)))
          <$> seqZ 0 (blockDim_x d))
  = row_sum (h <$> seqZ 0 (post k)).
Proof.
  intros Hbx.
  rewrite <- (lanes_sum d k h (Z.to_nat (blockDim_x d))) by lia.
  rewrite take_ge; [done|]. rewrite length_fmap, length_seqZ. lia.
Qed.

Lemma weighted_sum_task_reference (d : Dim) (k : KArgs F) (t : Z * Z * Z)
  (m : Mem F) :
  0 < blockDim_x d → 0 ≤ indices k !!! Z.to_nat t.2 → 0 ≤ post k →
  weighted_sum_task d k t m = reference_member WeightedExact k t m.
Proof.
  destruct t as [[g s] l]. cbn [fst snd]. intros Hbx Hrow HD.
  unfold weighted_sum_task, reference_member.
  rewrite !store_cells_lanes by done. unfold map_row. f_equal.
  - apply store_cells_ext. intros e _. apply param_new_rule.
  - apply store_cells_ext. intros e _. apply mom_new_rule.
  - f_equal. unfold weight_grad. apply lanes_sum_all. done.
Qed.

Lemma row_energy_lanes (d : Dim) (k : KArgs F) (m : Mem F) (g row : Z) :
  0 < blockDim_x d →
  fdiv (fsum (take (Z.to_nat (Z.min (post k) (blockDim_x d)))
                (lane_sum_squares d k m g row <$> seqZ 0 (blockDim_x d))))
    (of_int (post k))
  = row_energy k m g row.
Proof.
  intros Hbx. unfold row_energy. f_equal.
  apply (lanes_sum d k (λ e, fmul (effective_grad k m g row e)
                               (effective_grad k m g row e))); lia.
Qed.

Lemma rowwise_strided_task_reference (d : Dim) (k : KArgs F)
  (t : Z * Z * Z) (m : Mem F) :
  0 < blockDim_x d → 0 ≤ indices k !!! Z.to_nat t.2 → 0 ≤ post k →
  rowwise_strided_task d k t m = reference_member RowWise k t m.
Proof.
  destruct t as [[g s] l]. cbn [fst snd]. intros Hbx Hrow HD.
  unfold rowwise_strided_task, reference_member.
  rewrite store_cells_lanes, row_energy_lanes by done. unfold map_row.
  f_equal. apply store_cells_ext. intros e _. apply narrow_id.
Qed.

Lemma row_energy_warps (d : Dim) (oracle : list nat) (k : KArgs F)
  (m : Mem F) (g row : Z) (old : F) :
  blockDim_x d = post k → 0 < post k →
  let sum_squares :=
    (λ x, fadd fzero (fmul (effective_grad k m g row x)
                        (effective_grad k m g row x)))
      <$> seqZ 0 (blockDim_x d) in
  foldl (λ a warp, fadd a (fdiv (fsum warp) (of_int (post k)))) old
    (interleave oracle
       ((λ warp, [warp]) <$> warps (length sum_squares) sum_squares))
  = fadd old (row_energy k m g row).
Proof.
  intros Hbx Hpost sum_squares.
  rewrite warp_adds_any_order.
  - rewrite warps_concat by done.
    unfold row_energy, sum_squares. rewrite Hbx. do 3 f_equal.
    apply list_fmap_ext. intros i x _. apply fadd_0_l.
  - assert (Hl : length sum_squares ≠ 0%nat).
    { unfold sum_squares. rewrite length_fmap, length_seqZ. lia. }
    destruct sum_squares; [done|]. done.
Qed.

Lemma rowwise_exact_task_reference (d : Dim) (oracle : list nat)
  (k : KArgs F) (t : Z * Z * Z) (m : Mem F) :
  blockDim_x d = post k → 0 < post k →
  rowwise_exact_task d oracle k t m = reference_member RowWise k t m.
Proof.
  destruct t as [[g s] l]. intros Hbx Hpost.
  unfold rowwise_exact_task, reference_member.
  rewrite row_energy_warps by done. rewrite Hbx. unfold map_row.
  f_equal. apply store_cells_ext. intros e _. apply narrow_id.
Qed.

Lemma rowwise_weighted_task_reference (d : Dim) (k : KArgs F)
  (t : Z * Z * Z) (m : Mem F) :
  0 < blockDim_x d → 0 ≤ indices k !!! Z.to_nat t.2 → 0 ≤ post k →
  rowwise_weighted_task d k t m = reference_member WeightedRowWise k t m.
Proof.
  destruct t as [[g s] l]. cbn [fst snd]. intros Hbx Hrow HD.
  unfold rowwise_weighted_task, reference_member.
  rewrite store_cells_lanes, row_energy_lanes by done. unfold map_row.
  set (w := weights k !!! Z.to_nat (l - s)).
  assert (Hw : fmul (fmul (row_energy k m g (indices k !!! Z.to_nat l)) w) w
               = fmul (fmul w w) (row_energy k m g (indices k !!! Z.to_nat l))).
  { by rewrite <- fmul_assoc, fmul_comm. }
  rewrite Hw. f_equal.
  - apply store_cells_ext. intros e _. by rewrite narrow_id, fadd_comm.
  - f_equal. unfold weight_grad. apply lanes_sum_all. done.
Qed.

End TasksReference.

(** ** Members of different rows *)

Section Locality.
Context {F : Type} `{Arith F}.

Lemma store_cells_in_total (D row : Z) (f : Z → F) (es : list Z)
  (l : list F) (e : Z) :
  0 ≤ row → 0 ≤ D → Forall (λ e, 0 ≤ e) es → e ∈ es →
  (cell D row e < length l)%nat →
  store_cells D row f es l !!! cell D row e = f e.
Proof.
  intros Hrow HD Hes He Hlt.
  rewrite list_lookup_total_alt, store_cells_in by done.
  by destruct (lookup_lt_is_Some_2 l (cell D row e) Hlt) as [? ->].
Qed.

Lemma seqZ_nonneg (D : Z) : Forall (λ e, 0 ≤ e) (seqZ 0 D).
Proof. apply Forall_forall. intros e He%elem_of_seqZ. lia. Qed.

(** Storing into a row the values it holds changes nothing. *)
Lemma store_cells_self (D row : Z) (f : Z → F) (l : list F) :
  0 ≤ row → 0 ≤ D →
  store_cells D row
    (λ e, store_cells D row f (seqZ 0 D) l !!! cell D row e) (seqZ 0 D) l
  = store_cells D row f (seqZ 0 D) l.
Proof.
  intros Hrow HD. apply list_eq. intros n.
  destruct (decide (n ∈ cell D row <$> seqZ 0 D)) as [Hin|Hout].
  - apply list_elem_of_fmap in Hin as (e & -> & He).
    rewrite !store_cells_in by (done || apply seqZ_nonneg).
    destruct (l !! cell D row e) as [x|] eqn:Hl; [|done]. simpl.
    rewrite store_cells_in_total; try done; [apply seqZ_nonneg|].
    by eapply lookup_lt_Some.
  - by rewrite !store_cells_out.
Qed.

Lemma insert_self (l : list F) (i : nat) (x : F) :
  <[i := <[i := x]> l !!! i]> l = <[i := x]> l.
Proof.
  destruct (decide (i < length l)%nat).
  - by rewrite list_lookup_total_insert_eq.
  - by rewrite !list_insert_ge by lia.
Qed.

Lemma map_row_store (D row : Z) (f : Z → F → F) (table : list F) :
  map_row D row f table
  = store_cells D row (λ e, f e (table !!! cell D row e)) (seqZ 0 D) table.
Proof. done. Qed.

(** A member update changes the row of the member and nothing else. *)
Lemma reference_member_copy (v : variant) (k : KArgs F) (t : Z * Z * Z)
  (m : Mem F) :
  0 ≤ indices k !!! Z.to_nat t.2 → 0 ≤ post k →
  reference_member v k t m
  = copy_row v (post k) (indices k !!! Z.to_nat t.2) t.2
      (reference_member v k t m) m.
Proof.
  destruct t as [[g s] l]. cbn [fst snd]. intros Hrow HD.
  unfold copy_row.
  destruct v; cbn [reference_member param param_mom weights_grad_out
                     rowwise weighted]; rewrite !map_row_store;
    rewrite ?store_cells_self, ?insert_self by done; done.
Qed.


Lemma store_cells_total_cong (D row : Z) (f f' : Z → F) (es : list Z)
  (l l' : list F) (e : Z) :
  0 ≤ row → 0 ≤ D → Forall (λ e, 0 ≤ e) es → e ∈ es →
  length l = length l' → f e = f' e →
  store_cells D row f es l !!! cell D row e
  = store_cells D row f' es l' !!! cell D row e.
Proof.
  intros Hrow HD Hes He Hlen Hf.
  rewrite !list_lookup_total_alt, !store_cells_in by done.
  destruct (decide (cell D row e < length l)%nat) as [Hlt|Hge].
  - destruct (lookup_lt_is_Some_2 l _ Hlt) as [? ->].
    rewrite Hlen in Hlt. destruct (lookup_lt_is_Some_2 l' _ Hlt) as [? ->].
    simpl. by rewrite Hf.
  - rewrite (lookup_ge_None_2 l), (lookup_ge_None_2 l') by lia. done.
Qed.

Lemma insert_total_cong (l l' : list F) (i : nat) (x : F) :
  length l = length l' → <[i := x]> l !!! i = <[i := x]> l' !!! i.
Proof.
  intros Hlen. rewrite !list_lookup_total_insert.
  repeat case_decide; try done; try lia.
  rewrite !list_lookup_total_alt.
  rewrite (lookup_ge_None_2 l), (lookup_ge_None_2 l') by lia. done.
Qed.

(** What a member computes depends on the row of the member only. *)
Lemma effective_grad_agree (v : variant) (k : KArgs F) (m m' : Mem F)
  (g row e : Z) :
  row_agree v (post k) row m m' → 0 ≤ e < post k →
  effective_grad k m g row e = effective_grad k m' g row e.
Proof. intros [Hp _] He. unfold effective_grad. by rewrite Hp. Qed.

Lemma out_grad_agree (v : variant) (k : KArgs F) (m m' : Mem F) (w : F)
  (g row e : Z) :
  row_agree v (post k) row m m' → 0 ≤ e < post k →
  out_grad k m w g row e = out_grad k m' w g row e.
Proof. intros [Hp _] He. unfold out_grad. by rewrite Hp. Qed.

Lemma row_energy_agree (v : variant) (k : KArgs F) (m m' : Mem F)
  (g row : Z) :
  row_agree v (post k) row m m' →
  row_energy k m g row = row_energy k m' g row.
Proof.
  intros Ha. unfold row_energy. do 2 f_equal.
  apply list_fmap_ext. intros i e He%list_elem_of_lookup_2%elem_of_seqZ.
  rewrite (effective_grad_agree v k m m') by (done || lia). done.
Qed.

Lemma weight_grad_agree (v : variant) (k : KArgs F) (m m' : Mem F)
  (g row : Z) :
  row_agree v (post k) row m m' →
  weight_grad k m g row = weight_grad k m' g row.
Proof.
  intros [Hp _]. unfold weight_grad. f_equal.
  apply list_fmap_ext. intros i e He%list_elem_of_lookup_2%elem_of_seqZ.
  rewrite Hp by lia. done.
Qed.

(** The row a member update produces depends on the row it found. *)
Lemma reference_member_local (v : variant) (k : KArgs F) (t : Z * Z * Z)
  (m m' x : Mem F) :
  let row := indices k !!! Z.to_nat t.2 in
  0 ≤ row → 0 ≤ post k → same_sizes m m' →
  row_agree v (post k) row m m' →
  copy_row v (post k) row t.2 (reference_member v k t m) x
  = copy_row v (post k) row t.2 (reference_member v k t m') x.
Proof.
  destruct t as [[g s] l]. cbn [fst snd].
  intros Hrow HD (Hlp & Hlm & Hlw) Ha.
  set (row := indices k !!! Z.to_nat l) in *. pose proof Ha as [Hp Hm].
  pose proof (seqZ_nonneg (post k)) as Hnn.
  assert (Hin : ∀ e, e ∈ seqZ 0 (post k) → 0 ≤ e < post k).
  { intros e He%elem_of_seqZ. lia. }
  unfold copy_row.
  destruct v; cbn [reference_member param param_mom weights_grad_out
                     rowwise weighted] in *; fold row;
    rewrite ?map_row_store; f_equal;
    try (apply store_cells_ext; intros e He; pose proof (Hin e He);
         apply store_cells_total_cong; try done;
         rewrite ?(effective_grad_agree _ k m m' g row e Ha),
           ?(out_grad_agree _ k m m' _ g row e Ha),
           ?(row_energy_agree _ k m m' g row Ha), ?Hp, ?Hm by done;
         done);
    try (f_equal; rewrite ?(row_energy_agree _ k m m' g row Ha),
           ?(weight_grad_agree _ k m m' g row Ha), ?Hm;
         by apply insert_total_cong).
Qed.


Lemma cell_other_row (D r1 r2 e : Z) :
  0 ≤ r1 → 0 ≤ r2 → r1 ≠ r2 → 0 ≤ e < D →
  cell D r1 e ∉ cell D r2 <$> seqZ 0 D.
Proof.
  intros H1 H2 Hne He (e' & Hc & He'%elem_of_seqZ)%list_elem_of_fmap.
  apply cell_inj in Hc as [? _]; (done || lia).
Qed.

Lemma copy_row_sizes (v : variant) (D row line : Z) (u m : Mem F) :
  same_sizes m (copy_row v D row line u m).
Proof.
  unfold same_sizes, copy_row. simpl.
  destruct (rowwise v), (weighted v);
    by rewrite ?store_cells_length, ?length_insert.
Qed.

(** Copying a row leaves the other rows as they are. *)
Lemma copy_row_agree (v : variant) (D r1 r2 line : Z) (u m : Mem F) :
  0 ≤ r1 → 0 ≤ r2 → r1 ≠ r2 →
  row_agree v D r1 (copy_row v D r2 line u m) m.
Proof.
  intros H1 H2 Hne. unfold row_agree, copy_row. simpl. split.
  - intros e He. apply store_cells_out_total. by apply cell_other_row.
  - destruct (rowwise v).
    + apply list_lookup_total_insert_ne. lia.
    + intros e He. apply store_cells_out_total. by apply cell_other_row.
Qed.

Lemma store_cells_comm (D r1 r2 : Z) (f1 f2 : Z → F) (l : list F) :
  0 ≤ r1 → 0 ≤ r2 → r1 ≠ r2 → 0 ≤ D →
  store_cells D r1 f1 (seqZ 0 D) (store_cells D r2 f2 (seqZ 0 D) l)
  = store_cells D r2 f2 (seqZ 0 D) (store_cells D r1 f1 (seqZ 0 D) l).
Proof.
  intros H1 H2 Hne HD. pose proof (seqZ_nonneg D) as Hnn.
  apply list_eq. intros n.
  destruct (decide (n ∈ cell D r1 <$> seqZ 0 D)) as [Hin1|Hout1].
  - apply list_elem_of_fmap in Hin1 as (e & -> & He).
    pose proof He as He'%elem_of_seqZ.
    rewrite store_cells_in by done.
    rewrite (store_cells_out D r2) by (apply cell_other_row; (done || lia)).
    rewrite (store_cells_out D r2) by (apply cell_other_row; (done || lia)).
    by rewrite store_cells_in by done.
  - rewrite (store_cells_out D r1) by done.
    destruct (decide (n ∈ cell D r2 <$> seqZ 0 D)) as [Hin2|Hout2].
    + apply list_elem_of_fmap in Hin2 as (e & -> & He).
      rewrite !store_cells_in by done.
      by rewrite (store_cells_out D r1) by done.
    + rewrite !(store_cells_out D r2) by done.
      by rewrite (store_cells_out D r1) by done.
Qed.

Lemma copy_row_comm (v : variant) (D r1 r2 l1 l2 : Z) (u1 u2 m : Mem F) :
  0 ≤ r1 → 0 ≤ r2 → r1 ≠ r2 → 0 ≤ l1 → 0 ≤ l2 → l1 ≠ l2 → 0 ≤ D →
  copy_row v D r1 l1 u1 (copy_row v D r2 l2 u2 m)
  = copy_row v D r2 l2 u2 (copy_row v D r1 l1 u1 m).
Proof.
  intros. unfold copy_row. simpl. f_equal.
  - by apply store_cells_comm.
  - destruct (rowwise v).
    + apply list_insert_insert_ne. lia.
    + by apply store_cells_comm.
  - destruct (weighted v); [|done]. apply list_insert_insert_ne. lia.
Qed.

(** The updates of two members of different rows commute. *)
Lemma reference_member_comm (v : variant) (k : KArgs F) (t1 t2 : Z * Z * Z)
  (m : Mem F) :
  let r1 := indices k !!! Z.to_nat t1.2 in
  let r2 := indices k !!! Z.to_nat t2.2 in
  0 ≤ r1 → 0 ≤ r2 → r1 ≠ r2 → 0 ≤ t1.2 → 0 ≤ t2.2 → t1.2 ≠ t2.2 →
  0 ≤ post k →
  reference_member v k t1 (reference_member v k t2 m)
  = reference_member v k t2 (reference_member v k t1 m).
Proof.
  intros r1 r2 H1 H2 Hne Hl1 Hl2 Hlne HD.
  assert (Hhalf : ∀ (ta tb : Z * Z * Z),
    let ra := indices k !!! Z.to_nat ta.2 in
    let rb := indices k !!! Z.to_nat tb.2 in
    0 ≤ ra → 0 ≤ rb → ra ≠ rb →
    reference_member v k ta (reference_member v k tb m)
    = copy_row v (post k) ra ta.2 (reference_member v k ta m)
        (copy_row v (post k) rb tb.2 (reference_member v k tb m) m)).
  { intros ta tb ra rb Ha Hb Hab.
    rewrite (reference_member_copy v k ta (reference_member v k tb m))
      by done.
    fold ra.
    rewrite (reference_member_local v k ta (reference_member v k tb m) m);
      try done.
    - fold ra. f_equal. by apply reference_member_copy.
    - pose proof (reference_member_sizes v k tb m) as (?&?&?).
      unfold same_sizes. split_and!; congruence.
    - fold ra. rewrite (reference_member_copy v k tb m) by done.
      by apply copy_row_agree. }
  rewrite (Hhalf t1 t2), (Hhalf t2 t1) by done.
  by apply copy_row_comm.
Qed.

End Locality.

(** ** The fused update against the sequential reference *)

Section FusedReference.
Context {F : Type} `{ExactArith F}.

(** The reference does not depend on the order in which it processes the
    members of a batch whose indices are pairwise distinct. *)
Lemma reference_order (v : variant) (rows : Z) (lengths : list Z)
  (k : KArgs F) (m0 m : Mem F) (order order' : list (Z * Z * Z)) :
  batch_ok v rows lengths k m0 → NoDup (indices k) →
  order ≡ₚ members lengths → order' ≡ₚ members lengths →
  reference v k order m = reference v k order' m.
Proof.
  intros Hb Hnd Ho Ho'. unfold reference.
  pose proof (ok_lengths _ _ _ _ _ Hb) as Hl.
  pose proof (ok_total _ _ _ _ _ Hb) as Htot.
  pose proof (ok_post _ _ _ _ _ Hb) as Hpost.
  assert (Hc : ∀ t1 t2 s, t1 ∈ members lengths → t2 ∈ members lengths →
            t1 ≠ t2 →
            reference_member v k t1 (reference_member v k t2 s)
            = reference_member v k t2 (reference_member v k t1 s)).
  { intros [[g1 s1] l1] [[g2 s2] l2] s Ht1 Ht2 Hne.
    pose proof (members_bound _ _ _ _ Hl Ht1) as (? & ? & ?).
    pose proof (members_bound _ _ _ _ Hl Ht2) as (? & ? & ?).
    pose proof (batch_index _ _ _ _ _ l1 Hb ltac:(lia)).
    pose proof (batch_index _ _ _ _ _ l2 Hb ltac:(lia)).
    assert (l1 ≠ l2).
    { intros ->. destruct (members_line_inj _ _ _ _ _ _ Hl Ht1 Ht2).
      by subst. }
    apply reference_member_comm; cbn [fst snd]; try lia.
    intros Hi. assert (Z.to_nat l1 = Z.to_nat l2); [|lia].
    eapply (NoDup_lookup (indices k)); [done| |].
    - apply list_lookup_lookup_total_lt. lia.
    - rewrite Hi. apply list_lookup_lookup_total_lt. lia. }
  rewrite <- (foldl_permutation_comm (reference_member v k)
                (members lengths) order); [|done|apply NoDup_members|done].
  by apply foldl_permutation_comm; [|apply NoDup_members|].
Qed.

(** Member updates that agree with the reference on every batch. *)
Lemma member_tasks_reference (v : variant) (rows : Z) (lengths : list Z)
  (k : KArgs F) (task : Z * Z * Z → Mem F → Mem F) (ts : list (Z * Z * Z))
  (m : Mem F) :
  (∀ t m', member_ok k t → batch_ok v rows lengths k m' →
     task t m' = reference_member v k t m') →
  batch_ok v rows lengths k m → ts ≡ₚ members lengths →
  foldl (λ m t, task t m) m ts = reference v k ts m.
Proof.
  intros Htask Hb Hts. unfold reference.
  assert (Hin : Forall (λ t, t ∈ members lengths) ts).
  { apply Forall_forall. intros t. by rewrite Hts. }
  clear Hts. revert m Hb.
  induction Hin as [|t ts Ht _ IH]; intros m Hb; simpl; [done|].
  rewrite Htask; [|by eapply members_ok|done].
  apply IH. eapply batch_ok_sizes; [done|]. apply reference_member_sizes.
Qed.

Lemma member_row (v : variant) (rows : Z) (lengths : list Z) (k : KArgs F)
  (m : Mem F) (t : Z * Z * Z) :
  batch_ok v rows lengths k m → member_ok k t →
  0 ≤ indices k !!! Z.to_nat t.2 ∧ 0 ≤ post k.
Proof.
  intros Hb (Hg & Hs & Hl).
  pose proof (batch_index _ _ _ _ _ t.2 Hb ltac:(lia)).
  pose proof (ok_post _ _ _ _ _ Hb). lia.
Qed.

(** A kernel whose member updates are those of the reference. *)
Lemma member_kernel_reference (v : variant) (rows : Z) (lengths : list Z)
  (k : KArgs F) (m : Mem F) (d : Dim) (oracle : list nat)
  (step : Z * Z * Z → Mem F → result (Mem F))
  (task : Z * Z * Z → Mem F → Mem F)
  (threads : list (list (Z * Z * Z))) (order : list (Z * Z * Z)) :
  batch_ok v rows lengths k m → gridDim_x d = len_length k →
  concat threads ≡ₚ members lengths →
  (∀ t m', member_ok k t → batch_ok v rows lengths k m' →
     step t m' = Ok (task t m') ∧ task t m' = reference_member v k t m') →
  NoDup (indices k) → order ≡ₚ members lengths →
  foldM step (interleave oracle threads) m = Ok (reference v k order m).
Proof.
  intros Hb Hd Hth Hstep Hnd Ho.
  destruct (member_kernel v rows lengths k m d oracle step task threads)
    as (ts & Hts & -> & _); try done.
  - intros t m' Ht Hm'. destruct (Hstep t m' Ht Hm') as [-> ->].
    split; [done | apply reference_member_sizes].
  - f_equal.
    rewrite (member_tasks_reference v rows lengths k task ts m); try done.
    + by apply (reference_order v rows lengths k m).
    + intros t m' Ht Hm'. by destruct (Hstep t m' Ht Hm').
Qed.

Lemma fused_kernel_reference (v : variant) (ExactBlock : bool) (d : Dim)
  (oracle : list nat) (rows : Z) (lengths : list Z) (k : KArgs F)
  (m : Mem F) (order : list (Z * Z * Z)) :
  batch_ok v rows lengths k m → launch_ok v ExactBlock d k →
  NoDup (indices k) → order ≡ₚ members lengths →
  fused_kernel v ExactBlock d oracle k m = Ok (reference v k order m).
Proof.
  intros Hb Hl Hnd Ho. pose proof (launch_dim _ _ _ _ Hl) as Hd.
  pose proof Hd as (Hg & Hbx & Hby & Hex & Hst).
  pose proof (ok_post _ _ _ _ _ Hb) as Hpost.
  destruct v; unfold fused_kernel.
  - by apply (exact_kernel_reference ExactBlock d oracle rows lengths).
  - unfold sparse_adagrad_fused_length_weighted_sum_gradient_kernel.
    rewrite (launch_blocks_segments WeightedExact rows lengths k m)
      by done.
    cbn [mbind result_bind].
    apply (member_kernel_reference WeightedExact rows lengths k m d oracle
             _ (weighted_sum_task d k)); try done.
    + apply member_threads_members.
    + intros t m' Ht Hm'. split.
      * by apply (weighted_sum_member_task d rows lengths).
      * destruct (member_row _ _ _ _ _ _ Hm' Ht).
        by apply weighted_sum_task_reference.
  - unfold rowwise_sparse_adagrad_fused_length_sum_gradient_kernel.
    rewrite (launch_blocks_segments RowWise rows lengths k m) by done.
    cbn [mbind result_bind]. destruct ExactBlock.
    + apply (member_kernel_reference RowWise rows lengths k m d oracle
               _ (rowwise_exact_task d oracle k)); try done.
      * by apply rowwise_exact_threads_members.
      * intros t m' Ht Hm'. split.
        -- apply (rowwise_exact_member_task d oracle rows lengths); auto.
        -- apply rowwise_exact_task_reference; auto.
    + apply (member_kernel_reference RowWise rows lengths k m d oracle
               _ (rowwise_strided_task d k)); try done.
      * apply member_threads_members.
      * intros t m' Ht Hm'. split.
        -- apply (rowwise_strided_member_task d rows lengths); try done.
           by apply (launch_strided d k).
        -- destruct (member_row _ _ _ _ _ _ Hm' Ht).
           by apply rowwise_strided_task_reference.
  - unfold rowwise_sparse_adagrad_fused_length_weighted_sum_gradient_kernel.
    rewrite (launch_blocks_segments WeightedRowWise rows lengths k m)
      by done.
    cbn [mbind result_bind].
    apply (member_kernel_reference WeightedRowWise rows lengths k m d oracle
             _ (rowwise_weighted_task d k)); try done.
    + apply member_threads_members.
    + intros t m' Ht Hm'. split.
      * by apply (rowwise_weighted_member_task d rows lengths).
      * destruct (member_row _ _ _ _ _ _ Hm' Ht).
        by apply rowwise_weighted_task_reference.
Qed.

End FusedReference.

(** ** Assertions *)

Lemma asserts_nothing_Ok {A : Type} (a : A) : asserts_nothing (Ok a).
Proof. by split. Qed.

Lemma asserts_nothing_rd {A : Type} (l : list A) (i : Z) :
  asserts_nothing (rd l i).
Proof. unfold rd. repeat case_match; by split. Qed.

Lemma asserts_nothing_wr {A : Type} (l : list A) (i : Z) (v : A) :
  asserts_nothing (wr l i v).
Proof. unfold wr. repeat case_match; by split. Qed.

Lemma asserts_nothing_bind {A B : Type} (m : result A) (f : A → result B) :
  asserts_nothing m → (∀ a, asserts_nothing (f a)) →
  asserts_nothing (m ≫= f).
Proof. destruct m; simpl; intros [? ?] Hf; done. Qed.

Lemma asserts_nothing_foldM {A S : Type} (f : A → S → result S)
  (l : list A) (s : S) :
  (∀ a s, asserts_nothing (f a s)) → asserts_nothing (foldM f l s).
Proof.
  intros Hf. revert s. induction l as [|a l IH]; intros s; simpl.
  - apply asserts_nothing_Ok.
  - by apply asserts_nothing_bind.
Qed.

Lemma asserts_nothing_mapM {A B : Type} (f : A → result B) (l : list A) :
  (∀ a, asserts_nothing (f a)) → asserts_nothing (mapM f l).
Proof.
  intros Hf. induction l as [|a l IH]; simpl.
  - apply asserts_nothing_Ok.
  - apply asserts_nothing_bind; [done|]. intros b.
    apply asserts_nothing_bind; [done|]. intros bs.
    apply asserts_nothing_Ok.
Qed.

Lemma asserts_nothing_lanes {S A : Type} (f : Z → S → result (A * S))
  (tids : list Z) (s : S) :
  (∀ t s, asserts_nothing (f t s)) → asserts_nothing (lanes f tids s).
Proof.
  intros Hf. revert s. induction tids as [|t tids IH]; intros s; simpl.
  - apply asserts_nothing_Ok.
  - apply asserts_nothing_bind; [done|]. intros [a s1].
    apply asserts_nothing_bind; [done|]. intros [la s2].
    apply asserts_nothing_Ok.
Qed.

Lemma asserts_nothing_BlockReduce {F : Type} `{Arith F} (NumThreads : Z)
  (d : Dim) (xs : list F) (valid : Z) :
  asserts_nothing (BlockReduce_Sum NumThreads d xs valid).
Proof. unfold BlockReduce_Sum. by destruct (_ <=? _). Qed.

Ltac asserts_nothing :=
  repeat first
    [ apply asserts_nothing_Ok
    | apply asserts_nothing_BlockReduce
    | apply asserts_nothing_rd
    | apply asserts_nothing_wr
    | apply asserts_nothing_foldM; intros
    | apply asserts_nothing_mapM; intros
    | apply asserts_nothing_lanes; intros
    | apply asserts_nothing_bind; [|intros]
    | match goal with |- asserts_nothing (let '(_, _) := ?p in _) =>
        destruct p end ].

Section NoAssertions.
Context {F : Type} `{Arith F}.

Lemma adagrad_update_asserts_nothing (k : KArgs F) (t : Z * Z * Z)
  (m : Mem F) : asserts_nothing (adagrad_update k t m).
Proof.
  destruct t as [[g l] i]. unfold adagrad_update. asserts_nothing.
Qed.

Lemma weighted_sum_member_asserts_nothing (d : Dim) (k : KArgs F)
  (t : Z * Z * Z) (m : Mem F) :
  asserts_nothing (weighted_sum_member d k t m).
Proof.
  destruct t as [[g s] l]. unfold weighted_sum_member, weighted_update.
  asserts_nothing.
Qed.

Lemma rowwise_exact_member_asserts_nothing (d : Dim) (oracle : list nat)
  (k : KArgs F) (t : Z * Z * Z) (m : Mem F) :
  asserts_nothing (rowwise_exact_member d oracle k t m).
Proof.
  destruct t as [[g s] l].
  unfold rowwise_exact_member, x_ij, gpuAtomicAdd. asserts_nothing.
Qed.

Lemma rowwise_strided_member_asserts_nothing (d : Dim) (k : KArgs F)
  (t : Z * Z * Z) (m : Mem F) :
  asserts_nothing (rowwise_strided_member d k t m).
Proof.
  destruct t as [[g s] l].
  unfold rowwise_strided_member, sum_squares_lane, x_ij. asserts_nothing.
Qed.

Lemma rowwise_weighted_member_asserts_nothing (d : Dim) (k : KArgs F)
  (t : Z * Z * Z) (m : Mem F) :
  asserts_nothing (rowwise_weighted_member d k t m).
Proof.
  destruct t as [[g s] l].
  unfold rowwise_weighted_member, rowwise_weighted_update, sum_squares_lane,
    x_ij.
  asserts_nothing.
Qed.

(** A launch fails an assertion exactly when the prologue of one of its
    blocks does. *)
Lemma fused_kernel_assert (v : variant) (ExactBlock : bool) (d : Dim)
  (oracle : list nat) (k : KArgs F) (m : Mem F) :
  fused_kernel v ExactBlock d oracle k m = AssertFailed
  ↔ launch_blocks d k = AssertFailed.
Proof.
  assert (Hb : ∀ (f : list (Z * (Z * Z)) → result (Mem F)),
            (∀ bs, asserts_nothing (f bs)) →
            launch_blocks d k ≫= f = AssertFailed
            ↔ launch_blocks d k = AssertFailed).
  { intros f Hf. destruct (launch_blocks d k) as [bs| | |]; simpl; try done.
    split; [|done]. intros Hbs. by destruct (Hf bs). }
  destruct v; unfold fused_kernel,
    sparse_adagrad_fused_length_sum_gradient_kernel,
    sparse_adagrad_fused_length_weighted_sum_gradient_kernel,
    rowwise_sparse_adagrad_fused_length_sum_gradient_kernel,
    rowwise_sparse_adagrad_fused_length_weighted_sum_gradient_kernel;
    apply Hb; intros bs; try destruct ExactBlock;
    apply asserts_nothing_foldM; intros;
    first [ apply adagrad_update_asserts_nothing
          | apply weighted_sum_member_asserts_nothing
          | apply rowwise_exact_member_asserts_nothing
          | apply rowwise_strided_member_asserts_nothing
          | apply rowwise_weighted_member_asserts_nothing ].
Qed.

End NoAssertions.

Section Prologue.
Context {F : Type} `{Arith F}.

Lemma segment_bounds_total (k : KArgs F) (g : Z) :
  0 ≤ g < Z.of_nat (length (prefix_sum_length_data k)) →
  ∃ start end_, segment_bounds k g = Ok (start, end_).
Proof.
  intros Hg. unfold segment_bounds.
  destruct (Z.eqb_spec g 0) as [->|Hne].
  - cbn [mbind result_bind]. rewrite rd_total by done. by eexists _, _.
  - rewrite rd_total by lia. cbn [mbind result_bind].
    rewrite rd_total by lia. by eexists _, _.
Qed.

(** The prologues fail an assertion exactly when an offset of a block
    exceeds [N]. *)
Lemma prologues_assert (k : KArgs F) (gs : list Z) :
  Forall (λ g, 0 ≤ g < Z.of_nat (length (prefix_sum_length_data k))) gs →
  prologues k gs = AssertFailed
  ↔ ∃ g start end_, g ∈ gs ∧ segment_bounds k g = Ok (start, end_)
                    ∧ (N k < start ∨ N k < end_).
Proof.
  induction 1 as [|g gs Hg _ IH].
  - split; [done|]. by intros (g & ? & ? & ?%elem_of_nil & _).
  - destruct (segment_bounds_total k g Hg) as (start & end_ & Hb).
    cbn [prologues]. unfold block_prologue. rewrite Hb.
    cbn [mbind result_bind]. unfold CUDA_KERNEL_ASSERT.
    destruct (Z.leb_spec start (N k)); cbn [mbind result_bind].
    + destruct (Z.leb_spec end_ (N k)); cbn [mbind result_bind].
      * split.
        -- intros Hp.
           assert (Hr : prologues k gs = AssertFailed)
             by (by destruct (prologues k gs)).
           apply IH in Hr as (g' & s' & e' & ? & ? & ?).
           exists g', s', e'. split_and!; try done. by right.
        -- intros (g' & s' & e' & [->|Hin]%elem_of_cons & Hb' & Hn).
           ++ rewrite Hb in Hb'. simplify_eq. lia.
           ++ assert (Hr : prologues k gs = AssertFailed).
              { apply IH. by exists g', s', e'. }
              by rewrite Hr.
      * split; [|done]. intros _. exists g, start, end_.
        split_and!; [left|done|lia].
    + split; [|done]. intros _. exists g, start, end_.
      split_and!; [left|done|lia].
Qed.

Lemma launch_blocks_assert (d : Dim) (k : KArgs F) :
  gridDim_x d ≤ Z.of_nat (length (prefix_sum_length_data k)) →
  launch_blocks d k = AssertFailed
  ↔ ∃ g start end_, 0 ≤ g < gridDim_x d
                    ∧ segment_bounds k g = Ok (start, end_)
                    ∧ (N k < start ∨ N k < end_).
Proof.
  intros Hg. unfold launch_blocks.
  assert (Hp : prologues k (seqZ 0 (gridDim_x d)) = AssertFailed
               ↔ ∃ g start end_, 0 ≤ g < gridDim_x d
                    ∧ segment_bounds k g = Ok (start, end_)
                    ∧ (N k < start ∨ N k < end_)).
  { rewrite prologues_assert.
    - split; intros (g & s & e & Hin & ?); exists g, s, e;
        (split; [|done]); [apply elem_of_seqZ in Hin | apply elem_of_seqZ];
        lia.
    - apply Forall_forall. intros g Hin%elem_of_seqZ. lia. }
  rewrite <- Hp. by destruct (prologues k (seqZ 0 (gridDim_x d))).
Qed.

(** The prologue does not read the indices. *)
Lemma launch_blocks_indices (d : Dim) (k : KArgs F) (idx : list Z) :
  launch_blocks d (with_indices k idx) = launch_blocks d k.
Proof.
  unfold launch_blocks. f_equal.
  induction (seqZ 0 (gridDim_x d)) as [|g gs IH]; [done|].
  cbn [prologues]. by rewrite IH.
Qed.

End Prologue.

(** ** Rows outside the batch *)

Section Frame.
Context {F : Type} `{Arith F}.

Lemma row_kept_refl (v : variant) (D r : Z) (m : Mem F) : row_kept v D r m m.
Proof. split; [done|]. by destruct (rowwise v). Qed.

Lemma row_kept_trans (v : variant) (D r : Z) (m1 m2 m3 : Mem F) :
  row_kept v D r m1 m2 → row_kept v D r m2 m3 → row_kept v D r m1 m3.
Proof.
  intros [Hp Hm] [Hp' Hm']. split.
  - intros e He. by rewrite Hp', Hp.
  - destruct (rowwise v).
    + by rewrite Hm', Hm.
    + intros e He. by rewrite Hm', Hm.
Qed.

Lemma foldl_kept {A : Type} (task : A → Mem F → Mem F) (v : variant)
  (D r : Z) (ts : list A) (m : Mem F) :
  (∀ t m', t ∈ ts → row_kept v D r m' (task t m')) →
  row_kept v D r m (foldl (λ m t, task t m) m ts).
Proof.
  revert m. induction ts as [|t ts IH]; intros m Ht; simpl.
  - apply row_kept_refl.
  - eapply row_kept_trans.
    + apply (Ht t m). by left.
    + apply IH. intros t' m' Hin. apply Ht. by right.
Qed.

Lemma store_cells_kept (D r row : Z) (f : Z → F) (es : list Z) (l : list F)
  (e : Z) :
  0 ≤ r → 0 ≤ row → r ≠ row → 0 ≤ e < D → Forall (λ e, 0 ≤ e < D) es →
  store_cells D row f es l !! cell D r e = l !! cell D r e.
Proof.
  intros Hr Hrow Hne He Hes. apply store_cells_out.
  intros (e' & Hc & Hin)%list_elem_of_fmap.
  rewrite Forall_forall in Hes. specialize (Hes e' Hin).
  apply cell_inj in Hc; [|done..]. lia.
Qed.

Lemma lane_elements_bounds (d : Dim) (k : KArgs F) :
  0 < blockDim_x d → Forall (λ e, 0 ≤ e < post k) (lane_elements d k).
Proof.
  intros Hbx. apply Forall_forall. intros e.
  by rewrite elem_of_lane_elements.
Qed.

Lemma seqZ_bounds (D : Z) : Forall (λ e, 0 ≤ e < D) (seqZ 0 D).
Proof. apply Forall_forall. intros e Hin%elem_of_seqZ. lia. Qed.

Lemma adagrad_task_kept (k : KArgs F) (t : Z * Z * Z) (m : Mem F) (r : Z) :
  0 ≤ r → 0 ≤ indices k !!! Z.to_nat t.1.2 →
  r ≠ indices k !!! Z.to_nat t.1.2 → 0 ≤ t.2 < post k →
  row_kept Exact (post k) r m (adagrad_task k t m).
Proof.
  destruct t as [[g line] i]. cbn [fst snd]. intros Hr Hi Hne Hb.
  assert (Hc : ∀ e, 0 ≤ e < post k →
            cell (post k) (indices k !!! Z.to_nat line) i
            ≠ cell (post k) r e).
  { intros e He Hc. apply cell_inj in Hc; [|done..]. lia. }
  split; cbn [rowwise adagrad_task param param_mom]; intros e He;
    by apply list_lookup_insert_ne, Hc.
Qed.

Lemma member_tasks_kept (d : Dim) (oracle : list nat)
  (k : KArgs F) (t : Z * Z * Z) (m : Mem F) (r : Z) :
  0 ≤ r → 0 ≤ indices k !!! Z.to_nat t.2 →
  r ≠ indices k !!! Z.to_nat t.2 → 0 < blockDim_x d →
  row_kept WeightedExact (post k) r m (weighted_sum_task d k t m)
  ∧ row_kept RowWise (post k) r m (rowwise_strided_task d k t m)
  ∧ (blockDim_x d = post k →
     row_kept RowWise (post k) r m (rowwise_exact_task d oracle k t m))
  ∧ row_kept WeightedRowWise (post k) r m (rowwise_weighted_task d k t m).
Proof.
  destruct t as [[g s] line]. cbn [fst snd]. intros Hr Hi Hne Hbx.
  pose proof (lane_elements_bounds d k Hbx) as Hl.
  assert (Hn : Z.to_nat (indices k !!! Z.to_nat line) ≠ Z.to_nat r) by lia.
  pose proof (seqZ_bounds (post k)) as Hq.
  split_and!; [| |intros Hx|]; split;
    cbn [rowwise weighted_sum_task rowwise_strided_task rowwise_exact_task
           rowwise_weighted_task param param_mom];
    rewrite ?Hx;
    first [ by apply list_lookup_insert_ne
          | intros e He; by apply store_cells_kept ].
Qed.

(** A launch of member updates leaves the rows outside the batch as they
    were. *)
Lemma member_kernel_frame (v : variant) (rows : Z) (lengths : list Z)
  (k : KArgs F) (m : Mem F) (d : Dim) (oracle : list nat)
  (step : Z * Z * Z → Mem F → result (Mem F))
  (task : Z * Z * Z → Mem F → Mem F)
  (threads : list (list (Z * Z * Z))) :
  batch_ok v rows lengths k m → gridDim_x d = len_length k →
  concat threads ≡ₚ members lengths →
  (∀ t m', member_ok k t → batch_ok v rows lengths k m' →
     step t m' = Ok (task t m') ∧ same_sizes m' (task t m')) →
  (∀ t m' r, member_ok k t → 0 ≤ r → r ≠ indices k !!! Z.to_nat t.2 →
     row_kept v (post k) r m' (task t m')) →
  ∃ m', foldM step (interleave oracle threads) m = Ok m'
        ∧ same_sizes m m'
        ∧ ∀ r, 0 ≤ r → r ∉ indices k → row_kept v (post k) r m m'.
Proof.
  intros Hb Hd Hth Hstep Hkept.
  destruct (member_kernel v rows lengths k m d oracle step task threads)
    as (ts & Hts & -> & Hs); try done.
  eexists. split_and!; [done..|]. intros r Hr Hout.
  apply foldl_kept. intros t m' Hin. rewrite Hts in Hin.
  pose proof (members_ok _ _ _ _ _ _ Hb Hin) as Hok.
  apply Hkept; [done..|]. intros ->. apply Hout.
  apply list_elem_of_lookup_total_2. destruct Hok as (_ & ? & ?). lia.
Qed.

Lemma fused_kernel_frame (v : variant) (ExactBlock : bool) (d : Dim)
  (oracle : list nat) (rows : Z) (lengths : list Z) (k : KArgs F)
  (m : Mem F) :
  batch_ok v rows lengths k m → launch_ok v ExactBlock d k →
  ∃ m', fused_kernel v ExactBlock d oracle k m = Ok m'
        ∧ same_sizes m m'
        ∧ ∀ r, 0 ≤ r → r ∉ indices k → row_kept v (post k) r m m'.
Proof.
  intros Hb Hl. pose proof (launch_dim _ _ _ _ Hl) as Hd.
  pose proof Hd as (Hg & Hbx & Hby & Hex & Hst).
  assert (Hrow : ∀ t m', member_ok k t → batch_ok v rows lengths k m' →
            0 ≤ indices k !!! Z.to_nat t.2).
  { intros t m' Ht Hm'. by destruct (member_row _ _ _ _ _ _ Hm' Ht). }
  destruct v; unfold fused_kernel.
  - destruct (exact_kernel_tasks ExactBlock d oracle rows lengths k m)
      as (ts & Hts & -> & Hs); try done.
    eexists. split_and!; [done..|]. intros r Hr Hout.
    apply foldl_kept. intros t m' Hin. rewrite Hts in Hin.
    pose proof (element_tasks_ok Exact rows lengths k m (members lengths)
                  Hb ltac:(done)) as Hok.
    rewrite Forall_forall in Hok. destruct (Hok t Hin) as (? & ? & ?).
    pose proof (batch_index _ _ _ _ _ t.1.2 Hb ltac:(lia)).
    apply adagrad_task_kept; try done; try lia.
    intros ->. apply Hout. apply list_elem_of_lookup_total_2. lia.
  - unfold sparse_adagrad_fused_length_weighted_sum_gradient_kernel.
    rewrite (launch_blocks_segments WeightedExact rows lengths k m)
      by done.
    cbn [mbind result_bind].
    apply (member_kernel_frame WeightedExact rows lengths k m d oracle
             _ (weighted_sum_task d k)); try done.
    + apply member_threads_members.
    + intros t m' Ht Hm'. split.
      * by apply (weighted_sum_member_task d rows lengths).
      * apply weighted_sum_task_sizes.
    + intros t m' r Ht Hr Hne.
      by destruct (member_tasks_kept d oracle k t m' r Hr (Hrow t m Ht Hb) Hne Hbx)
        as (? & _).
  - unfold rowwise_sparse_adagrad_fused_length_sum_gradient_kernel.
    rewrite (launch_blocks_segments RowWise rows lengths k m) by done.
    cbn [mbind result_bind]. destruct ExactBlock.
    + apply (member_kernel_frame RowWise rows lengths k m d oracle
               _ (rowwise_exact_task d oracle k)); try done.
      * by apply rowwise_exact_threads_members.
      * intros t m' Ht Hm'. split.
        -- apply (rowwise_exact_member_task d oracle rows lengths); auto.
        -- exact (proj1 (proj2 (rowwise_task_sizes d oracle k t m'))).
      * intros t m' r Ht Hr Hne.
        destruct (member_tasks_kept d oracle k t m' r Hr (Hrow t m Ht Hb) Hne Hbx)
          as (_ & _ & He & _).
        apply He. auto.
    + apply (member_kernel_frame RowWise rows lengths k m d oracle
               _ (rowwise_strided_task d k)); try done.
      * apply member_threads_members.
      * intros t m' Ht Hm'. split.
        -- apply (rowwise_strided_member_task d rows lengths); try done.
           by apply (launch_strided d k).
        -- exact (proj1 (rowwise_task_sizes d oracle k t m')).
      * intros t m' r Ht Hr Hne.
        by destruct (member_tasks_kept d oracle k t m' r Hr (Hrow t m Ht Hb) Hne
                       Hbx) as (_ & ? & _).
  - unfold rowwise_sparse_adagrad_fused_length_weighted_sum_gradient_kernel.
    rewrite (launch_blocks_segments WeightedRowWise rows lengths k m)
      by done.
    cbn [mbind result_bind].
    apply (member_kernel_frame WeightedRowWise rows lengths k m d oracle
             _ (rowwise_weighted_task d k)); try done.
    + apply member_threads_members.
    + intros t m' Ht Hm'. split.
      * by apply (rowwise_weighted_member_task d rows lengths).
      * exact (proj2 (proj2 (rowwise_task_sizes d oracle k t m'))).
    + intros t m' r Ht Hr Hne.
      by destruct (member_tasks_kept d oracle k t m' r Hr (Hrow t m Ht Hb) Hne Hbx)
        as (_ & _ & _ & ?).
Qed.

End Frame.

(** ** The row of a member after the batch *)

Section MemberRow.
Context {F : Type} `{Arith F}.

Lemma same_sizes_sym (m m' : Mem F) : same_sizes m m' → same_sizes m' m.
Proof. intros (? & ? & ?). by split_and!. Qed.

Lemma row_agree_trans (v : variant) (D row : Z) (m1 m2 m3 : Mem F) :
  row_agree v D row m1 m2 → row_agree v D row m2 m3 →
  row_agree v D row m1 m3.
Proof.
  intros [Hp Hm] [Hp' Hm']. split.
  - intros e He. by rewrite Hp, Hp'.
  - destruct (rowwise v).
    + by rewrite Hm, Hm'.
    + intros e He. by rewrite Hm, Hm'.
Qed.

Lemma reference_sizes (v : variant) (k : KArgs F) (ts : list (Z * Z * Z))
  (m : Mem F) :
  same_sizes m (reference v k ts m).
Proof.
  unfold reference. revert m. induction ts as [|t ts IH]; intros m; simpl.
  - apply same_sizes_refl.
  - eapply same_sizes_trans; [apply (reference_member_sizes v k t)|apply IH].
Qed.

(** Members of other rows leave a row as it is. *)
Lemma reference_agree (v : variant) (k : KArgs F) (row : Z)
  (ts : list (Z * Z * Z)) (m : Mem F) :
  0 ≤ row → 0 ≤ post k →
  Forall (λ t, 0 ≤ indices k !!! Z.to_nat t.2
               ∧ indices k !!! Z.to_nat t.2 ≠ row) ts →
  row_agree v (post k) row (reference v k ts m) m.
Proof.
  intros Hrow Hpost Hts. unfold reference. revert m.
  induction Hts as [|t ts [Hi Hne] _ IH]; intros m; simpl.
  - split; [done|]. by destruct (rowwise v).
  - eapply row_agree_trans; [apply IH|].
    rewrite (reference_member_copy v k t m) by done.
    by apply copy_row_agree.
Qed.

(** With pairwise distinct indices, the batch leaves in the row of a member
    what the update of that member alone computes from the tables as they
    were before the batch. *)
Lemma reference_final (v : variant) (rows : Z) (lengths : list Z)
  (k : KArgs F) (m : Mem F) (order : list (Z * Z * Z)) (t : Z * Z * Z) :
  batch_ok v rows lengths k m → NoDup (indices k) →
  order ≡ₚ members lengths → t ∈ members lengths →
  ∃ mr, same_sizes m mr
        ∧ reference v k order m
          = copy_row v (post k) (indices k !!! Z.to_nat t.2) t.2
              (reference_member v k t m) mr.
Proof.
  intros Hb Hnd Ho Ht.
  pose proof (ok_lengths _ _ _ _ _ Hb) as Hl.
  pose proof (ok_total _ _ _ _ _ Hb) as Htot.
  pose proof (ok_post _ _ _ _ _ Hb) as Hpost.
  destruct (proj1 (elem_of_Permutation _ _) Ht) as (rest & Hrest).
  assert (Hsnoc : rest ++ [t] ≡ₚ members lengths).
  { by rewrite Hrest, <- Permutation_cons_append. }
  rewrite (reference_order v rows lengths k m m order (rest ++ [t]))
    by done.
  exists (reference v k rest m). split; [apply reference_sizes|].
  unfold reference at 1. rewrite foldl_app. cbn [foldl].
  fold (reference v k rest m).
  pose proof (members_ok _ _ _ _ _ _ Hb Ht) as Hok.
  destruct (member_row _ _ _ _ _ _ Hb Hok) as [Hi _].
  rewrite (reference_member_copy v k t (reference v k rest m)) at 1
    by (done || lia).
  apply reference_member_local; [done|lia| |].
  - apply same_sizes_sym, reference_sizes.
  - apply reference_agree; [done|lia|].
    assert (Hndm : NoDup (t :: rest)).
    { rewrite <- Hrest. apply NoDup_members. }
    apply NoDup_cons in Hndm as [Hnotin _].
    apply Forall_forall. intros t' Hin'.
    assert (Ht' : t' ∈ members lengths) by (rewrite Hrest; by right).
    pose proof (members_ok _ _ _ _ _ _ Hb Ht') as Hok'.
    destruct (member_row _ _ _ _ _ _ Hb Hok') as [Hi' _].
    split; [done|]. intros Heq.
    destruct t as [[g s] l], t' as [[g' s'] l']. cbn [fst snd] in *.
    destruct Hok as (_ & ? & ?), Hok' as (_ & ? & ?). cbn [fst snd] in *.
    assert (Z.to_nat l' = Z.to_nat l).
    { eapply (NoDup_lookup (indices k)); [done| |].
      - apply list_lookup_lookup_total_lt. lia.
      - rewrite Heq. apply list_lookup_lookup_total_lt. lia. }
    assert (l' = l) by lia. subst l'.
    destruct (members_line_inj _ _ _ _ _ _ Hl Ht Ht'). subst.
    by apply Hnotin.
Qed.

(** What [copy_row] holds in the row it copies. *)
Lemma copy_row_param (v : variant) (D row line : Z) (u m : Mem F) (e : Z) :
  0 ≤ row → 0 ≤ e < D →
  (cell D row e < length (param m))%nat →
  param (copy_row v D row line u m) !! cell D row e
  = Some (param u !!! cell D row e).
Proof.
  intros Hrow He Hlt. cbn [copy_row param].
  rewrite store_cells_in; [|done|lia|apply seqZ_nonneg|apply elem_of_seqZ; lia].
  destruct (lookup_lt_is_Some_2 _ _ Hlt) as [x ->]. done.
Qed.

Lemma copy_row_mom (v : variant) (D row line : Z) (u m : Mem F) (e : Z) :
  rowwise v = false → 0 ≤ row → 0 ≤ e < D →
  (cell D row e < length (param_mom m))%nat →
  param_mom (copy_row v D row line u m) !! cell D row e
  = Some (param_mom u !!! cell D row e).
Proof.
  intros Hv Hrow He Hlt. cbn [copy_row param_mom]. rewrite Hv.
  rewrite store_cells_in; [|done|lia|apply seqZ_nonneg|apply elem_of_seqZ; lia].
  destruct (lookup_lt_is_Some_2 _ _ Hlt) as [x ->]. done.
Qed.

Lemma copy_row_scalar (v : variant) (D row line : Z) (u m : Mem F) :
  rowwise v = true → (Z.to_nat row < length (param_mom m))%nat →
  param_mom (copy_row v D row line u m) !! Z.to_nat row
  = Some (param_mom u !!! Z.to_nat row).
Proof.
  intros Hv Hlt. cbn [copy_row param_mom]. rewrite Hv.
  by apply list_lookup_insert_eq.
Qed.

Lemma copy_row_wgo (v : variant) (D row line : Z) (u m : Mem F) :
  weighted v = true → (Z.to_nat line < length (weights_grad_out m))%nat →
  weights_grad_out (copy_row v D row line u m) !! Z.to_nat line
  = Some (weights_grad_out u !!! Z.to_nat line).
Proof.
  intros Hv Hlt. cbn [copy_row weights_grad_out]. rewrite Hv.
  by apply list_lookup_insert_eq.
Qed.

(** What [map_row] holds in the row it maps. *)
Lemma map_row_in (D row : Z) (f : Z → F → F) (table : list F) (e : Z) :
  0 ≤ row → 0 ≤ e < D → (cell D row e < length table)%nat →
  map_row D row f table !!! cell D row e = f e (table !!! cell D row e).
Proof.
  intros Hrow He Hlt. rewrite map_row_store.
  by rewrite store_cells_in_total;
    [|done|lia|apply seqZ_nonneg|apply elem_of_seqZ; lia|done].
Qed.

End MemberRow.

(** ** From the operators to their kernels *)

Section Operators.
Context {F : Type} `{Arith F}.

Lemma inputs_shapes (v : variant) (rows D : Z) (op : Op F) (inp : Inputs F) :
  inputs_ok v rows D op inp →
  let S := Z.of_nat (length (data (LENGTHS inp))) in
  let M := Z.of_nat (length (data (INDICES inp))) in
  numel (PARAM inp) = rows * D
  ∧ numel (MOMENT_1 inp) = (if rowwise v then rows else rows * D)
  ∧ numel (LR inp) = 1 ∧ numel (INDICES inp) = M
  ∧ ndim (LENGTHS inp) = 1 ∧ ndim (GRAD inp) = 2 ∧ ndim (INDICES inp) = 1
  ∧ dim (LENGTHS inp) 0 = Ok S ∧ dim (GRAD inp) 0 = Ok S
  ∧ dim (INDICES inp) 0 = Ok M ∧ dim (PARAM inp) 0 = Ok rows
  ∧ dim (MOMENT_1 inp) 0 = Ok rows
  ∧ size_from_dim (PARAM inp) 1 = D ∧ size_from_dim (GRAD inp) 1 = D
  ∧ (weighted v = true → ndim (AUX_PARAM inp) = 1).
Proof.
  intros Hi S M.
  destruct Hi as [Hp Hpd Hm Hmd Hix Hlen Hg Hgd Hlr Hlrd Hax Haxd Hnn Htot
                  Hint HD' Hcells Hgrads Hdev Hblock Hreduce].
  unfold numel, ndim, dim, size_from_dim.
  rewrite Hp, Hm, Hix, Hlen, Hg, Hlr.
  split_and!; try (intros Hw; rewrite (Hax Hw));
    try destruct (rowwise v); simpl; try done; lia.
Qed.

Lemma inputs_batch (v : variant) (rows D : Z) (op : Op F) (inp : Inputs F) :
  inputs_ok v rows D op inp →
  Forall (λ i, 0 ≤ i < rows) (data (INDICES inp)) →
  batch_ok v rows (data (LENGTHS inp)) (launch_args op inp)
    (launch_buffers v inp)
  ∧ post (launch_args op inp) = D.
Proof.
  intros Hi Hrng.
  destruct (inputs_shapes v rows D op inp Hi)
    as (_ & _ & _ & HM & _ & _ & _ & _ & _ & _ & _ & _ & _ & HD & _).
  destruct Hi as [Hp Hpd Hm Hmd Hix Hlen Hg Hgd Hlr Hlrd Hax Haxd Hnn Htot
                  Hint HD' Hcells Hgrads Hdev Hblock Hreduce].
  unfold launch_args, launch_buffers.
  split; [|done]. split; cbn [kernel_args buffers prefix_sum_length_data N
    post len_length indices grad weights lr param param_mom weights_grad_out];
    rewrite ?HD; try done; try lia.
  - intros Hw. rewrite Hw, HM. unfold Output_AUX_GRAD.
    rewrite length_replicate. lia.
Qed.

Lemma inputs_segments (v : variant) (rows D : Z) (op : Op F)
  (inp : Inputs F) :
  inputs_ok v rows D op inp → data (INDICES inp) ≠ [] →
  0 < Z.of_nat (length (data (LENGTHS inp))).
Proof.
  intros Hi Hne. pose proof (in_total _ _ _ _ _ Hi) as Htot.
  destruct (data (LENGTHS inp)) as [|x l]; [|simpl; lia].
  destruct (data (INDICES inp)); [done|]. simpl in Htot. lia.
Qed.

(** A call with a batch that is not empty is one launch of the kernel, with
    a block that fits the kernel. *)
Lemma run_operator_kernel (v : variant) (rows D : Z) (op : Op F)
  (oracle : list nat) (inp : Inputs F) :
  inputs_ok v rows D op inp → data (INDICES inp) ≠ [] →
  ∃ ExactBlock d,
    launch_ok v ExactBlock d (launch_args op inp)
    ∧ run_operator v op oracle inp
      = (m' ← fused_kernel v ExactBlock d oracle (launch_args op inp)
                (launch_buffers v inp);
         Ok {| outputs := m'; launches := [d] |}).
Proof.
  intros Hi Hne.
  pose proof (inputs_segments v rows D op inp Hi Hne) as HS.
  destruct (inputs_shapes v rows D op inp Hi)
    as (Hnp & Hnm & Hnl & Hni & Hdl & Hdg & Hdi & HlS & HgS & HiM & Hp0
        & Hm0 & Hsp & Hsg & Haux).
  pose proof (in_D _ _ _ _ _ Hi) as HD.
  destruct (in_device _ _ _ _ _ Hi) as [HmaxT Hminb].
  assert (HM : 0 < Z.of_nat (length (data (INDICES inp)))).
  { destruct (data (INDICES inp)); [done|simpl; lia]. }
  pose proof (in_block _ _ _ _ _ Hi) as Hblock.
  unfold launch_ok, dim_ok, launch_args, launch_buffers.
  cbn [kernel_args post len_length].
  destruct v; cbn [run_operator weighted fused_kernel];
    unfold
      CUDASparseAdagradFusedWithSparseLengthsSumGradientOp.RunOnDevice,
      CUDASparseAdagradFusedWithSparseLengthsSumGradientOp.DoRunWithType,
      CUDASparseAdagradFusedWithSparseLengthsSumGradientOp.DoRunWithType2,
      CUDASparseAdagradFusedWithSparseLengthsWeightedSumGradientOp.RunOnDevice,
      CUDASparseAdagradFusedWithSparseLengthsWeightedSumGradientOp.DoRunWithType,
      CUDASparseAdagradFusedWithSparseLengthsWeightedSumGradientOp.DoRunWithType2,
      CUDARowWiseSparseAdagradFusedWithSparseLengthsSumGradientOp.RunOnDevice,
      CUDARowWiseSparseAdagradFusedWithSparseLengthsSumGradientOp.DoRunWithType,
      CUDARowWiseSparseAdagradFusedWithSparseLengthsSumGradientOp.DoRunWithType2,
      CUDARowWiseSparseAdagradFusedWithSparseLengthsWeightedSumGradientOp.RunOnDevice,
      CUDARowWiseSparseAdagradFusedWithSparseLengthsWeightedSumGradientOp.DoRunWithType,
      CUDARowWiseSparseAdagradFusedWithSparseLengthsWeightedSumGradientOp.DoRunWithType2,
      multiple_of;
    rewrite ?Haux by done;
    rewrite ?Hnp, ?Hnm, ?Hnl, ?Hni, ?Hdl, ?Hdg, ?Hdi, ?HlS, ?HgS, ?HiM,
      ?Hp0, ?Hm0, ?Hsp, ?Hsg;
    cbn [rowwise Z.to_nat]; rewrite ?Hsg, ?Z.eqb_refl;
    change (1 =? 1) with true; change (0 <? 2) with true;
    cbn [CAFFE_ENFORCE mbind result_bind];
    rewrite ?Z.eqb_refl; cbn [CAFFE_ENFORCE mbind result_bind];
    rewrite (proj2 (Z.eqb_neq _ 0)) by lia;
    rewrite (proj2 (Z.leb_gt _ 0)) by lia.
  - destruct (Z.leb_spec D (maxThreadsPerBlock op)).
    + rewrite (proj2 (Z.eqb_neq D 0)) by lia. cbn [mbind result_bind].
      eexists true, _. split; [|reflexivity]. cbn.
      pose proof (Z.div_str_pos (maxThreadsPerBlock op) D ltac:(lia)).
      split; [|done]. split_and!; try done; lia.
    + eexists false, _. split; [|reflexivity]. cbn.
      split; [|done]. split_and!; try done; lia.
  - eexists false, _. split; [|reflexivity]. cbn.
    split; [|done].
    split_and!; try done. unfold NumThreads. repeat case_match; lia.
  - destruct ((D <=? maxThreadsPerBlock op / 2) && (D mod 32 =? 0))
      eqn:Hfast.
    + apply andb_true_iff in Hfast as [Hle%Z.leb_le Hmod%Z.eqb_eq].
      rewrite (proj2 (Z.eqb_neq D 0)) by lia. cbn [mbind result_bind].
      eexists true, _. split; [|reflexivity]. cbn.
      assert (D ≤ maxThreadsPerBlock op).
      { pose proof (Z.mul_div_le (maxThreadsPerBlock op) 2 ltac:(lia)).
        lia. }
      pose proof (Z.div_str_pos (maxThreadsPerBlock op) D ltac:(lia)).
      pose proof (Z.mul_div_le (maxThreadsPerBlock op) D ltac:(lia)).
      split; [split_and!; try done; lia|].
      intros _. split; [done|]. nia.
    + eexists false, _. split; [|reflexivity]. cbn.
      split; [split_and!; try done; lia|]. intros _.
      destruct (in_reduce _ _ _ _ _ Hi eq_refl) as [[Hle Hmod]|Hfit];
        [|exact Hfit].
      apply andb_false_iff in Hfast as [Hf%Z.leb_gt|Hf%Z.eqb_neq]; [lia|done].
  - eexists false, _. split; [|reflexivity]. cbn.
    split; [|done].
    split_and!; try done. unfold NumThreads. repeat case_match; lia.
Qed.

End Operators.

(** ** The rows of a batch after the fused update *)

Section FusedRows.
Context {F : Type} `{ExactArith F}.

(** With pairwise distinct indices, the fused update leaves in the row of a
    member, and at its position of the weight-gradient output, what the
    reference computes for that member from the tables as they were before
    the batch. *)
Lemma fused_kernel_row (v : variant) (ExactBlock : bool) (d : Dim)
  (oracle : list nat) (rows : Z) (lengths : list Z) (k : KArgs F)
  (m : Mem F) (t : Z * Z * Z) :
  batch_ok v rows lengths k m → launch_ok v ExactBlock d k →
  NoDup (indices k) → t ∈ members lengths →
  let row := indices k !!! Z.to_nat t.2 in
  let D := post k in
  let u := reference_member v k t m in
  0 ≤ row < rows
  ∧ ∃ m', fused_kernel v ExactBlock d oracle k m = Ok m'
      ∧ (∀ e, 0 ≤ e < D →
           param m' !! cell D row e = Some (param u !!! cell D row e))
      ∧ (rowwise v = true →
         param_mom m' !! Z.to_nat row = Some (param_mom u !!! Z.to_nat row))
      ∧ (rowwise v = false → ∀ e, 0 ≤ e < D →
           param_mom m' !! cell D row e
           = Some (param_mom u !!! cell D row e))
      ∧ (weighted v = true →
         weights_grad_out m' !! Z.to_nat t.2
         = Some (weights_grad_out u !!! Z.to_nat t.2)).
Proof.
  intros Hb Hd Hnd Ht row D u.
  pose proof (members_ok _ _ _ _ _ _ Hb Ht) as (Hg & Hs & Hl).
  pose proof (batch_index _ _ _ _ _ t.2 Hb ltac:(lia)) as Hrow.
  fold row in Hrow. split; [done|].
  destruct (reference_final v rows lengths k m (members lengths) t)
    as (mr & (Hsp & Hsm & Hsw) & Href); try done.
  exists (reference v k (members lengths) m). split.
  { by apply (fused_kernel_reference v ExactBlock d oracle rows lengths). }
  rewrite Href. fold row D u.
  pose proof (ok_param _ _ _ _ _ Hb) as Hp.
  pose proof (ok_mom _ _ _ _ _ Hb) as Hm.
  assert (Hc : ∀ e, 0 ≤ e < D → (Z.of_nat (cell D row e) < rows * D)).
  { intros e He. pose proof (cell_bound D rows row e Hrow He).
    unfold cell. lia. }
  split_and!.
  - intros e He. apply copy_row_param; [lia|done|]. specialize (Hc e He).
    unfold D in *. lia.
  - intros Hv. apply copy_row_scalar; [done|]. rewrite Hv in Hm. lia.
  - intros Hv e He. apply copy_row_mom; [done|lia|done|].
    specialize (Hc e He). rewrite Hv in Hm. unfold D in *. lia.
  - intros Hv. apply copy_row_wgo; [done|].
    pose proof (ok_wgo _ _ _ _ _ Hb Hv). lia.
Qed.

End FusedRows.

Section OtherWeights.
Context {F : Type} `{Arith F}.

Lemma batch_ok_with_weights (v : variant) (rows : Z) (lengths : list Z)
  (k : KArgs F) (m : Mem F) (ws : list F) :
  batch_ok v rows lengths k m → length ws = length (weights k) →
  batch_ok v rows lengths (with_weights k ws) m.
Proof.
  intros Hb Hws. destruct Hb. split; try done.
  cbn [with_weights weights indices]. intros Hv. rewrite Hws. auto.
Qed.

End OtherWeights.

(** ** Calls *)

Section Calls.
Context {F : Type} `{Arith F}.

Lemma run_operator_no_indices (v : variant) (rows D : Z) (op : Op F)
  (oracle : list nat) (inp : Inputs F) :
  inputs_ok v rows D op inp → data (INDICES inp) = [] →
  run_operator v op oracle inp = no_op inp.
Proof.
  intros Hi He.
  destruct (inputs_shapes v rows D op inp Hi)
    as (Hnp & Hnm & Hnl & Hni & Hdl & Hdg & Hdi & HlS & HgS & HiM & Hp0
        & Hm0 & Hsp & Hsg & Haux).
  destruct (Z.eq_dec (numel (PARAM inp)) (numel (MOMENT_1 inp))) as [Heq|Hne].
  - apply run_operator_empty; try done.
    + rewrite Hni, He. done.
    + rewrite Hsp, Hdi. done.
  - (* only the row-wise operators accept a table and an accumulator of
       different sizes, and they do not compare them *)
    destruct v; cbn [rowwise] in Hnm; try (rewrite Hnp, Hnm in Hne; done);
      unfold run_operator,
        CUDARowWiseSparseAdagradFusedWithSparseLengthsSumGradientOp.RunOnDevice,
        CUDARowWiseSparseAdagradFusedWithSparseLengthsWeightedSumGradientOp.RunOnDevice,
        CUDARowWiseSparseAdagradFusedWithSparseLengthsSumGradientOp.DoRunWithType,
        CUDARowWiseSparseAdagradFusedWithSparseLengthsWeightedSumGradientOp.DoRunWithType,
        no_op;
      rewrite Hnl, Hsp, Hdi, Hsg, Hni, He, !Z.eqb_refl; simpl; done.
Qed.

(** The offsets of a call whose lengths sum to the number of its indices
    pass the assertions of the kernels, whatever the indices are. *)
Lemma run_operator_asserts (v : variant) (rows D : Z) (op : Op F)
  (oracle : list nat) (inp : Inputs F) :
  inputs_ok v rows D op inp →
  run_operator v op oracle inp ≠ AssertFailed.
Proof.
  intros Hi Hrun.
  destruct (decide (data (INDICES inp) = [])) as [He|Hne].
  { by rewrite (run_operator_no_indices v rows D) in Hrun. }
  destruct (run_operator_kernel v rows D op oracle inp Hi Hne)
    as (ExactBlock & d & Hd & Heq).
  rewrite Heq in Hrun.
  assert (Hk : fused_kernel v ExactBlock d oracle (launch_args op inp)
                 (launch_buffers v inp) = AssertFailed).
  { by destruct (fused_kernel v ExactBlock d oracle (launch_args op inp)
                   (launch_buffers v inp)). }
  apply fused_kernel_assert in Hk.
  destruct Hd as ((Hg & _) & _).
  cbn [launch_args kernel_args len_length] in Hg.
  pose proof (in_nonneg _ _ _ _ _ Hi) as Hnn.
  pose proof (in_total _ _ _ _ _ Hi) as Htot.
  pose proof (in_int _ _ _ _ _ Hi) as Hint.
  apply launch_blocks_assert in Hk as (g & start & end_ & Hgr & Hsb & Hex).
  - rewrite Hg in Hgr.
    rewrite <- (Z2Nat.id g) in Hsb by lia.
    rewrite (segment_bounds_scan (launch_args op inp) (data (LENGTHS inp)))
      in Hsb; [|done..|lia].
    simplify_eq. cbn [launch_args kernel_args N] in Hex.
    pose proof (total_take_bounds (data (LENGTHS inp)) (Z.to_nat g) Hnn).
    lia.
  - rewrite Hg. cbn [launch_args kernel_args prefix_sum_length_data].
    rewrite inclusive_scan_wrapper_length. lia.
Qed.

(** A call whose indices are rows of the table succeeds, and leaves the rows
    that are not among its indices as they were. *)
Lemma run_operator_frame (v : variant) (rows D : Z) (op : Op F)
  (oracle : list nat) (inp : Inputs F) :
  inputs_ok v rows D op inp →
  Forall (λ i, 0 ≤ i < rows) (data (INDICES inp)) →
  ∃ run, run_operator v op oracle inp = Ok run
         ∧ same_sizes (launch_buffers v inp) (outputs run)
         ∧ ∀ r, 0 ≤ r → r ∉ data (INDICES inp) →
             row_kept v D r (launch_buffers v inp) (outputs run).
Proof.
  intros Hi Hrng.
  pose proof (inputs_shapes v rows D op inp Hi)
    as (_ & _ & _ & Hni & _).
  destruct (decide (data (INDICES inp) = [])) as [He|Hne].
  - rewrite (run_operator_no_indices v rows D) by done.
    eexists. split; [done|]. cbn [outputs]. unfold launch_buffers.
    rewrite Hni, He. cbn [length Z.of_nat Output_AUX_GRAD Z.to_nat replicate].
    destruct (weighted v); (split; [apply same_sizes_refl|]);
      intros; apply row_kept_refl.
  - destruct (run_operator_kernel v rows D op oracle inp Hi Hne)
      as (ExactBlock & d & Hd & ->).
    destruct (inputs_batch v rows D op inp Hi Hrng) as [Hb HD].
    destruct (fused_kernel_frame v ExactBlock d oracle rows
                (data (LENGTHS inp)) (launch_args op inp)
                (launch_buffers v inp) Hb Hd) as (m' & -> & Hs & Hk).
    cbn [mbind result_bind]. eexists. split; [done|]. cbn [outputs].
    split; [done|]. intros r Hr Hout. rewrite <- HD. by apply Hk.
Qed.

End Calls.

(** ** Launches that return *)

Lemma foldM_Ok_inv {A S : Type} (f : A → S → result S) (I : S → Prop)
  (P : A → Prop) (l : list A) (s s' : S) :
  (∀ a s s1, a ∈ l → I s → f a s = Ok s1 → I s1 ∧ P a) →
  I s → foldM f l s = Ok s' → I s' ∧ Forall P l.
Proof.
  revert s. induction l as [|a l IH]; intros s Hf Hs Hrun; simpl in Hrun.
  - by simplify_eq.
  - apply bind_Ok in Hrun as (s1 & Ha & Hrun).
    destruct (Hf a s s1) as [Hs1 HP]; [by left|done..|].
    destruct (IH s1) as [Hs' Hl]; [|done..|].
    + intros a' s2 s3 Hin. apply Hf. by right.
    + split; [done | by constructor].
Qed.

Lemma mapM_Ok_head {A B : Type} (f : A → result B) (a : A) (l : list A)
  (bs : list B) :
  mapM f (a :: l) = Ok bs → ∃ b, f a = Ok b.
Proof. simpl. intros (b & Hb & _)%bind_Ok. by exists b. Qed.

Lemma lanes_Ok_inv {S A : Type} (f : Z → S → result (A * S)) (I : S → Prop)
  (tids : list Z) (s : S) (p : list A * S) :
  (∀ t s q, I s → f t s = Ok q → I q.2) →
  I s → lanes f tids s = Ok p → I p.2.
Proof.
  intros Hf. revert s p.
  induction tids as [|t tids IH]; intros s p Hs Hrun; simpl in Hrun.
  - by simplify_eq.
  - apply bind_Ok in Hrun as ([a s1] & Ha & Hrun).
    apply bind_Ok in Hrun as ([la s2] & Hr & Hrun). simplify_eq. simpl.
    apply (IH s1 (la, s2)); [|done]. by apply (Hf t s (a, s1)).
Qed.

Lemma lanes_Ok_head {S A : Type} (f : Z → S → result (A * S)) (t : Z)
  (tids : list Z) (s : S) (p : list A * S) :
  lanes f (t :: tids) s = Ok p → ∃ q, f t s = Ok q.
Proof. simpl. intros (q & Hq & _)%bind_Ok. by exists q. Qed.

Lemma for_loop_head (from to step : Z) :
  from < to → ∃ rest, for_loop from to step = from :: rest.
Proof.
  intros Hlt. unfold for_loop.
  destruct (Z.to_nat (to - from)) as [|n] eqn:E; [lia|]. simpl.
  rewrite (proj2 (Z.ltb_lt _ _)) by done. by eexists.
Qed.

Lemma index_in_range (rows post index e len : Z) :
  len = rows * post → 0 ≤ e < post → 0 ≤ index * post + e < len →
  0 ≤ index < rows.
Proof. intros -> He Hi. nia. Qed.

Section Returns.
Context {F : Type} `{Arith F}.

Lemma rd_index (k : KArgs F) (line index : Z) :
  rd (indices k) line = Ok index → index = indices k !!! Z.to_nat line.
Proof.
  intros [_ Hl]%rd_Ok. symmetry. by apply list_lookup_total_correct.
Qed.

Lemma rd_bound {A : Type} (l : list A) (i : Z) (x : A) :
  rd l i = Ok x → 0 ≤ i < Z.of_nat (length l).
Proof. intros [? Hl%lookup_lt_Some]%rd_Ok. lia. Qed.

Lemma x_ij_bound (k : KArgs F) (group index i : Z) (pa : list F) (x : F) :
  x_ij k group index i pa = Ok x →
  0 ≤ index * post k + i < Z.of_nat (length pa).
Proof.
  unfold x_ij. intros (g & _ & (p & Hp & _)%bind_Ok)%bind_Ok.
  by apply rd_bound in Hp.
Qed.

(** A loop body that returns has read its parameter element within the
    table, and leaves the arrays with their sizes. *)
Lemma adagrad_update_Ok (k : KArgs F) (t : Z * Z * Z) (m m1 : Mem F) :
  adagrad_update k t m = Ok m1 →
  same_sizes m m1
  ∧ 0 ≤ indices k !!! Z.to_nat t.1.2 * post k + t.2
    < Z.of_nat (length (param m)).
Proof.
  destruct t as [[g line] i]. unfold adagrad_update. cbn [fst snd].
  intros (LR & _ & (index & Hi & (gv & _ & (p & Hp & (a & _ & (pm & Hpm
    & (pa & Hpa & Hm)%bind_Ok)%bind_Ok)%bind_Ok)%bind_Ok)%bind_Ok)%bind_Ok
    )%bind_Ok.
  apply rd_index in Hi as ->. apply rd_bound in Hp.
  apply wr_length in Hpm, Hpa. simplify_eq.
  unfold same_sizes. cbn [param param_mom weights_grad_out]. split_and!; (done || lia).
Qed.

Lemma weighted_update_Ok (k : KArgs F) (LR w : F) (group index i : Z)
  (s s1 : F * Mem F) :
  weighted_update k LR w group index i s = Ok s1 →
  same_sizes s.2 s1.2
  ∧ 0 ≤ index * post k + i < Z.of_nat (length (param s.2)).
Proof.
  destruct s as [w_grad m]. unfold weighted_update. cbn [fst snd].
  intros (gv & _ & (p & Hp & (a & _ & (pm & Hpm
    & (pa & Hpa & Hm)%bind_Ok)%bind_Ok)%bind_Ok)%bind_Ok)%bind_Ok.
  apply rd_bound in Hp. apply wr_length in Hpm, Hpa. simplify_eq.
  unfold same_sizes. cbn [snd param param_mom weights_grad_out].
  split_and!; (done || lia).
Qed.

Lemma weighted_sum_member_Ok (d : Dim) (k : KArgs F) (t : Z * Z * Z)
  (m m1 : Mem F) :
  0 < blockDim_x d → 0 < post k →
  weighted_sum_member d k t m = Ok m1 →
  same_sizes m m1
  ∧ 0 ≤ indices k !!! Z.to_nat t.2 * post k + 0
    < Z.of_nat (length (param m)).
Proof.
  destruct t as [[g start] line]. unfold weighted_sum_member.
  cbn [fst snd]. intros Hbx Hpost
    (LR & _ & (index & Hi & (w & _ & ([w_grads m2] & Hl
    & (wgo & Hw & Hm)%bind_Ok)%bind_Ok)%bind_Ok)%bind_Ok)%bind_Ok.
  apply rd_index in Hi as ->. apply wr_length in Hw. simplify_eq.
  set (index := indices k !!! Z.to_nat line) in *.
  assert (Hs : same_sizes m m2).
  { refine (lanes_Ok_inv _ (same_sizes m) _ m (w_grads, m2) _
              (same_sizes_refl m) Hl).
    intros tid s q Hs Hq.
    apply (foldM_Ok_inv _ (λ s : F * Mem F, same_sizes m s.2)
             (λ _, True)) in Hq as [Hq _]; [done| |done].
    intros i s2 s3 _ Hs2 Hstep. split; [|done].
    apply weighted_update_Ok in Hstep as [Hstep _].
    by eapply same_sizes_trans. }
  split.
  - destruct Hs as (? & ? & ?). unfold same_sizes.
    cbn [param param_mom weights_grad_out]. split_and!; (done || lia).
  - rewrite (seqZ_cons 0) in Hl by done.
    apply lanes_Ok_head in Hl as (q & Hq).
    destruct (for_loop_head 0 (post k) (blockDim_x d) Hpost) as (rest & Hr).
    rewrite Hr in Hq. cbn [foldM] in Hq.
    apply bind_Ok in Hq as (s1 & Hstep & _).
    by apply weighted_update_Ok in Hstep as [_ Hstep].
Qed.

Lemma sum_squares_lane_Ok (d : Dim) (k : KArgs F) (group index : Z)
  (pa : list F) (x : F) :
  0 < post k →
  sum_squares_lane d k group index 0 pa = Ok x →
  0 ≤ index * post k + 0 < Z.of_nat (length pa).
Proof.
  intros Hpost. unfold sum_squares_lane.
  destruct (for_loop_head 0 (post k) (blockDim_x d) Hpost) as (rest & ->).
  cbn [foldM]. intros (s1 & (y & Hy & _)%bind_Ok & _)%bind_Ok.
  by apply x_ij_bound in Hy.
Qed.

Lemma param_loop_Ok {A : Type} (f : A → list F → result (list F))
  (l : list A) (pa pa' : list F) :
  (∀ a pa pa', f a pa = Ok pa' → length pa' = length pa) →
  foldM f l pa = Ok pa' → length pa' = length pa.
Proof.
  intros Hf Hrun.
  apply (foldM_Ok_inv f (λ p, length p = length pa) (λ _, True))
    in Hrun as [Hrun _]; [done| |done].
  intros a s s1 _ Hs Ha. split; [|done]. by rewrite (Hf a s s1 Ha).
Qed.

Lemma rowwise_strided_member_Ok (d : Dim) (k : KArgs F) (t : Z * Z * Z)
  (m m1 : Mem F) :
  0 < blockDim_x d → 0 < post k →
  rowwise_strided_member d k t m = Ok m1 →
  same_sizes m m1
  ∧ 0 ≤ indices k !!! Z.to_nat t.2 * post k + 0
    < Z.of_nat (length (param m)).
Proof.
  destruct t as [[g start] line]. unfold rowwise_strided_member.
  cbn [fst snd]. intros Hbx Hpost
    (LR & _ & (index & Hi & (sums & Hsums & (reduce_result & _
    & (old & _ & (mom & Hmom
    & (a & _ & (pa & Hpa & Hm)%bind_Ok)%bind_Ok)%bind_Ok)%bind_Ok)%bind_Ok
    )%bind_Ok)%bind_Ok)%bind_Ok.
  apply rd_index in Hi as ->. apply wr_length in Hmom. simplify_eq.
  split.
  - unfold same_sizes. split_and!; cbn [param param_mom weights_grad_out];
      [|done..].
    apply param_loop_Ok in Hpa; [done|].
    intros tid pa1 pa2 Htid. apply param_loop_Ok in Htid; [done|].
    intros i pa3 pa4 Hi.
    apply bind_Ok in Hi as (x & _ & (p & _ & Hw)%bind_Ok).
    by apply wr_length in Hw.
  - rewrite (seqZ_cons 0) in Hsums by done.
    apply mapM_Ok_head in Hsums as (x & Hx).
    by apply sum_squares_lane_Ok in Hx.
Qed.

Lemma gpuAtomicAdd_Ok (a a' : list F) (i : Z) (val : F) :
  gpuAtomicAdd a i val = Ok a' → length a' = length a.
Proof.
  unfold gpuAtomicAdd. intros (old & _ & Hw)%bind_Ok. by apply wr_length in Hw.
Qed.

Lemma rowwise_exact_member_Ok (d : Dim) (oracle : list nat) (k : KArgs F)
  (t : Z * Z * Z) (m m1 : Mem F) :
  0 < blockDim_x d →
  rowwise_exact_member d oracle k t m = Ok m1 →
  same_sizes m m1
  ∧ 0 ≤ indices k !!! Z.to_nat t.2 * post k + 0
    < Z.of_nat (length (param m)).
Proof.
  destruct t as [[g start] line]. unfold rowwise_exact_member.
  cbn [fst snd]. intros Hbx
    (LR & _ & (index & Hi & (xs & Hxs & (mom & Hmom
    & (a & _ & (pa & Hpa & Hm)%bind_Ok)%bind_Ok)%bind_Ok)%bind_Ok)%bind_Ok
    )%bind_Ok.
  apply rd_index in Hi as ->. simplify_eq.
  split.
  - unfold same_sizes. split_and!; cbn [param param_mom weights_grad_out];
      [| |done].
    + apply param_loop_Ok in Hpa; [done|]. intros xx pa1 pa2 Hxx.
      apply bind_Ok in Hxx as (p & _ & Hw). by apply wr_length in Hw.
    + apply param_loop_Ok in Hmom; [done|]. intros warp mom1 mom2 Hw.
      by apply gpuAtomicAdd_Ok in Hw.
  - rewrite (seqZ_cons 0) in Hxs by done.
    apply mapM_Ok_head in Hxs as (x & Hx).
    by apply x_ij_bound in Hx.
Qed.

Lemma rowwise_weighted_member_Ok (d : Dim) (k : KArgs F) (t : Z * Z * Z)
  (m m1 : Mem F) :
  0 < blockDim_x d → 0 < post k →
  rowwise_weighted_member d k t m = Ok m1 →
  same_sizes m m1
  ∧ 0 ≤ indices k !!! Z.to_nat t.2 * post k + 0
    < Z.of_nat (length (param m)).
Proof.
  destruct t as [[g start] line]. unfold rowwise_weighted_member.
  cbn [fst snd]. intros Hbx Hpost
    (LR & _ & (index & Hi & (w & _ & (sums & Hsums & (old & _ & (mom & Hmom
    & (a & _ & ([w_grads pa] & Hl & (wgo & Hw & Hm)%bind_Ok)%bind_Ok
    )%bind_Ok)%bind_Ok)%bind_Ok)%bind_Ok)%bind_Ok)%bind_Ok)%bind_Ok.
  apply rd_index in Hi as ->. apply wr_length in Hmom, Hw. simplify_eq.
  split.
  - unfold same_sizes. split_and!; cbn [param param_mom weights_grad_out];
      [|done..].
    refine (lanes_Ok_inv _ (λ p, length p = length (param m)) _ (param m)
              (w_grads, pa) _ eq_refl Hl).
    intros tid s q Hs Hq.
    apply (foldM_Ok_inv _ (λ s : F * list F, length s.2 = length (param m))
             (λ _, True)) in Hq as [Hq _]; [done| |done].
    intros i [wg s2] s3 _ Hs2 Hstep. split; [|done].
    unfold rowwise_weighted_update in Hstep.
    apply bind_Ok in Hstep as (gv & _ & (p & _ & (pa' & Hpa' & Hs3)%bind_Ok
      )%bind_Ok).
    apply wr_length in Hpa'. simplify_eq. simpl in *. lia.
  - rewrite (seqZ_cons 0) in Hsums by done.
    apply mapM_Ok_head in Hsums as (x & Hx).
    by apply sum_squares_lane_Ok in Hx.
Qed.

End Returns.

(** ** Indices of launches that return *)

Lemma members_cover (lengths : list Z) (line : Z) :
  Forall (λ x, 0 ≤ x) lengths → 0 ≤ line < total lengths →
  ∃ g start, (g, start, line) ∈ members lengths.
Proof.
  intros Hl Hline.
  assert (Hn : ∃ n, (n < length lengths)%nat
                    ∧ total (take n lengths) ≤ line
                      < total (take (S n) lengths)).
  { clear -Hl Hline. induction lengths as [|x l IH] using rev_ind.
    - unfold total in Hline. simpl in Hline. lia.
    - apply Forall_app in Hl as [Hl Hx]. apply Forall_singleton in Hx.
      rewrite total_app in Hline.
      replace (total [x]) with x in Hline by (unfold total; simpl; lia).
      destruct (decide (line < total l)) as [Hlt|Hge].
      + destruct (IH Hl ltac:(lia)) as (n & Hn & Hb). exists n.
        rewrite length_app. split; [lia|].
        by rewrite !take_app_le by lia.
      + exists (length l). rewrite length_app. simpl. split; [lia|].
        rewrite take_app_length.
        rewrite take_ge by (rewrite length_app; simpl; lia).
        rewrite total_app.
        replace (total [x]) with x by (unfold total; simpl; lia). lia. }
  destruct Hn as (n & Hn & Hb).
  exists (Z.of_nat n), (total (take n lengths)).
  apply elem_of_members. exists n. split_and!; (done || lia).
Qed.

Section ReturnedIndices.
Context {F : Type} `{Arith F}.

Lemma batch_ok_shape (v : variant) (rows : Z) (lengths : list Z)
  (k : KArgs F) (m : Mem F) :
  batch_ok v rows lengths k m → batch_shape v rows lengths k m.
Proof. intros Hb. destruct Hb. by split. Qed.

Lemma batch_shape_ok (v : variant) (rows : Z) (lengths : list Z)
  (k : KArgs F) (m : Mem F) :
  batch_shape v rows lengths k m →
  Forall (λ i, 0 ≤ i < rows) (indices k) →
  batch_ok v rows lengths k m.
Proof. intros Hs Hi. destruct Hs. by split. Qed.

Lemma launch_blocks_shape (v : variant) (rows : Z) (lengths : list Z)
  (k : KArgs F) (m : Mem F) (d : Dim) :
  batch_shape v rows lengths k m → gridDim_x d = len_length k →
  launch_blocks d k = Ok (segments lengths).
Proof.
  intros Hs Hd. apply launch_blocks_scan; try apply Hs.
  by rewrite Hd, (sh_len _ _ _ _ _ Hs).
Qed.

(** A loop of member updates that returns has found the index of every
    member within the table. *)
Lemma member_loop_Ok (v : variant) (rows : Z) (lengths : list Z)
  (k : KArgs F) (m m' : Mem F) (ts : list (Z * Z * Z))
  (step : Z * Z * Z → Mem F → result (Mem F)) :
  batch_shape v rows lengths k m → ts ≡ₚ members lengths →
  (∀ t m1 m2, step t m1 = Ok m2 →
     same_sizes m1 m2
     ∧ 0 ≤ indices k !!! Z.to_nat t.2 * post k + 0
       < Z.of_nat (length (param m1))) →
  foldM step ts m = Ok m' →
  Forall (λ i, 0 ≤ i < rows) (indices k).
Proof.
  intros Hs Hts Hstep Hrun.
  pose proof (sh_param _ _ _ _ _ Hs) as Hp.
  pose proof (sh_post _ _ _ _ _ Hs) as Hpost.
  apply (foldM_Ok_inv step (same_sizes m)
           (λ t, 0 ≤ indices k !!! Z.to_nat t.2 * post k + 0
                 < rows * post k)) in Hrun as [_ Hall].
  - apply Forall_lookup. intros n i Hn.
    pose proof (lookup_lt_Some _ _ _ Hn) as Hlt.
    destruct (members_cover lengths (Z.of_nat n)) as (g & start & Hin).
    { apply Hs. }
    { rewrite (sh_total _ _ _ _ _ Hs). lia. }
    rewrite Forall_forall in Hall. rewrite <- Hts in Hin.
    specialize (Hall _ Hin). cbn [snd] in Hall. rewrite Nat2Z.id in Hall.
    rewrite (list_lookup_total_correct _ _ _ Hn) in Hall.
    by apply (index_in_range rows (post k) i 0 (rows * post k)).
  - intros t m1 m2 _ Hs1 Ht. destruct (Hstep t m1 m2 Ht) as [Hs2 Hb].
    split; [by eapply same_sizes_trans|].
    destruct Hs1 as (Hlen & _). rewrite Hlen, Hp in Hb. done.
  - apply same_sizes_refl.
Qed.

Lemma fused_kernel_Ok_indices (v : variant) (ExactBlock : bool) (d : Dim)
  (oracle : list nat) (rows : Z) (lengths : list Z) (k : KArgs F)
  (m m' : Mem F) :
  batch_shape v rows lengths k m → dim_ok ExactBlock d k →
  fused_kernel v ExactBlock d oracle k m = Ok m' →
  Forall (λ i, 0 ≤ i < rows) (indices k).
Proof.
  intros Hs Hd. pose proof Hd as (Hg & Hbx & Hby & Hex & Hst).
  pose proof (sh_post _ _ _ _ _ Hs) as Hpost.
  pose proof (sh_param _ _ _ _ _ Hs) as Hp.
  destruct v; unfold fused_kernel,
    sparse_adagrad_fused_length_sum_gradient_kernel,
    sparse_adagrad_fused_length_weighted_sum_gradient_kernel,
    rowwise_sparse_adagrad_fused_length_sum_gradient_kernel,
    rowwise_sparse_adagrad_fused_length_weighted_sum_gradient_kernel;
    rewrite (launch_blocks_shape _ rows lengths k m d Hs Hg);
    cbn [mbind result_bind].
  - intros Hrun.
    apply (foldM_Ok_inv (adagrad_update k) (same_sizes m)
             (λ t, 0 ≤ indices k !!! Z.to_nat t.1.2 * post k + t.2
                   < rows * post k)) in Hrun as [_ Hall].
    + apply Forall_lookup. intros n i Hn.
      pose proof (lookup_lt_Some _ _ _ Hn) as Hlt.
      destruct (members_cover lengths (Z.of_nat n)) as (g & start & Hin).
      { apply Hs. }
      { rewrite (sh_total _ _ _ _ _ Hs). lia. }
      assert (Ht : (g, Z.of_nat n, 0)
                   ∈ interleave oracle
                       (sum_threads ExactBlock d k (segments lengths))).
      { rewrite interleave_perm, sum_threads_tasks by done.
        unfold element_tasks. apply list_elem_of_bind.
        exists (g, start, Z.of_nat n). split; [|done].
        apply list_elem_of_fmap. exists 0. split; [done|].
        apply elem_of_seqZ. lia. }
      rewrite Forall_forall in Hall. specialize (Hall _ Ht).
      cbn [fst snd] in Hall. rewrite Nat2Z.id in Hall.
      rewrite (list_lookup_total_correct _ _ _ Hn) in Hall.
      by apply (index_in_range rows (post k) i 0 (rows * post k)).
    + intros t m1 m2 _ Hs1 Ht.
      apply adagrad_update_Ok in Ht as [Hs2 Hb].
      split; [by eapply same_sizes_trans|].
      destruct Hs1 as (Hlen & _). rewrite Hlen, Hp in Hb. done.
    + apply same_sizes_refl.
  - apply (member_loop_Ok WeightedExact rows lengths); [done| |].
    + by rewrite interleave_perm, member_threads_members.
    + intros t m1 m2. by apply weighted_sum_member_Ok.
  - destruct ExactBlock.
    + apply (member_loop_Ok RowWise rows lengths); [done| |].
      * by rewrite interleave_perm, rowwise_exact_threads_members.
      * intros t m1 m2. by apply rowwise_exact_member_Ok.
    + apply (member_loop_Ok RowWise rows lengths); [done| |].
      * by rewrite interleave_perm, member_threads_members.
      * intros t m1 m2. by apply rowwise_strided_member_Ok.
  - apply (member_loop_Ok WeightedRowWise rows lengths); [done| |].
    + by rewrite interleave_perm, member_threads_members.
    + intros t m1 m2. by apply rowwise_weighted_member_Ok.
Qed.

(** With an index that is not a row of the table, a launch is an access
    outside the tables. *)
Lemma fused_kernel_out_of_range (v : variant) (ExactBlock : bool) (d : Dim)
  (oracle : list nat) (rows : Z) (lengths : list Z) (k : KArgs F)
  (m : Mem F) :
  batch_shape v rows lengths k m → dim_ok ExactBlock d k →
  ¬ Forall (λ i, 0 ≤ i < rows) (indices k) →
  fused_kernel v ExactBlock d oracle k m = Undefined.
Proof.
  intros Hs Hd Hout. pose proof Hd as (Hg & _).
  destruct (fused_kernel v ExactBlock d oracle k m) as [m'| | |] eqn:Hrun;
    [|exfalso..|done|exfalso].
  - destruct Hout.
    by apply (fused_kernel_Ok_indices v ExactBlock d oracle rows lengths k m
                m').
  - apply fused_kernel_assert in Hrun.
    by rewrite (launch_blocks_shape v rows lengths k m d) in Hrun.
  - revert Hrun. destruct v; unfold fused_kernel,
      sparse_adagrad_fused_length_sum_gradient_kernel,
      sparse_adagrad_fused_length_weighted_sum_gradient_kernel,
      rowwise_sparse_adagrad_fused_length_sum_gradient_kernel,
      rowwise_sparse_adagrad_fused_length_weighted_sum_gradient_kernel;
      rewrite (launch_blocks_shape _ rows lengths k m d Hs Hg);
      cbn [mbind result_bind]; try destruct ExactBlock;
      apply asserts_nothing_foldM; intros;
      first [ apply adagrad_update_asserts_nothing
            | apply weighted_sum_member_asserts_nothing
            | apply rowwise_exact_member_asserts_nothing
            | apply rowwise_strided_member_asserts_nothing
            | apply rowwise_weighted_member_asserts_nothing ].
Qed.

End ReturnedIndices.

(** ** Calls that return *)

Section ReturnedCalls.
Context {F : Type} `{Arith F}.

Lemma inputs_shape (v : variant) (rows D : Z) (op : Op F) (inp : Inputs F) :
  inputs_ok v rows D op inp →
  batch_shape v rows (data (LENGTHS inp)) (launch_args op inp)
    (launch_buffers v inp).
Proof.
  intros Hi.
  destruct (inputs_shapes v rows D op inp Hi)
    as (_ & _ & _ & HM & _ & _ & _ & _ & _ & _ & _ & _ & _ & HD & _).
  destruct Hi as [Hp Hpd Hm Hmd Hix Hlen Hg Hgd Hlr Hlrd Hax Haxd Hnn Htot
                  Hint HD' Hcells Hgrads Hdev Hblock Hreduce].
  unfold launch_args, launch_buffers.
  split; cbn [kernel_args buffers prefix_sum_length_data N
    post len_length indices grad weights lr param param_mom weights_grad_out];
    rewrite ?HD; try done; try lia.
  intros Hw. rewrite Hw, HM. unfold Output_AUX_GRAD.
  rewrite length_replicate. lia.
Qed.

(** A call that returns has found every index within the table. *)
Lemma run_operator_Ok_indices (v : variant) (rows D : Z) (op : Op F)
  (oracle : list nat) (inp : Inputs F) (run : Run F) :
  inputs_ok v rows D op inp →
  run_operator v op oracle inp = Ok run →
  Forall (λ i, 0 ≤ i < rows) (data (INDICES inp)).
Proof.
  intros Hi Hrun.
  destruct (decide (data (INDICES inp) = [])) as [->|Hne]; [done|].
  destruct (run_operator_kernel v rows D op oracle inp Hi Hne)
    as (ExactBlock & d & Hd & Heq).
  rewrite Heq in Hrun. apply bind_Ok in Hrun as (m' & Hk & _).
  by apply (fused_kernel_Ok_indices v ExactBlock d oracle rows
              (data (LENGTHS inp)) (launch_args op inp)
              (launch_buffers v inp) m' (inputs_shape v rows D op inp Hi)
             (launch_dim _ _ _ _ Hd)).
Qed.

(** A call with an index that is not a row of the table is an access
    outside the tables. *)
Lemma run_operator_out_of_range (v : variant) (rows D : Z) (op : Op F)
  (oracle : list nat) (inp : Inputs F) :
  inputs_ok v rows D op inp →
  ¬ Forall (λ i, 0 ≤ i < rows) (data (INDICES inp)) →
  run_operator v op oracle inp = Undefined.
Proof.
  intros Hi Hout.
  destruct (decide (data (INDICES inp) = [])) as [He|Hne].
  { destruct Hout. by rewrite He. }
  destruct (run_operator_kernel v rows D op oracle inp Hi Hne)
    as (ExactBlock & d & Hd & ->).
  by rewrite (fused_kernel_out_of_range v ExactBlock d oracle rows
                (data (LENGTHS inp)) (launch_args op inp)
                (launch_buffers v inp) (inputs_shape v rows D op inp Hi)
             (launch_dim _ _ _ _ Hd)).
Qed.

End ReturnedCalls.

(** ** What a launch reads of its indices and weights *)

Section Reads.
Context {F : Type} `{Arith F}.

Lemma foldM_ext {A S : Type} (f g : A → S → result S) (l : list A) (s : S) :
  (∀ a s, a ∈ l → f a s = g a s) → foldM f l s = foldM g l s.
Proof.
  revert s. induction l as [|a l IH]; intros s Hfg; simpl; [done|].
  rewrite (Hfg a s) by left. destruct (g a s); simpl; try done.
  apply IH. intros. apply Hfg. by right.
Qed.

Lemma rd_app_l {A : Type} (l1 l2 : list A) (i : Z) :
  0 ≤ i < Z.of_nat (length l1) → rd (l1 ++ l2) i = rd l1 i.
Proof.
  intros Hi. unfold rd. by rewrite lookup_app_l by lia.
Qed.

(** Two argument lists that differ at most in their indices and weights. *)
Lemma launch_blocks_args (d : Dim) (k1 k2 : KArgs F) :
  prefix_sum_length_data k1 = prefix_sum_length_data k2 → N k1 = N k2 →
  launch_blocks d k1 = launch_blocks d k2.
Proof.
  intros Hp HN. unfold launch_blocks.
  assert (Hg : ∀ gs, prologues k1 gs = prologues k2 gs).
  { induction gs as [|g gs IH]; cbn [prologues]; [done|].
    unfold block_prologue, segment_bounds. by rewrite IH, Hp, HN. }
  by rewrite Hg.
Qed.

Lemma member_steps_args (d : Dim) (oracle : list nat) (k1 k2 : KArgs F)
  (t : Z * Z * Z) (m : Mem F) :
  post k1 = post k2 → epsilon k1 = epsilon k2 → grad k1 = grad k2 →
  lr k1 = lr k2 → weight_decay k1 = weight_decay k2 →
  rd (indices k1) t.2 = rd (indices k2) t.2 →
  rd (weights k1) (t.2 - t.1.2) = rd (weights k2) (t.2 - t.1.2) →
  weighted_sum_member d k1 t m = weighted_sum_member d k2 t m
  ∧ rowwise_exact_member d oracle k1 t m
    = rowwise_exact_member d oracle k2 t m
  ∧ rowwise_strided_member d k1 t m = rowwise_strided_member d k2 t m
  ∧ rowwise_weighted_member d k1 t m = rowwise_weighted_member d k2 t m.
Proof.
  destruct t as [[g s] l]. cbn [fst snd].
  intros Hpost Heps Hgrad Hlr Hwd Hi Hw.
  unfold weighted_sum_member, rowwise_exact_member, rowwise_strided_member,
    rowwise_weighted_member, weighted_update, rowwise_weighted_update,
    sum_squares_lane, x_ij.
  by rewrite Hpost, Heps, Hgrad, Hlr, Hwd, Hi, Hw.
Qed.

Lemma adagrad_update_args (k1 k2 : KArgs F) (t : Z * Z * Z) (m : Mem F) :
  post k1 = post k2 → epsilon k1 = epsilon k2 → grad k1 = grad k2 →
  lr k1 = lr k2 → weight_decay k1 = weight_decay k2 →
  rd (indices k1) t.1.2 = rd (indices k2) t.1.2 →
  adagrad_update k1 t m = adagrad_update k2 t m.
Proof.
  destruct t as [[g l] i]. cbn [fst snd].
  intros Hpost Heps Hgrad Hlr Hwd Hi. unfold adagrad_update.
  by rewrite Hpost, Heps, Hgrad, Hlr, Hwd, Hi.
Qed.

(** A launch depends on its indices and on its weights through what its
    members read: [indices[line]] and [weights[line - start]]. *)
Lemma fused_kernel_args (v : variant) (ExactBlock : bool) (d : Dim)
  (oracle : list nat) (lengths : list Z) (k1 k2 : KArgs F) (m : Mem F) :
  Forall (λ x, 0 ≤ x) lengths → total lengths ≤ INT_MAX →
  prefix_sum_length_data k1
  = inclusive_scan_wrapper lengths (Z.of_nat (length lengths)) →
  total lengths ≤ N k1 → len_length k1 = Z.of_nat (length lengths) →
  dim_ok ExactBlock d k1 →
  prefix_sum_length_data k1 = prefix_sum_length_data k2 → N k1 = N k2 →
  post k1 = post k2 → epsilon k1 = epsilon k2 → grad k1 = grad k2 →
  lr k1 = lr k2 → weight_decay k1 = weight_decay k2 →
  (∀ t, t ∈ members lengths →
     rd (indices k1) t.2 = rd (indices k2) t.2
     ∧ (weighted v = true →
        rd (weights k1) (t.2 - t.1.2) = rd (weights k2) (t.2 - t.1.2))) →
  fused_kernel v ExactBlock d oracle k1 m
  = fused_kernel v ExactBlock d oracle k2 m.
Proof.
  intros Hl Hint Hscan HN Hlen Hd Hpre HN2 Hpost Heps Hgrad Hlr Hwd Hreads.
  pose proof Hd as (Hg & Hbx & Hby & Hex & Hst).
  assert (Hblocks : launch_blocks d k1 = Ok (segments lengths)).
  { apply launch_blocks_scan; try done. by rewrite Hg. }
  assert (Hblocks2 : launch_blocks d k2 = Ok (segments lengths)).
  { by rewrite <- (launch_blocks_args d k1 k2). }
  destruct v; unfold fused_kernel,
    sparse_adagrad_fused_length_sum_gradient_kernel,
    sparse_adagrad_fused_length_weighted_sum_gradient_kernel,
    rowwise_sparse_adagrad_fused_length_sum_gradient_kernel,
    rowwise_sparse_adagrad_fused_length_weighted_sum_gradient_kernel;
    rewrite Hblocks, Hblocks2; cbn [mbind result_bind];
    cbn [weighted] in Hreads.
  - assert (Hth : sum_threads ExactBlock d k2 (segments lengths)
                  = sum_threads ExactBlock d k1 (segments lengths)).
    { unfold sum_threads, sum_thread. by rewrite Hpost. }
    rewrite Hth. apply foldM_ext. intros [[g l] i] s Ht.
    rewrite interleave_perm, sum_threads_tasks in Ht by done.
    unfold element_tasks in Ht.
    apply list_elem_of_bind in Ht
      as ([[g' s'] l'] & (e & [= -> -> ->] & _)%list_elem_of_fmap & Hm).
    apply adagrad_update_args; try done.
    cbn [fst snd]. by destruct (Hreads _ Hm).
  - apply foldM_ext. intros t s Ht.
    rewrite interleave_perm, member_threads_members in Ht.
    destruct (Hreads t Ht) as [Hi Hw].
    exact (proj1 (member_steps_args d oracle k1 k2 t s Hpost Heps Hgrad Hlr Hwd
                    Hi (Hw eq_refl))).
  - destruct ExactBlock.
    + apply foldM_ext. intros t s Ht.
      rewrite interleave_perm, rowwise_exact_threads_members in Ht by done.
      destruct (Hreads t Ht) as [Hi _].
      destruct t as [[g s'] l]. cbn [fst snd] in Hi.
      unfold rowwise_exact_member, x_ij.
      by rewrite Hpost, Heps, Hgrad, Hlr, Hwd, Hi.
    + apply foldM_ext. intros t s Ht.
      rewrite interleave_perm, member_threads_members in Ht.
      destruct (Hreads t Ht) as [Hi _].
      destruct t as [[g s'] l]. cbn [fst snd] in Hi.
      unfold rowwise_strided_member, sum_squares_lane, x_ij.
      by rewrite Hpost, Heps, Hgrad, Hlr, Hwd, Hi.
  - apply foldM_ext. intros t s Ht.
    rewrite interleave_perm, member_threads_members in Ht.
    destruct (Hreads t Ht) as [Hi Hw].
    exact (proj2 (proj2 (proj2 (member_steps_args d oracle k1 k2 t s Hpost Heps
                                  Hgrad Hlr Hwd Hi (Hw eq_refl))))).
Qed.

End Reads.

(** ** Calls with pairwise distinct indices *)

Lemma members_none (lengths : list Z) :
  Forall (λ x, 0 ≤ x) lengths → total lengths = 0 → members lengths = [].
Proof.
  intros Hl Ht. apply elem_of_nil_inv. intros [[g s] l] Hin.
  pose proof (members_bound _ _ _ _ Hl Hin). lia.
Qed.

Section ReferenceCalls.
Context {F : Type} `{ExactArith F}.

(** A call whose indices are pairwise distinct rows of the table leaves the
    tables of the sequential reference. *)
Lemma run_operator_reference (v : variant) (rows D : Z) (op : Op F)
  (oracle : list nat) (inp : Inputs F) :
  inputs_ok v rows D op inp →
  Forall (λ i, 0 ≤ i < rows) (data (INDICES inp)) →
  NoDup (data (INDICES inp)) →
  ∃ run, run_operator v op oracle inp = Ok run
         ∧ outputs run
           = reference v (launch_args op inp) (members (data (LENGTHS inp)))
               (launch_buffers v inp).
Proof.
  intros Hi Hrng Hnd.
  destruct (decide (data (INDICES inp) = [])) as [He|Hne].
  - rewrite (run_operator_no_indices v rows D) by done.
    eexists. split; [reflexivity|].
    pose proof (in_total _ _ _ _ _ Hi) as Htot. rewrite He in Htot.
    rewrite members_none; [|apply Hi|done].
    destruct (inputs_shapes v rows D op inp Hi)
      as (_ & _ & _ & HM & _). rewrite He in HM.
    unfold launch_buffers. rewrite HM. by destruct (weighted v).
  - destruct (run_operator_kernel v rows D op oracle inp Hi Hne)
      as (ExactBlock & d & Hd & ->).
    destruct (inputs_batch v rows D op inp Hi Hrng) as [Hb _].
    rewrite (fused_kernel_reference v ExactBlock d oracle rows
               (data (LENGTHS inp)) (launch_args op inp)
               (launch_buffers v inp) (members (data (LENGTHS inp))))
      by done.
    eexists. split; reflexivity.
Qed.

End ReferenceCalls.

(** * Properties of the design document *)

(** Goals about the example calls, by evaluation. *)
Ltac example :=
  first [ reflexivity | lia | by vm_compute | compute_done
        | by (intros; vm_compute) | (repeat constructor; lia) ].

Ltac example_batch := split; example.

Ltac example_launch :=
  split; [split_and!; example | intros _; split_and?; example].

Ltac example_call :=
  split; cbn;
  first [ example | intros _; right; example | intros _; left; example ].



(** C2. Each execution of the loop body of the exact unweighted kernel, for
    a member and an element of its row, computes
    [effective_grad = grad + weight_decay * param], adds [effective_grad^2]
    to the accumulator of the element and adds
    [lr * effective_grad / (sqrt(new accumulator) + epsilon)] to the
    parameter element, both in place.  For a single segment with a single
    member, rows of one element and [weight_decay = 0], the kernel turns the
    parameter [p] and the accumulator [a] of the row into
    [a' = a + g^2] and [p' = p + lr * g / (sqrt(a') + epsilon)].  The
    arithmetic is read without rounding; the tables have at most [INT_MAX]
    cells, so that the address of a cell is the same in [int]. *)
Theorem exact_element_update {F : Type} `{ExactArith F}
  (ExactBlock : bool) (d : Dim) (oracle : list nat) (rows : Z)
  (lengths : list Z) (k : KArgs F) (m : Mem F) :
  batch_ok Exact rows lengths k m → dim_ok ExactBlock d k →
  (∀ g line i,
     0 ≤ g < len_length k → 0 ≤ line < Z.of_nat (length (indices k)) →
     0 ≤ i < post k →
     let c := cell (post k) (indices k !!! Z.to_nat line) i in
     let effective_grad :=
       fadd (grad k !!! Z.to_nat (g * post k + i))
         (fmul (weight_decay k) (param m !!! c)) in
     let accumulator :=
       fadd (param_mom m !!! c) (fmul effective_grad effective_grad) in
     adagrad_update k (g, line, i) m
     = Ok {| param :=
               <[c := fadd (param m !!! c)
                        (fdiv (fmul (lr k !!! 0%nat) effective_grad)
                           (fadd (fsqrt accumulator) (epsilon k)))]>
                 (param m);
             param_mom := <[c := accumulator]> (param_mom m);
             weights_grad_out := weights_grad_out m |})
  ∧ (lengths = [1] → post k = 1 → weight_decay k = fzero →
     let row := Z.to_nat (indices k !!! 0%nat) in
     let p := param m !!! row in
     let a := param_mom m !!! row in
     let g := grad k !!! 0%nat in
     let a' := fadd a (fmul g g) in
     let p' :=
       fadd p (fdiv (fmul (lr k !!! 0%nat) g) (fadd (fsqrt a') (epsilon k))) in
     fused_kernel Exact ExactBlock d oracle k m
     = Ok {| param := <[row := p']> (param m);
             param_mom := <[row := a']> (param_mom m);
             weights_grad_out := weights_grad_out m |}).
Proof.
  intros Hb Hd. split.
  - intros g line i Hg Hl Hi c effective_grad accumulator.
    rewrite (adagrad_update_task rows lengths k m (g, line, i) Hb)
      by (unfold task_ok; cbn [fst snd]; lia).
    unfold adagrad_task. fold c.
    by rewrite mom_new_rule, param_new_rule.
  - intros -> Hpost Hwd row p a g a' p'.
    rewrite (fused_kernel_reference Exact ExactBlock d oracle rows [1] k m
               (members [1])); [|done|by apply launch_other| |done].
    + f_equal. change (members [1]) with [(0, 0, 0)].
      cbn [reference foldl reference_member].
      rewrite !map_row_store, Hpost. change (seqZ 0 1) with [0].
      unfold store_cells. cbn [foldl].
      assert (Hc : cell 1 (indices k !!! Z.to_nat 0) 0 = row).
      { unfold cell, row. f_equal. change (Z.to_nat 0) with 0%nat. lia. }
      rewrite Hc.
      assert (He : effective_grad k m 0 (indices k !!! Z.to_nat 0) 0 = g).
      { unfold effective_grad, segment_grad. rewrite Hwd, fmul_0_l, fadd_0_r.
        reflexivity. }
      by rewrite He.
    + pose proof (ok_total _ _ _ _ _ Hb) as Ht.
      destruct (indices k) as [|x [|y l]]; [done| |simpl in Ht; lia].
      apply NoDup_singleton.
Qed.

Lemma exact_element_update_witness :
  let k := {| prefix_sum_length_data := [1]; N := 1; post := 1;
              len_length := 1; epsilon := 1%R; indices := [0];
              grad := [3%R]; weights := []; lr := [1%R];
              weight_decay := 0%R |} in
  let m := {| param := [2%R]; param_mom := [5%R];
              weights_grad_out := [] |} in
  let d := {| gridDim_x := 1; blockDim_x := 1; blockDim_y := 1 |} in
  batch_ok Exact 1 [1] k m ∧ dim_ok true d k
  ∧ adagrad_update k (0, 0, 0) m
    = Ok {| param := [(2 + 1 * (3 + 0 * 2)
                           / (sqrt (5 + (3 + 0 * 2) * (3 + 0 * 2)) + 1))%R];
            param_mom := [(5 + (3 + 0 * 2) * (3 + 0 * 2))%R];
            weights_grad_out := [] |}
  ∧ fused_kernel Exact true d [] k m
    = Ok {| param := [(2 + 1 * 3 / (sqrt (5 + 3 * 3) + 1))%R];
            param_mom := [(5 + 3 * 3)%R];
            weights_grad_out := [] |}.
Proof.
  intros k m d.
  assert (Hb : batch_ok Exact 1 [1] k m) by example_batch.
  assert (Hd : dim_ok true d k) by (split_and!; example).
  split; [exact Hb|]. split; [exact Hd|]. split.
  - exact (proj1 (exact_element_update true d [] 1 [1] k m Hb Hd) 0 0 0
             ltac:(cbn; lia) ltac:(cbn; lia) ltac:(cbn; lia)).
  - exact (proj2 (exact_element_update true d [] 1 [1] k m Hb Hd)
             eq_refl eq_refl eq_refl).
Defined.

(** C3. For non-negative segment lengths with sum [M] (an [int]), the
    segment-offset builder produces the inclusive prefix sums: there is one
    offset per segment, offset [i] is the sum of [lengths[0..i]], the offsets
    are non-decreasing, consecutive offsets differ by the length of the
    segment, the last offset is [M], and the block of segment [g] reads off
    them the member range that starts at offset [g - 1] (0 for the first
    segment) and ends at offset [g]. *)
Theorem offsets_inclusive_prefix_sum {F : Type} `{Arith F}
  (k : KArgs F) (lengths : list Z) (M : Z) :
  Forall (λ x, 0 ≤ x) lengths → total lengths = M → M ≤ INT_MAX →
  let offsets := inclusive_scan_wrapper lengths (Z.of_nat (length lengths)) in
  length offsets = length lengths
  ∧ (∀ i, (i < length lengths)%nat →
       offsets !! i = Some (total (take (S i) lengths)))
  ∧ (∀ i j x y, (i ≤ j)%nat →
       offsets !! i = Some x → offsets !! j = Some y → x ≤ y)
  ∧ (∀ i x y n, offsets !! i = Some x → offsets !! S i = Some y →
       lengths !! S i = Some n → y - x = n)
  ∧ (∀ x, last offsets = Some x → x = M)
  ∧ (prefix_sum_length_data k = offsets →
     ∀ g n, lengths !! g = Some n →
       ∃ start end_,
         segment_bounds k (Z.of_nat g) = Ok (start, end_)
         ∧ (g = 0%nat → start = 0)
         ∧ (∀ g', g = S g' → offsets !! g' = Some start)
         ∧ offsets !! g = Some end_
         ∧ end_ - start = n).
Proof.
  intros Hl HM Hmax offsets. subst M.
  assert (Hlook : ∀ i, (i < length lengths)%nat →
            offsets !! i = Some (total (take (S i) lengths))).
  { intros i Hi. by apply inclusive_scan_wrapper_lookup. }
  assert (Hlen : length offsets = length lengths)
    by apply inclusive_scan_wrapper_length.
  split_and!; try done.
  - intros i j x y Hij Hx Hy.
    assert (j < length lengths)%nat
      by (rewrite <- Hlen; eapply lookup_lt_Some; eauto).
    rewrite Hlook in Hx, Hy by lia. simplify_eq.
    apply total_take_le; [done | lia].
  - intros i x y n Hx Hy Hn.
    assert (S i < length lengths)%nat by (eapply lookup_lt_Some; eauto).
    rewrite Hlook in Hx, Hy by lia. simplify_eq.
    rewrite (total_take_S _ _ _ Hn). lia.
  - intros x Hx. rewrite last_lookup, Hlen in Hx.
    destruct (length lengths) as [|n] eqn:E; simpl in Hx.
    + discriminate.
    + rewrite Hlook in Hx by lia. simplify_eq. rewrite <- E.
      by rewrite firstn_all.
  - intros Hk g n Hg.
    assert (g < length lengths)%nat by (eapply lookup_lt_Some; eauto).
    exists (total (take g lengths)), (total (take (S g) lengths)).
    split_and!.
    + by apply segment_bounds_scan.
    + intros ->. done.
    + intros g' ->. apply Hlook. lia.
    + by apply Hlook.
    + rewrite (total_take_S _ _ _ Hg). lia.
Qed.

Lemma offsets_inclusive_prefix_sum_witness :
  let k := launch_args (example_op (F:=spec_float) fzero)
             (example_inputs Exact [0; 2; 1]) in
  Forall (λ x, 0 ≤ x) [1; 2] ∧ total [1; 2] = 3 ∧ 3 ≤ INT_MAX
  ∧ inclusive_scan_wrapper [1; 2] 2 !! 1%nat = Some 3
  ∧ ∃ start end_, segment_bounds k 1 = Ok (start, end_) ∧ end_ - start = 2.
Proof.
  intros k.
  assert (Hl : Forall (λ x, 0 ≤ x) [1; 2]) by (repeat constructor; lia).
  assert (Hm : 3 ≤ INT_MAX) by (by vm_compute).
  destruct (offsets_inclusive_prefix_sum k [1; 2] 3 Hl eq_refl Hm)
    as (_ & Hlook & _ & _ & _ & Hseg).
  split; [exact Hl|]. split; [reflexivity|]. split; [exact Hm|]. split.
  - exact (Hlook 1%nat ltac:(cbn; lia)).
  - destruct (Hseg eq_refl 1%nat 2 eq_refl)
      as (start & end_ & Hsb & _ & _ & _ & Hlen).
    exists start, end_. split; [exact Hsb | exact Hlen].
Defined.



(** C5. In the two weighted kernels, the weight gradient written for a
    member (of a batch with pairwise distinct indices, so that the member
    is the only one to update its row) is the inner product of the
    parameter row as stored before the update of the member and the
    gradient row of its segment,
    [sum over the elements of grad[segment][element] * param[row][element]];
    it is the same whatever the weights are.  The arithmetic is read without
    rounding; the tables have at most [INT_MAX] cells. *)
Theorem weight_gradient_is_inner_product {F : Type} `{ExactArith F}
  (v : variant) (ExactBlock : bool) (d : Dim) (oracle : list nat) (rows : Z)
  (lengths : list Z) (k : KArgs F) (m : Mem F) (g start line : Z) :
  weighted v = true →
  batch_ok v rows lengths k m → dim_ok ExactBlock d k →
  NoDup (indices k) → (g, start, line) ∈ members lengths →
  let row := indices k !!! Z.to_nat line in
  let D := post k in
  let inner_product :=
    row_sum ((λ e, fmul (grad k !!! Z.to_nat (g * D + e))
                     (param m !!! cell D row e)) <$> seqZ 0 D) in
  (∃ m', fused_kernel v ExactBlock d oracle k m = Ok m'
         ∧ weights_grad_out m' !! Z.to_nat line = Some inner_product)
  ∧ ∀ ws, length ws = length (weights k) →
      ∃ m', fused_kernel v ExactBlock d oracle (with_weights k ws) m = Ok m'
            ∧ weights_grad_out m' !! Z.to_nat line = Some inner_product.
Proof.
  intros Hv Hb Hd Hnd Ht row D inner_product.
  pose proof (ok_wgo _ _ _ _ _ Hb Hv) as Hlw.
  pose proof (members_ok _ _ _ _ _ _ Hb Ht) as (_ & Hs & Hl).
  cbn [fst snd] in Hs, Hl.
  assert (Hany : ∀ k', batch_ok v rows lengths k' m →
            dim_ok ExactBlock d k' → NoDup (indices k') →
            ∃ m', fused_kernel v ExactBlock d oracle k' m = Ok m'
                  ∧ weights_grad_out m' !! Z.to_nat line
                    = Some (weight_grad k' m g
                              (indices k' !!! Z.to_nat line))).
  { intros k' Hb' Hd' Hnd'.
    assert (Hl' : launch_ok v ExactBlock d k').
    { apply launch_other; [by intros ->|done]. }
    destruct (fused_kernel_row v ExactBlock d oracle rows lengths k' m
                (g, start, line) Hb' Hl' Hnd' Ht)
      as (Hrow & m' & Hrun & _ & _ & _ & Hw).
    cbn [fst snd] in *.
    exists m'. split; [done|]. rewrite (Hw Hv). f_equal.
    destruct v; try discriminate Hv;
      cbn [reference_member weights_grad_out];
      by rewrite list_lookup_total_insert_eq by lia. }
  split.
  - by apply Hany.
  - intros ws Hws. apply (Hany (with_weights k ws)); try done.
    by apply batch_ok_with_weights.
Qed.

Lemma weight_gradient_is_inner_product_witness :
  let k := launch_args (example_op 1%R)
             (example_inputs WeightedExact [0; 2; 1]) in
  let m := launch_buffers WeightedExact
             (example_inputs WeightedExact [0; 2; 1]) in
  weighted WeightedExact = true
  ∧ batch_ok WeightedExact 3 [1; 2] k m ∧ dim_ok false example_block k
  ∧ NoDup (indices k) ∧ (1, 1, 2) ∈ members [1; 2]
  ∧ ∃ m', fused_kernel WeightedExact false example_block []
            (with_weights k [7; 8; 9]%R) m = Ok m'
          ∧ weights_grad_out m' !! 2%nat = Some (3 * 3 + (4 * 4 + 0))%R.
Proof.
  intros k m.
  assert (Hb : batch_ok WeightedExact 3 [1; 2] k m) by example_batch.
  assert (Hd : dim_ok false example_block k) by (split_and!; example).
  assert (Hn : NoDup (indices k)) by compute_done.
  assert (Ht : (1, 1, 2) ∈ members [1; 2]) by compute_done.
  split_and!; try done.
  exact (proj2 (weight_gradient_is_inner_product WeightedExact false
                  example_block [] 3 [1; 2] k m 1 1 2 eq_refl Hb Hd Hn Ht)
           [7; 8; 9]%R eq_refl).
Defined.




(** C7. In the weighted row-wise kernel, a row touched by one member of the
    batch (the indices being pairwise distinct) has its accumulator
    incremented by [weight^2] times the row energy [(1/D) * sum over the
    elements of (grad[segment][element]
    + weight_decay * param[row][element])^2], where [weight] is the weight
    of the member, read at its position within its segment; every element
    of the row is then incremented by the weighted gradient
    [weight * grad + weight_decay * param] times the step
    [lr / (sqrt(updated accumulator) + epsilon)].  The arithmetic is read
    without rounding; the tables have at most [INT_MAX] cells. *)
Theorem weighted_rowwise_accumulator_and_step {F : Type} `{ExactArith F}
  (ExactBlock : bool) (d : Dim) (oracle : list nat) (rows : Z)
  (lengths : list Z) (k : KArgs F) (m : Mem F) (g start line : Z) :
  batch_ok WeightedRowWise rows lengths k m → dim_ok ExactBlock d k →
  NoDup (indices k) → (g, start, line) ∈ members lengths →
  let row := indices k !!! Z.to_nat line in
  let D := post k in
  let weight := weights k !!! Z.to_nat (line - start) in
  let row_energy :=
    fdiv (row_sum ((λ e,
                      let x := fadd (grad k !!! Z.to_nat (g * D + e))
                                 (fmul (weight_decay k)
                                    (param m !!! cell D row e)) in
                      fmul x x) <$> seqZ 0 D))
      (of_int D) in
  let accumulator :=
    fadd (param_mom m !!! Z.to_nat row)
      (fmul (fmul weight weight) row_energy) in
  let step :=
    fdiv (lr k !!! 0%nat) (fadd (fsqrt accumulator) (epsilon k)) in
  ∃ m', fused_kernel WeightedRowWise ExactBlock d oracle k m = Ok m'
        ∧ param_mom m' !! Z.to_nat row = Some accumulator
        ∧ ∀ e, 0 ≤ e < D →
            param m' !! cell D row e
            = Some (fadd (param m !!! cell D row e)
                      (fmul (fadd (fmul weight
                                     (grad k !!! Z.to_nat (g * D + e)))
                               (fmul (weight_decay k)
                                  (param m !!! cell D row e)))
                         step)).
Proof.
  intros Hb Hd Hnd Ht row D weight row_energy accumulator step.
  destruct (fused_kernel_row WeightedRowWise ExactBlock d oracle rows
              lengths k m (g, start, line) Hb
              (launch_other WeightedRowWise _ _ _ ltac:(done) Hd) Hnd Ht)
    as (Hrow & m' & Hrun & Hp & Hm & _ & _).
  cbn [fst snd] in *. fold row D in Hrow, Hp, Hm.
  pose proof (ok_param _ _ _ _ _ Hb) as Hlp.
  pose proof (ok_mom _ _ _ _ _ Hb) as Hlm. cbn [rowwise] in Hlm.
  exists m'. split_and!; [done| |].
  - rewrite (Hm eq_refl). f_equal. cbn [reference_member param_mom].
    apply list_lookup_total_insert_eq. lia.
  - intros e He. rewrite (Hp e He). f_equal.
    cbn [reference_member param]. rewrite map_row_in; [done|lia|done|].
    pose proof (cell_bound D rows row e Hrow He). unfold cell. fold D in Hlp.
    lia.
Qed.

Lemma weighted_rowwise_accumulator_and_step_witness :
  let k := launch_args (example_op 1%R)
             (example_inputs WeightedRowWise [0; 2; 1]) in
  let m := launch_buffers WeightedRowWise
             (example_inputs WeightedRowWise [0; 2; 1]) in
  batch_ok WeightedRowWise 3 [1; 2] k m ∧ dim_ok false example_block k
  ∧ NoDup (indices k) ∧ (1, 1, 2) ∈ members [1; 2]
  ∧ ∃ m', fused_kernel WeightedRowWise false example_block [] k m = Ok m'
          ∧ param_mom m' !! 1%nat
            = Some (2 + 2 * 2 * (((3 + 1 * 3) * (3 + 1 * 3)
                                  + ((4 + 1 * 4) * (4 + 1 * 4) + 0)) / 2))%R.
Proof.
  intros k m.
  assert (Hb : batch_ok WeightedRowWise 3 [1; 2] k m) by example_batch.
  assert (Hd : dim_ok false example_block k) by (split_and!; example).
  assert (Hn : NoDup (indices k)) by compute_done.
  assert (Ht : (1, 1, 2) ∈ members [1; 2]) by compute_done.
  split_and!; try done.
  destruct (weighted_rowwise_accumulator_and_step false example_block [] 3
              [1; 2] k m 1 1 2 Hb Hd Hn Ht) as (m' & Hrun & Hacc & _).
  exists m'. split; [exact Hrun | exact Hacc].
Defined.

(** C8. A launch of either weighted kernel on a batch with pairwise
    distinct indices returns, and for the member at the global position
    [line] of a segment that starts at [start] it has used the weight
    [weights[line - start]]: every element of the row of the member has
    been updated with the weighted gradient
    [weights[line - start] * grad + weight_decay * param], and the weight
    gradient of the member, the inner product of its row and the gradient
    of its segment, stands at the global position [weights_grad_out[line]]
    of an output of unchanged length.  The launch reads no other entry of
    the weight array: with any weights that agree on the entries
    [line - start] of the members it returns the same tables.  The
    arithmetic is read without rounding; the tables have at most [INT_MAX]
    cells. *)
Theorem weights_are_segment_relative {F : Type} `{ExactArith F}
  (v : variant) (ExactBlock : bool) (d : Dim) (oracle : list nat)
  (rows : Z) (lengths : list Z) (k : KArgs F) (m : Mem F) :
  weighted v = true →
  batch_ok v rows lengths k m → dim_ok ExactBlock d k →
  NoDup (indices k) →
  ∃ m',
    fused_kernel v ExactBlock d oracle k m = Ok m'
    ∧ length (weights_grad_out m') = length (weights_grad_out m)
    ∧ (∀ g start line, (g, start, line) ∈ members lengths →
         let row := indices k !!! Z.to_nat line in
         let D := post k in
         let weight := weights k !!! Z.to_nat (line - start) in
         let out_grad e :=
           fadd (fmul weight (grad k !!! Z.to_nat (g * D + e)))
             (fmul (weight_decay k) (param m !!! cell D row e)) in
         weights_grad_out m' !! Z.to_nat line
         = Some (row_sum ((λ e, fmul (grad k !!! Z.to_nat (g * D + e))
                                  (param m !!! cell D row e))
                            <$> seqZ 0 D))
         ∧ ∀ e, 0 ≤ e < D →
             param m' !! cell D row e
             = Some (if rowwise v
                     then
                       fadd (param m !!! cell D row e)
                         (fmul (out_grad e)
                            (fdiv (lr k !!! 0%nat)
                               (fadd (fsqrt (param_mom m' !!! Z.to_nat row))
                                  (epsilon k))))
                     else
                       fadd (param m !!! cell D row e)
                         (fdiv (fmul (lr k !!! 0%nat) (out_grad e))
                            (fadd
                               (fsqrt
                                  (fadd (param_mom m !!! cell D row e)
                                     (fmul (out_grad e) (out_grad e))))
                               (epsilon k)))))
    ∧ (∀ ws,
         (∀ g start line, (g, start, line) ∈ members lengths →
            ws !! Z.to_nat (line - start)
            = weights k !! Z.to_nat (line - start)) →
         fused_kernel v ExactBlock d oracle (with_weights k ws) m = Ok m').
Proof.
  intros Hv Hb Hd Hnd.
  assert (Hl : launch_ok v ExactBlock d k).
  { apply launch_other; [by intros ->|done]. }
  pose proof (fused_kernel_reference v ExactBlock d oracle rows lengths k m
                (members lengths) Hb Hl Hnd ltac:(done)) as Hrun.
  pose proof (ok_param _ _ _ _ _ Hb) as Hlp.
  pose proof (ok_mom _ _ _ _ _ Hb) as Hlm.
  pose proof (ok_wgo _ _ _ _ _ Hb Hv) as Hlw.
  exists (reference v k (members lengths) m). split_and!; [done| | |].
  - by destruct (reference_sizes v k (members lengths) m) as (_ & _ & ?).
  - intros g start line Ht row D weight out_grad.
    destruct (fused_kernel_row v ExactBlock d oracle rows lengths k m
                (g, start, line) Hb Hl Hnd Ht)
      as (Hrow & m' & Hrun' & Hp & Hm & _ & Hw).
    rewrite Hrun in Hrun'. simplify_eq. cbn [fst snd] in *.
    fold row D in Hrow, Hp, Hm.
    pose proof (members_ok _ _ _ _ _ _ Hb Ht) as (_ & Hs & Hline).
    cbn [fst snd] in Hs, Hline.
    assert (Hcell : ∀ e, 0 ≤ e < D → (cell D row e < length (param m))%nat).
    { intros e He. pose proof (cell_bound D rows row e Hrow He).
      unfold cell. fold D in Hlp. lia. }
    split.
    + rewrite (Hw Hv). f_equal.
      destruct v; try discriminate Hv;
        cbn [reference_member weights_grad_out];
        by rewrite list_lookup_total_insert_eq by lia.
    + intros e He. rewrite (Hp e He). f_equal.
      destruct v; try discriminate Hv; cbn [rowwise].
      * cbn [reference_member param].
        by rewrite map_row_in by (done || lia || by apply Hcell).
      * rewrite (list_lookup_total_correct _ _ _ (Hm eq_refl)).
        cbn [reference_member param param_mom].
        rewrite map_row_in by (done || lia || by apply Hcell).
        by rewrite list_lookup_total_insert_eq by (cbn [rowwise] in Hlm; lia).
  - intros ws Hws. rewrite <- Hrun. symmetry.
    apply (fused_kernel_args v ExactBlock d oracle lengths);
      try done; try apply Hb.
    intros [[g start] line] Ht. cbn [with_weights indices weights fst snd].
    split; [done|]. intros _.
    pose proof (members_bound _ _ _ _ (ok_lengths _ _ _ _ _ Hb) Ht)
      as (_ & Hs & _).
    unfold rd. by rewrite (Hws g start line Ht).
Qed.

Lemma weights_are_segment_relative_witness :
  let k := launch_args (example_op 1%R)
             (example_inputs WeightedExact [0; 2; 1]) in
  let m := launch_buffers WeightedExact
             (example_inputs WeightedExact [0; 2; 1]) in
  let ws := [1; 2; 9]%R in
  weighted WeightedExact = true
  ∧ batch_ok WeightedExact 3 [1; 2] k m ∧ dim_ok false example_block k
  ∧ NoDup (indices k)
  ∧ (∀ g start line, (g, start, line) ∈ members [1; 2] →
       ws !! Z.to_nat (line - start) = weights k !! Z.to_nat (line - start))
  ∧ ∃ m', fused_kernel WeightedExact false example_block [] k m = Ok m'
          ∧ fused_kernel WeightedExact false example_block []
              (with_weights k ws) m = Ok m'
          ∧ weights_grad_out m' !! 2%nat = Some (3 * 3 + (4 * 4 + 0))%R.
Proof.
  intros k m ws.
  assert (Hb : batch_ok WeightedExact 3 [1; 2] k m) by example_batch.
  assert (Hd : dim_ok false example_block k) by (split_and!; example).
  assert (Hn : NoDup (indices k)) by compute_done.
  assert (Hws : ∀ g start line, (g, start, line) ∈ members [1; 2] →
            ws !! Z.to_nat (line - start)
            = weights k !! Z.to_nat (line - start)).
  { intros g start line Hin.
    change (members [1; 2]) with [(0, 0, 0); (1, 1, 1); (1, 1, 2)] in Hin.
    repeat (apply elem_of_cons in Hin as [[= -> -> ->]|Hin];
            [reflexivity|]).
    by apply not_elem_of_nil in Hin. }
  assert (Ht : (1, 1, 2) ∈ members [1; 2]) by compute_done.
  split; [reflexivity|]. split; [exact Hb|]. split; [exact Hd|].
  split; [exact Hn|]. split; [exact Hws|].
  destruct (weights_are_segment_relative WeightedExact false example_block
              [] 3 [1; 2] k m eq_refl Hb Hd Hn)
    as (m' & Hrun & _ & Hmem & Hother).
  exists m'. split; [exact Hrun|]. split; [exact (Hother ws Hws)|].
  exact (proj1 (Hmem 1 1 2 Ht)).
Defined.

(** C9. A call with zero segments, or whose segment lengths are all zero,
    so that the index array (whose size is the sum of the lengths) is empty,
    is a no-op for each of the four operators: once the shape checks of
    its [RunOnDevice] have passed (the sizes of the two tables are compared
    by the element-wise operators only), the run succeeds, launches no
    kernel, leaves the parameter and accumulator tables unchanged and, for
    the weighted operators, produces a weight-gradient output of length
    zero. *)
Theorem empty_batch_is_no_op {F : Type} `{Arith F} (v : variant) (op : Op F)
  (oracle : list nat) (inp : Inputs F) :
  Forall (λ x, x = 0) (data (LENGTHS inp)) →
  numel (INDICES inp) = total (data (LENGTHS inp)) →
  (rowwise v = false → numel (PARAM inp) = numel (MOMENT_1 inp)) →
  numel (LR inp) = 1 →
  size_from_dim (PARAM inp) 1
  = size_from_dim (GRAD inp) (ndim (INDICES inp)) →
  run_operator v op oracle inp
  = Ok {| outputs := {| param := data (PARAM inp);
                        param_mom := data (MOMENT_1 inp);
                        weights_grad_out := [] |};
          launches := [] |}.
Proof.
  intros Hzero Hn Hsz Hlr Hdim.
  rewrite (total_zero _ Hzero) in Hn.
  by apply run_operator_empty.
Qed.

Lemma empty_batch_is_no_op_witness :
  let inp := empty_inputs (F:=spec_float) RowWise in
  let inp' := empty_inputs (F:=spec_float) WeightedExact in
  Forall (λ x, x = 0) (data (LENGTHS inp))
  ∧ numel (INDICES inp) = total (data (LENGTHS inp))
  ∧ numel (PARAM inp) ≠ numel (MOMENT_1 inp)
  ∧ numel (PARAM inp') = numel (MOMENT_1 inp')
  ∧ numel (LR inp) = 1
  ∧ size_from_dim (PARAM inp) 1
    = size_from_dim (GRAD inp) (ndim (INDICES inp))
  ∧ run_operator RowWise (example_op fzero) [] inp
    = Ok {| outputs := {| param := data (PARAM inp);
                          param_mom := data (MOMENT_1 inp);
                          weights_grad_out := [] |};
            launches := [] |}
  ∧ run_operator WeightedExact (example_op fzero) [] inp'
    = Ok {| outputs := {| param := data (PARAM inp');
                          param_mom := data (MOMENT_1 inp');
                          weights_grad_out := [] |};
            launches := [] |}.
Proof.
  intros inp inp'.
  assert (Hz : Forall (λ x, x = 0) (data (LENGTHS inp)))
    by (repeat constructor).
  split; [exact Hz|]. split; [reflexivity|]. split; [by vm_compute|].
  do 3 (split; [reflexivity|]). split.
  - exact (empty_batch_is_no_op RowWise (example_op fzero) [] inp Hz
             eq_refl ltac:(intros [=]) eq_refl eq_refl).
  - exact (empty_batch_is_no_op WeightedExact (example_op fzero) [] inp' Hz
             eq_refl ltac:(intros _; reflexivity) eq_refl eq_refl).
Defined.

(** C10. A call to any of the four operators that returns leaves every row
    of the parameter table, and every entry of the accumulator table, whose
    row does not occur in the index array as it was: the kernels write the
    tables only at the positions [index * D + element] (and the accumulator
    position [index] in the row-wise variants) of the indices of the batch.
    The tables keep their sizes.  A call returns when its indices are rows
    of the table.  The tables have at most [INT_MAX] cells, so that these
    positions are the same in [int], and the launch of the unweighted
    row-wise operator is one its kernel is written for. *)
Theorem rows_outside_the_batch_are_unchanged {F : Type} `{Arith F}
  (v : variant) (rows D : Z) (op : Op F) (oracle : list nat)
  (inp : Inputs F) :
  inputs_ok v rows D op inp →
  (Forall (λ i, 0 ≤ i < rows) (data (INDICES inp)) →
   ∃ run, run_operator v op oracle inp = Ok run)
  ∧ ∀ run,
      run_operator v op oracle inp = Ok run →
      length (param (outputs run)) = length (data (PARAM inp))
      ∧ length (param_mom (outputs run)) = length (data (MOMENT_1 inp))
      ∧ ∀ row, 0 ≤ row → row ∉ data (INDICES inp) →
          (∀ e, 0 ≤ e < D →
             param (outputs run) !! Z.to_nat (row * D + e)
             = data (PARAM inp) !! Z.to_nat (row * D + e))
          ∧ (if rowwise v
             then param_mom (outputs run) !! Z.to_nat row
                  = data (MOMENT_1 inp) !! Z.to_nat row
             else ∀ e, 0 ≤ e < D →
                    param_mom (outputs run) !! Z.to_nat (row * D + e)
                    = data (MOMENT_1 inp) !! Z.to_nat (row * D + e)).
Proof.
  intros Hi. split.
  - intros Hrng.
    destruct (run_operator_frame v rows D op oracle inp Hi Hrng)
      as (run & Hrun & _).
    by exists run.
  - intros run Hrun.
    pose proof (run_operator_Ok_indices v rows D op oracle inp run Hi Hrun)
      as Hrng.
    destruct (run_operator_frame v rows D op oracle inp Hi Hrng)
      as (run' & Hrun' & (Hp & Hm & _) & Hkept).
    rewrite Hrun in Hrun'. simplify_eq. split_and!; try done.
Qed.

Lemma rows_outside_the_batch_are_unchanged_witness :
  let op := example_op (F:=spec_float) (of_int 1) in
  let inp := example_inputs (F:=spec_float) RowWise [0; 2; 0] in
  inputs_ok RowWise 3 2 op inp
  ∧ Forall (λ i, 0 ≤ i < 3) (data (INDICES inp))
  ∧ ∃ run, run_operator RowWise op [] inp = Ok run
           ∧ param (outputs run) !! 3%nat = Some (of_int 4)
           ∧ param_mom (outputs run) !! 1%nat = Some (of_int 2).
Proof.
  intros op inp.
  assert (Hi : inputs_ok RowWise 3 2 op inp) by example_call.
  assert (Hr : Forall (λ i, 0 ≤ i < 3) (data (INDICES inp)))
    by (repeat constructor; lia).
  split; [exact Hi|]. split; [exact Hr|].
  destruct (rows_outside_the_batch_are_unchanged RowWise 3 2 op [] inp Hi)
    as [Hreturns Hkept].
  destruct (Hreturns Hr) as (run & Hrun).
  assert (Hout : 1 ∉ data (INDICES inp)) by compute_done.
  destruct (Hkept run Hrun) as (_ & _ & Hrow).
  destruct (Hrow 1 ltac:(lia) Hout) as [Hp Hm].
  exists run. split; [exact Hrun|]. split.
  - exact (Hp 1 ltac:(lia)).
  - exact Hm.
Defined.

(** * Further properties of the code *)

(** ** gpuAtomicAdd on c10::Half *)

Lemma testbit_half (x n : Z) :
  0 ≤ x < 2 ^ 16 → 16 ≤ n → Z.testbit x n = false.
Proof.
  intros Hx Hn. destruct (Z.eq_dec x 0) as [->|Hne]; [apply Z.bits_0|].
  apply Z.bits_above_log2; [lia|].
  assert (Z.log2 x < 16); [|lia]. apply Z.log2_lt_pow2; lia.
Qed.

Lemma testbit_low_mask (n : Z) : 0 ≤ n → Z.testbit 0xffff n = (n <? 16).
Proof.
  intros Hn. change 0xffff with (Z.ones 16).
  destruct (Z.ltb_spec n 16).
  - apply Z.ones_spec_low. lia.
  - apply Z.ones_spec_high. lia.
Qed.

Lemma testbit_high_mask (n : Z) :
  0 ≤ n → Z.testbit 0xffff0000 n = (16 <=? n) && (n <? 32).
Proof.
  intros Hn. change 0xffff0000 with (Z.shiftl (Z.ones 16) 16).
  rewrite Z.shiftl_spec by done.
  destruct (Z.leb_spec 16 n); simpl.
  - destruct (Z.ltb_spec n 32).
    + apply Z.ones_spec_low. lia.
    + apply Z.ones_spec_high. lia.
  - apply Z.testbit_neg_r. lia.
Qed.

Lemma testbit_word (w n : Z) :
  0 ≤ w < 2 ^ 32 → 32 ≤ n → Z.testbit w n = false.
Proof.
  intros Hw Hn. destruct (Z.eq_dec w 0) as [->|Hne]; [apply Z.bits_0|].
  apply Z.bits_above_log2; [lia|].
  assert (Z.log2 w < 32); [|lia]. apply Z.log2_lt_pow2; lia.
Qed.

Lemma word_of_bits (w : Z) :
  0 ≤ w → (∀ n, 32 ≤ n → Z.testbit w n = false) → w < 2 ^ 32.
Proof.
  intros Hw Hb. destruct (Z.eq_dec w 0) as [->|Hne]; [lia|].
  apply Z.log2_lt_pow2; [lia|].
  destruct (Z.lt_ge_cases (Z.log2 w) 32) as [|Hge]; [done|].
  pose proof (Z.bit_log2 w ltac:(lia)) as Ht.
  rewrite Hb in Ht by done. discriminate.
Qed.

Lemma half_of_with_half (upper : bool) (w x : Z) :
  0 ≤ w < 2 ^ 32 → 0 ≤ x < 2 ^ 16 →
  Half.half_of upper (Half.with_half upper w x) = x.
Proof.
  intros Hw Hx. unfold Half.half_of, Half.with_half.
  apply Z.bits_inj'. intros n Hn. destruct upper.
  - rewrite Z.shiftr_spec, Z.lor_spec, Z.land_spec, Z.shiftl_spec by lia.
    rewrite testbit_low_mask by lia.
    rewrite (proj2 (Z.ltb_ge _ _)) by lia.
    rewrite andb_false_r. simpl. f_equal. lia.
  - rewrite Z.land_spec, Z.lor_spec, Z.land_spec.
    rewrite testbit_low_mask, testbit_high_mask by lia.
    destruct (Z.ltb_spec n 16).
    + rewrite (proj2 (Z.leb_gt _ _)) by lia. simpl.
      by rewrite andb_false_r, andb_true_r.
    + rewrite andb_false_r. symmetry. by apply testbit_half.
Qed.

Lemma other_half_with_half (upper : bool) (w x : Z) :
  0 ≤ w < 2 ^ 32 → 0 ≤ x < 2 ^ 16 →
  Half.half_of (negb upper) (Half.with_half upper w x)
  = Half.half_of (negb upper) w.
Proof.
  intros Hw Hx. unfold Half.half_of, Half.with_half.
  apply Z.bits_inj'. intros n Hn. destruct upper; simpl.
  - rewrite !Z.land_spec, Z.lor_spec, Z.land_spec, Z.shiftl_spec by lia.
    rewrite testbit_low_mask by lia.
    destruct (Z.ltb_spec n 16).
    + rewrite (Z.testbit_neg_r x) by lia. by rewrite !andb_true_r, orb_false_r.
    + by rewrite !andb_false_r.
  - rewrite !Z.shiftr_spec, Z.lor_spec, Z.land_spec by lia.
    rewrite testbit_high_mask by lia.
    rewrite (testbit_half x) by lia. rewrite orb_false_r.
    rewrite (proj2 (Z.leb_le _ _)) by lia. simpl.
    destruct (Z.ltb_spec (n + 16) 32).
    + by rewrite andb_true_r.
    + rewrite andb_false_r. symmetry. apply testbit_word; [done|lia].
Qed.

Lemma with_half_word (upper : bool) (w x : Z) :
  0 ≤ w < 2 ^ 32 → 0 ≤ x < 2 ^ 16 →
  0 ≤ Half.with_half upper w x < 2 ^ 32.
Proof.
  intros Hw Hx. unfold Half.with_half.
  assert (Hnn : 0 ≤ (if upper
                     then Z.lor (Z.land w 0xffff) (Z.shiftl x 16)
                     else Z.lor (Z.land w 0xffff0000) x)).
  { destruct upper; apply Z.lor_nonneg; split;
      try apply Z.land_nonneg; try apply Z.shiftl_nonneg; lia. }
  split; [done|]. apply word_of_bits; [done|].
  intros n Hn. destruct upper.
  - rewrite Z.lor_spec, Z.land_spec, Z.shiftl_spec by lia.
    rewrite testbit_low_mask by lia.
    rewrite (proj2 (Z.ltb_ge _ _)) by lia.
    rewrite (testbit_half x) by lia. by rewrite andb_false_r.
  - rewrite Z.lor_spec, Z.land_spec, testbit_high_mask by lia.
    rewrite (proj2 (Z.ltb_ge n 32)) by lia.
    rewrite (testbit_half x) by lia. by rewrite !andb_false_r.
Qed.

(** The loop ends once the other threads leave the word alone, and swaps in
    the update of the word it found at its last look. *)
Lemma cas_loop_returns (hadd : Z → Z → Z) (fuel : nat)
  (env : list (option Z)) (upper : bool) (val mem : Z) :
  (length env < fuel)%nat →
  ∃ cur,
    (cur = mem ∨ Some cur ∈ env)
    ∧ Half.cas_loop hadd fuel env upper val mem mem
      = Some (Half.with_half upper cur
                (hadd (Half.half_of upper cur) val)).
Proof.
  revert env mem. induction fuel as [|fuel IH]; intros env mem Hf; [lia|].
  cbn [Half.cas_loop]. unfold Half.atomicCAS.
  destruct env as [|[w|] env].
  - rewrite !Z.eqb_refl. exists mem. by split; [left|].
  - destruct (Z.eqb_spec w mem) as [->|Hne].
    + rewrite Z.eqb_refl. exists mem. by split; [left|].
    + rewrite (proj2 (Z.eqb_neq mem w)) by done. cbn [tail].
      destruct (IH env w) as (cur & Hcur & ->); [simpl in Hf; lia|].
      exists cur. split; [|done]. right.
      destruct Hcur as [->|Hin]; [by left | by right].
  - rewrite !Z.eqb_refl. exists mem. by split; [left|].
Qed.

(** X1. [gpuAtomicAdd] on a [c10::Half] returns as soon as the other
    threads have left the word alone for one iteration (so within
    [length env + 1] iterations); the 32-bit word it leaves holds, in the
    half that [address] names, the sum of [val] and of the half of the
    word [cur] it replaced, and in the other half what [cur] held there.
    [cur] is the word as it was at the start, or as other threads left it,
    and it is the word at the start when no other thread wrote it. *)
Theorem half_atomic_add_updates_one_half (hadd : Z → Z → Z) (fuel : nat)
  (env : list (option Z)) (upper : bool) (val mem : Z) :
  (∀ a b, 0 ≤ hadd a b < 2 ^ 16) →
  0 ≤ mem < 2 ^ 32 →
  Forall (λ o, ∀ w, o = Some w → 0 ≤ w < 2 ^ 32) env →
  (length env < fuel)%nat →
  ∃ cur word,
    Half.gpuAtomicAdd hadd fuel env upper val mem = Some word
    ∧ (cur = mem ∨ Some cur ∈ env)
    ∧ (Forall (λ o, o = None) env → cur = mem)
    ∧ Half.half_of upper word = hadd (Half.half_of upper cur) val
    ∧ Half.half_of (negb upper) word = Half.half_of (negb upper) cur
    ∧ 0 ≤ word < 2 ^ 32.
Proof.
  intros Hadd Hmem Henv Hfuel.
  destruct (cas_loop_returns hadd fuel env upper val mem Hfuel)
    as (cur & Hcur & Hrun).
  assert (Hw : 0 ≤ cur < 2 ^ 32).
  { destruct Hcur as [->|Hin]; [done|].
    rewrite Forall_forall in Henv. by apply (Henv _ Hin). }
  exists cur, (Half.with_half upper cur (hadd (Half.half_of upper cur) val)).
  split; [exact Hrun|]. split; [exact Hcur|]. split_and!.
  - intros Hnone. destruct Hcur as [->|Hin]; [done|].
    rewrite Forall_forall in Hnone. by specialize (Hnone _ Hin).
  - by apply half_of_with_half.
  - by apply other_half_with_half.
  - by apply with_half_word.
  - by apply with_half_word.
Qed.

Lemma half_atomic_add_updates_one_half_witness :
  let hadd := λ a b : Z, (a + b) mod 2 ^ 16 in
  let env := [Some 0x00010002; None] in
  (∀ a b, 0 ≤ hadd a b < 2 ^ 16)
  ∧ 0 ≤ 0x00030004 < 2 ^ 32
  ∧ Forall (λ o, ∀ w, o = Some w → 0 ≤ w < 2 ^ 32) env
  ∧ (length env < 3)%nat
  ∧ ∃ cur word,
      Half.gpuAtomicAdd hadd 3 env true 5 0x00030004 = Some word
      ∧ (cur = 0x00030004 ∨ Some cur ∈ env)
      ∧ Half.half_of true word = hadd (Half.half_of true cur) 5
      ∧ Half.half_of false word = Half.half_of false cur.
Proof.
  intros hadd env.
  assert (Hadd : ∀ a b, 0 ≤ hadd a b < 2 ^ 16)
    by (intros a b; apply Z.mod_pos_bound; lia).
  assert (Hmem : 0 ≤ 0x00030004 < 2 ^ 32) by lia.
  assert (Henv : Forall (λ o, ∀ w, o = Some w → 0 ≤ w < 2 ^ 32) env).
  { apply Forall_cons. split; [intros w [= <-]; lia|].
    apply Forall_cons. split; [intros w [=]|]. apply Forall_nil_2. }
  assert (Hfuel : (length env < 3)%nat) by (simpl; lia).
  split; [exact Hadd|]. split; [exact Hmem|]. split; [exact Henv|].
  split; [exact Hfuel|].
  destruct (half_atomic_add_updates_one_half hadd 3 env true 5 0x00030004
              Hadd Hmem Henv Hfuel)
    as (cur & word & Hrun & Hcur & _ & Hhalf & Hother & _).
  exists cur, word. split; [exact Hrun|]. split; [exact Hcur|].
  split; [exact Hhalf | exact Hother].
Defined.


(** ** Calls that are rejected *)

Section Rejections.
Context {F : Type} `{Arith F}.

Lemma launch_blocks_never_enforce (d : Dim) (k : KArgs F) :
  launch_blocks d k ≠ EnforceFailed.
Proof.
  unfold launch_blocks.
  assert (Hp : ∀ gs, prologues k gs ≠ EnforceFailed).
  { induction gs as [|g gs IH]; cbn [prologues]; [done|].
    unfold block_prologue, segment_bounds, rd, CUDA_KERNEL_ASSERT.
    repeat case_match; cbn [mbind result_bind];
      repeat case_match; try done;
      by destruct (prologues k gs). }
  specialize (Hp (seqZ 0 (gridDim_x d))).
  by destruct (prologues k (seqZ 0 (gridDim_x d))).
Qed.

(** No kernel throws: [CAFFE_ENFORCE] is host code. *)
Lemma fused_kernel_never_enforce (v : variant) (ExactBlock : bool) (d : Dim)
  (oracle : list nat) (k : KArgs F) (m : Mem F) :
  fused_kernel v ExactBlock d oracle k m ≠ EnforceFailed.
Proof.
  pose proof (launch_blocks_never_enforce d k) as Hl.
  destruct v; unfold fused_kernel,
    sparse_adagrad_fused_length_sum_gradient_kernel,
    sparse_adagrad_fused_length_weighted_sum_gradient_kernel,
    rowwise_sparse_adagrad_fused_length_sum_gradient_kernel,
    rowwise_sparse_adagrad_fused_length_weighted_sum_gradient_kernel;
    destruct (launch_blocks d k) as [bs| | |]; try done;
    cbn [mbind result_bind]; try destruct ExactBlock;
    apply asserts_nothing_foldM; intros;
    first [ apply adagrad_update_asserts_nothing
          | apply weighted_sum_member_asserts_nothing
          | apply rowwise_exact_member_asserts_nothing
          | apply rowwise_strided_member_asserts_nothing
          | apply rowwise_weighted_member_asserts_nothing ].
Qed.

End Rejections.

Section RejectedCalls.
Context {F : Type} `{Arith F}.

Lemma launch_never_enforce {A : Type} (v : variant) (ExactBlock : bool)
  (d : Dim) (oracle : list nat) (k : KArgs F) (m : Mem F)
  (f : Mem F → A) :
  (m' ← fused_kernel v ExactBlock d oracle k m; Ok (f m')) ≠ EnforceFailed.
Proof.
  pose proof (fused_kernel_never_enforce v ExactBlock d oracle k m).
  by destruct (fused_kernel v ExactBlock d oracle k m).
Qed.

Lemma first_dim {A : Type} (t : Tensor A) :
  0 < ndim t → sizes t !! 0%nat ≠ None.
Proof.
  intros Hn Hs. unfold ndim in Hn.
  destruct (sizes t); [simpl in Hn; lia | done].
Qed.

Lemma dim_bind {A B : Type} (t : Tensor A) (f : Z → result B) :
  (dim t 0 ≫= f)
  = match sizes t !! 0%nat with Some n => f n | None => EnforceFailed end.
Proof. unfold dim. by destruct (sizes t !! 0%nat). Qed.

Lemma enforce_bind {B : Type} (c : bool) (f : unit → result B) :
  (CAFFE_ENFORCE c ≫= f) = if c then f tt else EnforceFailed.
Proof. by destruct c. Qed.

End RejectedCalls.

(** The next check of an operator, in the order of the code. *)
Ltac next_check :=
  cbv beta zeta;
  match goal with
  | |- mbind ?f (CAFFE_ENFORCE ?c) = _ ↔ _ =>
      rewrite (enforce_bind c f);
      match c with
      | true => idtac
      | false => idtac
      | ?a =? ?b => destruct (Z.eqb_spec a b)
      | ?a <? ?b => destruct (Z.ltb_spec a b)
      end
  | |- mbind ?f (dim ?t 0) = _ ↔ _ =>
      rewrite (dim_bind t f);
      let Hs := fresh "Hs" in
      destruct (sizes t !! 0%nat) eqn:Hs;
      [| try (exfalso; apply (first_dim t); [lia | exact Hs])]
  | |- (if true then ?a else _) = _ ↔ _ => change (if true then a else _) with a
  | |- (if false then _ else ?a) = _ ↔ _ =>
      change (if false then _ else a) with a
  | |- (if ?a =? 0 then _ else _) = _ ↔ _ => destruct (Z.eqb_spec a 0)
  | |- (if ?a <=? 0 then _ else _) = _ ↔ _ => destruct (Z.leb_spec a 0)
  end.

Ltac shape_facts := first [ done | lia | congruence ].

(** A launch, with the launch geometry computed before it, does not
    throw. *)
Ltac no_enforce :=
  try match goal with
  | |- (if ?c then _ else _) = EnforceFailed → False => destruct c
  end;
  unfold multiple_of;
  try match goal with
  | |- context [if ?c then Undefined else _] => destruct c
  end;
  cbn [mbind result_bind]; try discriminate;
  match goal with
  | |- context [sparse_adagrad_fused_length_sum_gradient_kernel ?b] =>
      exact (launch_never_enforce Exact b _ _ _ _ _)
  | |- context [sparse_adagrad_fused_length_weighted_sum_gradient_kernel] =>
      exact (launch_never_enforce WeightedExact true _ _ _ _ _)
  | |- context [rowwise_sparse_adagrad_fused_length_sum_gradient_kernel ?b] =>
      exact (launch_never_enforce RowWise b _ _ _ _ _)
  | |- context
         [rowwise_sparse_adagrad_fused_length_weighted_sum_gradient_kernel] =>
      exact (launch_never_enforce WeightedRowWise true _ _ _ _ _)
  end.

Ltac rejected :=
  match goal with
  | |- EnforceFailed = EnforceFailed ↔ _ =>
      split; [intros _; naive_solver shape_facts | done]
  | |- Ok _ = EnforceFailed ↔ _ =>
      split; [done | naive_solver shape_facts]
  | |- _ =>
      split; [intros Hk; exfalso; revert Hk; no_enforce
             | naive_solver shape_facts]
  end.

Section RejectedCalls2.
Context {F : Type} `{Arith F}.

(** X2. The operators reject a call, before any launch, exactly for the
    shape errors they enforce: a parameter table and an accumulator of
    different sizes (of different row counts for the row-wise operators,
    and then only when the index array is not empty), a learning rate that
    is not a single element, rows of the table and of the gradient of
    different sizes and, when the index array is not empty, lengths (or
    weights) that are not a vector, a gradient without dimensions, a number
    of segments that is not the leading dimension of the gradient, or an
    index array without dimensions.  Nothing else is rejected: neither the
    values of the lengths and of the indices nor the number of weights is
    looked at. *)
Theorem rejected_calls (v : variant) (op : Op F) (oracle : list nat)
  (inp : Inputs F) :
  run_operator v op oracle inp = EnforceFailed
  ↔ (rowwise v = false ∧ numel (PARAM inp) ≠ numel (MOMENT_1 inp))
    ∨ numel (LR inp) ≠ 1
    ∨ size_from_dim (PARAM inp) 1
      ≠ size_from_dim (GRAD inp) (ndim (INDICES inp))
    ∨ (numel (INDICES inp) ≠ 0
       ∧ (ndim (LENGTHS inp) ≠ 1
          ∨ (weighted v = true ∧ ndim (AUX_PARAM inp) ≠ 1)
          ∨ ndim (GRAD inp) ≤ 0
          ∨ (rowwise v = true
             ∧ (sizes (PARAM inp) !! 0%nat = None
                ∨ sizes (PARAM inp) !! 0%nat
                  ≠ sizes (MOMENT_1 inp) !! 0%nat))
          ∨ sizes (LENGTHS inp) !! 0%nat ≠ sizes (GRAD inp) !! 0%nat
          ∨ sizes (INDICES inp) !! 0%nat = None)).
Proof.
  destruct v; unfold run_operator,
    CUDASparseAdagradFusedWithSparseLengthsSumGradientOp.RunOnDevice,
    CUDASparseAdagradFusedWithSparseLengthsSumGradientOp.DoRunWithType,
    CUDASparseAdagradFusedWithSparseLengthsSumGradientOp.DoRunWithType2,
    CUDASparseAdagradFusedWithSparseLengthsWeightedSumGradientOp.RunOnDevice,
    CUDASparseAdagradFusedWithSparseLengthsWeightedSumGradientOp.DoRunWithType,
    CUDASparseAdagradFusedWithSparseLengthsWeightedSumGradientOp.DoRunWithType2,
    CUDARowWiseSparseAdagradFusedWithSparseLengthsSumGradientOp.RunOnDevice,
    CUDARowWiseSparseAdagradFusedWithSparseLengthsSumGradientOp.DoRunWithType,
    CUDARowWiseSparseAdagradFusedWithSparseLengthsSumGradientOp.DoRunWithType2,
    CUDARowWiseSparseAdagradFusedWithSparseLengthsWeightedSumGradientOp.RunOnDevice,
    CUDARowWiseSparseAdagradFusedWithSparseLengthsWeightedSumGradientOp.DoRunWithType,
    CUDARowWiseSparseAdagradFusedWithSparseLengthsWeightedSumGradientOp.DoRunWithType2;
    cbn [rowwise weighted]; repeat next_check.
  all: rejected.
Qed.

End RejectedCalls2.


(** ** Member updates on different rows, in every arithmetic *)

Lemma foldl_agree {A B : Type} (f g : A → B → A) (l : list B) (a : A) :
  (∀ a x, x ∈ l → f a x = g a x) → foldl f a l = foldl g a l.
Proof.
  revert a. induction l as [|x l IH]; intros a Hfg; simpl; [done|].
  rewrite Hfg by left. apply IH. intros. apply Hfg. by right.
Qed.

Section LocalUpdates.
Context {F : Type} `{Arith F}.

(** Two updates that each rewrite one row from what that row holds
    commute when their rows differ. *)
Lemma local_updates_comm (v : variant) (D r1 r2 l1 l2 : Z)
  (T1 T2 : Mem F → Mem F) :
  0 ≤ r1 → 0 ≤ r2 → r1 ≠ r2 → 0 ≤ l1 → 0 ≤ l2 → l1 ≠ l2 → 0 ≤ D →
  (∀ m, same_sizes m (T1 m)) → (∀ m, same_sizes m (T2 m)) →
  (∀ m, T1 m = copy_row v D r1 l1 (T1 m) m) →
  (∀ m, T2 m = copy_row v D r2 l2 (T2 m) m) →
  (∀ m m' x, same_sizes m m' → row_agree v D r1 m m' →
     copy_row v D r1 l1 (T1 m) x = copy_row v D r1 l1 (T1 m') x) →
  (∀ m m' x, same_sizes m m' → row_agree v D r2 m m' →
     copy_row v D r2 l2 (T2 m) x = copy_row v D r2 l2 (T2 m') x) →
  ∀ m, T1 (T2 m) = T2 (T1 m).
Proof.
  intros H1 H2 Hne Hl1 Hl2 Hlne HD Hs1 Hs2 Hc1 Hc2 Hloc1 Hloc2 m.
  assert (Hhalf : ∀ (ra rb la lb : Z) (Ta Tb : Mem F → Mem F),
    0 ≤ ra → 0 ≤ rb → ra ≠ rb →
    (∀ m, same_sizes m (Tb m)) →
    (∀ m, Ta m = copy_row v D ra la (Ta m) m) →
    (∀ m, Tb m = copy_row v D rb lb (Tb m) m) →
    (∀ m m' x, same_sizes m m' → row_agree v D ra m m' →
       copy_row v D ra la (Ta m) x = copy_row v D ra la (Ta m') x) →
    Ta (Tb m)
    = copy_row v D ra la (Ta m) (copy_row v D rb lb (Tb m) m)).
  { intros ra rb la lb Ta Tb Ha Hb Hab Hsb Hca Hcb Hla.
    rewrite (Hca (Tb m)).
    rewrite (Hla (Tb m) m (Tb m)).
    - f_equal. apply Hcb.
    - by apply same_sizes_sym.
    - rewrite (Hcb m). by apply copy_row_agree. }
  rewrite (Hhalf r1 r2 l1 l2 T1 T2), (Hhalf r2 r1 l2 l1 T2 T1) by done.
  by apply copy_row_comm.
Qed.

Lemma lane_w_grad_agree (v : variant) (d : Dim) (k : KArgs F) (m m' : Mem F)
  (group index tid : Z) :
  0 ≤ tid → 0 < blockDim_x d → row_agree v (post k) index m m' →
  lane_w_grad d k m group index tid = lane_w_grad d k m' group index tid.
Proof.
  intros Ht Hbx [Hp _]. unfold lane_w_grad. apply foldl_agree.
  intros a i Hi%for_loop_elem; [|done]. rewrite Hp by lia. done.
Qed.

Lemma lane_sum_squares_agree (v : variant) (d : Dim) (k : KArgs F)
  (m m' : Mem F) (group index tid : Z) :
  0 ≤ tid → 0 < blockDim_x d → row_agree v (post k) index m m' →
  lane_sum_squares d k m group index tid
  = lane_sum_squares d k m' group index tid.
Proof.
  intros Ht Hbx Ha. unfold lane_sum_squares. apply foldl_agree.
  intros a i Hi%for_loop_elem; [|done].
  rewrite (effective_grad_agree v k m m') by (done || lia). done.
Qed.

Lemma lane_w_grads_agree (v : variant) (d : Dim) (k : KArgs F)
  (m m' : Mem F) (group index : Z) :
  0 < blockDim_x d → row_agree v (post k) index m m' →
  lane_w_grad d k m group index <$> seqZ 0 (blockDim_x d)
  = lane_w_grad d k m' group index <$> seqZ 0 (blockDim_x d).
Proof.
  intros Hbx Ha. apply list_fmap_ext.
  intros i tid Ht%list_elem_of_lookup_2%elem_of_seqZ.
  apply (lane_w_grad_agree v); (done || lia).
Qed.

Lemma lane_sums_agree (v : variant) (d : Dim) (k : KArgs F)
  (m m' : Mem F) (group index : Z) :
  0 < blockDim_x d → row_agree v (post k) index m m' →
  lane_sum_squares d k m group index <$> seqZ 0 (blockDim_x d)
  = lane_sum_squares d k m' group index <$> seqZ 0 (blockDim_x d).
Proof.
  intros Hbx Ha. apply list_fmap_ext.
  intros i tid Ht%list_elem_of_lookup_2%elem_of_seqZ.
  apply (lane_sum_squares_agree v); (done || lia).
Qed.

(** The pure member update of a kernel variant and a launch geometry. *)
Lemma member_task_copy (v : variant) (ExactBlock : bool) (d : Dim)
  (oracle : list nat) (k : KArgs F) (t : Z * Z * Z) (m : Mem F) :
  let row := indices k !!! Z.to_nat t.2 in
  0 < blockDim_x d → (ExactBlock = true → blockDim_x d = post k) →
  0 ≤ row → 0 ≤ post k →
  (weighted_sum_task d k t m
   = copy_row WeightedExact (post k) row t.2 (weighted_sum_task d k t m) m)
  ∧ (rowwise_strided_task d k t m
     = copy_row RowWise (post k) row t.2 (rowwise_strided_task d k t m) m)
  ∧ (ExactBlock = true →
     rowwise_exact_task d oracle k t m
     = copy_row RowWise (post k) row t.2
         (rowwise_exact_task d oracle k t m) m)
  ∧ (rowwise_weighted_task d k t m
     = copy_row WeightedRowWise (post k) row t.2
         (rowwise_weighted_task d k t m) m).
Proof.
  destruct t as [[g s] l]. cbn [fst snd]. intros Hbx Hex Hrow HD.
  unfold copy_row, weighted_sum_task, rowwise_strided_task,
    rowwise_exact_task, rowwise_weighted_task.
  cbn [param param_mom weights_grad_out rowwise weighted].
  split_and!; try (intros He; rewrite (Hex He));
    rewrite ?store_cells_lanes by done;
    rewrite ?store_cells_self, ?insert_self by done; done.
Qed.

End LocalUpdates.

Section LocalTasks.
Context {F : Type} `{Arith F}.

Lemma weighted_sum_task_local (d : Dim) (k : KArgs F) (t : Z * Z * Z)
  (m m' x : Mem F) :
  let row := indices k !!! Z.to_nat t.2 in
  0 < blockDim_x d → 0 ≤ row → 0 ≤ post k → same_sizes m m' →
  row_agree WeightedExact (post k) row m m' →
  copy_row WeightedExact (post k) row t.2 (weighted_sum_task d k t m) x
  = copy_row WeightedExact (post k) row t.2 (weighted_sum_task d k t m') x.
Proof.
  destruct t as [[g s] l]. cbn [fst snd].
  intros Hbx Hrow HD (Hlp & Hlm & Hlw) Ha. pose proof Ha as [Hp Hm].
  cbn [rowwise] in Hm.
  pose proof (seqZ_nonneg (post k)) as Hnn.
  unfold copy_row, weighted_sum_task.
  cbn [param param_mom weights_grad_out rowwise weighted].
  rewrite !store_cells_lanes by done.
  f_equal.
  - apply store_cells_ext. intros e He. pose proof He as He'%elem_of_seqZ.
    apply store_cells_total_cong; try done.
    rewrite (out_grad_agree _ _ m m' _ _ _ _ Ha), Hp, Hm by lia. done.
  - apply store_cells_ext. intros e He. pose proof He as He'%elem_of_seqZ.
    apply store_cells_total_cong; try done.
    rewrite (out_grad_agree _ _ m m' _ _ _ _ Ha), Hm by lia. done.
  - f_equal. rewrite (lane_w_grads_agree _ _ _ m m' _ _ Hbx Ha).
    by apply insert_total_cong.
Qed.

Lemma rowwise_strided_task_local (d : Dim) (k : KArgs F) (t : Z * Z * Z)
  (m m' x : Mem F) :
  let row := indices k !!! Z.to_nat t.2 in
  0 < blockDim_x d → 0 ≤ row → 0 ≤ post k → same_sizes m m' →
  row_agree RowWise (post k) row m m' →
  copy_row RowWise (post k) row t.2 (rowwise_strided_task d k t m) x
  = copy_row RowWise (post k) row t.2 (rowwise_strided_task d k t m') x.
Proof.
  destruct t as [[g s] l]. cbn [fst snd].
  intros Hbx Hrow HD (Hlp & Hlm & Hlw) Ha. pose proof Ha as [Hp Hm].
  cbn [rowwise] in Hm.
  pose proof (seqZ_nonneg (post k)) as Hnn.
  unfold copy_row, rowwise_strided_task.
  cbn [param param_mom weights_grad_out rowwise weighted].
  rewrite !store_cells_lanes by done.
  rewrite (lane_sums_agree _ _ _ m m' _ _ Hbx Ha), Hm.
  f_equal.
  - apply store_cells_ext. intros e He. pose proof He as He'%elem_of_seqZ.
    apply store_cells_total_cong; try done.
    rewrite (effective_grad_agree _ _ m m' _ _ _ Ha), Hp by lia. done.
  - f_equal. by apply insert_total_cong.
Qed.

Lemma rowwise_exact_task_local (d : Dim) (oracle : list nat) (k : KArgs F)
  (t : Z * Z * Z) (m m' x : Mem F) :
  let row := indices k !!! Z.to_nat t.2 in
  blockDim_x d = post k → 0 ≤ row → 0 ≤ post k → same_sizes m m' →
  row_agree RowWise (post k) row m m' →
  copy_row RowWise (post k) row t.2 (rowwise_exact_task d oracle k t m) x
  = copy_row RowWise (post k) row t.2
      (rowwise_exact_task d oracle k t m') x.
Proof.
  destruct t as [[g s] l]. cbn [fst snd].
  intros Hbx Hrow HD (Hlp & Hlm & Hlw) Ha. pose proof Ha as [Hp Hm].
  cbn [rowwise] in Hm.
  pose proof (seqZ_nonneg (post k)) as Hnn.
  unfold copy_row, rowwise_exact_task.
  cbn [param param_mom weights_grad_out rowwise weighted].
  rewrite Hbx, Hm.
  assert (Hsq :
    (λ x0, fadd fzero (fmul (effective_grad k m g (indices k !!! Z.to_nat l) x0)
                         (effective_grad k m g (indices k !!! Z.to_nat l) x0)))
      <$> seqZ 0 (post k)
    = (λ x0, fadd fzero
               (fmul (effective_grad k m' g (indices k !!! Z.to_nat l) x0)
                  (effective_grad k m' g (indices k !!! Z.to_nat l) x0)))
        <$> seqZ 0 (post k)).
  { apply list_fmap_ext. intros i e He%list_elem_of_lookup_2%elem_of_seqZ.
    rewrite (effective_grad_agree _ _ m m' _ _ _ Ha) by lia. done. }
  rewrite Hsq.
  f_equal.
  - apply store_cells_ext. intros e He. pose proof He as He'%elem_of_seqZ.
    apply store_cells_total_cong; try done.
    rewrite (effective_grad_agree _ _ m m' _ _ _ Ha), Hp by lia. done.
  - f_equal. by apply insert_total_cong.
Qed.

Lemma rowwise_weighted_task_local (d : Dim) (k : KArgs F) (t : Z * Z * Z)
  (m m' x : Mem F) :
  let row := indices k !!! Z.to_nat t.2 in
  0 < blockDim_x d → 0 ≤ row → 0 ≤ post k → same_sizes m m' →
  row_agree WeightedRowWise (post k) row m m' →
  copy_row WeightedRowWise (post k) row t.2 (rowwise_weighted_task d k t m) x
  = copy_row WeightedRowWise (post k) row t.2
      (rowwise_weighted_task d k t m') x.
Proof.
  destruct t as [[g s] l]. cbn [fst snd].
  intros Hbx Hrow HD (Hlp & Hlm & Hlw) Ha. pose proof Ha as [Hp Hm].
  cbn [rowwise] in Hm.
  pose proof (seqZ_nonneg (post k)) as Hnn.
  unfold copy_row, rowwise_weighted_task.
  cbn [param param_mom weights_grad_out rowwise weighted].
  rewrite !store_cells_lanes by done.
  rewrite (lane_sums_agree _ _ _ m m' _ _ Hbx Ha), Hm.
  rewrite (lane_w_grads_agree _ _ _ m m' _ _ Hbx Ha).
  f_equal.
  - apply store_cells_ext. intros e He. pose proof He as He'%elem_of_seqZ.
    apply store_cells_total_cong; try done.
    rewrite (out_grad_agree _ _ m m' _ _ _ _ Ha), Hp by lia. done.
  - f_equal. by apply insert_total_cong.
  - f_equal. by apply insert_total_cong.
Qed.

End LocalTasks.

(** *** Rows of one warp *)

Lemma interleave_empty {T : Type} (oracle : list nat) :
  interleave oracle [@nil T] = [].
Proof.
  induction oracle as [|n o IH]; [done|]. cbn [interleave].
  by destruct n.
Qed.

Lemma interleave_single {T : Type} (oracle : list nat) (x : T) :
  interleave oracle [[x]] = [x].
Proof.
  induction oracle as [|n o IH]; [done|]. cbn [interleave].
  destruct n as [|n]; cbn; [|done]. by rewrite interleave_empty.
Qed.

Lemma interleave_none {T : Type} (oracle : list nat) :
  interleave oracle (@nil (list T)) = [].
Proof. induction oracle as [|n o IH]; [done|]. by destruct n. Qed.

(** The atomic additions of a row of at most 32 threads are the addition
    of its one warp: there is no order to choose. *)
Lemma one_warp_order {A : Type} (oracle oracle' : list nat) (l : list A) :
  (length l ≤ 32)%nat →
  interleave oracle ((λ warp, [warp]) <$> warps (length l) l)
  = interleave oracle' ((λ warp, [warp]) <$> warps (length l) l).
Proof.
  intros Hl. destruct l as [|x l].
  - cbn [length warps fmap list_fmap]. by rewrite !interleave_none.
  - cbn [length warps]. rewrite drop_ge by (simpl in *; lia).
    destruct (length l); cbn [warps fmap list_fmap];
      by rewrite !interleave_single.
Qed.

Lemma mapM_length {A B : Type} (f : A → result B) (l : list A)
  (bs : list B) :
  mapM f l = Ok bs → length bs = length l.
Proof.
  revert bs. induction l as [|a l IH]; intros bs; cbn [mapM].
  - by intros [= <-].
  - intros (b & _ & (bs' & Hbs & [= <-])%bind_Ok)%bind_Ok.
    cbn [length]. by rewrite (IH bs').
Qed.

Section OneWarp.
Context {F : Type} `{Arith F}.

Lemma rowwise_exact_member_one_warp (d : Dim) (oracle oracle' : list nat)
  (k : KArgs F) (t : Z * Z * Z) (m : Mem F) :
  blockDim_x d ≤ 32 →
  rowwise_exact_member d oracle k t m = rowwise_exact_member d oracle' k t m.
Proof.
  intros Hbx. destruct t as [[g s] l]. unfold rowwise_exact_member.
  destruct (rd (lr k) 0); cbn [mbind result_bind]; try done.
  destruct (rd (indices k) l); cbn [mbind result_bind]; try done.
  destruct (mapM _ _) as [xs| | |] eqn:Hxs; cbn [mbind result_bind];
    try done.
  apply mapM_length in Hxs. rewrite length_seqZ in Hxs.
  rewrite (one_warp_order oracle oracle') by (rewrite length_fmap; lia).
  done.
Qed.

End OneWarp.

Section Determinism.
Context {F : Type} `{Arith F}.

(** Two members of a batch with pairwise distinct indices are members of
    different rows. *)
Lemma member_rows_differ (v : variant) (rows : Z) (lengths : list Z)
  (k : KArgs F) (m : Mem F) (t1 t2 : Z * Z * Z) :
  batch_ok v rows lengths k m → NoDup (indices k) →
  t1 ∈ members lengths → t2 ∈ members lengths → t1 ≠ t2 →
  (0 ≤ indices k !!! Z.to_nat t1.2 ∧ 0 ≤ indices k !!! Z.to_nat t2.2
   ∧ indices k !!! Z.to_nat t1.2 ≠ indices k !!! Z.to_nat t2.2)
  ∧ 0 ≤ t1.2 ∧ 0 ≤ t2.2 ∧ t1.2 ≠ t2.2.
Proof.
  destruct t1 as [[g1 s1] l1], t2 as [[g2 s2] l2]. cbn [fst snd].
  intros Hb Hnd Ht1 Ht2 Hne.
  pose proof (ok_lengths _ _ _ _ _ Hb) as Hl.
  pose proof (ok_total _ _ _ _ _ Hb) as Htot.
  pose proof (members_bound _ _ _ _ Hl Ht1) as (? & ? & ?).
  pose proof (members_bound _ _ _ _ Hl Ht2) as (? & ? & ?).
  pose proof (batch_index _ _ _ _ _ l1 Hb ltac:(lia)).
  pose proof (batch_index _ _ _ _ _ l2 Hb ltac:(lia)).
  assert (l1 ≠ l2).
  { intros ->. destruct (members_line_inj _ _ _ _ _ _ Hl Ht1 Ht2).
    by subst. }
  split_and!; try lia.
  intros Hi. assert (Z.to_nat l1 = Z.to_nat l2); [|lia].
  eapply (NoDup_lookup (indices k)); [done| |].
  - apply list_lookup_lookup_total_lt. lia.
  - rewrite Hi. apply list_lookup_lookup_total_lt. lia.
Qed.

(** Member updates that rewrite the row of their member from what it holds
    can be carried out in any order when the indices of the batch are
    pairwise distinct. *)
Lemma member_tasks_order (v : variant) (rows : Z) (lengths : list Z)
  (k : KArgs F) (m0 m : Mem F) (task : Z * Z * Z → Mem F → Mem F)
  (ts ts' : list (Z * Z * Z)) :
  batch_ok v rows lengths k m0 → NoDup (indices k) →
  (∀ t m, same_sizes m (task t m)) →
  (∀ t m, 0 ≤ indices k !!! Z.to_nat t.2 →
     task t m
     = copy_row v (post k) (indices k !!! Z.to_nat t.2) t.2 (task t m) m) →
  (∀ t m m' x, 0 ≤ indices k !!! Z.to_nat t.2 → same_sizes m m' →
     row_agree v (post k) (indices k !!! Z.to_nat t.2) m m' →
     copy_row v (post k) (indices k !!! Z.to_nat t.2) t.2 (task t m) x
     = copy_row v (post k) (indices k !!! Z.to_nat t.2) t.2 (task t m') x) →
  ts ≡ₚ members lengths → ts' ≡ₚ members lengths →
  foldl (λ m t, task t m) m ts = foldl (λ m t, task t m) m ts'.
Proof.
  intros Hb Hnd Hsz Hcopy Hloc Hts Hts'.
  pose proof (ok_post _ _ _ _ _ Hb) as Hpost.
  apply (foldl_permutation_comm task).
  - by rewrite Hts, Hts'.
  - rewrite Hts. apply NoDup_members.
  - intros t1 t2 s Ht1 Ht2 Hne. rewrite Hts in Ht1, Ht2.
    destruct (member_rows_differ v rows lengths k m0 t1 t2 Hb Hnd Ht1 Ht2 Hne)
      as ((Hr1 & Hr2 & Hr) & Hl1 & Hl2 & Hl).
    apply (local_updates_comm v (post k)
             (indices k !!! Z.to_nat t1.2) (indices k !!! Z.to_nat t2.2)
             t1.2 t2.2 (task t1) (task t2)); try done; try lia.
    + intros m1. by apply Hcopy.
    + intros m1. by apply Hcopy.
    + intros m1 m2 x. by apply Hloc.
    + intros m1 m2 x. by apply Hloc.
Qed.

(** A kernel whose blocks update the members of their segments returns the
    same tables under any two interleavings. *)
Lemma member_kernel_order (v : variant) (rows : Z) (lengths : list Z)
  (k : KArgs F) (m : Mem F) (d : Dim) (oracle oracle' : list nat)
  (step : Z * Z * Z → Mem F → result (Mem F))
  (task : Z * Z * Z → Mem F → Mem F)
  (threads : list (list (Z * Z * Z))) :
  batch_ok v rows lengths k m → gridDim_x d = len_length k →
  NoDup (indices k) →
  concat threads ≡ₚ members lengths →
  (∀ t m', member_ok k t → batch_ok v rows lengths k m' →
     step t m' = Ok (task t m')) →
  (∀ t m, same_sizes m (task t m)) →
  (∀ t m, 0 ≤ indices k !!! Z.to_nat t.2 →
     task t m
     = copy_row v (post k) (indices k !!! Z.to_nat t.2) t.2 (task t m) m) →
  (∀ t m m' x, 0 ≤ indices k !!! Z.to_nat t.2 → same_sizes m m' →
     row_agree v (post k) (indices k !!! Z.to_nat t.2) m m' →
     copy_row v (post k) (indices k !!! Z.to_nat t.2) t.2 (task t m) x
     = copy_row v (post k) (indices k !!! Z.to_nat t.2) t.2 (task t m') x) →
  ∃ m', foldM step (interleave oracle threads) m = Ok m'
        ∧ foldM step (interleave oracle' threads) m = Ok m'.
Proof.
  intros Hb Hd Hnd Hth Hstep Hsz Hcopy Hloc.
  destruct (member_kernel v rows lengths k m d oracle step task threads)
    as (ts & Hts & Hrun & _); try done.
  { intros t m' Ht Hm'. split; [by apply Hstep | apply Hsz]. }
  destruct (member_kernel v rows lengths k m d oracle' step task threads)
    as (ts' & Hts' & Hrun' & _); try done.
  { intros t m' Ht Hm'. split; [by apply Hstep | apply Hsz]. }
  eexists. split; [exact Hrun|]. rewrite Hrun'. f_equal.
  by apply (member_tasks_order v rows lengths k m).
Qed.

(** The element-wise kernel returns the same tables in both of its launch
    geometries and under any interleaving. *)
Lemma exact_kernel_order (ExactBlock ExactBlock' : bool) (d d' : Dim)
  (oracle oracle' : list nat) (rows : Z) (lengths : list Z) (k : KArgs F)
  (m : Mem F) :
  batch_ok Exact rows lengths k m → NoDup (indices k) →
  dim_ok ExactBlock d k → dim_ok ExactBlock' d' k →
  ∃ m', sparse_adagrad_fused_length_sum_gradient_kernel ExactBlock d oracle
          k m = Ok m'
        ∧ sparse_adagrad_fused_length_sum_gradient_kernel ExactBlock' d'
            oracle' k m = Ok m'.
Proof.
  intros Hb Hnd Hd Hd'.
  destruct (exact_kernel_tasks ExactBlock d oracle rows lengths k m Hb Hd)
    as (ts & Hts & Hrun & _).
  destruct (exact_kernel_tasks ExactBlock' d' oracle' rows lengths k m Hb Hd')
    as (ts' & Hts' & Hrun' & _).
  eexists. split; [exact Hrun|]. rewrite Hrun'. f_equal.
  apply (foldl_permutation_comm (adagrad_task k)).
  - by rewrite Hts, Hts'.
  - rewrite Hts'. apply NoDup_element_tasks. apply Hb.
  - intros t1 t2 s Ht1 Ht2 Hne. rewrite Hts' in Ht1, Ht2.
    apply adagrad_task_comm.
    by apply (element_tasks_cells Exact rows lengths k m).
Qed.

(** The kernels under two interleavings.  Where the rows of the fast path
    of the row-wise kernel have several warps, the order of their atomic
    additions can show in the accumulator: the rows are taken to be one
    warp there. *)
Lemma fused_kernel_order (v : variant) (ExactBlock : bool) (d : Dim)
  (oracle oracle' : list nat) (rows : Z) (lengths : list Z) (k : KArgs F)
  (m : Mem F) :
  batch_ok v rows lengths k m → launch_ok v ExactBlock d k →
  NoDup (indices k) →
  (v = RowWise → ExactBlock = true → post k = 32) →
  ∃ m', fused_kernel v ExactBlock d oracle k m = Ok m'
        ∧ fused_kernel v ExactBlock d oracle' k m = Ok m'.
Proof.
  intros Hb Hl Hnd Hone. pose proof (launch_dim _ _ _ _ Hl) as Hd.
  pose proof Hd as (Hg & Hbx & Hby & Hex & Hst).
  pose proof (ok_post _ _ _ _ _ Hb) as Hpost.
  destruct v; unfold fused_kernel.
  - by apply (exact_kernel_order _ _ _ _ _ _ rows lengths).
  - unfold sparse_adagrad_fused_length_weighted_sum_gradient_kernel.
    rewrite (launch_blocks_segments WeightedExact rows lengths k m)
      by done.
    cbn [mbind result_bind].
    apply (member_kernel_order WeightedExact rows lengths k m d oracle
             oracle' _ (weighted_sum_task d k)); try done.
    + apply member_threads_members.
    + intros t m' Ht Hm'. by apply (weighted_sum_member_task d rows lengths).
    + intros t m'. apply weighted_sum_task_sizes.
    + intros t m' Hr.
      exact (proj1 (member_task_copy WeightedExact false d oracle k t m' Hbx
                      ltac:(done) Hr ltac:(lia))).
    + intros t m1 m2 x Hr. apply weighted_sum_task_local; (done || lia).
  - unfold rowwise_sparse_adagrad_fused_length_sum_gradient_kernel.
    rewrite (launch_blocks_segments RowWise rows lengths k m) by done.
    cbn [mbind result_bind]. destruct ExactBlock.
    + rewrite (foldM_ext (rowwise_exact_member d oracle' k)
                 (rowwise_exact_member d oracle k)).
      2:{ intros t s _. apply rowwise_exact_member_one_warp.
          rewrite Hex, Hone by done. lia. }
      apply (member_kernel_order RowWise rows lengths k m d oracle
               oracle' _ (rowwise_exact_task d oracle k)); try done.
      * by apply rowwise_exact_threads_members.
      * intros t m' Ht Hm'.
        apply (rowwise_exact_member_task d oracle rows lengths); auto.
      * intros t m'.
        exact (proj1 (proj2 (rowwise_task_sizes d oracle k t m'))).
      * intros t m' Hr.
        exact (proj1 (proj2 (proj2 (member_task_copy RowWise true d oracle k t
                                      m'
                                      Hbx Hex Hr ltac:(lia)))) eq_refl).
      * intros t m1 m2 x Hr.
        apply rowwise_exact_task_local; auto; lia.
    + apply (member_kernel_order RowWise rows lengths k m d oracle
               oracle' _ (rowwise_strided_task d k)); try done.
      * apply member_threads_members.
      * intros t m' Ht Hm'.
        apply (rowwise_strided_member_task d rows lengths); try done.
        by apply (launch_strided d k).
      * intros t m'. exact (proj1 (rowwise_task_sizes d oracle k t m')).
      * intros t m' Hr.
        exact (proj1 (proj2 (member_task_copy RowWise false d oracle k t m' Hbx
                               ltac:(done) Hr ltac:(lia)))).
      * intros t m1 m2 x Hr. apply rowwise_strided_task_local; (done || lia).
  - unfold rowwise_sparse_adagrad_fused_length_weighted_sum_gradient_kernel.
    rewrite (launch_blocks_segments WeightedRowWise rows lengths k m)
      by done.
    cbn [mbind result_bind].
    apply (member_kernel_order WeightedRowWise rows lengths k m d oracle
             oracle' _ (rowwise_weighted_task d k)); try done.
    + apply member_threads_members.
    + intros t m' Ht Hm'.
      by apply (rowwise_weighted_member_task d rows lengths).
    + intros t m'. exact (proj2 (proj2 (rowwise_task_sizes d oracle k t m'))).
    + intros t m' Hr.
      exact (proj2 (proj2 (proj2 (member_task_copy WeightedRowWise false d oracle
                                    k
                                    t m' Hbx ltac:(done) Hr ltac:(lia))))).
    + intros t m1 m2 x Hr. apply rowwise_weighted_task_local; (done || lia).
Qed.


(** X4. For a batch whose index values are pairwise distinct, the
    element-wise kernel returns the same tables in its two branches, one
    thread per element of a row ([ExactBlock]) and threads that stride over
    the row, whatever the sizes of the blocks and the interleavings of the
    threads: every loop-body execution of the batch is carried out once by
    one thread in either branch.  This holds in every arithmetic, IEEE
    single precision included; the tables have at most [INT_MAX] cells,
    so that both branches compute the address of a cell without wrapping. *)
Theorem launch_geometry_does_not_matter (ExactBlock ExactBlock' : bool)
  (d d' : Dim) (oracle oracle' : list nat) (rows : Z) (lengths : list Z)
  (k : KArgs F) (m : Mem F) :
  batch_ok Exact rows lengths k m → NoDup (indices k) →
  dim_ok ExactBlock d k → dim_ok ExactBlock' d' k →
  ∃ m', fused_kernel Exact ExactBlock d oracle k m = Ok m'
        ∧ fused_kernel Exact ExactBlock' d' oracle' k m = Ok m'.
Proof.
  intros Hb Hnd Hd Hd'. unfold fused_kernel.
  by apply (exact_kernel_order _ _ _ _ _ _ rows lengths).
Qed.

End Determinism.


Lemma launch_geometry_does_not_matter_witness :
  let k := launch_args (example_op (of_int 1))
             (example_inputs (F:=spec_float) Exact [0; 2; 1]) in
  let m := launch_buffers Exact (example_inputs Exact [0; 2; 1]) in
  let strided := {| gridDim_x := 2; blockDim_x := 1; blockDim_y := 1 |} in
  batch_ok Exact 3 [1; 2] k m ∧ NoDup (indices k)
  ∧ dim_ok true example_block k ∧ dim_ok false strided k
  ∧ ∃ m', fused_kernel Exact true example_block [1%nat; 0%nat] k m = Ok m'
          ∧ fused_kernel Exact false strided [] k m = Ok m'.
Proof.
  intros k m strided.
  assert (Hb : batch_ok Exact 3 [1; 2] k m) by example_batch.
  assert (Hd : dim_ok true example_block k) by (split_and!; example).
  assert (Hd' : dim_ok false strided k) by (split_and!; example).
  assert (Hn : NoDup (indices k)) by compute_done.
  split_and!; try done.
  exact (launch_geometry_does_not_matter true false example_block strided
           [1%nat; 0%nat] [] 3 [1; 2] k m Hb Hn Hd Hd').
Defined.


(** ** Calls that reach the launch *)

(** The next check of an operator whose outcome is known. *)
Ltac check_in H :=
  cbv beta zeta in H;
  match type of H with
  | mbind ?f (CAFFE_ENFORCE ?c) = _ =>
      rewrite (enforce_bind c f) in H;
      match c with
      | true => idtac
      | false => idtac
      | ?a =? ?b => revert H; destruct (Z.eqb_spec a b); intros H
      | ?a <? ?b => revert H; destruct (Z.ltb_spec a b); intros H
      end
  | mbind ?f (dim ?t 0) = _ =>
      rewrite (dim_bind t f) in H;
      let Hs := fresh "Hs" in
      revert H; destruct (sizes t !! 0%nat) eqn:Hs; intros H
  | (if true then ?a else ?b) = _ => change (if true then a else b) with a in H
  | (if false then ?a else ?b) = _ =>
      change (if false then a else b) with b in H
  | (if ?a =? 0 then _ else _) = _ =>
      revert H; destruct (Z.eqb_spec a 0); intros H
  | (if ?a <=? 0 then _ else _) = _ =>
      revert H; destruct (Z.leb_spec a 0); intros H
  end.

Ltac unfold_operator H :=
  unfold run_operator,
    CUDASparseAdagradFusedWithSparseLengthsSumGradientOp.RunOnDevice,
    CUDASparseAdagradFusedWithSparseLengthsSumGradientOp.DoRunWithType,
    CUDASparseAdagradFusedWithSparseLengthsSumGradientOp.DoRunWithType2,
    CUDASparseAdagradFusedWithSparseLengthsWeightedSumGradientOp.RunOnDevice,
    CUDASparseAdagradFusedWithSparseLengthsWeightedSumGradientOp.DoRunWithType,
    CUDASparseAdagradFusedWithSparseLengthsWeightedSumGradientOp.DoRunWithType2,
    CUDARowWiseSparseAdagradFusedWithSparseLengthsSumGradientOp.RunOnDevice,
    CUDARowWiseSparseAdagradFusedWithSparseLengthsSumGradientOp.DoRunWithType,
    CUDARowWiseSparseAdagradFusedWithSparseLengthsSumGradientOp.DoRunWithType2,
    CUDARowWiseSparseAdagradFusedWithSparseLengthsWeightedSumGradientOp.RunOnDevice,
    CUDARowWiseSparseAdagradFusedWithSparseLengthsWeightedSumGradientOp.DoRunWithType,
    CUDARowWiseSparseAdagradFusedWithSparseLengthsWeightedSumGradientOp.DoRunWithType2
    in H.

Section Launches.
Context {F : Type} `{Arith F}.

(** X5. A call that is not rejected, with an index array that is not empty
    but without segments (the leading dimension of the lengths is zero),
    returns without a launch: the tables are left as they are and the
    indices are not read.  The weighted operators still allocate the
    weight-gradient output, one entry per index, and nothing writes it. *)
Theorem no_segments_no_launch (v : variant) (op : Op F) (oracle : list nat)
  (inp : Inputs F) (S : Z) :
  run_operator v op oracle inp ≠ EnforceFailed →
  numel (INDICES inp) ≠ 0 →
  sizes (LENGTHS inp) !! 0%nat = Some S → S ≤ 0 →
  run_operator v op oracle inp
  = Ok {| outputs := launch_buffers v inp; launches := [] |}.
Proof.
  intros Hne Hn HS HS0.
  remember (run_operator v op oracle inp) as r eqn:Hrun. symmetry in Hrun.
  unfold launch_buffers.
  destruct v; unfold_operator Hrun; cbn [weighted];
    repeat check_in Hrun; simplify_eq; try done; lia.
Qed.

(** X6. The unweighted operators divide the block size limit of the device
    by the width of a row of the gradient to size their blocks: a call that
    passes the checks with rows of width zero, an index array that is not
    empty and at least one segment divides by zero on the host, before any
    launch. *)
Theorem zero_width_divides_by_zero (v : variant) (op : Op F)
  (oracle : list nat) (inp : Inputs F) (S : Z) :
  weighted v = false →
  run_operator v op oracle inp ≠ EnforceFailed →
  numel (INDICES inp) ≠ 0 →
  sizes (LENGTHS inp) !! 0%nat = Some S → 0 < S →
  size_from_dim (GRAD inp) 1 = 0 → 0 ≤ maxThreadsPerBlock op →
  run_operator v op oracle inp = Undefined.
Proof.
  intros Hw Hne Hn HS HS0 Hpost Hmax.
  remember (run_operator v op oracle inp) as r eqn:Hrun. symmetry in Hrun.
  pose proof (Z.div_pos (maxThreadsPerBlock op) 2 Hmax ltac:(lia)) as Hhalf.
  destruct v; try discriminate Hw; unfold_operator Hrun;
    repeat check_in Hrun;
    try (rewrite Hpost in Hrun; unfold multiple_of in Hrun;
         rewrite ?(proj2 (Z.leb_le 0 (maxThreadsPerBlock op)) Hmax),
           ?(proj2 (Z.leb_le 0 (maxThreadsPerBlock op / 2)) Hhalf) in Hrun;
         change (0 mod 32 =? 0) with true in Hrun;
         change (0 =? 0) with true in Hrun;
         cbn [andb mbind result_bind] in Hrun);
    simplify_eq; try done; lia.
Qed.

(** X7. The launch of a call that returns: one block per segment, for at
    least one segment, and a block that is not empty.  The unweighted
    operators keep the block within the limit of the device,
    [blockDim.x * blockDim.y <= maxThreadsPerBlock]; the weighted operators
    choose 32, 64, 128 or 512 threads from the width of a row alone, whatever
    the limit of the device is. *)
Theorem launch_geometry (v : variant) (op : Op F) (oracle : list nat)
  (inp : Inputs F) (run : Run F) (d : Dim) :
  run_operator v op oracle inp = Ok run → d ∈ launches run →
  0 ≤ size_from_dim (GRAD inp) 1 →
  0 < maxThreadsPerBlock op → 0 < SEGREDUCE_MINBLOCKS op →
  launches run = [d]
  ∧ sizes (LENGTHS inp) !! 0%nat = Some (gridDim_x d) ∧ 0 < gridDim_x d
  ∧ 0 < blockDim_x d ∧ 0 < blockDim_y d
  ∧ if weighted v
    then blockDim_y d = 1
         ∧ blockDim_x d = NumThreads (size_from_dim (GRAD inp) 1)
         ∧ blockDim_x d ∈ [32; 64; 128; 512]
    else blockDim_x d * blockDim_y d ≤ maxThreadsPerBlock op.
Proof.
  intros Hrun Hd Hpost Hmax Hmin.
  destruct v; unfold_operator Hrun; cbn [weighted];
    repeat check_in Hrun; simplify_eq; try done;
    try (by apply elem_of_nil in Hd).
  - revert Hrun.
    destruct (Z.leb_spec (size_from_dim (GRAD inp) 1) (maxThreadsPerBlock op))
      as [Hle|Hgt]; unfold multiple_of;
      [destruct (Z.eqb_spec (size_from_dim (GRAD inp) 1) 0) as [H0'|Hne];
       [done|]|];
      cbn [mbind result_bind]; intros (m' & _ & [= <-])%bind_Ok;
      cbn [launches] in *; apply list_elem_of_singleton in Hd as ->;
      cbn [gridDim_x blockDim_x blockDim_y]; split_and!; try done; try lia.
    + pose proof (Z.div_str_pos (maxThreadsPerBlock op)
                    (size_from_dim (GRAD inp) 1) ltac:(lia)). lia.
    + pose proof (Z.mul_div_le (maxThreadsPerBlock op)
                    (size_from_dim (GRAD inp) 1) ltac:(lia)). nia.
  - apply bind_Ok in Hrun as (m' & _ & [= <-]).
    cbn [launches] in *. apply list_elem_of_singleton in Hd as ->.
    cbn [gridDim_x blockDim_x blockDim_y]. unfold NumThreads.
    split_and!; try done; repeat case_match; (lia || compute_done).
  - revert Hrun.
    destruct ((size_from_dim (GRAD inp) 1 <=? maxThreadsPerBlock op / 2)
              && (size_from_dim (GRAD inp) 1 mod 32 =? 0)) eqn:Hfast;
      unfold multiple_of;
      [destruct (Z.eqb_spec (size_from_dim (GRAD inp) 1) 0) as [H0'|Hne];
       [done|]|];
      cbn [mbind result_bind]; intros (m' & _ & [= <-])%bind_Ok;
      cbn [launches] in *; apply list_elem_of_singleton in Hd as ->;
      cbn [gridDim_x blockDim_x blockDim_y]; split_and!; try done; try lia.
    + apply andb_true_iff in Hfast as [Hle%Z.leb_le _].
      pose proof (Z.mul_div_le (maxThreadsPerBlock op) 2 ltac:(lia)).
      pose proof (Z.div_str_pos (maxThreadsPerBlock op)
                    (size_from_dim (GRAD inp) 1) ltac:(lia)). lia.
    + pose proof (Z.mul_div_le (maxThreadsPerBlock op)
                    (size_from_dim (GRAD inp) 1) ltac:(lia)). nia.
    + destruct (Z.eqb_spec (size_from_dim (GRAD inp) 1) 0) as [H0'|Hne];
        [|lia].
      rewrite H0' in Hfast.
      pose proof (Z.div_pos (maxThreadsPerBlock op) 2 ltac:(lia) ltac:(lia)).
      rewrite (proj2 (Z.leb_le 0 (maxThreadsPerBlock op / 2))) in Hfast
        by done.
      done.
  - apply bind_Ok in Hrun as (m' & _ & [= <-]).
    cbn [launches] in *. apply list_elem_of_singleton in Hd as ->.
    cbn [gridDim_x blockDim_x blockDim_y]. unfold NumThreads.
    split_and!; try done; repeat case_match; (lia || compute_done).
Qed.

End Launches.

Lemma no_segments_no_launch_witness :
  let op := example_op (F:=spec_float) fzero in
  let inp := no_segment_inputs (F:=spec_float) WeightedRowWise in
  run_operator WeightedRowWise op [] inp ≠ EnforceFailed
  ∧ numel (INDICES inp) ≠ 0
  ∧ sizes (LENGTHS inp) !! 0%nat = Some 0
  ∧ run_operator WeightedRowWise op [] inp
    = Ok {| outputs := launch_buffers WeightedRowWise inp; launches := [] |}.
Proof.
  intros op inp.
  assert (Hne : run_operator WeightedRowWise op [] inp ≠ EnforceFailed)
    by (by intros Heq; vm_compute in Heq).
  assert (Hn : numel (INDICES inp) ≠ 0) by (by vm_compute).
  split; [exact Hne|]. split; [exact Hn|]. split; [reflexivity|].
  exact (no_segments_no_launch WeightedRowWise op [] inp 0 Hne Hn eq_refl
           ltac:(lia)).
Defined.

Lemma zero_width_divides_by_zero_witness :
  let op := example_op (F:=spec_float) fzero in
  let inp := zero_width_inputs (F:=spec_float) RowWise in
  run_operator RowWise op [] inp ≠ EnforceFailed
  ∧ numel (INDICES inp) ≠ 0
  ∧ sizes (LENGTHS inp) !! 0%nat = Some 1
  ∧ size_from_dim (GRAD inp) 1 = 0
  ∧ run_operator RowWise op [] inp = Undefined.
Proof.
  intros op inp.
  assert (Hne : run_operator RowWise op [] inp ≠ EnforceFailed)
    by (by intros Heq; vm_compute in Heq).
  assert (Hn : numel (INDICES inp) ≠ 0) by (by vm_compute).
  split; [exact Hne|]. split; [exact Hn|]. split; [reflexivity|].
  split; [reflexivity|].
  exact (zero_width_divides_by_zero RowWise op [] inp 1 eq_refl Hne Hn
           eq_refl ltac:(lia) eq_refl ltac:(by vm_compute)).
Defined.

Lemma launch_geometry_witness :
  let op := example_op (F:=spec_float) fzero in
  let inp := example_inputs (F:=spec_float) Exact [0; 2; 1] in
  let d := {| gridDim_x := 2; blockDim_x := 2; blockDim_y := 16 |} in
  ∃ run, run_operator Exact op [] inp = Ok run
         ∧ launches run = [d]
         ∧ blockDim_x d * blockDim_y d ≤ maxThreadsPerBlock op.
Proof.
  intros op inp d.
  destruct (run_operator Exact op [] inp) as [run| | |] eqn:Hrun;
    try (by vm_compute in Hrun).
  assert (Hd : d ∈ launches run).
  { vm_compute in Hrun. injection Hrun as <-. left. }
  exists run. split; [done|].
  destruct (launch_geometry Exact op [] inp run d Hrun Hd
              ltac:(by vm_compute) ltac:(by vm_compute) ltac:(by vm_compute))
    as (Hl & _ & _ & _ & _ & Hfit).
  split; [exact Hl | exact Hfit].
Defined.


(** ** Repeated indices within a segment *)

Lemma foldl_comm_front {S T : Type} (f : T → S → S) (t : T) (l : list T)
  (s : S) :
  (∀ u s, u ∈ l → f t (f u s) = f u (f t s)) →
  foldl (λ s u, f u s) (f t s) l = f t (foldl (λ s u, f u s) s l).
Proof.
  revert s. induction l as [|u l IH]; intros s Hc; simpl; [done|].
  rewrite <- (Hc u s) by left. apply IH. intros. apply Hc. by right.
Qed.

Lemma elem_of_concat {T : Type} (x : T) (ls : list (list T)) :
  x ∈ concat ls ↔ ∃ l, l ∈ ls ∧ x ∈ l.
Proof.
  induction ls as [|l ls IH]; simpl.
  - rewrite elem_of_nil. split; [done|]. by intros (l & Hl%elem_of_nil & _).
  - rewrite elem_of_app, IH. split.
    + intros [Hx|(l' & Hl' & Hx)]; [exists l; split; [left|done]|].
      exists l'. split; [by right | done].
    + intros (l' & [->|Hl']%elem_of_cons & Hx); [by left|].
      right. by exists l'.
Qed.

(** Threads whose tasks commute with the tasks of the other threads: every
    interleaving gives what the threads give one after the other. *)
Lemma interleave_sequential {S T : Type} (f : T → S → S) (oracle : list nat)
  (threads : list (list T)) (s : S) :
  (∀ i j thi thj ti tj s, i ≠ j →
     threads !! i = Some thi → threads !! j = Some thj →
     ti ∈ thi → tj ∈ thj → f ti (f tj s) = f tj (f ti s)) →
  foldl (λ s t, f t s) s (interleave oracle threads)
  = foldl (λ s t, f t s) s (concat threads).
Proof.
  revert threads s.
  induction oracle as [|n o IH]; intros threads s Hc; simpl; [done|].
  destruct (threads !! n) as [[|t rest]|] eqn:Hn; try by apply IH.
  simpl. rewrite IH.
  - rewrite <- (take_drop_middle threads n (t :: rest) Hn) at 2.
    rewrite (insert_take_drop threads n rest)
      by (by eapply lookup_lt_Some).
    rewrite !concat_app. simpl. rewrite !foldl_app. simpl.
    rewrite !foldl_app. do 2 f_equal. apply (foldl_comm_front f).
    intros u s' (l & Hl & Hu)%elem_of_concat.
    apply list_elem_of_lookup in Hl as [j Hj].
    apply lookup_take_Some in Hj as [Hj Hlt].
    apply (Hc n j (t :: rest) l); try done; [lia | left].
  - intros i j thi thj ti tj s' Hij Hi Hj Hti Htj.
    assert (Hsub : ∀ i' th' t', <[n := rest]> threads !! i' = Some th' →
              t' ∈ th' → ∃ th, threads !! i' = Some th ∧ t' ∈ th).
    { intros i' th' t' Hi' Ht'.
      destruct (decide (n = i')) as [<-|Hne].
      - rewrite list_lookup_insert_eq in Hi' by (by eapply lookup_lt_Some).
        simplify_eq. exists (t :: th'). split; [done | by right].
      - rewrite list_lookup_insert_ne in Hi' by done. by exists th'. }
    destruct (Hsub i thi ti Hi Hti) as (thi' & Hi' & Hti').
    destruct (Hsub j thj tj Hj Htj) as (thj' & Hj' & Htj').
    by apply (Hc i j thi' thj').
Qed.

Lemma loop_values_unit (fuel : nat) (from to : Z) :
  to - from ≤ Z.of_nat fuel →
  loop_values fuel from to 1 = seqZ from (to - from).
Proof.
  revert from. induction fuel as [|n IH]; intros from Hf; simpl.
  - unfold seqZ. by rewrite Z2Nat.nonpos by lia.
  - destruct (Z.ltb_spec from to).
    + rewrite IH by lia. rewrite (seqZ_cons from (to - from)) by lia.
      do 2 f_equal; lia.
    + unfold seqZ. by rewrite Z2Nat.nonpos by lia.
Qed.

(** The threads of the member kernels, one after the other, process the
    members in the order of the index array. *)
Lemma member_threads_in_order (lengths : list Z) :
  concat (member_threads (segments lengths)) = members lengths.
Proof.
  unfold member_threads, segments, members.
  rewrite concat_fmap_bind, list_fmap_bind.
  apply Forall_bind_ext, Forall_forall. intros g Hg%elem_of_seq.
  unfold compose. cbn [fst snd]. unfold member_thread, for_loop.
  rewrite loop_values_unit by lia.
  destruct (lookup_lt_is_Some_2 lengths g ltac:(lia)) as [x Hx].
  rewrite (total_take_S _ _ _ Hx), (list_lookup_total_correct _ _ _ Hx).
  replace (total (take g lengths) + x - total (take g lengths)) with x
    by lia.
  replace (seqZ (total (take g lengths)) x)
    with (Z.add (total (take g lengths)) <$> seqZ 0 x)
    by (rewrite fmap_add_seqZ; f_equal; lia).
  by rewrite <- list_fmap_compose.
Qed.

Section Sequential.
Context {F : Type} `{Arith F}.

Lemma segment_thread (lengths : list Z) (i : nat) (th : list (Z * Z * Z))
  (t : Z * Z * Z) :
  member_threads (segments lengths) !! i = Some th → t ∈ th →
  t ∈ members lengths ∧ t.1.1 = Z.of_nat i.
Proof.
  unfold member_threads, segments. rewrite !list_lookup_fmap.
  destruct (seq 0 (length lengths) !! i) as [g|] eqn:Hs; [|done].
  apply lookup_seq in Hs as [-> Hlt]. cbn. intros [= <-].
  intros (line & -> & Hline%for_loop_unit)%list_elem_of_fmap.
  split; [|done]. apply elem_of_members. exists i. split_and!; (done || lia).
Qed.

(** A kernel whose blocks walk the members of their segments one after
    the other, on a batch in which no row is indexed from two segments:
    every interleaving gives what the member updates give in the order of
    the index array. *)
Lemma member_kernel_sequential (v : variant) (rows : Z) (lengths : list Z)
  (k : KArgs F) (m : Mem F) (oracle : list nat)
  (step : Z * Z * Z → Mem F → result (Mem F))
  (task : Z * Z * Z → Mem F → Mem F) :
  batch_ok v rows lengths k m →
  (∀ t m', member_ok k t → batch_ok v rows lengths k m' →
     step t m' = Ok (task t m')) →
  (∀ t m, same_sizes m (task t m)) →
  (∀ t m, 0 ≤ indices k !!! Z.to_nat t.2 →
     task t m
     = copy_row v (post k) (indices k !!! Z.to_nat t.2) t.2 (task t m) m) →
  (∀ t m m' x, 0 ≤ indices k !!! Z.to_nat t.2 → same_sizes m m' →
     row_agree v (post k) (indices k !!! Z.to_nat t.2) m m' →
     copy_row v (post k) (indices k !!! Z.to_nat t.2) t.2 (task t m) x
     = copy_row v (post k) (indices k !!! Z.to_nat t.2) t.2 (task t m') x) →
  (∀ t1 t2, t1 ∈ members lengths → t2 ∈ members lengths →
     t1.1.1 ≠ t2.1.1 →
     indices k !!! Z.to_nat t1.2 ≠ indices k !!! Z.to_nat t2.2) →
  foldM step (interleave oracle (member_threads (segments lengths))) m
  = Ok (foldl (λ m t, task t m) m (members lengths))
  ∧ foldM step (members lengths) m
    = Ok (foldl (λ m t, task t m) m (members lengths)).
Proof.
  intros Hb Hstep Hsz Hcopy Hloc Hrows.
  pose proof (ok_lengths _ _ _ _ _ Hb) as Hl.
  pose proof (ok_total _ _ _ _ _ Hb) as Htot.
  pose proof (ok_post _ _ _ _ _ Hb) as Hpost.
  assert (Hrun : ∀ ts, (∀ t, t ∈ ts → t ∈ members lengths) →
            foldM step ts m = Ok (foldl (λ m t, task t m) m ts)).
  { intros ts Hts.
    apply (foldM_pure step task (λ m', same_sizes m m')).
    - intros t m' Ht Hm'. split.
      + apply Hstep.
        * eapply members_ok; [done|]. by apply Hts.
        * by eapply batch_ok_sizes.
      + eapply same_sizes_trans; [done|]. apply Hsz.
    - apply same_sizes_refl. }
  split; [|by apply Hrun].
  rewrite Hrun.
  - f_equal. rewrite (interleave_sequential task).
    + by rewrite member_threads_in_order.
    + intros i j thi thj [[g1 s1] l1] [[g2 s2] l2] s Hij Hi Hj Hti Htj.
      destruct (segment_thread lengths i thi _ Hi Hti) as [Hm1 Hg1].
      destruct (segment_thread lengths j thj _ Hj Htj) as [Hm2 Hg2].
      cbn [fst snd] in Hg1, Hg2.
      pose proof (members_bound _ _ _ _ Hl Hm1) as (? & ? & ?).
      pose proof (members_bound _ _ _ _ Hl Hm2) as (? & ? & ?).
      pose proof (batch_index _ _ _ _ _ l1 Hb ltac:(lia)).
      pose proof (batch_index _ _ _ _ _ l2 Hb ltac:(lia)).
      assert (Hg : g1 ≠ g2) by lia.
      pose proof (Hrows _ _ Hm1 Hm2 Hg) as Hr. cbn [fst snd] in Hr.
      assert (l1 ≠ l2).
      { intros ->. destruct (members_line_inj _ _ _ _ _ _ Hl Hm1 Hm2).
        done. }
      apply (local_updates_comm v (post k)
               (indices k !!! Z.to_nat l1) (indices k !!! Z.to_nat l2)
               l1 l2 (task (g1, s1, l1)) (task (g2, s2, l2)));
        try done; try lia.
      * intros m1. apply (Hcopy (g1, s1, l1)). cbn [snd]. lia.
      * intros m1. apply (Hcopy (g2, s2, l2)). cbn [snd]. lia.
      * intros m1 m2 x. apply (Hloc (g1, s1, l1)). cbn [snd]. lia.
      * intros m1 m2 x. apply (Hloc (g2, s2, l2)). cbn [snd]. lia.
  - intros t. rewrite interleave_perm, member_threads_members. done.
Qed.

(** The member kernels on a batch in which no row is indexed from two
    segments. *)
Lemma fused_kernel_members (v : variant) (d : Dim) (oracle : list nat)
  (rows : Z) (lengths : list Z) (k : KArgs F) (m : Mem F) :
  v ≠ Exact → batch_ok v rows lengths k m → launch_ok v false d k →
  (∀ t1 t2, t1 ∈ members lengths → t2 ∈ members lengths →
     t1.1.1 ≠ t2.1.1 →
     indices k !!! Z.to_nat t1.2 ≠ indices k !!! Z.to_nat t2.2) →
  fused_kernel v false d oracle k m
  = Ok (foldl (λ m t, member_task v d k t m) m (members lengths))
  ∧ foldM (member_update v d k) (members lengths) m
    = Ok (foldl (λ m t, member_task v d k t m) m (members lengths)).
Proof.
  intros Hv Hb Hl Hrows. pose proof (launch_dim _ _ _ _ Hl) as Hd.
  pose proof Hd as (Hg & Hbx & Hby & Hex & Hst).
  pose proof (ok_post _ _ _ _ _ Hb) as Hpost.
  destruct v; [done|..]; unfold fused_kernel, member_update, member_task.
  - unfold sparse_adagrad_fused_length_weighted_sum_gradient_kernel.
    rewrite (launch_blocks_segments WeightedExact rows lengths k m)
      by done.
    cbn [mbind result_bind].
    apply (member_kernel_sequential WeightedExact rows lengths k m oracle
             (weighted_sum_member d k) (weighted_sum_task d k)); try done.
    + intros t m' Ht Hm'. by apply (weighted_sum_member_task d rows lengths).
    + intros t m'. apply weighted_sum_task_sizes.
    + intros t m' Hr.
      exact (proj1 (member_task_copy WeightedExact false d oracle k t m' Hbx
                      ltac:(done) Hr ltac:(lia))).
    + intros t m1 m2 x Hr. apply weighted_sum_task_local; (done || lia).
  - unfold rowwise_sparse_adagrad_fused_length_sum_gradient_kernel.
    rewrite (launch_blocks_segments RowWise rows lengths k m) by done.
    cbn [mbind result_bind].
    apply (member_kernel_sequential RowWise rows lengths k m oracle
             (rowwise_strided_member d k) (rowwise_strided_task d k));
      try done.
    + intros t m' Ht Hm'.
      apply (rowwise_strided_member_task d rows lengths); try done.
      by apply (launch_strided d k).
    + intros t m'. exact (proj1 (rowwise_task_sizes d oracle k t m')).
    + intros t m' Hr.
      exact (proj1 (proj2 (member_task_copy RowWise false d oracle k t m' Hbx
                             ltac:(done) Hr ltac:(lia)))).
    + intros t m1 m2 x Hr. apply rowwise_strided_task_local; (done || lia).
  - unfold rowwise_sparse_adagrad_fused_length_weighted_sum_gradient_kernel.
    rewrite (launch_blocks_segments WeightedRowWise rows lengths k m)
      by done.
    cbn [mbind result_bind].
    apply (member_kernel_sequential WeightedRowWise rows lengths k m
             oracle (rowwise_weighted_member d k)
             (rowwise_weighted_task d k)); try done.
    + intros t m' Ht Hm'.
      by apply (rowwise_weighted_member_task d rows lengths).
    + intros t m'. exact (proj2 (proj2 (rowwise_task_sizes d oracle k t m'))).
    + intros t m' Hr.
      exact (proj2 (proj2 (proj2 (member_task_copy WeightedRowWise false d oracle
                                    k
                                    t m' Hbx ltac:(done) Hr ltac:(lia))))).
    + intros t m1 m2 x Hr. apply rowwise_weighted_task_local; (done || lia).
Qed.

(** X8. Repeated indices within a segment.  For a batch in which no row is
    indexed from two different segments, while a row may be indexed any
    number of times within one segment, the weighted kernels and the
    strided branch of the row-wise kernel return, in the launches of their
    operators and under every interleaving of their blocks, the tables that
    their member updates produce one after the other in the order of the
    index array.  This holds in every arithmetic; the tables have at most
    [INT_MAX] cells. *)
Theorem repeated_indices_within_a_segment (v : variant) (d : Dim)
  (oracle : list nat) (rows : Z) (lengths : list Z) (k : KArgs F)
  (m : Mem F) :
  v ≠ Exact → batch_ok v rows lengths k m → launch_ok v false d k →
  (∀ t1 t2, t1 ∈ members lengths → t2 ∈ members lengths →
     t1.1.1 ≠ t2.1.1 →
     indices k !!! Z.to_nat t1.2 ≠ indices k !!! Z.to_nat t2.2) →
  ∃ m', fused_kernel v false d oracle k m = Ok m'
        ∧ foldM (member_update v d k) (members lengths) m = Ok m'.
Proof.
  intros Hv Hb Hd Hrows.
  destruct (fused_kernel_members v d oracle rows lengths k m Hv Hb Hd Hrows)
    as [Hrun Hseq].
  eexists. split; [exact Hrun | exact Hseq].
Qed.

End Sequential.

Section SequentialReference.
Context {F : Type} `{ExactArith F}.

(** X9. For a batch in which no row is indexed from two different segments,
    the weighted kernels and the strided branch of the row-wise kernel
    produce, in the launches of their operators (for the row-wise kernel a
    block of at most [CAFFE_CUDA_NUM_THREADS] threads) and under every
    interleaving, the tables of the sequential reference that processes the
    members in the order of the index array, also when a row is indexed
    several times within a segment.  The arithmetic is read without
    rounding; the tables have at most [INT_MAX] cells. *)
Theorem repeated_indices_follow_the_reference (v : variant) (d : Dim)
  (oracle : list nat) (rows : Z) (lengths : list Z) (k : KArgs F)
  (m : Mem F) :
  v ≠ Exact → batch_ok v rows lengths k m → launch_ok v false d k →
  (∀ t1 t2, t1 ∈ members lengths → t2 ∈ members lengths →
     t1.1.1 ≠ t2.1.1 →
     indices k !!! Z.to_nat t1.2 ≠ indices k !!! Z.to_nat t2.2) →
  fused_kernel v false d oracle k m
  = Ok (reference v k (members lengths) m).
Proof.
  intros Hv Hb Hd Hrows.
  pose proof (launch_dim _ _ _ _ Hd) as (Hg & Hbx & Hby & Hex & Hst).
  destruct (fused_kernel_members v d oracle rows lengths k m Hv Hb Hd Hrows)
    as [-> _].
  f_equal.
  apply (member_tasks_reference v rows lengths k (member_task v d k));
    [|done..].
  intros t m' Ht Hm'. destruct (member_row _ _ _ _ _ _ Hm' Ht).
  destruct v; [done|..]; unfold member_task.
  - by apply weighted_sum_task_reference.
  - by apply rowwise_strided_task_reference.
  - by apply rowwise_weighted_task_reference.
Qed.

End SequentialReference.

Lemma repeated_indices_within_a_segment_witness :
  let k := launch_args (example_op (of_int 1))
             (example_inputs (F:=spec_float) WeightedExact [0; 2; 2]) in
  let m := launch_buffers WeightedExact
             (example_inputs WeightedExact [0; 2; 2]) in
  WeightedExact ≠ Exact
  ∧ batch_ok WeightedExact 3 [1; 2] k m
  ∧ launch_ok WeightedExact false example_block k
  ∧ ¬ NoDup (indices k)
  ∧ ∃ m', fused_kernel WeightedExact false example_block [1%nat; 0%nat] k m
          = Ok m'
          ∧ foldM (member_update WeightedExact example_block k)
              (members [1; 2]) m = Ok m'.
Proof.
  intros k m.
  assert (Hb : batch_ok WeightedExact 3 [1; 2] k m) by example_batch.
  assert (Hd : launch_ok WeightedExact false example_block k)
    by (split; [split_and!; example | intros [=]]).
  assert (Hrows : ∀ t1 t2, t1 ∈ members [1; 2] → t2 ∈ members [1; 2] →
            t1.1.1 ≠ t2.1.1 →
            indices k !!! Z.to_nat t1.2 ≠ indices k !!! Z.to_nat t2.2).
  { change (members [1; 2]) with [(0, 0, 0); (1, 1, 1); (1, 1, 2)].
    intros t1 t2 Ht1 Ht2.
    rewrite !elem_of_cons, elem_of_nil in Ht1, Ht2.
    destruct Ht1 as [->|[->|[->|[]]]], Ht2 as [->|[->|[->|[]]]];
      cbn; intros Hg; (done || lia). }
  split; [done|]. split; [exact Hb|]. split; [exact Hd|].
  split; [by intros Hn; vm_compute in Hn; inversion Hn as [|? ? ? Hn'];
             inversion Hn' as [|? ? Hin]; apply Hin; left|].
  exact (repeated_indices_within_a_segment WeightedExact example_block
           [1%nat; 0%nat] 3 [1; 2] k m ltac:(done) Hb Hd Hrows).
Defined.

Lemma repeated_indices_follow_the_reference_witness :
  let k := launch_args (example_op 1%R)
             (example_inputs WeightedRowWise [0; 2; 2]) in
  let m := launch_buffers WeightedRowWise
             (example_inputs WeightedRowWise [0; 2; 2]) in
  WeightedRowWise ≠ Exact
  ∧ batch_ok WeightedRowWise 3 [1; 2] k m
  ∧ launch_ok WeightedRowWise false example_block k
  ∧ fused_kernel WeightedRowWise false example_block [1%nat; 0%nat] k m
    = Ok (reference WeightedRowWise k (members [1; 2]) m).
Proof.
  intros k m.
  assert (Hb : batch_ok WeightedRowWise 3 [1; 2] k m) by example_batch.
  assert (Hd : launch_ok WeightedRowWise false example_block k)
    by (split; [split_and!; example | intros [=]]).
  assert (Hrows : ∀ t1 t2, t1 ∈ members [1; 2] → t2 ∈ members [1; 2] →
            t1.1.1 ≠ t2.1.1 →
            indices k !!! Z.to_nat t1.2 ≠ indices k !!! Z.to_nat t2.2).
  { change (members [1; 2]) with [(0, 0, 0); (1, 1, 1); (1, 1, 2)].
    intros t1 t2 Ht1 Ht2.
    rewrite !elem_of_cons, elem_of_nil in Ht1, Ht2.
    destruct Ht1 as [->|[->|[->|[]]]], Ht2 as [->|[->|[->|[]]]];
      cbn; intros Hg; (done || lia). }
  split; [done|]. split; [exact Hb|]. split; [exact Hd|].
  exact (repeated_indices_follow_the_reference WeightedRowWise example_block
           [1%nat; 0%nat] 3 [1; 2] k m ltac:(done) Hb Hd Hrows).
Defined.


(** ** Invariants of the tables *)

Section Invariants.
Context {F : Type} `{Arith F}.

Lemma foldl_invariant {T : Type} (task : T → Mem F → Mem F)
  (P Q : Mem F → Prop) (ts : list T) (m : Mem F) :
  (∀ t m', t ∈ ts → Q m' → P m' → P (task t m') ∧ Q (task t m')) →
  Q m → P m → P (foldl (λ m t, task t m) m ts).
Proof.
  revert m. induction ts as [|t ts IH]; intros m Hstep HQ HP; simpl; [done|].
  destruct (Hstep t m) as [HP' HQ']; [left|done|done|].
  apply IH; [|done..]. intros. apply Hstep; [by right|done..].
Qed.

(** A property of the tables that every update of a launch keeps holds
    when the kernel returns, under every interleaving. *)
Lemma fused_kernel_invariant (P : Mem F → Prop) (v : variant)
  (ExactBlock : bool) (d : Dim) (oracle : list nat) (rows : Z)
  (lengths : list Z) (k : KArgs F) (m : Mem F) :
  batch_ok v rows lengths k m → launch_ok v ExactBlock d k → P m →
  (v = Exact → ∀ t m', task_ok k t → batch_ok v rows lengths k m' →
     P m' → P (adagrad_task k t m')) →
  (v = WeightedExact → ∀ t m', member_ok k t →
     batch_ok v rows lengths k m' → P m' → P (weighted_sum_task d k t m')) →
  (v = RowWise → ExactBlock = true → ∀ t m', member_ok k t →
     batch_ok v rows lengths k m' → P m' →
     P (rowwise_exact_task d oracle k t m')) →
  (v = RowWise → ExactBlock = false → ∀ t m', member_ok k t →
     batch_ok v rows lengths k m' → P m' →
     P (rowwise_strided_task d k t m')) →
  (v = WeightedRowWise → ∀ t m', member_ok k t →
     batch_ok v rows lengths k m' → P m' →
     P (rowwise_weighted_task d k t m')) →
  ∃ m', fused_kernel v ExactBlock d oracle k m = Ok m' ∧ P m'.
Proof.
  intros Hb Hl HP He Hw Hre Hrs Hrw.
  pose proof (launch_dim _ _ _ _ Hl) as Hd.
  pose proof Hd as (Hg & Hbx & Hby & Hex & Hst).
  assert (Hmem : ∀ (step : Z * Z * Z → Mem F → result (Mem F))
                   (task : Z * Z * Z → Mem F → Mem F)
                   (threads : list (list (Z * Z * Z))),
    concat threads ≡ₚ members lengths →
    (∀ t m', member_ok k t → batch_ok v rows lengths k m' →
       step t m' = Ok (task t m') ∧ same_sizes m' (task t m')) →
    (∀ t m', member_ok k t → batch_ok v rows lengths k m' → P m' →
       P (task t m')) →
    ∃ m', foldM step (interleave oracle threads) m = Ok m' ∧ P m').
  { intros step task threads Hth Hstep Htask.
    destruct (member_kernel v rows lengths k m d oracle step task threads)
      as (ts & Hts & Hrun & _); try done.
    eexists. split; [exact Hrun|].
    apply (foldl_invariant task P (batch_ok v rows lengths k)); try done.
    intros t m' Ht Hm' HPm'. rewrite Hts in Ht.
    pose proof (members_ok v rows lengths k m' t Hm' Ht) as Hok.
    split; [by apply Htask|].
    eapply batch_ok_sizes; [done|]. by apply Hstep. }
  destruct v; unfold fused_kernel.
  - destruct (exact_kernel_tasks ExactBlock d oracle rows lengths k m Hb Hd)
      as (ts & Hts & Hrun & _).
    eexists. split; [exact Hrun|].
    apply (foldl_invariant (adagrad_task k) P (batch_ok Exact rows lengths k));
      try done.
    intros t m' Ht Hm' HPm'.
    assert (Hok : task_ok k t).
    { pose proof (element_tasks_ok Exact rows lengths k m (members lengths)
                    Hb ltac:(done)) as Hall.
      rewrite Forall_forall in Hall. apply Hall. by rewrite <- Hts. }
    split; [by apply He|].
    eapply batch_ok_sizes; [done|]. apply adagrad_task_sizes.
  - unfold sparse_adagrad_fused_length_weighted_sum_gradient_kernel.
    rewrite (launch_blocks_segments WeightedExact rows lengths k m)
      by done.
    cbn [mbind result_bind].
    apply (Hmem _ (weighted_sum_task d k)).
    + apply member_threads_members.
    + intros t m' Ht Hm'. split.
      * by apply (weighted_sum_member_task d rows lengths).
      * apply weighted_sum_task_sizes.
    + by apply Hw.
  - unfold rowwise_sparse_adagrad_fused_length_sum_gradient_kernel.
    rewrite (launch_blocks_segments RowWise rows lengths k m) by done.
    cbn [mbind result_bind]. destruct ExactBlock.
    + apply (Hmem _ (rowwise_exact_task d oracle k)).
      * by apply rowwise_exact_threads_members.
      * intros t m' Ht Hm'. split.
        -- apply (rowwise_exact_member_task d oracle rows lengths); auto.
        -- exact (proj1 (proj2 (rowwise_task_sizes d oracle k t m'))).
      * by apply Hre.
    + apply (Hmem _ (rowwise_strided_task d k)).
      * apply member_threads_members.
      * intros t m' Ht Hm'. split.
        -- apply (rowwise_strided_member_task d rows lengths); try done.
           by apply (launch_strided d k).
        -- exact (proj1 (rowwise_task_sizes d oracle k t m')).
      * by apply Hrs.
  - unfold rowwise_sparse_adagrad_fused_length_weighted_sum_gradient_kernel.
    rewrite (launch_blocks_segments WeightedRowWise rows lengths k m)
      by done.
    cbn [mbind result_bind].
    apply (Hmem _ (rowwise_weighted_task d k)).
    + apply member_threads_members.
    + intros t m' Ht Hm'. split.
      * by apply (rowwise_weighted_member_task d rows lengths).
      * exact (proj2 (proj2 (rowwise_task_sizes d oracle k t m'))).
    + by apply Hrw.
Qed.

End Invariants.

(** ** The accumulators over the real numbers *)

Local Open Scope R_scope.

(** Closes an inequality that holds because squares are not negative. *)
Ltac squares :=
  repeat match goal with
  | |- context [?e * ?e] =>
      lazymatch goal with
      | _ : 0 <= e * e |- _ => fail
      | _ => pose proof (Rle_0_sqr e : 0 <= e * e)
      end
  end; lra.

Lemma insert_monotone (l : list R) (i c : nat) (x : R) :
  l !!! i <= x → l !!! c <= <[i := x]> l !!! c.
Proof.
  intros Hx. destruct (decide (i = c)) as [->|Hne].
  - destruct (decide (c < length l)%nat).
    + by rewrite list_lookup_total_insert_eq.
    + rewrite list_insert_ge by lia. apply Rle_refl.
  - rewrite list_lookup_total_insert_ne by done. apply Rle_refl.
Qed.

Lemma store_cells_monotone (D row : Z) (f : Z → R) (es : list Z)
  (l : list R) (c : nat) :
  (0 <= row)%Z → (0 <= D)%Z → Forall (λ e, (0 <= e)%Z) es →
  (∀ e, e ∈ es → l !!! cell D row e <= f e) →
  l !!! c <= store_cells D row f es l !!! c.
Proof.
  intros Hrow HD Hes Hf.
  destruct (decide (c ∈ cell D row <$> es)) as [Hin|Hout].
  - apply list_elem_of_fmap in Hin as (e & -> & He).
    specialize (Hf e He).
    rewrite (list_lookup_total_alt (store_cells _ _ _ _ _)).
    rewrite store_cells_in by done.
    rewrite list_lookup_total_alt in Hf |- *.
    destruct (l !! cell D row e); simpl in *; [done | apply Rle_refl].
  - rewrite store_cells_out_total by done. apply Rle_refl.
Qed.

Lemma fsum_nonneg (l : list R) : Forall (λ x, 0 <= x) l → 0 <= fsum l.
Proof.
  induction 1 as [|x l Hx _ IH]; simpl; [apply Rle_refl|].
  simpl in IH. lra.
Qed.

Lemma foldl_squares_nonneg {A : Type} (h : A → R) (l : list A) (a : R) :
  0 <= a → 0 <= foldl (λ s i, fadd s (fmul (h i) (h i))) a l.
Proof.
  revert a. induction l as [|i l IH]; intros a Ha; simpl; [done|].
  apply IH. cbn [fadd fmul real_arith]. squares.
Qed.

Lemma lane_sums_nonneg (d : Dim) (k : KArgs R) (m : Mem R) (g row : Z)
  (n : nat) :
  0 <= fsum (take n (lane_sum_squares d k m g row <$> seqZ 0 (blockDim_x d))).
Proof.
  apply fsum_nonneg, Forall_take, Forall_fmap, Forall_forall.
  intros tid _. unfold compose, lane_sum_squares. cbn [fzero real_arith].
  apply foldl_squares_nonneg. apply Rle_refl.
Qed.

Lemma warps_nonneg (fuel : nat) (l : list R) :
  Forall (λ x, 0 <= x) l → Forall (Forall (λ x, 0 <= x)) (warps fuel l).
Proof.
  revert l. induction fuel as [|n IH]; intros l Hl; simpl; [done|].
  destruct l as [|x l']; [done|].
  apply Forall_cons. split; [by apply Forall_take|].
  apply IH. by apply Forall_drop.
Qed.

Lemma warp_adds_monotone (ws : list (list R)) (p old : R) :
  Forall (Forall (λ x, 0 <= x)) ws → 0 < p →
  old <= foldl (λ a warp, fadd a (fdiv (fsum warp) p)) old ws.
Proof.
  intros Hws Hp. revert old.
  induction Hws as [|w ws Hw _ IH]; intros old; simpl; [apply Rle_refl|].
  eapply Rle_trans; [|apply IH].
  pose proof (fsum_nonneg w Hw) as Hs. simpl in Hs.
  pose proof (Rle_mult_inv_pos _ _ Hs Hp). unfold Rdiv. lra.
Qed.


Local Close Scope R_scope.



(** ** Batches without a gradient *)

Section ZeroGradient.
Context {F : Type} `{ExactArith F}.

Lemma insert_total_self (l : list F) (i : nat) : <[i := l !!! i]> l = l.
Proof.
  destruct (decide (i < length l)%nat) as [Hlt|Hge].
  - apply list_insert_id. by apply list_lookup_lookup_total_lt.
  - apply list_insert_ge. lia.
Qed.

Lemma store_cells_id (D row : Z) (f : Z → F) (es : list Z) (l : list F) :
  (∀ e, e ∈ es → f e = l !!! cell D row e) → store_cells D row f es l = l.
Proof.
  unfold store_cells. induction es as [|e es IH]; intros Hf; simpl; [done|].
  rewrite (Hf e) by left. rewrite insert_total_self.
  apply IH. intros. apply Hf. by right.
Qed.

Lemma zeros_lookup (l : list F) (n : nat) :
  Forall (λ x, x = fzero) l → l !!! n = fzero.
Proof.
  intros Hl. rewrite list_lookup_total_alt.
  destruct (l !! n) as [x|] eqn:Hn; [|done].
  by apply (Forall_lookup_1 _ _ _ _ Hl Hn).
Qed.

Lemma zero_energy (k : KArgs F) (m : Mem F) (g row : Z) :
  of_int (post k) ≠ fzero →
  (∀ e, effective_grad k m g row e = fzero) → row_energy k m g row = fzero.
Proof.
  intros Hpost He. unfold row_energy.
  rewrite row_sum_zeros; [by apply fdiv_0_l|].
  apply Forall_fmap, Forall_forall. intros e _. simpl.
  by rewrite He, fmul_0_l.
Qed.

(** A member whose gradient row is zero, without weight decay, leaves the
    tables as they are, provided that no division is a division by zero. *)
Lemma reference_member_zero_gradient (v : variant) (k : KArgs F)
  (t : Z * Z * Z) (m : Mem F) :
  (∀ a, fadd (fsqrt a) (epsilon k) ≠ fzero) → of_int (post k) ≠ fzero →
  Forall (λ x, x = fzero) (grad k) → weight_decay k = fzero →
  param (reference_member v k t m) = param m
  ∧ param_mom (reference_member v k t m) = param_mom m.
Proof.
  destruct t as [[g s] l]. intros Heps Hpost Hg Hwd.
  assert (He : ∀ row e, effective_grad k m g row e = fzero).
  { intros row e. unfold effective_grad, segment_grad.
    by rewrite zeros_lookup, Hwd, fmul_0_l, fadd_0_l. }
  assert (Ho : ∀ w row e, out_grad k m w g row e = fzero).
  { intros w row e. unfold out_grad, segment_grad.
    by rewrite zeros_lookup, Hwd, (fmul_comm w), !fmul_0_l, fadd_0_l. }
  assert (Hen : ∀ row, row_energy k m g row = fzero).
  { intros row. by apply zero_energy. }
  destruct v; cbn [reference_member param param_mom];
    rewrite ?map_row_store, ?Hen, ?(fmul_comm _ fzero), ?fmul_0_l, ?fadd_0_r,
      ?insert_total_self;
    (split; [|try done]); apply store_cells_id; intros e _;
    rewrite ?He, ?Ho, ?(fmul_comm _ fzero), ?fmul_0_l, ?fadd_0_r;
    rewrite ?fdiv_0_l by apply Heps; rewrite ?fadd_0_r; done.
Qed.


End ZeroGradient.



(** ** Weights that are all one *)

Section UnitWeights.

(** The member update of a weighted kernel for a member of weight one is
    that of the unweighted kernel. *)
Lemma reference_member_unit_weight (rw : bool) (k : KArgs R)
  (t : Z * Z * Z) (m mw : Mem R) :
  weights k !!! Z.to_nat (t.2 - t.1.2) = 1%R →
  param mw = param m → param_mom mw = param_mom m →
  param (reference_member (if rw then WeightedRowWise else WeightedExact)
           k t mw)
  = param (reference_member (if rw then RowWise else Exact) k t m)
  ∧ param_mom (reference_member
                 (if rw then WeightedRowWise else WeightedExact) k t mw)
    = param_mom (reference_member (if rw then RowWise else Exact) k t m).
Proof.
  destruct t as [[g s] l]. cbn [fst snd]. intros Hw Hp Hm.
  assert (Ho : ∀ row e,
            out_grad k mw 1%R g row e = effective_grad k m g row e).
  { intros row e. unfold out_grad, effective_grad. rewrite Hp. simpl.
    by rewrite Rmult_1_l. }
  assert (He : ∀ row, row_energy k mw g row = row_energy k m g row).
  { intros row. unfold row_energy, effective_grad. by rewrite Hp. }
  destruct rw; cbn [reference_member param param_mom];
    rewrite Hw, ?map_row_store, Hp, Hm, ?He;
    cbn [fadd fmul real_arith]; rewrite ?Rmult_1_l;
    (split; [|try done]); apply store_cells_ext; intros e _;
    by rewrite ?Ho.
Qed.

Lemma reference_unit_weights (rw : bool) (k : KArgs R)
  (order : list (Z * Z * Z)) (m mw : Mem R) :
  Forall (λ t, weights k !!! Z.to_nat (t.2 - t.1.2) = 1%R) order →
  param mw = param m → param_mom mw = param_mom m →
  param (reference (if rw then WeightedRowWise else WeightedExact) k order mw)
  = param (reference (if rw then RowWise else Exact) k order m)
  ∧ param_mom (reference (if rw then WeightedRowWise else WeightedExact)
                 k order mw)
    = param_mom (reference (if rw then RowWise else Exact) k order m).
Proof.
  intros Hall. revert m mw. unfold reference.
  induction Hall as [|t order Ht _ IH]; intros m mw Hp Hm; simpl; [done|].
  destruct (reference_member_unit_weight rw k t m mw Ht Hp Hm) as [Hp' Hm'].
  by apply IH.
Qed.


End UnitWeights.



(** ** The weight-gradient output *)

Section WeightGradientOutput.
Context {F : Type} `{Arith F}.

(** A sequence of member updates within the batch succeeds. *)
Lemma member_steps (v : variant) (rows : Z) (lengths : list Z)
  (k : KArgs F) (m : Mem F)
  (step : Z * Z * Z → Mem F → result (Mem F))
  (task : Z * Z * Z → Mem F → Mem F) (ts : list (Z * Z * Z)) :
  batch_ok v rows lengths k m →
  (∀ t m', member_ok k t → batch_ok v rows lengths k m' →
     step t m' = Ok (task t m') ∧ same_sizes m' (task t m')) →
  (∀ t, t ∈ ts → t ∈ members lengths) →
  foldM step ts m = Ok (foldl (λ m t, task t m) m ts)
  ∧ same_sizes m (foldl (λ m t, task t m) m ts).
Proof.
  intros Hb Hstep Hts.
  apply (foldM_pure step task (λ m', same_sizes m m')).
  - intros t m' Ht Hm'.
    destruct (Hstep t m') as [-> Hs].
    + eapply members_ok; [done|]. by apply Hts.
    + by eapply batch_ok_sizes.
    + split; [done | by eapply same_sizes_trans].
  - apply same_sizes_refl.
Qed.

(** The tables [m] with another weight-gradient buffer. *)
Lemma weighted_tasks_buffer (d : Dim) (k : KArgs F) (t : Z * Z * Z)
  (m1 m2 : Mem F) :
  param m1 = param m2 → param_mom m1 = param_mom m2 →
  (param (weighted_sum_task d k t m1) = param (weighted_sum_task d k t m2)
   ∧ param_mom (weighted_sum_task d k t m1)
     = param_mom (weighted_sum_task d k t m2)
   ∧ ∃ w, weights_grad_out (weighted_sum_task d k t m1)
          = <[Z.to_nat t.2 := w]> (weights_grad_out m1)
          ∧ weights_grad_out (weighted_sum_task d k t m2)
            = <[Z.to_nat t.2 := w]> (weights_grad_out m2))
  ∧ (param (rowwise_weighted_task d k t m1)
     = param (rowwise_weighted_task d k t m2)
     ∧ param_mom (rowwise_weighted_task d k t m1)
       = param_mom (rowwise_weighted_task d k t m2)
     ∧ ∃ w, weights_grad_out (rowwise_weighted_task d k t m1)
            = <[Z.to_nat t.2 := w]> (weights_grad_out m1)
            ∧ weights_grad_out (rowwise_weighted_task d k t m2)
              = <[Z.to_nat t.2 := w]> (weights_grad_out m2)).
Proof.
  destruct t as [[g s] l], m1 as [p1 q1 w1], m2 as [p2 q2 w2].
  cbn [param param_mom fst snd]. intros -> ->.
  split; (split; [done|]); (split; [done|]); eexists; split; reflexivity.
Qed.

(** Buffers that hold the same values wherever a member has been
    processed. *)
Lemma weighted_tasks_lockstep (task : Z * Z * Z → Mem F → Mem F)
  (ts : list (Z * Z * Z)) (m1 m2 : Mem F) (seen : list nat) :
  (∀ t m1 m2, param m1 = param m2 → param_mom m1 = param_mom m2 →
     param (task t m1) = param (task t m2)
     ∧ param_mom (task t m1) = param_mom (task t m2)
     ∧ ∃ w, weights_grad_out (task t m1)
            = <[Z.to_nat t.2 := w]> (weights_grad_out m1)
            ∧ weights_grad_out (task t m2)
              = <[Z.to_nat t.2 := w]> (weights_grad_out m2)) →
  param m1 = param m2 → param_mom m1 = param_mom m2 →
  length (weights_grad_out m1) = length (weights_grad_out m2) →
  (∀ i, i ∈ seen → weights_grad_out m1 !! i = weights_grad_out m2 !! i) →
  let r1 := foldl (λ m t, task t m) m1 ts in
  let r2 := foldl (λ m t, task t m) m2 ts in
  param r1 = param r2 ∧ param_mom r1 = param_mom r2
  ∧ length (weights_grad_out r1) = length (weights_grad_out r2)
  ∧ ∀ i, i ∈ seen ∨ i ∈ (λ t : Z * Z * Z, Z.to_nat t.2) <$> ts →
         weights_grad_out r1 !! i = weights_grad_out r2 !! i.
Proof.
  intros Htask. revert m1 m2 seen.
  induction ts as [|t ts IH]; intros m1 m2 seen Hp Hq Hlen Hseen; simpl.
  - split_and!; try done. intros i [Hi|Hi%elem_of_nil]; [by apply Hseen|done].
  - destruct (Htask t m1 m2 Hp Hq) as (Hp' & Hq' & w & Hw1 & Hw2).
    destruct (IH (task t m1) (task t m2) (Z.to_nat t.2 :: seen))
      as (Hrp & Hrq & Hrl & Hrw); try done.
    + by rewrite Hw1, Hw2, !length_insert.
    + intros i Hi. rewrite Hw1, Hw2.
      destruct (decide (i = Z.to_nat t.2)) as [->|Hne].
      * destruct (decide (Z.to_nat t.2 < length (weights_grad_out m1))%nat).
        -- by rewrite !list_lookup_insert_eq by lia.
        -- by rewrite !list_insert_ge, !lookup_ge_None_2 by lia.
      * rewrite !list_lookup_insert_ne by done.
        apply Hseen. apply elem_of_cons in Hi as [?|?]; done.
    + split_and!; try done. intros i Hi. apply Hrw.
      rewrite elem_of_cons in Hi |- *. tauto.
Qed.

(** X13. The weighted kernels overwrite the whole weight-gradient output:
    on a batch of the shapes of the design document, with tables of at
    most [INT_MAX] cells, the tables and the weight gradients they return
    do not depend on what the output buffer held before the launch, so that
    no entry of [AUX_GRAD] is left as it was allocated.  This holds in
    every arithmetic, under every interleaving and also when the batch
    indexes a row several times. *)
Theorem weight_gradient_output_is_overwritten (v : variant) (d : Dim)
  (oracle : list nat) (rows : Z) (lengths : list Z) (k : KArgs F)
  (m : Mem F) (buffer : list F) :
  weighted v = true → batch_ok v rows lengths k m → dim_ok false d k →
  length buffer = length (weights_grad_out m) →
  ∃ m', fused_kernel v false d oracle k m = Ok m'
        ∧ fused_kernel v false d oracle k
            {| param := param m; param_mom := param_mom m;
               weights_grad_out := buffer |} = Ok m'.
Proof.
  intros Hv Hb Hd Hlen. pose proof Hd as (Hg & Hbx & Hby & Hex & Hst).
  set (m2 := {| param := param m; param_mom := param_mom m;
                weights_grad_out := buffer |}).
  assert (Hb2 : batch_ok v rows lengths k m2).
  { eapply batch_ok_sizes; [done|]. by split_and!. }
  set (ts := interleave oracle (member_threads (segments lengths))).
  assert (Hts : ts ≡ₚ members lengths).
  { unfold ts. by rewrite interleave_perm, member_threads_members. }
  assert (Hrun : ∀ step task,
    (∀ t m', member_ok k t → batch_ok v rows lengths k m' →
       step t m' = Ok (task t m') ∧ same_sizes m' (task t m')) →
    (∀ t m1 m2, param m1 = param m2 → param_mom m1 = param_mom m2 →
       param (task t m1) = param (task t m2)
       ∧ param_mom (task t m1) = param_mom (task t m2)
       ∧ ∃ w, weights_grad_out (task t m1)
              = <[Z.to_nat t.2 := w]> (weights_grad_out m1)
              ∧ weights_grad_out (task t m2)
                = <[Z.to_nat t.2 := w]> (weights_grad_out m2)) →
    ∃ m', foldM step ts m = Ok m' ∧ foldM step ts m2 = Ok m').
  { intros step task Hstep Htask.
    destruct (member_steps v rows lengths k m step task ts Hb Hstep)
      as [-> Hs1]; [intros t; by rewrite Hts|].
    destruct (member_steps v rows lengths k m2 step task ts Hb2 Hstep)
      as [-> Hs2]; [intros t; by rewrite Hts|].
    eexists. split; [done|]. f_equal.
    destruct (weighted_tasks_lockstep task ts m m2 [] Htask)
      as (Hp & Hq & Hl & Hw); try done.
    { intros i Hi. by apply elem_of_nil in Hi. }
    cbv zeta in Hp, Hq, Hl, Hw.
    destruct Hs1 as (_ & _ & Hl1).
    destruct (foldl (λ m t, task t m) m ts) as [p1 q1 w1].
    destruct (foldl (λ m t, task t m) m2 ts) as [p2 q2 w2].
    cbn [param param_mom weights_grad_out] in *. subst p2 q2. f_equal.
    symmetry. apply list_eq. intros i.
    destruct (decide (i < length w1)%nat) as [Hlt|Hge].
    - apply Hw. right.
      pose proof (ok_wgo _ _ _ _ _ Hb Hv) as Hwgo.
      pose proof (ok_total _ _ _ _ _ Hb) as Htot.
      destruct (members_cover lengths (Z.of_nat i)
                  (ok_lengths _ _ _ _ _ Hb) ltac:(lia)) as (g & s & Hin).
      apply list_elem_of_fmap. exists (g, s, Z.of_nat i).
      split; [cbn [snd]; lia | by rewrite Hts].
    - by rewrite !lookup_ge_None_2 by lia. }
  destruct v; try discriminate Hv; unfold fused_kernel.
  - unfold sparse_adagrad_fused_length_weighted_sum_gradient_kernel.
    rewrite !(launch_blocks_segments WeightedExact rows lengths k _ d)
      by done.
    cbn [mbind result_bind].
    apply (Hrun _ (weighted_sum_task d k)).
    + intros t m' Ht Hm'. split.
      * by apply (weighted_sum_member_task d rows lengths).
      * apply weighted_sum_task_sizes.
    + intros t m1 m2' Hp Hq.
      exact (proj1 (weighted_tasks_buffer d k t m1 m2' Hp Hq)).
  - unfold rowwise_sparse_adagrad_fused_length_weighted_sum_gradient_kernel.
    rewrite !(launch_blocks_segments WeightedRowWise rows lengths k _ d)
      by done.
    cbn [mbind result_bind].
    apply (Hrun _ (rowwise_weighted_task d k)).
    + intros t m' Ht Hm'. split.
      * by apply (rowwise_weighted_member_task d rows lengths).
      * exact (proj2 (proj2 (rowwise_task_sizes d oracle k t m'))).
    + intros t m1 m2' Hp Hq.
      exact (proj2 (weighted_tasks_buffer d k t m1 m2' Hp Hq)).
Qed.

End WeightGradientOutput.

Lemma weight_gradient_output_is_overwritten_witness :
  let k := launch_args (example_op (of_int 1))
             (example_inputs (F:=spec_float) WeightedExact [0; 2; 0]) in
  let m := launch_buffers WeightedExact
             (example_inputs WeightedExact [0; 2; 0]) in
  let buffer := of_int <$> [7; 8; 9] in
  weighted WeightedExact = true
  ∧ batch_ok WeightedExact 3 [1; 2] k m ∧ dim_ok false example_block k
  ∧ length buffer = length (weights_grad_out m)
  ∧ ∃ m', fused_kernel WeightedExact false example_block [1%nat] k m = Ok m'
          ∧ fused_kernel WeightedExact false example_block [1%nat] k
              {| param := param m; param_mom := param_mom m;
                 weights_grad_out := buffer |} = Ok m'.
Proof.
  intros k m buffer.
  assert (Hb : batch_ok WeightedExact 3 [1; 2] k m) by example_batch.
  assert (Hd : dim_ok false example_block k) by (split_and!; example).
  split; [reflexivity|]. split; [exact Hb|]. split; [exact Hd|].
  split; [reflexivity|].
  exact (weight_gradient_output_is_overwritten WeightedExact example_block
           [1%nat] 3 [1; 2] k m buffer eq_refl Hb Hd eq_refl).
Defined.


(** ** A learning rate of zero *)

Section ZeroLearningRate.
Context {F : Type} `{ExactArith F}.

Lemma reference_member_zero_rate (v : variant) (k : KArgs F)
  (t : Z * Z * Z) (m : Mem F) :
  (∀ a, fadd (fsqrt a) (epsilon k) ≠ fzero) →
  learning_rate k = fzero → param (reference_member v k t m) = param m.
Proof.
  destruct t as [[g s] l]. intros Heps Hlr.
  destruct v; cbn [reference_member param]; rewrite map_row_store, Hlr;
    apply store_cells_id; intros e _;
    rewrite ?fmul_0_l; rewrite ?fdiv_0_l by apply Heps;
    by rewrite ?(fmul_comm _ fzero), ?fmul_0_l, ?fadd_0_r.
Qed.


End ZeroLearningRate.


(** ** The work of the threads *)

Section Work.
Context {F : Type} `{Arith F}.

(** X15. Every launch geometry partitions the work: under every
    interleaving the threads of the element-wise kernel together execute
    the loop body once for every member of the batch and every element of
    its row, in either branch, and the blocks of the other kernels, and the
    rows of threads of the [ExactBlock] branch of the row-wise kernel,
    update every member once; nothing is executed twice or left out. *)
Theorem threads_partition_the_work (ExactBlock : bool) (d : Dim)
  (oracle : list nat) (k : KArgs F) (lengths : list Z) :
  dim_ok ExactBlock d k → Forall (λ x, 0 ≤ x) lengths →
  (interleave oracle (sum_threads ExactBlock d k (segments lengths))
   ≡ₚ element_tasks (post k) (members lengths)
   ∧ NoDup (element_tasks (post k) (members lengths)))
  ∧ (interleave oracle (member_threads (segments lengths))
     ≡ₚ members lengths
     ∧ interleave oracle (rowwise_exact_threads d (segments lengths))
       ≡ₚ members lengths
     ∧ NoDup (members lengths)).
Proof.
  intros Hd Hl. pose proof Hd as (_ & _ & Hby & _).
  split_and!.
  - rewrite interleave_perm. by apply sum_threads_tasks.
  - by apply NoDup_element_tasks.
  - rewrite interleave_perm. apply member_threads_members.
  - rewrite interleave_perm. by apply rowwise_exact_threads_members.
  - apply NoDup_members.
Qed.

End Work.

Lemma threads_partition_the_work_witness :
  let k := launch_args (example_op (of_int 1))
             (example_inputs (F:=spec_float) Exact [0; 2; 0]) in
  dim_ok true example_block k ∧ Forall (λ x, 0 ≤ x) [1; 2]
  ∧ interleave [1%nat; 0%nat]
      (sum_threads true example_block k (segments [1; 2]))
    ≡ₚ element_tasks (post k) (members [1; 2])
  ∧ NoDup (element_tasks (post k) (members [1; 2])).
Proof.
  intros k.
  assert (Hd : dim_ok true example_block k) by (split_and!; example).
  assert (Hl : Forall (λ x, 0 ≤ x) [1; 2]) by (repeat constructor; lia).
  split; [exact Hd|]. split; [exact Hl|].
  exact (proj1 (threads_partition_the_work true example_block
                  [1%nat; 0%nat] k [1; 2] Hd Hl)).
Defined.


(** ** Calls under different interleavings *)

Section Reproducible.
Context {F : Type} `{Arith F}.

(** A call with a batch that is not empty is one launch of the kernel, with
    the same block under every interleaving; the row-wise operator takes
    its fast path for a width that is a multiple of 32 and at most half of
    the block. *)
Lemma run_operator_launch (v : variant) (rows D : Z) (op : Op F)
  (inp : Inputs F) :
  inputs_ok v rows D op inp → data (INDICES inp) ≠ [] →
  ∃ ExactBlock d,
    launch_ok v ExactBlock d (launch_args op inp)
    ∧ (v = RowWise → ExactBlock = true →
       D ≤ maxThreadsPerBlock op / 2 ∧ D mod 32 = 0)
    ∧ ∀ oracle,
        run_operator v op oracle inp
        = (m' ← fused_kernel v ExactBlock d oracle (launch_args op inp)
                  (launch_buffers v inp);
           Ok {| outputs := m'; launches := [d] |}).
Proof.
  intros Hi Hne.
  pose proof (inputs_segments v rows D op inp Hi Hne) as HS.
  destruct (inputs_shapes v rows D op inp Hi)
    as (Hnp & Hnm & Hnl & Hni & Hdl & Hdg & Hdi & HlS & HgS & HiM & Hp0
        & Hm0 & Hsp & Hsg & Haux).
  pose proof (in_D _ _ _ _ _ Hi) as HD.
  destruct (in_device _ _ _ _ _ Hi) as [HmaxT Hminb].
  assert (HM : 0 < Z.of_nat (length (data (INDICES inp)))).
  { destruct (data (INDICES inp)); [done|simpl; lia]. }
  pose proof (in_block _ _ _ _ _ Hi) as Hblock.
  assert (Hrun : ∀ oracle,
    run_operator v op oracle inp
    = match v with
      | Exact =>
          CUDASparseAdagradFusedWithSparseLengthsSumGradientOp.DoRunWithType2
            op oracle inp
      | WeightedExact =>
          CUDASparseAdagradFusedWithSparseLengthsWeightedSumGradientOp.DoRunWithType2
            op oracle inp
      | RowWise =>
          CUDARowWiseSparseAdagradFusedWithSparseLengthsSumGradientOp.DoRunWithType2
            op oracle inp
      | WeightedRowWise =>
          CUDARowWiseSparseAdagradFusedWithSparseLengthsWeightedSumGradientOp.DoRunWithType2
            op oracle inp
      end).
  { intros oracle.
    destruct v; cbn [run_operator rowwise] in *;
      unfold
        CUDASparseAdagradFusedWithSparseLengthsSumGradientOp.RunOnDevice,
        CUDASparseAdagradFusedWithSparseLengthsSumGradientOp.DoRunWithType,
        CUDASparseAdagradFusedWithSparseLengthsWeightedSumGradientOp.RunOnDevice,
        CUDASparseAdagradFusedWithSparseLengthsWeightedSumGradientOp.DoRunWithType,
        CUDARowWiseSparseAdagradFusedWithSparseLengthsSumGradientOp.RunOnDevice,
        CUDARowWiseSparseAdagradFusedWithSparseLengthsSumGradientOp.DoRunWithType,
        CUDARowWiseSparseAdagradFusedWithSparseLengthsWeightedSumGradientOp.RunOnDevice,
        CUDARowWiseSparseAdagradFusedWithSparseLengthsWeightedSumGradientOp.DoRunWithType;
      rewrite ?Hnp, ?Hnm, Hnl, Hsp, Hdi, Hni; cbn [Z.to_nat];
      rewrite Hsg, ?Z.eqb_refl; change (1 =? 1) with true;
      cbn [CAFFE_ENFORCE mbind result_bind];
      by rewrite (proj2 (Z.eqb_neq _ 0)) by lia. }
  assert (Hchecks : ∀ (A : Type) (r : Z → Z → Z → result A),
    (_ ← CAFFE_ENFORCE (0 <? ndim (GRAD inp));
     _ ← CAFFE_ENFORCE (numel (PARAM inp) =? numel (MOMENT_1 inp));
     len_length ← dim (LENGTHS inp) 0;
     _ ← CAFFE_ENFORCE (0 <? ndim (GRAD inp));
     grad_0dim ← dim (GRAD inp) 0;
     _ ← CAFFE_ENFORCE (len_length =? grad_0dim);
     output_0dim ← dim (INDICES inp) 0;
     r len_length grad_0dim output_0dim)
    = (_ ← CAFFE_ENFORCE (numel (PARAM inp) =? numel (MOMENT_1 inp));
       r (Z.of_nat (length (data (LENGTHS inp))))
         (Z.of_nat (length (data (LENGTHS inp))))
         (Z.of_nat (length (data (INDICES inp)))))).
  { intros A r. rewrite Hdg, HlS, HgS, HiM. change (0 <? 2) with true.
    cbn [CAFFE_ENFORCE mbind result_bind].
    destruct (numel (PARAM inp) =? numel (MOMENT_1 inp));
      cbn [CAFFE_ENFORCE mbind result_bind]; [|done].
    by rewrite Z.eqb_refl. }
  assert (Hrows : ∀ (A : Type) (r : Z → Z → Z → result A),
    (_ ← CAFFE_ENFORCE (0 <? ndim (GRAD inp));
     param_0dim ← dim (PARAM inp) 0;
     moment_0dim ← dim (MOMENT_1 inp) 0;
     _ ← CAFFE_ENFORCE (param_0dim =? moment_0dim);
     len_length ← dim (LENGTHS inp) 0;
     _ ← CAFFE_ENFORCE (0 <? ndim (GRAD inp));
     grad_0dim ← dim (GRAD inp) 0;
     _ ← CAFFE_ENFORCE (len_length =? grad_0dim);
     output_0dim ← dim (INDICES inp) 0;
     r len_length grad_0dim output_0dim)
    = r (Z.of_nat (length (data (LENGTHS inp))))
        (Z.of_nat (length (data (LENGTHS inp))))
        (Z.of_nat (length (data (INDICES inp))))).
  { intros A r. rewrite Hdg, HlS, HgS, HiM, Hp0, Hm0. change (0 <? 2) with true.
    cbn [CAFFE_ENFORCE mbind result_bind].
    by rewrite !Z.eqb_refl. }
  unfold launch_ok, dim_ok, launch_args, launch_buffers.
  cbn [kernel_args post len_length].
  destruct v; cbn [weighted rowwise fused_kernel] in *.
  - destruct (Z.leb_spec D (maxThreadsPerBlock op)) as [Hle|Hgt].
    + exists true, {| gridDim_x := Z.of_nat (length (data (LENGTHS inp)));
                      blockDim_x := D;
                      blockDim_y := Z.min (maxThreadsPerBlock op / D)
                                      (SEGREDUCE_MINBLOCKS op) |}.
      split; [|split; [done|]].
      * cbn. pose proof (Z.div_str_pos (maxThreadsPerBlock op) D ltac:(lia)).
        rewrite Hsg. split; [|done]. split_and!; try done; lia.
      * intros oracle. rewrite Hrun.
        unfold CUDASparseAdagradFusedWithSparseLengthsSumGradientOp.DoRunWithType2,
          multiple_of.
        rewrite Hdl. change (1 =? 1) with true.
        cbn [CAFFE_ENFORCE mbind result_bind].
        rewrite (Hchecks _ (λ len_length grad_0dim output_0dim, _)).
        rewrite Hnp, Hnm, Z.eqb_refl. cbn [CAFFE_ENFORCE mbind result_bind].
        rewrite Hsg, (proj2 (Z.leb_gt _ 0)), (proj2 (Z.leb_le D _)),
          (proj2 (Z.eqb_neq D 0)) by lia.
        reflexivity.
    + exists false, {| gridDim_x := Z.of_nat (length (data (LENGTHS inp)));
                       blockDim_x := maxThreadsPerBlock op;
                       blockDim_y := 1 |}.
      split; [|split; [done|]].
      * cbn. split; [|done]. split_and!; try done; lia.
      * intros oracle. rewrite Hrun.
        unfold CUDASparseAdagradFusedWithSparseLengthsSumGradientOp.DoRunWithType2.
        rewrite Hdl. change (1 =? 1) with true.
        cbn [CAFFE_ENFORCE mbind result_bind].
        rewrite (Hchecks _ (λ len_length grad_0dim output_0dim, _)).
        rewrite Hnp, Hnm, Z.eqb_refl. cbn [CAFFE_ENFORCE mbind result_bind].
        rewrite Hsg, (proj2 (Z.leb_gt _ 0)), (proj2 (Z.leb_gt D _)) by lia.
        reflexivity.
  - exists false, {| gridDim_x := Z.of_nat (length (data (LENGTHS inp)));
                     blockDim_x := NumThreads D; blockDim_y := 1 |}.
    split; [|split; [done|]].
    + cbn. split; [|done].
      split_and!; try done. unfold NumThreads. repeat case_match; lia.
    + intros oracle. rewrite Hrun.
      unfold CUDASparseAdagradFusedWithSparseLengthsWeightedSumGradientOp.DoRunWithType2.
      rewrite Hdl, Haux by done. change (1 =? 1) with true.
      cbn [CAFFE_ENFORCE mbind result_bind].
      rewrite (Hchecks _ (λ len_length grad_0dim output_0dim, _)).
      rewrite Hnp, Hnm, Z.eqb_refl. cbn [CAFFE_ENFORCE mbind result_bind].
      rewrite Hsg, (proj2 (Z.leb_gt _ 0)) by lia.
      reflexivity.
  - destruct ((D <=? maxThreadsPerBlock op / 2) && (D mod 32 =? 0))
      eqn:Hfast.
    + exists true, {| gridDim_x := Z.of_nat (length (data (LENGTHS inp)));
                      blockDim_x := D;
                      blockDim_y := Z.min (maxThreadsPerBlock op / D)
                                      (SEGREDUCE_MINBLOCKS op) |}.
      pose proof Hfast as [Hle%Z.leb_le Hmod%Z.eqb_eq]%andb_true_iff.
      split; [|split; [done|]].
      * cbn.
        pose proof (Z.mul_div_le (maxThreadsPerBlock op) 2 ltac:(lia)).
        pose proof (Z.div_str_pos (maxThreadsPerBlock op) D ltac:(lia)).
        pose proof (Z.mul_div_le (maxThreadsPerBlock op) D ltac:(lia)).
        rewrite Hsg. split; [split_and!; try done; lia|].
        intros _. split; [done|]. nia.
      * intros oracle. rewrite Hrun.
        unfold CUDARowWiseSparseAdagradFusedWithSparseLengthsSumGradientOp.DoRunWithType2,
          multiple_of.
        rewrite Hdl. change (1 =? 1) with true.
        cbn [CAFFE_ENFORCE mbind result_bind].
        rewrite (Hrows _ (λ len_length grad_0dim output_0dim, _)).
        rewrite Hsg, (proj2 (Z.leb_gt _ 0)), Hfast,
          (proj2 (Z.eqb_neq D 0)) by lia.
        reflexivity.
    + exists false, {| gridDim_x := Z.of_nat (length (data (LENGTHS inp)));
                       blockDim_x := Z.min (maxThreadsPerBlock op) D;
                       blockDim_y := 1 |}.
      split; [|split; [done|]].
      * cbn. split; [split_and!; try done; lia|]. intros _.
        destruct (in_reduce _ _ _ _ _ Hi eq_refl) as [[Hle Hmod]|Hfit];
          [|exact Hfit].
        apply andb_false_iff in Hfast as [Hf%Z.leb_gt|Hf%Z.eqb_neq];
          [lia|done].
      * intros oracle. rewrite Hrun.
        unfold CUDARowWiseSparseAdagradFusedWithSparseLengthsSumGradientOp.DoRunWithType2.
        rewrite Hdl. change (1 =? 1) with true.
        cbn [CAFFE_ENFORCE mbind result_bind].
        rewrite (Hrows _ (λ len_length grad_0dim output_0dim, _)).
        rewrite Hsg, (proj2 (Z.leb_gt _ 0)), Hfast by lia.
        reflexivity.
  - exists false, {| gridDim_x := Z.of_nat (length (data (LENGTHS inp)));
                     blockDim_x := NumThreads D; blockDim_y := 1 |}.
    split; [|split; [done|]].
    + cbn. split; [|done].
      split_and!; try done. unfold NumThreads. repeat case_match; lia.
    + intros oracle. rewrite Hrun.
      unfold CUDARowWiseSparseAdagradFusedWithSparseLengthsWeightedSumGradientOp.DoRunWithType2.
      rewrite Hdl, Haux by done. change (1 =? 1) with true.
      cbn [CAFFE_ENFORCE mbind result_bind].
      rewrite (Hrows _ (λ len_length grad_0dim output_0dim, _)).
      rewrite Hsg, (proj2 (Z.leb_gt _ 0)) by lia.
      reflexivity.
Qed.


End Reproducible.



(** ** Entries of the indices and of the weights that are not read *)

Section UnreadArguments.
Context {F : Type} `{Arith F}.

(** X17. The kernels read the index array only below the sum of the
    lengths: for segment offsets built from [lengths], what a launch does
    (its tables if it returns, and its failure otherwise) is the same for
    any two index arrays that agree on the first [total lengths] entries.
    Entries of the index array beyond the sum of the lengths are ignored,
    whatever their values are; no check compares the sum of the lengths
    with the number of indices. *)
Theorem indices_beyond_the_lengths_are_ignored (v : variant)
  (ExactBlock : bool) (d : Dim) (oracle : list nat) (lengths : list Z)
  (k : KArgs F) (m : Mem F) (idx extra : list Z) :
  Forall (λ x, 0 ≤ x) lengths → total lengths ≤ INT_MAX →
  prefix_sum_length_data k
  = inclusive_scan_wrapper lengths (Z.of_nat (length lengths)) →
  total lengths ≤ N k → len_length k = Z.of_nat (length lengths) →
  dim_ok ExactBlock d k →
  total lengths ≤ Z.of_nat (length idx) →
  fused_kernel v ExactBlock d oracle (with_indices k (idx ++ extra)) m
  = fused_kernel v ExactBlock d oracle (with_indices k idx) m.
Proof.
  intros Hl Hint Hscan HN Hlen Hd Hidx.
  apply (fused_kernel_args v ExactBlock d oracle lengths); try done.
  intros [[g s] l] Ht. cbn [with_indices indices weights fst snd].
  split; [|done].
  pose proof (members_bound _ _ _ _ Hl Ht) as (? & ? & ?).
  apply rd_app_l. lia.
Qed.

(** X18. The weighted kernels read the weight of a member at its position
    within its segment, so that only the first weights, as many as the
    longest segment has members, are ever read: what a launch does is the
    same for any two weight arrays that agree on these entries. *)
Theorem weights_beyond_the_longest_segment_are_ignored (v : variant)
  (ExactBlock : bool) (d : Dim) (oracle : list nat) (lengths : list Z)
  (k : KArgs F) (m : Mem F) (ws extra : list F) :
  Forall (λ x, 0 ≤ x) lengths → total lengths ≤ INT_MAX →
  prefix_sum_length_data k
  = inclusive_scan_wrapper lengths (Z.of_nat (length lengths)) →
  total lengths ≤ N k → len_length k = Z.of_nat (length lengths) →
  dim_ok ExactBlock d k →
  Forall (λ x, x ≤ Z.of_nat (length ws)) lengths →
  fused_kernel v ExactBlock d oracle (with_weights k (ws ++ extra)) m
  = fused_kernel v ExactBlock d oracle (with_weights k ws) m.
Proof.
  intros Hl Hint Hscan HN Hlen Hd Hws.
  apply (fused_kernel_args v ExactBlock d oracle lengths); try done.
  intros [[g s] l] Ht. cbn [with_weights indices weights fst snd].
  split; [done|]. intros _.
  apply elem_of_members in Ht as (n & Hn & -> & -> & Hline).
  destruct (lookup_lt_is_Some_2 lengths n Hn) as [x Hx].
  rewrite (total_take_S _ _ _ Hx) in Hline.
  pose proof (Forall_lookup_1 _ _ _ _ Hws Hx) as Hle. cbn in Hle.
  apply rd_app_l. lia.
Qed.

End UnreadArguments.

Lemma indices_beyond_the_lengths_are_ignored_witness :
  let k := launch_args (example_op (of_int 1))
             (example_inputs (F:=spec_float) RowWise [0; 2; 1; 7; 7]) in
  let m := launch_buffers RowWise (example_inputs RowWise [0; 2; 1; 7; 7]) in
  Forall (λ x, 0 ≤ x) [1; 2] ∧ total [1; 2] ≤ INT_MAX
  ∧ prefix_sum_length_data k = inclusive_scan_wrapper [1; 2] 2
  ∧ total [1; 2] ≤ N k ∧ len_length k = 2 ∧ dim_ok true example_block k
  ∧ fused_kernel RowWise true example_block [1%nat]
      (with_indices k ([0; 2; 1] ++ [7; 7])) m
    = fused_kernel RowWise true example_block [1%nat]
        (with_indices k [0; 2; 1]) m.
Proof.
  intros k m.
  assert (Hl : Forall (λ x, 0 ≤ x) [1; 2]) by (repeat constructor; lia).
  assert (Hint : total [1; 2] ≤ INT_MAX) by (by vm_compute).
  assert (HN : total [1; 2] ≤ N k) by (by vm_compute).
  assert (Hd : dim_ok true example_block k) by (split_and!; example).
  split; [exact Hl|]. split; [exact Hint|]. split; [reflexivity|].
  split; [exact HN|]. split; [reflexivity|]. split; [exact Hd|].
  exact (indices_beyond_the_lengths_are_ignored RowWise true example_block
           [1%nat] [1; 2] k m [0; 2; 1] [7; 7] Hl Hint eq_refl HN eq_refl Hd
           ltac:(by vm_compute)).
Defined.

Lemma weights_beyond_the_longest_segment_are_ignored_witness :
  let k := launch_args (example_op (of_int 1))
             (example_inputs (F:=spec_float) WeightedExact [0; 2; 1]) in
  let m := launch_buffers WeightedExact
             (example_inputs WeightedExact [0; 2; 1]) in
  Forall (λ x, 0 ≤ x) [1; 2] ∧ total [1; 2] ≤ INT_MAX
  ∧ prefix_sum_length_data k = inclusive_scan_wrapper [1; 2] 2
  ∧ total [1; 2] ≤ N k ∧ len_length k = 2 ∧ dim_ok false example_block k
  ∧ Forall (λ x, x ≤ 2) [1; 2]
  ∧ fused_kernel WeightedExact false example_block [1%nat]
      (with_weights k ((of_int <$> [1; 2]) ++ [of_int 3])) m
    = fused_kernel WeightedExact false example_block [1%nat]
        (with_weights k (of_int <$> [1; 2])) m.
Proof.
  intros k m.
  assert (Hl : Forall (λ x, 0 ≤ x) [1; 2]) by (repeat constructor; lia).
  assert (Hint : total [1; 2] ≤ INT_MAX) by (by vm_compute).
  assert (HN : total [1; 2] ≤ N k) by (by vm_compute).
  assert (Hd : dim_ok false example_block k) by (split_and!; example).
  assert (Hw : Forall (λ x, x ≤ 2) [1; 2]) by (repeat constructor; lia).
  split; [exact Hl|]. split; [exact Hint|]. split; [reflexivity|].
  split; [exact HN|]. split; [reflexivity|]. split; [exact Hd|].
  split; [exact Hw|].
  exact (weights_beyond_the_longest_segment_are_ignored WeightedExact false
           example_block [1%nat] [1; 2] k m (of_int <$> [1; 2]) [of_int 3]
           Hl Hint eq_refl HN eq_refl Hd Hw).
Defined.

(** ** Weights that a segment outruns *)

Section ShortWeights.
Context {F : Type} `{Arith F}.

Lemma weighted_sum_member_Ok_weight (d : Dim) (k : KArgs F) (t : Z * Z * Z)
  (m m1 : Mem F) :
  weighted_sum_member d k t m = Ok m1 →
  0 ≤ t.2 - t.1.2 < Z.of_nat (length (weights k)).
Proof.
  destruct t as [[g start] line]. unfold weighted_sum_member.
  cbn [fst snd]. intros
    (LR & _ & (index & _ & (w & Hw & _)%bind_Ok)%bind_Ok)%bind_Ok.
  by apply rd_bound in Hw.
Qed.

Lemma rowwise_weighted_member_Ok_weight (d : Dim) (k : KArgs F)
  (t : Z * Z * Z) (m m1 : Mem F) :
  rowwise_weighted_member d k t m = Ok m1 →
  0 ≤ t.2 - t.1.2 < Z.of_nat (length (weights k)).
Proof.
  destruct t as [[g start] line]. unfold rowwise_weighted_member.
  cbn [fst snd]. intros
    (LR & _ & (index & _ & (w & Hw & _)%bind_Ok)%bind_Ok)%bind_Ok.
  by apply rd_bound in Hw.
Qed.

(** A loop of weighted member updates that returns has found a weight for
    every position of every segment. *)
Lemma weighted_loop_Ok (lengths : list Z) (k : KArgs F) (m m' : Mem F)
  (ts : list (Z * Z * Z)) (step : Z * Z * Z → Mem F → result (Mem F)) :
  Forall (λ x, 0 ≤ x) lengths → ts ≡ₚ members lengths →
  (∀ t m1 m2, step t m1 = Ok m2 →
     0 ≤ t.2 - t.1.2 < Z.of_nat (length (weights k))) →
  foldM step ts m = Ok m' →
  Forall (λ x, x ≤ Z.of_nat (length (weights k))) lengths.
Proof.
  intros Hl Hts Hstep Hrun.
  apply (foldM_Ok_inv step (λ _, True)
           (λ t, 0 ≤ t.2 - t.1.2 < Z.of_nat (length (weights k))))
    in Hrun as [_ Hall]; [| |done].
  - apply Forall_lookup. intros n x Hn.
    pose proof (lookup_lt_Some _ _ _ Hn) as Hlt.
    pose proof (Forall_lookup_1 _ _ _ _ Hl Hn) as Hx. cbn in Hx.
    destruct (decide (x = 0)) as [->|Hne]; [lia|].
    assert (Hin : (Z.of_nat n, total (take n lengths),
                   total (take n lengths) + (x - 1)) ∈ members lengths).
    { apply elem_of_members. exists n. split_and!; try done; [lia|].
      rewrite (total_take_S _ _ _ Hn). lia. }
    rewrite Forall_forall in Hall. rewrite <- Hts in Hin.
    specialize (Hall _ Hin). cbn [fst snd] in Hall. lia.
  - intros t m1 m2 _ _ Ht. split; [done|]. by apply (Hstep t m1 m2).
Qed.

(** X19. The weighted kernels never compare the length of a segment with
    the number of weights.  For segment offsets built from [lengths], a
    launch of a weighted kernel in which some segment has more members than
    the weight array has entries reads the weight array out of bounds: it
    neither returns nor fails an assertion, whatever the indices and the
    tables are. *)
Theorem short_weights_are_read_out_of_bounds (v : variant)
  (ExactBlock : bool) (d : Dim) (oracle : list nat) (lengths : list Z)
  (k : KArgs F) (m : Mem F) :
  weighted v = true →
  Forall (λ x, 0 ≤ x) lengths → total lengths ≤ INT_MAX →
  prefix_sum_length_data k
  = inclusive_scan_wrapper lengths (Z.of_nat (length lengths)) →
  total lengths ≤ N k → len_length k = Z.of_nat (length lengths) →
  dim_ok ExactBlock d k →
  ¬ Forall (λ x, x ≤ Z.of_nat (length (weights k))) lengths →
  fused_kernel v ExactBlock d oracle k m = Undefined.
Proof.
  intros Hv Hl Hint Hscan HN Hlen Hd Hshort.
  pose proof Hd as (Hg & _).
  assert (Hblocks : launch_blocks d k = Ok (segments lengths)).
  { apply launch_blocks_scan; try done. by rewrite Hg. }
  destruct (fused_kernel v ExactBlock d oracle k m) as [m'| | |] eqn:Hrun;
    [|exfalso..|done|exfalso].
  - destruct Hshort. revert Hrun.
    destruct v; try discriminate Hv; unfold fused_kernel,
      sparse_adagrad_fused_length_weighted_sum_gradient_kernel,
      rowwise_sparse_adagrad_fused_length_weighted_sum_gradient_kernel;
      rewrite Hblocks; cbn [mbind result_bind]; intros Hrun.
    + apply (weighted_loop_Ok lengths k m m' _ _ Hl) in Hrun; [done| |].
      * by rewrite interleave_perm, member_threads_members.
      * intros t m1 m2. apply weighted_sum_member_Ok_weight.
    + apply (weighted_loop_Ok lengths k m m' _ _ Hl) in Hrun; [done| |].
      * by rewrite interleave_perm, member_threads_members.
      * intros t m1 m2. apply rowwise_weighted_member_Ok_weight.
  - apply fused_kernel_assert in Hrun. by rewrite Hblocks in Hrun.
  - by apply fused_kernel_never_enforce in Hrun.
Qed.

End ShortWeights.

Lemma short_weights_are_read_out_of_bounds_witness :
  let k := with_weights
             (launch_args (example_op (of_int 1))
                (example_inputs (F:=spec_float) WeightedExact [0; 2; 1]))
             [of_int 1] in
  let m := launch_buffers WeightedExact
             (example_inputs WeightedExact [0; 2; 1]) in
  weighted WeightedExact = true
  ∧ Forall (λ x, 0 ≤ x) [1; 2] ∧ total [1; 2] ≤ INT_MAX
  ∧ prefix_sum_length_data k = inclusive_scan_wrapper [1; 2] 2
  ∧ total [1; 2] ≤ N k ∧ len_length k = 2 ∧ dim_ok false example_block k
  ∧ ¬ Forall (λ x, x ≤ 1) [1; 2]
  ∧ fused_kernel WeightedExact false example_block [1%nat] k m = Undefined.
Proof.
  intros k m.
  assert (Hl : Forall (λ x, 0 ≤ x) [1; 2]) by (repeat constructor; lia).
  assert (Hint : total [1; 2] ≤ INT_MAX) by (by vm_compute).
  assert (HN : total [1; 2] ≤ N k) by (by vm_compute).
  assert (Hd : dim_ok false example_block k) by (split_and!; example).
  assert (Hw : ¬ Forall (λ x, x ≤ 1) [1; 2]).
  { intros Hall. apply Forall_cons in Hall as [_ Hall].
    apply Forall_cons in Hall as [Hle _]. lia. }
  split; [reflexivity|]. split; [exact Hl|]. split; [exact Hint|].
  split; [reflexivity|]. split; [exact HN|]. split; [reflexivity|].
  split; [exact Hd|]. split; [exact Hw|].
  exact (short_weights_are_read_out_of_bounds WeightedExact false
           example_block [1%nat] [1; 2] k m eq_refl Hl Hint eq_refl HN
           eq_refl Hd Hw).
Defined.

